(** * The constraint graph of the type checker (lib/Sema/ConstraintGraph.cpp)

    A shallow embedding of [ConstraintGraph], its [Node]s, the change log
    with its scopes, and the connected-components analysis, followed by the
    properties of the specification.

    Pointers are modelled by the values they identify: a type variable is a
    natural number, a constraint is a value carrying its own address.  A
    [Node &] obtained from the graph is modelled by the key of the node:
    every mutation through the reference updates the node stored under
    that key.  An assertion that fails, or a read outside a vector, is the
    outcome [Abort]. *)

From stdpp Require Import gmap.

Set Default Proof Using "Type".

(** ** Outcomes and the graph monad *)

Inductive outcome (A : Type) : Type :=
| Ok (a : A)
| Abort
| OutOfFuel.
Arguments Ok {A} a.
Arguments Abort {A}.
Arguments OutOfFuel {A}.

Definition obind {A B} (m : outcome A) (k : A → outcome B) : outcome B :=
  match m with
  | Ok a => k a
  | Abort => Abort
  | OutOfFuel => OutOfFuel
  end.

Definition of_option {A} (o : option A) : outcome A :=
  match o with Some a => Ok a | None => Abort end.

(** ** Type variables, types and constraints *)

Definition TypeVariableType := nat.

(** Modelled from the spec: the type representation lives outside
    ConstraintGraph.cpp; the graph only uses [getTypeVariables], which
    appends the type variables occurring in a type to a vector, and
    [hasTypeVariable].  A type is therefore the sequence of its
    type-variable occurrences. *)
Definition Ty := list TypeVariableType.

Definition getTypeVariables (t : Ty) (typeVars : list TypeVariableType)
  : list TypeVariableType := typeVars ++ t.

Definition hasTypeVariable (t : Ty) : bool :=
  match t with [] => false | _ :: _ => true end.

Inductive ConstraintKind :=
| Conjunction | Disjunction
| ApplicableFunction | Bind | Construction | Conversion | CheckedCast
| Equal | Subtype | TrivialSubtype | TypeMember | ValueMember
| Archetype | BindOverload | Class | ConformsTo | DynamicLookupValue
| SelfObjectOfProtocol.

Global Instance ConstraintKind_eq_dec : EqDecision ConstraintKind.
Proof. solve_decision. Defined.

(** A constraint object: its address, its kind, its two operand types, its
    nested constraints and the base type of its overload choice. *)
Local Unset Elimination Schemes.
Inductive Constraint :=
| MkConstraint (addr : positive) (kind : ConstraintKind)
    (firstType secondType : Ty) (nested : list Constraint)
    (baseType : option Ty).
Local Set Elimination Schemes.

Definition getKind (c : Constraint) : ConstraintKind :=
  match c with MkConstraint _ k _ _ _ _ => k end.
Definition getFirstType (c : Constraint) : Ty :=
  match c with MkConstraint _ _ t _ _ _ => t end.
Definition getSecondType (c : Constraint) : Ty :=
  match c with MkConstraint _ _ _ t _ _ => t end.
Definition getNestedConstraints (c : Constraint) : list Constraint :=
  match c with MkConstraint _ _ _ _ n _ => n end.
Definition getOverloadBaseType (c : Constraint) : option Ty :=
  match c with MkConstraint _ _ _ _ _ b => b end.

(** Constraints are compared and hashed by identity; as values they are
    countable through an encoding into stdpp's generic trees. *)
Definition ConstraintLabel : Type :=
  positive * ConstraintKind * Ty * Ty * option Ty.

Global Instance ConstraintKind_countable : Countable ConstraintKind.
Proof.
  refine (inj_countable'
    (λ k, match k with
          | Conjunction => 0 | Disjunction => 1 | ApplicableFunction => 2
          | Bind => 3 | Construction => 4 | Conversion => 5
          | CheckedCast => 6 | Equal => 7 | Subtype => 8
          | TrivialSubtype => 9 | TypeMember => 10 | ValueMember => 11
          | Archetype => 12 | BindOverload => 13 | Class => 14
          | ConformsTo => 15 | DynamicLookupValue => 16
          | SelfObjectOfProtocol => 17 end)
    (λ n, match n with
          | 0 => Conjunction | 1 => Disjunction | 2 => ApplicableFunction
          | 3 => Bind | 4 => Construction | 5 => Conversion
          | 6 => CheckedCast | 7 => Equal | 8 => Subtype
          | 9 => TrivialSubtype | 10 => TypeMember | 11 => ValueMember
          | 12 => Archetype | 13 => BindOverload | 14 => Class
          | 15 => ConformsTo | 16 => DynamicLookupValue
          | _ => SelfObjectOfProtocol end) _).
  by intros [].
Defined.

Fixpoint Constraint_to_tree (c : Constraint) : gen_tree ConstraintLabel :=
  match c with
  | MkConstraint a k t1 t2 ns b =>
      GenNode 0 (GenLeaf (a, k, t1, t2, b) :: map Constraint_to_tree ns)
  end.

Fixpoint Constraint_of_tree (t : gen_tree ConstraintLabel)
  : option Constraint :=
  match t with
  | GenNode _ (GenLeaf (a, k, t1, t2, b) :: ts) =>
      ns ← (fix go (ts : list (gen_tree ConstraintLabel)) :=
              match ts with
              | [] => Some []
              | t :: ts' =>
                  c ← Constraint_of_tree t; cs ← go ts'; Some (c :: cs)
              end) ts;
      Some (MkConstraint a k t1 t2 ns b)
  | _ => None
  end.

Lemma Constraint_of_to_tree c :
  Constraint_of_tree (Constraint_to_tree c) = Some c.
Proof.
  revert c. fix IH 1. intros [a k t1 t2 ns b]. simpl.
  assert (Hns :
    (fix go (ts : list (gen_tree ConstraintLabel)) :=
       match ts with
       | [] => Some []
       | t :: ts' => c ← Constraint_of_tree t; cs ← go ts'; Some (c :: cs)
       end) (map Constraint_to_tree ns) = Some ns).
  { induction ns as [|n ns IHns]; simpl; [done|].
    rewrite (IH n). simpl. rewrite IHns. done. }
  rewrite Hns. done.
Qed.

Global Instance Constraint_eq_dec : EqDecision Constraint.
Proof.
  intros x y.
  destruct (decide (Constraint_to_tree x = Constraint_to_tree y)) as [E|N].
  - left. apply (inj Some).
    by rewrite <- !Constraint_of_to_tree, E.
  - right. intros ->. by apply N.
Defined.

Global Instance Constraint_countable : Countable Constraint :=
  inj_countable Constraint_to_tree Constraint_of_tree Constraint_of_to_tree.

(** ** Helper functions *)

(** [getTypeVariables] on the base type of an overload choice, when there
    is one. *)
Definition gatherBaseType (b : option Ty) (typeVars : list TypeVariableType)
  : list TypeVariableType :=
  match b with Some t => getTypeVariables t typeVars | None => typeVars end.

(** Recursively gather the set of type variables referenced by this
    constraint. *)
Fixpoint gatherReferencedTypeVarsRec (c : Constraint)
    (typeVars : list TypeVariableType) : list TypeVariableType :=
  match c with
  | MkConstraint _ k t1 t2 ns b =>
      match k with
      | Conjunction | Disjunction =>
          (fix each (l : list Constraint) (acc : list TypeVariableType) :=
             match l with
             | [] => acc
             | n :: l' => each l' (gatherReferencedTypeVarsRec n acc)
             end) ns typeVars
      | ApplicableFunction | Bind | Construction | Conversion | CheckedCast
      | Equal | Subtype | TrivialSubtype | TypeMember | ValueMember =>
          getTypeVariables t1 (getTypeVariables t2 typeVars)
      | BindOverload =>
          gatherBaseType b (getTypeVariables t1 typeVars)
      | Archetype | Class | ConformsTo | DynamicLookupValue
      | SelfObjectOfProtocol =>
          getTypeVariables t1 typeVars
      end
  end.

(** The [remove_if] of [gatherReferencedTypeVars]: an element is dropped
    when inserting it into [knownTypeVars] finds it already there. *)
Fixpoint removeKnown (knownTypeVars : gset TypeVariableType)
    (typeVars : list TypeVariableType) : list TypeVariableType :=
  match typeVars with
  | [] => []
  | tv :: rest =>
      if decide (tv ∈ knownTypeVars) then removeKnown knownTypeVars rest
      else tv :: removeKnown ({[tv]} ∪ knownTypeVars) rest
  end.

(** Gather and unique the set of type variables referenced by this
    constraint. *)
Definition gatherReferencedTypeVars (c : Constraint)
  : list TypeVariableType :=
  removeKnown ∅ (gatherReferencedTypeVarsRec c []).

(** ** Nodes *)

(** Modelled from the spec: [Adjacency] is declared in ConstraintGraph.h;
    it holds the position in the list of adjacencies, the number of
    constraints that link the two type variables, and whether a fixed
    binding relates them.  It is empty when it has no constraint and no
    fixed binding. *)
Record Adjacency := MkAdjacency {
  Index : nat;
  NumConstraints : nat;
  FixedBinding : bool
}.

Definition Adjacency_empty (a : Adjacency) : bool :=
  negb (FixedBinding a) && bool_decide (NumConstraints a = 0).

Global Instance Adjacency_eq_dec : EqDecision Adjacency.
Proof. solve_decision. Defined.

Record Node := MkNode {
  TypeVar : TypeVariableType;
  Constraints : list Constraint;
  ConstraintIndex : gmap Constraint nat;
  Adjacencies : list TypeVariableType;
  AdjacencyInfo : gmap TypeVariableType Adjacency;
  EquivalenceClass : list TypeVariableType
}.

Definition newNode (typeVar : TypeVariableType) : Node :=
  MkNode typeVar [] ∅ [] ∅ [].

(** [pop_back] on a vector. *)
Definition pop_back {A} (l : list A) : list A := take (length l - 1) l.

Module NodeOps.

(** [Node::getEquivalenceClassUnsafe]: the class is seeded with the
    node's own type variable on first access (the field is mutable). *)
Definition getEquivalenceClassUnsafe (n : Node)
  : list TypeVariableType * Node :=
  match EquivalenceClass n with
  | [] =>
      ([TypeVar n],
       MkNode (TypeVar n) (Constraints n) (ConstraintIndex n)
         (Adjacencies n) (AdjacencyInfo n) [TypeVar n])
  | _ :: _ => (EquivalenceClass n, n)
  end.

(** [Node::getEquivalenceClass]: asserts that the node's type variable is
    its own representative. *)
Definition getEquivalenceClass
    (getRepresentative : TypeVariableType → TypeVariableType) (n : Node)
  : option (list TypeVariableType * Node) :=
  if decide (TypeVar n = getRepresentative (TypeVar n))
  then Some (getEquivalenceClassUnsafe n)
  else None.

(** [Node::addConstraint] *)
Definition addConstraint (constraint : Constraint) (n : Node)
  : option Node :=
  match ConstraintIndex n !! constraint with
  | Some _ => None
  | None =>
      Some (MkNode (TypeVar n)
              (Constraints n ++ [constraint])
              (<[constraint := length (Constraints n)]> (ConstraintIndex n))
              (Adjacencies n) (AdjacencyInfo n) (EquivalenceClass n))
  end.

(** [Node::removeConstraint] *)
Definition removeConstraint (constraint : Constraint) (n : Node)
  : option Node :=
  match ConstraintIndex n !! constraint with
  | None => None
  | Some index =>
      let constraintIndex := delete constraint (ConstraintIndex n) in
      match Constraints n !! index with
      | None => None
      | Some c =>
          if decide (c = constraint) then
            let lastIndex := length (Constraints n) - 1 in
            if decide (index = lastIndex) then
              Some (MkNode (TypeVar n) (pop_back (Constraints n))
                      constraintIndex
                      (Adjacencies n) (AdjacencyInfo n)
                      (EquivalenceClass n))
            else
              match Constraints n !! lastIndex with
              | None => None
              | Some lastConstraint =>
                  Some (MkNode (TypeVar n)
                          (pop_back
                             (<[index := lastConstraint]> (Constraints n)))
                          (<[lastConstraint := index]> constraintIndex)
                          (Adjacencies n) (AdjacencyInfo n)
                          (EquivalenceClass n))
              end
          else None
      end
  end.

(** [Node::getAdjacency]: returns the adjacency slot of [typeVar],
    creating it at the end of the list when there is none. *)
Definition getAdjacency (typeVar : TypeVariableType) (n : Node)
  : option (Adjacency * Node) :=
  if decide (typeVar = TypeVar n) then None
  else
    match AdjacencyInfo n !! typeVar with
    | Some a => Some (a, n)
    | None =>
        let a := MkAdjacency (length (Adjacencies n)) 0 false in
        Some (a, MkNode (TypeVar n) (Constraints n) (ConstraintIndex n)
                   (Adjacencies n ++ [typeVar])
                   (<[typeVar := a]> (AdjacencyInfo n))
                   (EquivalenceClass n))
    end.

(** Writing through the reference that [getAdjacency] returned. *)
Definition setAdjacency (typeVar : TypeVariableType) (a : Adjacency)
    (n : Node) : Node :=
  MkNode (TypeVar n) (Constraints n) (ConstraintIndex n)
    (Adjacencies n) (<[typeVar := a]> (AdjacencyInfo n))
    (EquivalenceClass n).

(** [Node::modifyAdjacency]; [modify] fails when its assertion does. *)
Definition modifyAdjacency (typeVar : TypeVariableType)
    (modify : Adjacency → option Adjacency) (n : Node) : option Node :=
  match AdjacencyInfo n !! typeVar with
  | None => None
  | Some a =>
      match Adjacencies n !! Index a with
      | None => None
      | Some tv =>
          if decide (tv = typeVar) then
            match modify a with
            | None => None
            | Some a' =>
                if negb (Adjacency_empty a') then
                  Some (setAdjacency typeVar a' n)
                else
                  let index := Index a' in
                  let adjacencyInfo := delete typeVar (AdjacencyInfo n) in
                  let lastIndex := length (Adjacencies n) - 1 in
                  if decide (index = lastIndex) then
                    Some (MkNode (TypeVar n) (Constraints n)
                            (ConstraintIndex n)
                            (pop_back (Adjacencies n)) adjacencyInfo
                            (EquivalenceClass n))
                  else
                    match Adjacencies n !! lastIndex with
                    | None => None
                    | Some lastTypeVar =>
                        let old :=
                          default (MkAdjacency 0 0 false)
                            (adjacencyInfo !! lastTypeVar) in
                        Some (MkNode (TypeVar n) (Constraints n)
                                (ConstraintIndex n)
                                (pop_back
                                   (<[index := lastTypeVar]>
                                      (Adjacencies n)))
                                (<[lastTypeVar :=
                                     MkAdjacency index
                                       (NumConstraints old)
                                       (FixedBinding old)]>
                                   adjacencyInfo)
                                (EquivalenceClass n))
                    end
            end
          else None
      end
  end.

(** [Node::addAdjacency] *)
Definition addAdjacency (typeVar : TypeVariableType) (n : Node)
  : option Node :=
  '(a, n') ← getAdjacency typeVar n;
  Some (setAdjacency typeVar
          (MkAdjacency (Index a) (S (NumConstraints a)) (FixedBinding a))
          n').

(** [Node::removeAdjacency] *)
Definition removeAdjacency (typeVar : TypeVariableType) (n : Node)
  : option Node :=
  modifyAdjacency typeVar
    (λ adj,
       match NumConstraints adj with
       | 0 => None
       | S k => Some (MkAdjacency (Index adj) k (FixedBinding adj))
       end) n.

(** [Node::addToEquivalenceClass] *)
Definition addToEquivalenceClass
    (getRepresentative : TypeVariableType → TypeVariableType)
    (typeVars : list TypeVariableType) (n : Node) : option Node :=
  if decide (TypeVar n = getRepresentative (TypeVar n)) then
    let '(cls, n') := getEquivalenceClassUnsafe n in
    Some (MkNode (TypeVar n') (Constraints n') (ConstraintIndex n')
            (Adjacencies n') (AdjacencyInfo n') (cls ++ typeVars))
  else None.

(** [Node::addFixedBinding] *)
Definition addFixedBinding (typeVar : TypeVariableType) (n : Node)
  : option Node :=
  '(a, n') ← getAdjacency typeVar n;
  if FixedBinding a then None
  else Some (setAdjacency typeVar
               (MkAdjacency (Index a) (NumConstraints a) true) n').

(** [Node::removeFixedBinding] *)
Definition removeFixedBinding (typeVar : TypeVariableType) (n : Node)
  : option Node :=
  modifyAdjacency typeVar
    (λ adj,
       if FixedBinding adj
       then Some (MkAdjacency (Index adj) (NumConstraints adj) false)
       else None) n.

End NodeOps.

(** ** The graph *)

(** Modelled from the spec: the constraint system is the external oracle
    of the graph; it reports the representative of a type variable and the
    fixed type a type variable is bound to, if any.  It changes between
    calls into the graph, so every operation takes the constraint system of
    the moment as an argument. *)
Record ConstraintSystem := MkConstraintSystem {
  getRepresentative : TypeVariableType → TypeVariableType;
  getFixedType : TypeVariableType → option Ty
}.

Inductive Change :=
| AddedTypeVariable (typeVar : TypeVariableType)
| AddedConstraint (constraint : Constraint)
| RemovedConstraint (constraint : Constraint)
| ExtendedEquivalenceClass (typeVar : TypeVariableType) (prevSize : nat)
| BoundTypeVariable (typeVar : TypeVariableType) (fixed : Ty).

(** A scope remembers its parent scope and the number of changes recorded
    when it was opened. *)
Local Unset Elimination Schemes.
Inductive ConstraintGraphScope :=
| MkScope (parentScope : option ConstraintGraphScope) (numChanges : nat).
Local Set Elimination Schemes.

Definition ParentScope (s : ConstraintGraphScope)
  : option ConstraintGraphScope :=
  match s with MkScope p _ => p end.
Definition NumChanges (s : ConstraintGraphScope) : nat :=
  match s with MkScope _ n => n end.

(** The value of [Nodes]: the node and its index in [TypeVariables]. *)
Record StoredNode := MkStoredNode {
  NodePtr : Node;
  NodeIndex : nat
}.

Record ConstraintGraph := MkGraph {
  Nodes : gmap TypeVariableType StoredNode;
  TypeVariables : list TypeVariableType;
  Changes : list Change;
  ActiveScope : option ConstraintGraphScope
}.

Definition emptyGraph : ConstraintGraph := MkGraph ∅ [] [] None.

Definition M (A : Type) : Type := ConstraintGraph → outcome (A * ConstraintGraph).

Definition ret {A} (a : A) : M A := λ g, Ok (a, g).

Definition bind {A B} (m : M A) (k : A → M B) : M B :=
  λ g, match m g with
       | Ok (a, g') => k a g'
       | Abort => Abort
       | OutOfFuel => OutOfFuel
       end.

Declare Scope graph_scope.
Delimit Scope graph_scope with graph.
Notation "x <- m ;; k" := (bind m (λ x, k))
  (at level 100, m at next level, right associativity) : graph_scope.
Notation "m ;; k" := (bind m (λ _, k))
  (at level 100, right associativity) : graph_scope.
Local Open Scope graph_scope.

Definition abort {A} : M A := λ _, Abort.

(** Run [body] for each element of a vector, in order. *)
Fixpoint forEach {A} (l : list A) (body : A → M unit) : M unit :=
  match l with
  | [] => ret tt
  | x :: l' => body x ;; forEach l' body
  end.

(** Access to the node behind a [Node &]: [f] reads or mutates the node
    stored for [typeVar]; it fails when an assertion of [f] does. *)
Definition withNode {A} (typeVar : TypeVariableType)
    (f : Node → option (A * Node)) : M A :=
  λ g, match Nodes g !! typeVar with
       | None => Abort
       | Some stored =>
           match f (NodePtr stored) with
           | None => Abort
           | Some (a, n') =>
               Ok (a, MkGraph
                        (<[typeVar := MkStoredNode n' (NodeIndex stored)]>
                           (Nodes g))
                        (TypeVariables g) (Changes g) (ActiveScope g))
           end
       end.

Definition modifyNode (typeVar : TypeVariableType)
    (f : Node → option Node) : M unit :=
  withNode typeVar (λ n, n' ← f n; Some (tt, n')).

(** [if (ActiveScope) Changes.push_back(change)] *)
Definition recordChange (change : Change) : M unit :=
  λ g, match ActiveScope g with
       | Some _ =>
           Ok (tt, MkGraph (Nodes g) (TypeVariables g)
                     (Changes g ++ [change]) (ActiveScope g))
       | None => Ok (tt, g)
       end.

Section Mutation.

Variable CS : ConstraintSystem.

Section WithLookup.

(** [lookupNode], [mergeNodes] and [bindTypeVariable] call each other;
    the latter two are first written over the [lookupNode] they
    call. *)
Variable lookup : TypeVariableType → M (Node * nat).

Definition mergeNodesWith (typeVar1 typeVar2 : TypeVariableType)
  : M unit :=
  if decide (getRepresentative CS typeVar1 = getRepresentative CS typeVar2)
  then
    let typeVarRep := getRepresentative CS typeVar1 in
    _ <- lookup typeVarRep ;;
    if decide (typeVar1 = typeVarRep ∨ typeVar2 = typeVarRep) then
      let typeVarNonRep :=
        if decide (typeVar1 = typeVarRep) then typeVar2 else typeVar1 in
      (λ g,
         match ActiveScope g with
         | Some _ =>
             (cls <- withNode typeVarRep
                       (NodeOps.getEquivalenceClass (getRepresentative CS)) ;;
              recordChange
                (ExtendedEquivalenceClass typeVarRep (length cls))) g
         | None => Ok (tt, g)
         end) ;;
      _ <- lookup typeVarNonRep ;;
      cls <- withNode typeVarNonRep
               (λ n, Some (NodeOps.getEquivalenceClassUnsafe n)) ;;
      modifyNode typeVarRep
        (NodeOps.addToEquivalenceClass (getRepresentative CS) cls)
    else abort
  else abort.

(** The loop of [bindTypeVariable] over the type variables of the
    fixed type, skipping those already in [knownTypeVars]. *)
Fixpoint bindLoop (typeVar : TypeVariableType)
    (knownTypeVars : gset TypeVariableType)
    (typeVars : list TypeVariableType) : M unit :=
  match typeVars with
  | [] => ret tt
  | otherTypeVar :: rest =>
      if decide (otherTypeVar ∈ knownTypeVars)
      then bindLoop typeVar knownTypeVars rest
      else
        _ <- lookup otherTypeVar ;;
        modifyNode otherTypeVar (NodeOps.addFixedBinding typeVar) ;;
        modifyNode typeVar (NodeOps.addFixedBinding otherTypeVar) ;;
        bindLoop typeVar ({[otherTypeVar]} ∪ knownTypeVars) rest
  end.

Definition bindTypeVariableWith (typeVar : TypeVariableType)
    (fixed : Ty) : M unit :=
  if hasTypeVariable fixed then
    let typeVars := getTypeVariables fixed [] in
    _ <- lookup typeVar ;;
    bindLoop typeVar ∅ typeVars ;;
    recordChange (BoundTypeVariable typeVar fixed)
  else ret tt.

End WithLookup.

(** [ConstraintGraph::lookupNode].  Creating a node can create further
    nodes (of the representative, of the type variables of a fixed
    type), which [fuel] bounds; finding a node needs none. *)
Fixpoint lookupNode (fuel : nat) (typeVar : TypeVariableType)
  : M (Node * nat) :=
  λ g,
    match Nodes g !! typeVar with
    | Some known => Ok ((NodePtr known, NodeIndex known), g)
    | None =>
        match fuel with
        | 0 => OutOfFuel
        | S fuel' =>
            (recordChange (AddedTypeVariable typeVar) ;;
             (let typeVarRep := getRepresentative CS typeVar in
              if decide (typeVar = typeVarRep) then
                match getFixedType CS typeVarRep with
                | Some fixed =>
                    bindTypeVariableWith (lookupNode fuel') typeVar fixed
                | None => ret tt
                end
              else mergeNodesWith (lookupNode fuel') typeVar typeVarRep) ;;
             withNode typeVar
               (λ n, Some ((n, length (TypeVariables g)), n)))
              (MkGraph
                 (<[typeVar :=
                      MkStoredNode (newNode typeVar)
                        (length (TypeVariables g))]> (Nodes g))
                 (TypeVariables g ++ [typeVar])
                 (Changes g) (ActiveScope g))
        end
    end.

Definition mergeNodes (fuel : nat) := mergeNodesWith (lookupNode fuel).
Definition bindTypeVariable (fuel : nat) :=
  bindTypeVariableWith (lookupNode fuel).

(** [ConstraintGraph::removeNode] *)
Definition removeNode (typeVar : TypeVariableType) : M unit :=
  λ g,
    match Nodes g !! typeVar with
    | None => Abort
    | Some stored =>
        let index := NodeIndex stored in
        let nodes := delete typeVar (Nodes g) in
        match TypeVariables g with
        | [] => Abort
        | _ :: _ =>
            let lastIndex := length (TypeVariables g) - 1 in
            if decide (index < lastIndex) then
              match TypeVariables g !! lastIndex with
              | None => Abort
              | Some last =>
                  Ok (tt, MkGraph nodes
                            (pop_back (<[index := last]> (TypeVariables g)))
                            (Changes g) (ActiveScope g))
              end
            else
              Ok (tt, MkGraph nodes (pop_back (TypeVariables g))
                        (Changes g) (ActiveScope g))
        end
    end.

(** [ConstraintGraph::addConstraint] *)
Definition addConstraint (fuel : nat) (constraint : Constraint) : M unit :=
  let referencedTypeVars := gatherReferencedTypeVars constraint in
  forEach referencedTypeVars
    (λ typeVar,
       _ <- lookupNode fuel typeVar ;;
       modifyNode typeVar (NodeOps.addConstraint constraint) ;;
       forEach referencedTypeVars
         (λ otherTypeVar,
            if decide (typeVar = otherTypeVar) then ret tt
            else modifyNode typeVar (NodeOps.addAdjacency otherTypeVar))) ;;
  recordChange (AddedConstraint constraint).

(** [ConstraintGraph::removeConstraint] *)
Definition removeConstraint (fuel : nat) (constraint : Constraint)
  : M unit :=
  let referencedTypeVars := gatherReferencedTypeVars constraint in
  forEach referencedTypeVars
    (λ typeVar,
       _ <- lookupNode fuel typeVar ;;
       modifyNode typeVar (NodeOps.removeConstraint constraint) ;;
       forEach referencedTypeVars
         (λ otherTypeVar,
            if decide (typeVar = otherTypeVar) then ret tt
            else modifyNode typeVar
                   (NodeOps.removeAdjacency otherTypeVar))) ;;
  recordChange (RemovedConstraint constraint).

(** The loop of [unbindTypeVariable]. *)
Fixpoint unbindLoop (fuel : nat) (typeVar : TypeVariableType)
    (knownTypeVars : gset TypeVariableType)
    (typeVars : list TypeVariableType) : M unit :=
  match typeVars with
  | [] => ret tt
  | otherTypeVar :: rest =>
      if decide (otherTypeVar ∈ knownTypeVars)
      then unbindLoop fuel typeVar knownTypeVars rest
      else
        _ <- lookupNode fuel otherTypeVar ;;
        modifyNode otherTypeVar (NodeOps.removeFixedBinding typeVar) ;;
        modifyNode typeVar (NodeOps.removeFixedBinding otherTypeVar) ;;
        unbindLoop fuel typeVar ({[otherTypeVar]} ∪ knownTypeVars) rest
  end.

(** [ConstraintGraph::unbindTypeVariable] *)
Definition unbindTypeVariable (fuel : nat) (typeVar : TypeVariableType)
    (fixed : Ty) : M unit :=
  if hasTypeVariable fixed then
    let typeVars := getTypeVariables fixed [] in
    _ <- lookupNode fuel typeVar ;;
    unbindLoop fuel typeVar ∅ typeVars
  else ret tt.

(** [ConstraintGraph::gatherConstraints]: the constraints of every
    member of the equivalence class are pushed onto [constraints]. *)
Definition gatherConstraints (fuel : nat) (typeVar : TypeVariableType)
    (constraints : list Constraint) : M (list Constraint) :=
  let typeVarRep := getRepresentative CS typeVar in
  _ <- lookupNode fuel typeVarRep ;;
  equivClass <- withNode typeVarRep
                  (NodeOps.getEquivalenceClass (getRepresentative CS)) ;;
  (fix each (l : list TypeVariableType) (constraints : list Constraint)
     : M (list Constraint) :=
     match l with
     | [] => ret constraints
     | member :: l' =>
         nodeAndIndex <- lookupNode fuel member ;;
         each l' (constraints ++ Constraints (nodeAndIndex.1))
     end) equivClass constraints.

(** ** Scopes and undo *)

(** The constructor of [ConstraintGraphScope]; the new scope is
    returned. *)
Definition openScope : M ConstraintGraphScope :=
  λ g, let scope := MkScope (ActiveScope g) (length (Changes g)) in
       Ok (scope, MkGraph (Nodes g) (TypeVariables g) (Changes g)
                    (Some scope)).

Definition setActiveScope (s : option ConstraintGraphScope) : M unit :=
  λ g, Ok (tt, MkGraph (Nodes g) (TypeVariables g) (Changes g) s).

(** [ConstraintGraph::Change::undo]: the active scope is null while the
    change is undone, and restored afterwards. *)
Definition undo (fuel : nat) (change : Change) : M unit :=
  λ g,
    let prevActiveScope := ActiveScope g in
    (setActiveScope None ;;
     match change with
     | AddedTypeVariable typeVar => removeNode typeVar
     | AddedConstraint constraint => removeConstraint fuel constraint
     | RemovedConstraint constraint => addConstraint fuel constraint
     | ExtendedEquivalenceClass typeVar prevSize =>
         _ <- lookupNode fuel typeVar ;;
         modifyNode typeVar
           (λ n,
              if decide (prevSize ≤ length (EquivalenceClass n)) then
                Some (MkNode (TypeVar n) (Constraints n)
                        (ConstraintIndex n) (Adjacencies n)
                        (AdjacencyInfo n)
                        (take prevSize (EquivalenceClass n)))
              else None)
     | BoundTypeVariable typeVar fixed =>
         unbindTypeVariable fuel typeVar fixed
     end ;;
     setActiveScope prevActiveScope) g.

(** The loop of the destructor of [ConstraintGraphScope]: while there
    are more changes than when the scope was opened, undo the last one
    and pop it.  [iterations] bounds the number of rounds. *)
Fixpoint undoChanges (iterations fuel : nat) (numChanges : nat)
  : M unit :=
  λ g,
    if decide (numChanges < length (Changes g)) then
      match iterations with
      | 0 => OutOfFuel
      | S iterations' =>
          match Changes g !! (length (Changes g) - 1) with
          | None => Abort
          | Some change =>
              (undo fuel change ;;
               (λ g', Ok (tt, MkGraph (Nodes g') (TypeVariables g')
                                (pop_back (Changes g')) (ActiveScope g'))) ;;
               undoChanges iterations' fuel numChanges) g
          end
      end
    else Ok (tt, g).

(** The destructor of [ConstraintGraphScope]. *)
Definition closeScope (fuel : nat) (scope : ConstraintGraphScope)
  : M unit :=
  λ g,
    if decide (NumChanges scope ≤ length (Changes g)) then
      (undoChanges (length (Changes g)) fuel (NumChanges scope) ;;
       setActiveScope (ParentScope scope)) g
    else Abort.

End Mutation.

(** ** Algorithms *)

Section Algorithms.

Variable CS : ConstraintSystem.

(** The local function [visitAdjacencies] of [connectedComponentsDFS],
    which recurses on the given set of type variables; [dfs] is the
    recursive call to [connectedComponentsDFS]. *)
Fixpoint visitAdjacenciesWith
    (dfs : TypeVariableType → list nat → M (list nat))
    (fuel : nat) (component : nat) (typeVars : list TypeVariableType)
    (components : list nat) : M (list nat) :=
  match typeVars with
  | [] => ret components
  | adj :: rest =>
      nodeAndIndex <- lookupNode CS fuel adj ;;
      match components !! nodeAndIndex.2 with
      | None => abort
      | Some curComponent =>
          if decide (curComponent = component)
          then visitAdjacenciesWith dfs fuel component rest components
          else if decide (curComponent = length components) then
            components' <-
              dfs adj (<[nodeAndIndex.2 := component]> components) ;;
            visitAdjacenciesWith dfs fuel component rest components'
          else abort
      end
  end.

(** Depth-first search for connected components.  [node] is the key of
    the node visited; [depth] bounds the nesting of the recursion. *)
Fixpoint connectedComponentsDFS (depth fuel : nat)
    (node : TypeVariableType) (component : nat) (components : list nat)
  : M (list nat) :=
  match depth with
  | 0 => λ _, OutOfFuel
  | S depth' =>
      let visitAdjacencies :=
        visitAdjacenciesWith
          (λ adj components,
             connectedComponentsDFS depth' fuel adj component components)
          fuel component in
      adjacencies <- withNode node (λ n, Some (Adjacencies n, n)) ;;
      components <- visitAdjacencies adjacencies components ;;
      typeVar <- withNode node (λ n, Some (TypeVar n, n)) ;;
      let typeVarRep := getRepresentative CS typeVar in
      if decide (typeVarRep = typeVar) then
        equivClass <- withNode node
                        (NodeOps.getEquivalenceClass (getRepresentative CS)) ;;
        visitAdjacencies (drop 1 equivClass) components
      else visitAdjacencies [typeVarRep] components
  end.

(** The first loop of [computeConnectedComponents]: a depth-first search
    from each type variable that has no component yet.  The state of
    the loop is [components] and [numComponents]. *)
Fixpoint assignComponents (fuel numTypeVariables : nat)
    (indices : list nat) (components : list nat) (numComponents : nat)
  : M (list nat * nat) :=
  match indices with
  | [] => ret (components, numComponents)
  | i :: rest =>
      typeVar <- (λ g, of_option
                         ((λ tv, (tv, g)) <$> TypeVariables g !! i)) ;;
      nodeAndIndex <- lookupNode CS fuel typeVar ;;
      match components !! nodeAndIndex.2 with
      | None => abort
      | Some curComponent =>
          if decide (curComponent = numTypeVariables) then
            let component := numComponents in
            components' <-
              connectedComponentsDFS numTypeVariables fuel typeVar
                component (<[nodeAndIndex.2 := component]> components) ;;
            assignComponents fuel numTypeVariables rest components'
              (S numComponents)
          else
            assignComponents fuel numTypeVariables rest components
              numComponents
      end
  end.

(** The second loop: which components have an unbound type variable the
    caller cares about. *)
Fixpoint markUnbound (typeVarSubset : gset TypeVariableType)
    (typeVariables : list TypeVariableType) (components : list nat)
    (indices : list nat) (componentHasUnboundTypeVar : list bool)
  : option (list bool) :=
  match indices with
  | [] => Some componentHasUnboundTypeVar
  | i :: rest =>
      typeVar ← typeVariables !! i;
      if decide (is_Some (getFixedType CS typeVar)) then
        markUnbound typeVarSubset typeVariables components rest
          componentHasUnboundTypeVar
      else if decide (typeVarSubset ≠ ∅ ∧ typeVar ∉ typeVarSubset) then
        markUnbound typeVarSubset typeVariables components rest
          componentHasUnboundTypeVar
      else
        component ← components !! i;
        if decide (component < length componentHasUnboundTypeVar) then
          markUnbound typeVarSubset typeVariables components rest
            (<[component := true]> componentHasUnboundTypeVar)
        else None
  end.

(** The third loop: renumber the old components to the new ones. *)
Fixpoint renumber (componentHasUnboundTypeVar : list bool)
    (indices : list nat) (componentRenumbering : list nat)
    (numComponents : nat) : option (list nat * nat) :=
  match indices with
  | [] => Some (componentRenumbering, numComponents)
  | i :: rest =>
      has ← componentHasUnboundTypeVar !! i;
      if has : bool then
        if decide (i < length componentRenumbering) then
          renumber componentHasUnboundTypeVar rest
            (<[i := numComponents]> componentRenumbering)
            (S numComponents)
        else None
      else
        renumber componentHasUnboundTypeVar rest componentRenumbering
          numComponents
  end.

(** The fourth loop: copy over the type variables in the live
    components and remap component numbers, in place. *)
Fixpoint copyLive (typeVariables : list TypeVariableType)
    (componentHasUnboundTypeVar : list bool)
    (componentRenumbering : list nat)
    (indices : list nat) (typeVars : list TypeVariableType)
    (components : list nat) (outIndex : nat)
  : option (list TypeVariableType * list nat * nat) :=
  match indices with
  | [] => Some (typeVars, components, outIndex)
  | i :: rest =>
      component ← components !! i;
      has ← componentHasUnboundTypeVar !! component;
      if has : bool then
        typeVar ← typeVariables !! i;
        renumbered ← componentRenumbering !! component;
        if decide (outIndex < length components) then
          copyLive typeVariables componentHasUnboundTypeVar
            componentRenumbering rest (typeVars ++ [typeVar])
            (<[outIndex := renumbered]> components) (S outIndex)
        else None
      else
        copyLive typeVariables componentHasUnboundTypeVar
          componentRenumbering rest typeVars components outIndex
  end.

(** [ConstraintGraph::computeConnectedComponents]: [typeVars] is the
    subset the caller cares about; the result is the new contents of
    [typeVars] and [components] and the number of components. *)
Definition computeConnectedComponents (fuel : nat)
    (typeVars : list TypeVariableType)
  : M (list TypeVariableType * list nat * nat) :=
  λ g,
    let typeVarSubset : gset TypeVariableType := list_to_set typeVars in
    let numTypeVariables := length (TypeVariables g) in
    (r <- assignComponents fuel numTypeVariables (seq 0 numTypeVariables)
            (replicate numTypeVariables numTypeVariables) 0 ;;
     λ g',
       of_option
         (let '(components, numComponents) := r in
          has ← markUnbound typeVarSubset (TypeVariables g') components
                  (seq 0 numTypeVariables)
                  (replicate numComponents false);
          '(componentRenumbering, numComponents') ←
            renumber has (seq 0 (length has))
              (replicate numComponents 0) 0;
          '(typeVars', components', outIndex) ←
            copyLive (TypeVariables g') has componentRenumbering
              (seq 0 (length (TypeVariables g'))) [] components 0;
          Some ((typeVars', take outIndex components', numComponents'),
                g'))) g.

End Algorithms.

(** ** Invariants checked by the verifier *)

(** A vector and the map from its elements to their positions describe
    each other. *)
Definition indexed {K} (idx : K → option nat) (l : list K) : Prop :=
  ∀ k i, idx k = Some i ↔ l !! i = Some k.

(** [Node::verify]: the constraint map and vector are in sync, the
    adjacency map and vector are in sync, and no adjacency is empty. *)
Record wfNode (n : Node) : Prop := MkWfNode {
  wf_constraints : indexed (λ c, ConstraintIndex n !! c) (Constraints n);
  wf_adjacencies :
    indexed (λ v, Index <$> AdjacencyInfo n !! v) (Adjacencies n);
  wf_nonempty :
    ∀ v a, AdjacencyInfo n !! v = Some a → Adjacency_empty a = false
}.

(** What a node records about a neighbour: the number of constraints that
    link them and whether a fixed binding does; nothing when the neighbour
    has no adjacency slot. *)
Definition adjacencyOf (n : Node) (v : TypeVariableType) : nat * bool :=
  match AdjacencyInfo n !! v with
  | Some a => (NumConstraints a, FixedBinding a)
  | None => (0, false)
  end.

(** Two nodes that differ in their adjacencies at most. *)
Definition sameButAdjacencies (n n' : Node) : Prop :=
  TypeVar n' = TypeVar n ∧ Constraints n' = Constraints n ∧
  ConstraintIndex n' = ConstraintIndex n ∧
  EquivalenceClass n' = EquivalenceClass n.

(** [ConstraintGraph::verify]: the type variable map and the vector are in
    sync: they have the same size and the index stored for a type
    variable is its position in the vector. *)
Definition registryAgrees (g : ConstraintGraph) : Prop :=
  length (TypeVariables g) = size (Nodes g) ∧
  map_Forall (λ v s, TypeVariables g !! NodeIndex s = Some v) (Nodes g).

Global Instance registryAgrees_dec g : Decision (registryAgrees g).
Proof. unfold registryAgrees. apply _. Defined.

(** [nodeKept n n']: [n'] has the type variable and the constraints of
    [n]; when [n] is well formed, so is [n'], and it counts the same
    number of constraints towards every neighbour. *)
Definition nodeKept (n n' : Node) : Prop :=
  TypeVar n' = TypeVar n ∧ Constraints n' = Constraints n ∧
  ConstraintIndex n' = ConstraintIndex n ∧
  (wfNode n → wfNode n' ∧ ∀ w, (adjacencyOf n' w).1 = (adjacencyOf n w).1).

(** [grows g g']: what [lookupNode], [mergeNodes] and [bindTypeVariable]
    guarantee about the graph [g'] they leave from the graph [g] they
    found. *)
Record grows (g g' : ConstraintGraph) : Prop := MkGrows {
  grows_scope : ActiveScope g' = ActiveScope g;
  grows_typeVariables : TypeVariables g `prefix_of` TypeVariables g';
  grows_changes : Changes g `prefix_of` Changes g';
  grows_changes_None : ActiveScope g = None → Changes g' = Changes g;
  grows_nodes :
    ∀ v s, Nodes g !! v = Some s →
      ∃ s', Nodes g' !! v = Some s' ∧ NodeIndex s' = NodeIndex s ∧
            nodeKept (NodePtr s) (NodePtr s');
  grows_new :
    ∀ v s', Nodes g !! v = None → Nodes g' !! v = Some s' →
      nodeKept (newNode v) (NodePtr s')
}.

Definition preserves {A} (R : ConstraintGraph → ConstraintGraph → Prop)
    (m : M A) : Prop :=
  ∀ g a g', m g = Ok (a, g') → R g g'.

(** The graph right after [lookupNode] has allocated the node of
    [typeVar], put it last in [TypeVariables] and recorded the change. *)
Definition withNewNode (typeVar : TypeVariableType) (g : ConstraintGraph)
  : ConstraintGraph :=
  MkGraph
    (<[typeVar := MkStoredNode (newNode typeVar) (length (TypeVariables g))]>
       (Nodes g))
    (TypeVariables g ++ [typeVar])
    (Changes g ++
       match ActiveScope g with
       | Some _ => [AddedTypeVariable typeVar]
       | None => []
       end)
    (ActiveScope g).

(** What [lookupNode] does after creating the node of [typeVar]: a merge
    into the representative, or else a bind to the fixed type. *)
Definition afterNewNode (CS : ConstraintSystem) (fuel : nat)
    (typeVar : TypeVariableType) : M unit :=
  let typeVarRep := getRepresentative CS typeVar in
  if decide (typeVar = typeVarRep) then
    match getFixedType CS typeVarRep with
    | Some fixed => bindTypeVariable CS fuel typeVar fixed
    | None => ret tt
    end
  else mergeNodes CS fuel typeVar typeVarRep.


Fixpoint applyEach {A} (f : A → Node → option Node) (l : list A) (n : Node)
  : option Node :=
  match l with
  | [] => Some n
  | x :: l' => n' ← f x n; applyEach f l' n'
  end.

(** The body of the inner loop of [addConstraint], on the node of
    [typeVar]. *)
Definition addEdge (typeVar otherTypeVar : TypeVariableType) (n : Node)
  : option Node :=
  if decide (typeVar = otherTypeVar) then Some n
  else NodeOps.addAdjacency otherTypeVar n.

Definition removeEdge (typeVar otherTypeVar : TypeVariableType) (n : Node)
  : option Node :=
  if decide (typeVar = otherTypeVar) then Some n
  else NodeOps.removeAdjacency otherTypeVar n.

(** Everything [addConstraint] does to the node of [typeVar]. *)
Definition nodeAddConstraint (c : Constraint)
    (referencedTypeVars : list TypeVariableType)
    (typeVar : TypeVariableType) (n : Node) : option Node :=
  n1 ← NodeOps.addConstraint c n;
  applyEach (addEdge typeVar) referencedTypeVars n1.

(** Everything [removeConstraint] does to the node of [typeVar]. *)
Definition nodeRemoveConstraint (c : Constraint)
    (referencedTypeVars : list TypeVariableType)
    (typeVar : TypeVariableType) (n : Node) : option Node :=
  n1 ← NodeOps.removeConstraint c n;
  applyEach (removeEdge typeVar) referencedTypeVars n1.

(** The increment an adjacency count receives from a constraint that
    references [R], in the node of [tv]. *)
Definition edgeTo (R : list TypeVariableType) (tv w : TypeVariableType)
  : nat :=
  if decide (w ∈ R ∧ w ≠ tv) then 1 else 0.

Inductive GraphCall :=
| CallAddConstraint (c : Constraint)
| CallRemoveConstraint (c : Constraint).

(** A call into the graph, with the constraint system of the moment. *)
Definition runCall (call : ConstraintSystem * nat * GraphCall) : M unit :=
  match call with
  | (CS, fuel, CallAddConstraint c) => addConstraint CS fuel c
  | (CS, fuel, CallRemoveConstraint c) => removeConstraint CS fuel c
  end.

Definition runCalls (calls : list (ConstraintSystem * nat * GraphCall))
  : M unit :=
  forEach calls runCall.

Fixpoint removeFirst (c : Constraint) (l : list Constraint)
  : list Constraint :=
  match l with
  | [] => []
  | x :: l' => if decide (x = c) then l' else x :: removeFirst c l'
  end.

(** The constraints that are live after a sequence of calls: those added
    and not removed since. *)
Fixpoint liveConstraints (calls : list (ConstraintSystem * nat * GraphCall))
    (live : list Constraint) : list Constraint :=
  match calls with
  | [] => live
  | (_, _, CallAddConstraint c) :: rest => liveConstraints rest (live ++ [c])
  | (_, _, CallRemoveConstraint c) :: rest =>
      liveConstraints rest (removeFirst c live)
  end.

(** The live constraints that reference [v], and those that reference
    both [v] and [w]. *)
Definition referencing (live : list Constraint) (v : TypeVariableType)
  : list Constraint :=
  filter (λ c, v ∈ gatherReferencedTypeVars c) live.

Definition referencingBoth (live : list Constraint)
    (v w : TypeVariableType) : list Constraint :=
  filter (λ c, v ∈ gatherReferencedTypeVars c ∧
               w ∈ gatherReferencedTypeVars c) live.

(** What the node of [u] records about [v]. *)
Definition numConstraintsTo (g : ConstraintGraph) (u v : TypeVariableType)
  : nat :=
  match Nodes g !! u with
  | Some s => (adjacencyOf (NodePtr s) v).1
  | None => 0
  end.

Definition fixedBindingTo (g : ConstraintGraph) (u v : TypeVariableType)
  : bool :=
  match Nodes g !! u with
  | Some s => (adjacencyOf (NodePtr s) v).2
  | None => false
  end.

Definition hasAdjacencyEntry (g : ConstraintGraph)
    (u v : TypeVariableType) : Prop :=
  ∃ s, Nodes g !! u = Some s ∧ is_Some (AdjacencyInfo (NodePtr s) !! v).

(** The graph [g] matches the expected constraints [EC] and the expected
    adjacency counts [EN] of every type variable. *)
Record matches (g : ConstraintGraph)
    (EC : TypeVariableType → list Constraint)
    (EN : TypeVariableType → TypeVariableType → nat) : Prop := MkMatches {
  matches_node :
    ∀ v s, Nodes g !! v = Some s →
      wfNode (NodePtr s) ∧ TypeVar (NodePtr s) = v ∧
      Constraints (NodePtr s) ≡ₚ EC v ∧
      ∀ w, (adjacencyOf (NodePtr s) w).1 = EN v w;
  matches_absent :
    ∀ v, Nodes g !! v = None → EC v = [] ∧ ∀ w, EN v w = 0
}.

Definition pairCount (live : list Constraint) (v w : TypeVariableType)
  : nat :=
  if decide (w = v) then 0 else length (referencingBoth live v w).

(** The graph records exactly the live constraints. *)
Definition tracks (g : ConstraintGraph) (live : list Constraint) : Prop :=
  matches g (referencing live) (pairCount live).

(** Every node is well formed and stored under its own type variable. *)
Definition wfGraph (g : ConstraintGraph) : Prop :=
  ∀ v s, Nodes g !! v = Some s →
    wfNode (NodePtr s) ∧ TypeVar (NodePtr s) = v.

(** No node records the constraint [c]. *)
Definition untracked (c : Constraint) (g : ConstraintGraph) : Prop :=
  ∀ v s, Nodes g !! v = Some s → c ∉ Constraints (NodePtr s).

(** Creating the node of [v] neither merges nor binds: [v] is its own
    representative and its fixed type, if any, has no type variable. *)
Definition createsQuietly (CS : ConstraintSystem) (v : TypeVariableType)
  : Prop :=
  getRepresentative CS v = v ∧
  ∀ fixed, getFixedType CS v = Some fixed → hasTypeVariable fixed = false.

(** The node of [v], or the node [lookupNode] would create for it. *)
Definition nodeOr (v : TypeVariableType) (g : ConstraintGraph) : Node :=
  match Nodes g !! v with
  | Some s => NodePtr s
  | None => newNode v
  end.


(** A type variable the caller wants reported: it has no fixed type and,
    when the caller named a subset, it is in the subset. *)
Definition wanted (CS : ConstraintSystem) (typeVars : list TypeVariableType)
    (v : TypeVariableType) : Prop :=
  getFixedType CS v = None ∧ (typeVars = [] ∨ v ∈ typeVars).

(** What the last loop of [computeConnectedComponents] copies for the
    type variable at index [k]: the type variable and its renumbered
    component, when its component is live. *)
Definition liveAt (TVs : list TypeVariableType) (has : list bool)
    (ren orig : list nat) (k : nat) : option (TypeVariableType * nat) :=
  c ← orig !! k;
  b ← has !! c;
  if b : bool then
    v ← TVs !! k; r ← ren !! c; Some (v, r)
  else None.

Definition keepsShape (dfs : TypeVariableType → list nat → M (list nat))
  : Prop :=
  ∀ adj comps g comps' g',
    dfs adj comps g = Ok (comps', g') →
    length comps = length (TypeVariables g) →
    length comps' = length comps ∧ TypeVariables g' = TypeVariables g.

(** The type variables the depth-first search visits from [v]: its
    adjacencies, then the other members of its equivalence class when
    [v] is a representative, and its representative otherwise. *)
Definition searchEdges (CS : ConstraintSystem) (g : ConstraintGraph)
    (v : TypeVariableType) : list TypeVariableType :=
  match Nodes g !! v with
  | None => []
  | Some s =>
      Adjacencies (NodePtr s) ++
      (if decide (getRepresentative CS v = v)
       then drop 1 (NodeOps.getEquivalenceClassUnsafe (NodePtr s)).1
       else [getRepresentative CS v])
  end.

(** The graphs on which the search is defined: every listed type variable
    has a node that knows its position and its type variable, and the
    edges the search follows stay among the listed type variables and
    can be followed back. *)
Record searchable (CS : ConstraintSystem) (g : ConstraintGraph) : Prop :=
  MkSearchable {
  sr_listed : ∀ i v, TypeVariables g !! i = Some v →
    ∃ s, Nodes g !! v = Some s ∧ NodeIndex s = i ∧ TypeVar (NodePtr s) = v;
  sr_closed : ∀ v w, v ∈ TypeVariables g → w ∈ searchEdges CS g v →
    w ∈ TypeVariables g;
  sr_symmetric : ∀ v w, v ∈ TypeVariables g → w ∈ searchEdges CS g v →
    v ∈ searchEdges CS g w
}.

(** [g'] shows the search what [g] does: reading a node can only seed
    its equivalence class. *)
Definition sameSearch (g g' : ConstraintGraph) : Prop :=
  TypeVariables g' = TypeVariables g ∧
  ∀ v s, Nodes g !! v = Some s →
    ∃ s', Nodes g' !! v = Some s' ∧ NodeIndex s' = NodeIndex s ∧
      TypeVar (NodePtr s') = TypeVar (NodePtr s) ∧
      Adjacencies (NodePtr s') = Adjacencies (NodePtr s) ∧
      (NodeOps.getEquivalenceClassUnsafe (NodePtr s')).1 =
        (NodeOps.getEquivalenceClassUnsafe (NodePtr s)).1.

(** The component recorded for a type variable of [g]. *)
Definition markOf (g : ConstraintGraph) (comps : list nat)
    (v : TypeVariableType) : option nat :=
  s ← Nodes g !! v; comps !! NodeIndex s.

(** The number of type variables that have no component yet; [n], the
    number of type variables, is the mark of these. *)
Definition pending (n : nat) (comps : list nat) : nat :=
  length (filter (λ m, m = n) comps).

(** The search for component [c] only replaces the mark [n]. *)
Definition marksGrow (n c : nat) : relation (list nat) :=
  Forall2 (λ m m', m' = m ∨ (m = n ∧ m' = c)).

(** The components before [c] are closed under the edges. *)
Definition closedBelow (CS : ConstraintSystem) (g : ConstraintGraph)
    (c : nat) (comps : list nat) : Prop :=
  ∀ v w m, v ∈ TypeVariables g → w ∈ searchEdges CS g v →
    markOf g comps v = Some m → m < c → markOf g comps w = Some m.

(** What a search from [v] for component [c] achieves, when fewer than
    [depth] type variables are pending. *)
Definition searches (CS : ConstraintSystem) (g0 : ConstraintGraph)
    (c depth : nat)
    (dfs : TypeVariableType → list nat → M (list nat)) : Prop :=
  ∀ v comps g,
    sameSearch g0 g → v ∈ TypeVariables g0 →
    markOf g0 comps v = Some c → c < length (TypeVariables g0) →
    length comps = length (TypeVariables g0) →
    Forall (λ m, m = length (TypeVariables g0) ∨ m ≤ c) comps →
    closedBelow CS g0 c comps →
    pending (length (TypeVariables g0)) comps < depth →
    ∃ comps' g',
      dfs v comps g = Ok (comps', g') ∧ sameSearch g0 g' ∧
      marksGrow (length (TypeVariables g0)) c comps comps' ∧
      ∀ y, y ∈ TypeVariables g0 → markOf g0 comps' y = Some c →
        markOf g0 comps y = Some (length (TypeVariables g0)) ∨ y = v →
        ∀ w, w ∈ searchEdges CS g0 y → markOf g0 comps' w = Some c.

(** The calls that mutate the graph. *)
Inductive Mutation :=
| MutAddConstraint (c : Constraint)
| MutRemoveConstraint (c : Constraint)
| MutMergeNodes (typeVar1 typeVar2 : TypeVariableType)
| MutBindTypeVariable (typeVar : TypeVariableType) (fixed : Ty)
| MutLookupNode (typeVar : TypeVariableType).

(** A mutation, with the constraint system of the moment. *)
Definition mutate (call : ConstraintSystem * nat * Mutation) : M unit :=
  match call with
  | (CS, fuel, MutAddConstraint c) => addConstraint CS fuel c
  | (CS, fuel, MutRemoveConstraint c) => removeConstraint CS fuel c
  | (CS, fuel, MutMergeNodes v1 v2) => mergeNodes CS fuel v1 v2
  | (CS, fuel, MutBindTypeVariable v fixed) =>
      bindTypeVariable CS fuel v fixed
  | (CS, fuel, MutLookupNode v) => _ <- lookupNode CS fuel v ;; ret tt
  end.

Definition mutateAll (calls : list (ConstraintSystem * nat * Mutation))
  : M unit :=
  forEach calls mutate.

(** [Changes.pop_back()] *)
Definition popChange : M unit :=
  λ g, Ok (tt, MkGraph (Nodes g) (TypeVariables g) (pop_back (Changes g))
                 (ActiveScope g)).

(** Follow a log of changes from [x], one step per change. *)
Fixpoint replay {X} (step : Change → X → option X) (log : list Change)
    (x : X) : option X :=
  match log with
  | [] => Some x
  | r :: log' => x' ← step r x; replay step log' x'
  end.

(** The type variables whose nodes a log creates, in order. *)
Definition created (log : list Change) : list TypeVariableType :=
  omap (λ r, match r with
             | AddedTypeVariable v => Some v
             | _ => None
             end) log.

(** What a change does to the set of type variables that have a node:
    a node is created once; a constraint is removed from nodes that
    exist; a type variable is not bound to a type that mentions it. *)
Definition domStep (r : Change) (D : gset TypeVariableType)
  : option (gset TypeVariableType) :=
  match r with
  | AddedTypeVariable v => if decide (v ∈ D) then None else Some ({[v]} ∪ D)
  | RemovedConstraint c =>
      if decide (list_to_set (gatherReferencedTypeVars c) ⊆ D)
      then Some D else None
  | BoundTypeVariable tv fixed =>
      if decide (tv ∈ getTypeVariables fixed []) then None else Some D
  | _ => Some D
  end.

(** What a change does to the constraints of the node of [v]. *)
Definition consStep (v : TypeVariableType) (r : Change)
    (X : gset Constraint) : option (gset Constraint) :=
  match r with
  | AddedTypeVariable v' =>
      if decide (v' = v) then (if decide (X = ∅) then Some X else None)
      else Some X
  | AddedConstraint c =>
      if decide (v ∈ gatherReferencedTypeVars c) then
        if decide (c ∈ X) then None else Some ({[c]} ∪ X)
      else Some X
  | RemovedConstraint c =>
      if decide (v ∈ gatherReferencedTypeVars c) then
        if decide (c ∈ X) then Some (X ∖ {[c]}) else None
      else Some X
  | _ => Some X
  end.

(** The number of adjacency counts of [v] towards [w] that a constraint
    on the type variables [R] accounts for. *)
Definition linkOf (R : list TypeVariableType) (v w : TypeVariableType)
  : nat :=
  if decide (v ∈ R) then edgeTo R v w else 0.

(** What a change does to the number of constraints that the node of [v]
    counts towards [w]. *)
Definition cntStep (v w : TypeVariableType) (r : Change) (n : nat)
  : option nat :=
  match r with
  | AddedTypeVariable v' =>
      if decide (v' = v) then (if decide (n = 0) then Some n else None)
      else Some n
  | AddedConstraint c => Some (n + linkOf (gatherReferencedTypeVars c) v w)
  | RemovedConstraint c =>
      if decide (linkOf (gatherReferencedTypeVars c) v w ≤ n)
      then Some (n - linkOf (gatherReferencedTypeVars c) v w) else None
  | _ => Some n
  end.

(** Binding [tv] to a type that mentions the type variables [F] marks
    the adjacencies between [tv] and each of them, in both nodes. *)
Definition boundPair (tv : TypeVariableType) (F : gset TypeVariableType)
    (v w : TypeVariableType) : Prop :=
  (v = tv ∧ w ∈ F) ∨ (w = tv ∧ v ∈ F).

(** What a change does to the fixed-binding flag that the node of [v]
    keeps for [w]: a binding sets a flag that was not set. *)
Definition flagStep (v w : TypeVariableType) (r : Change) (b : bool)
  : option bool :=
  match r with
  | AddedTypeVariable v' =>
      if decide (v' = v) then (if b then None else Some b) else Some b
  | BoundTypeVariable tv fixed =>
      if decide (boundPair tv (list_to_set (getTypeVariables fixed [])) v w)
      then
        if b then None else Some true
      else Some b
  | _ => Some b
  end.

(** What undoing a change does to the equivalence class stored in the
    node of [v]. *)
Definition classBack (v : TypeVariableType) (r : Change)
    (X : list TypeVariableType) : option (list TypeVariableType) :=
  match r with
  | AddedTypeVariable v' => if decide (v' = v) then Some [] else Some X
  | ExtendedEquivalenceClass v' prevSize =>
      if decide (v' = v) then
        if decide (1 ≤ prevSize ≤ length X) then Some (take prevSize X)
        else None
      else Some X
  | _ => Some X
  end.

(** What the graph records for [v], and for [v] about [w]; a type
    variable without a node has what a new node has. *)
Definition consSet (g : ConstraintGraph) (v : TypeVariableType)
  : gset Constraint :=
  list_to_set (Constraints (nodeOr v g)).

Definition cntOf (g : ConstraintGraph) (v w : TypeVariableType) : nat :=
  (adjacencyOf (nodeOr v g) w).1.

Definition flagOf (g : ConstraintGraph) (v w : TypeVariableType) : bool :=
  (adjacencyOf (nodeOr v g) w).2.

Definition rawClass (g : ConstraintGraph) (v : TypeVariableType)
  : list TypeVariableType :=
  EquivalenceClass (nodeOr v g).

(** [X] is the stored class [Y] of [v], or [Y] seeded by a read. *)
Definition classLike (v : TypeVariableType)
    (X Y : list TypeVariableType) : Prop :=
  X = Y ∨ (Y = [] ∧ X = [v]).

(** The log [log] accounts for the difference between the graphs [g] and
    [g']: for the nodes present and their positions, ... *)
Record framedBy (log : list Change) (g g' : ConstraintGraph) : Prop :=
  MkFramedBy {
  fr_wf : wfGraph g';
  fr_scope : ActiveScope g' = ActiveScope g;
  fr_changes : Changes g' = Changes g ++ log;
  fr_typeVariables : TypeVariables g' = TypeVariables g ++ created log;
  fr_dom : replay domStep log (dom (Nodes g)) = Some (dom (Nodes g'));
  fr_index :
    ∀ v s, Nodes g !! v = Some s →
      ∃ s', Nodes g' !! v = Some s' ∧ NodeIndex s' = NodeIndex s;
  fr_index_new :
    ∀ i v, created log !! i = Some v →
      ∃ s', Nodes g' !! v = Some s' ∧
            NodeIndex s' = length (TypeVariables g) + i
}.

(** ... for the constraints of every node, ... *)
Definition consAcc (log : list Change) (g g' : ConstraintGraph) : Prop :=
  ∀ v, replay (consStep v) log (consSet g v) = Some (consSet g' v).

(** ... for the adjacency counts, ... *)
Definition cntAcc (log : list Change) (g g' : ConstraintGraph) : Prop :=
  ∀ v w, replay (cntStep v w) log (cntOf g v w) = Some (cntOf g' v w).

(** ... for the fixed bindings, ... *)
Definition flagAcc (log : list Change) (g g' : ConstraintGraph) : Prop :=
  ∀ v w, replay (flagStep v w) log (flagOf g v w) = Some (flagOf g' v w).

(** ... and for the equivalence classes, which unwind to those of [g]. *)
Definition classAcc (log : list Change) (g g' : ConstraintGraph) : Prop :=
  ∀ v, ∃ X, replay (classBack v) (reverse log) (rawClass g' v) = Some X ∧
            classLike v X (rawClass g v).

Record accountedBy (log : list Change) (g g' : ConstraintGraph) : Prop :=
  MkAccountedBy {
  acc_framed : framedBy log g g';
  acc_cons : consAcc log g g';
  acc_cnt : cntAcc log g g';
  acc_flag : flagAcc log g g';
  acc_class : classAcc log g g'
}.

(** A log without constraint records: what creating nodes leaves. *)
Definition quietLog (log : list Change) : Prop :=
  Forall (λ r, match r with
               | AddedConstraint _ | RemovedConstraint _ => False
               | _ => True
               end) log.

(** What a mutation in a scope guarantees, and what [lookupNode],
    [mergeNodes] and [bindTypeVariable] do. *)
Definition accounts (g g' : ConstraintGraph) : Prop :=
  wfGraph g → is_Some (ActiveScope g) → ∃ log, accountedBy log g g'.

Definition creates (g g' : ConstraintGraph) : Prop :=
  wfGraph g → is_Some (ActiveScope g) →
  ∃ log, accountedBy log g g' ∧ quietLog log.

(** The graph [g'] is, to an observer, the graph [g]. *)
Definition restored (g g' : ConstraintGraph) : Prop :=
  TypeVariables g' = TypeVariables g ∧
  Changes g' = Changes g ∧
  ActiveScope g' = ActiveScope g ∧
  dom (Nodes g') = dom (Nodes g) ∧
  ∀ v s, Nodes g !! v = Some s →
    ∃ s', Nodes g' !! v = Some s' ∧
      NodeIndex s' = NodeIndex s ∧
      TypeVar (NodePtr s') = TypeVar (NodePtr s) ∧
      Constraints (NodePtr s') ≡ₚ Constraints (NodePtr s) ∧
      (∀ w, adjacencyOf (NodePtr s') w = adjacencyOf (NodePtr s) w) ∧
      (NodeOps.getEquivalenceClassUnsafe (NodePtr s')).1 =
        (NodeOps.getEquivalenceClassUnsafe (NodePtr s)).1.

(** The graph with [n'] stored as the node of [v]. *)
Definition setNode (v : TypeVariableType) (n' : Node) (g : ConstraintGraph)
  : ConstraintGraph :=
  match Nodes g !! v with
  | Some s =>
      MkGraph (<[v := MkStoredNode n' (NodeIndex s)]> (Nodes g))
        (TypeVariables g) (Changes g) (ActiveScope g)
  | None => g
  end.

(** [n'] is [n] with another equivalence class. *)
Definition sameButClass (n n' : Node) : Prop :=
  TypeVar n' = TypeVar n ∧ Constraints n' = Constraints n ∧
  ConstraintIndex n' = ConstraintIndex n ∧
  Adjacencies n' = Adjacencies n ∧ AdjacencyInfo n' = AdjacencyInfo n.

(** The graph with one more change recorded. *)
Definition record (r : Change) (g : ConstraintGraph) : ConstraintGraph :=
  MkGraph (Nodes g) (TypeVariables g) (Changes g ++ [r]) (ActiveScope g).

(** What holds while [bindTypeVariable] marks the adjacencies between
    [tv] and the type variables [K]: the marks are set, and the log does
    not account for them yet. *)
Record bindingBy (tv : TypeVariableType) (K : gset TypeVariableType)
    (log : list Change) (g g' : ConstraintGraph) : Prop := MkBindingBy {
  bd_framed : framedBy log g g';
  bd_cons : consAcc log g g';
  bd_cnt : cntAcc log g g';
  bd_class : classAcc log g g';
  bd_flag :
    ∀ v w, ∃ b, replay (flagStep v w) log (flagOf g v w) = Some b ∧
      if decide (boundPair tv K v w)
      then b = false ∧ flagOf g' v w = true
      else flagOf g' v w = b
}.

(** What [addConstraint] or [removeConstraint], whose record will be
    [r], has done to the node [n] of [tv]. *)
Definition nodeSteps (r : Change) (tv : TypeVariableType) (n n' : Node)
  : Prop :=
  wfNode n' ∧ TypeVar n' = tv ∧
  EquivalenceClass n' = EquivalenceClass n ∧
  (∀ w, (adjacencyOf n' w).2 = (adjacencyOf n w).2) ∧
  consStep tv r (list_to_set (Constraints n)) =
    Some (list_to_set (Constraints n')) ∧
  ∀ w, cntStep tv w r (adjacencyOf n w).1 = Some (adjacencyOf n' w).1.

(** What holds while [addConstraint] or [removeConstraint] goes through
    the nodes: those of [P] are done, and the log does not account for
    that yet. *)
Record pendingBy (r : Change) (P : gset TypeVariableType)
    (log : list Change) (g g' : ConstraintGraph) : Prop := MkPendingBy {
  pd_framed : framedBy log g g';
  pd_flag : flagAcc log g g';
  pd_class : classAcc log g g';
  pd_quiet : quietLog log;
  pd_dom : P ⊆ dom (Nodes g');
  pd_cons :
    ∀ v, ∃ X, replay (consStep v) log (consSet g v) = Some X ∧
      if decide (v ∈ P) then consStep v r X = Some (consSet g' v)
      else consSet g' v = X;
  pd_cnt :
    ∀ v w, ∃ n, replay (cntStep v w) log (cntOf g v w) = Some n ∧
      if decide (v ∈ P) then cntStep v w r n = Some (cntOf g' v w)
      else cntOf g' v w = n
}.

(** The graph with another active scope. *)
Definition withScope (sc : option ConstraintGraphScope)
    (g : ConstraintGraph) : ConstraintGraph :=
  MkGraph (Nodes g) (TypeVariables g) (Changes g) sc.

(** What the log says about the graph [g] it ends in, when its last
    record is [r]. *)
Record lastStep (r : Change) (g : ConstraintGraph) : Prop := MkLastStep {
  ls_wf : wfGraph g;
  ls_dom : ∃ D, domStep r D = Some (dom (Nodes g));
  ls_cons : ∀ v, ∃ X, consStep v r X = Some (consSet g v);
  ls_cnt : ∀ v w, ∃ n, cntStep v w r n = Some (cntOf g v w);
  ls_flag : ∀ v w, ∃ b, flagStep v w r b = Some (flagOf g v w);
  ls_class : ∀ v, is_Some (classBack v r (rawClass g v));
  ls_last :
    ∀ v, r = AddedTypeVariable v →
      ∃ l s, TypeVariables g = l ++ [v] ∧ Nodes g !! v = Some s ∧
             NodeIndex s = length l
}.

(** The graph [g'] is the graph [g] before the change [r]. *)
Record undone (r : Change) (g g' : ConstraintGraph) : Prop := MkUndone {
  un_wf : wfGraph g';
  un_changes : Changes g' = Changes g;
  un_typeVariables : TypeVariables g = TypeVariables g' ++ created [r];
  un_dom : ∀ D, domStep r D = Some (dom (Nodes g)) → dom (Nodes g') = D;
  un_index :
    ∀ v s, Nodes g !! v = Some s → r ≠ AddedTypeVariable v →
      ∃ s', Nodes g' !! v = Some s' ∧ NodeIndex s' = NodeIndex s;
  un_cons : ∀ v X, consStep v r X = Some (consSet g v) → consSet g' v = X;
  un_cnt :
    ∀ v w n, cntStep v w r n = Some (cntOf g v w) → cntOf g' v w = n;
  un_flag :
    ∀ v w b, flagStep v w r b = Some (flagOf g v w) → flagOf g' v w = b;
  un_class :
    ∀ v X, classBack v r (rawClass g v) = Some X → rawClass g' v = X
}.

(** [r'] records the call that undoes the call recorded by [r]. *)
Definition opposite (c : Constraint) (r r' : Change) : Prop :=
  (r = AddedConstraint c ∧ r' = RemovedConstraint c) ∨
  (r = RemovedConstraint c ∧ r' = AddedConstraint c).

(** The erasure of [Change::undo] for an extended equivalence class. *)
Definition truncateClass (prevSize : nat) (n : Node) : option Node :=
  if decide (prevSize ≤ length (EquivalenceClass n)) then
    Some (MkNode (TypeVar n) (Constraints n) (ConstraintIndex n)
            (Adjacencies n) (AdjacencyInfo n)
            (take prevSize (EquivalenceClass n)))
  else None.

(** The graph [g'] has the nodes of [g] at their positions, with the
    same constraints, adjacency counts and classes. *)
Definition sameButFlags (g g' : ConstraintGraph) : Prop :=
  wfGraph g' ∧ TypeVariables g' = TypeVariables g ∧
  Changes g' = Changes g ∧ ActiveScope g' = ActiveScope g ∧
  dom (Nodes g') = dom (Nodes g) ∧
  (∀ v s, Nodes g !! v = Some s →
     ∃ s', Nodes g' !! v = Some s' ∧ NodeIndex s' = NodeIndex s) ∧
  (∀ x, consSet g' x = consSet g x) ∧
  (∀ x y, cntOf g' x y = cntOf g x y) ∧
  (∀ x, rawClass g' x = rawClass g x).

(** [framed g g']: what every mutation guarantees about the registry and
    the change log of the graph [g'] it leaves from the graph [g] it
    found. *)
Record framed (g g' : ConstraintGraph) : Prop := MkFramed {
  framed_scope : ActiveScope g' = ActiveScope g;
  framed_changes : Changes g `prefix_of` Changes g';
  framed_unscoped : ActiveScope g = None → Changes g' = Changes g;
  framed_typeVariables : TypeVariables g `prefix_of` TypeVariables g';
  framed_nodes :
    ∀ v s, Nodes g !! v = Some s →
      ∃ s', Nodes g' !! v = Some s' ∧ NodeIndex s' = NodeIndex s;
  framed_registry : registryAgrees g → registryAgrees g'
}.

(** [g'] is well formed when [g] is. *)
Definition wfKept (g g' : ConstraintGraph) : Prop := wfGraph g → wfGraph g'.

(** The number of constraints of the node that reference [w]. *)
Definition linkedBy (n : Node) (w : TypeVariableType) : nat :=
  length (filter (λ c, w ∈ gatherReferencedTypeVars c) (Constraints n)).

(** The adjacency counts of the node are those its constraints call
    for. *)
Definition nodeConsistent (n : Node) : Prop :=
  wfNode n ∧
  ∀ w, (adjacencyOf n w).1 =
       if decide (w = TypeVar n) then 0 else linkedBy n w.

Definition consistentGraph (g : ConstraintGraph) : Prop :=
  ∀ v s, Nodes g !! v = Some s →
    nodeConsistent (NodePtr s) ∧ TypeVar (NodePtr s) = v.

Definition consKept (g g' : ConstraintGraph) : Prop :=
  consistentGraph g → consistentGraph g'.

(** The graph [g'] has the vectors, scope and node keys of [g]. *)
Definition sameShape (g g' : ConstraintGraph) : Prop :=
  TypeVariables g' = TypeVariables g ∧ Changes g' = Changes g ∧
  ActiveScope g' = ActiveScope g ∧
  ∀ v, Nodes g !! v = None → Nodes g' !! v = None.

(** The node [n'] of [v] is the node [n] after the fixed bindings
    between [tv] and the type variables of [S] have been marked. *)
Definition boundNode (tv : TypeVariableType) (S : gset TypeVariableType)
    (v : TypeVariableType) (n n' : Node) : Prop :=
  wfNode n' ∧ sameButAdjacencies n n' ∧
  Adjacencies n `prefix_of` Adjacencies n' ∧
  ∀ w, adjacencyOf n' w =
         ((adjacencyOf n w).1,
          if decide (boundPair tv S v w) then true
          else (adjacencyOf n w).2) ∧
       (boundPair tv S v w → (adjacencyOf n w).2 = false).

Definition boundBy (tv : TypeVariableType) (S : gset TypeVariableType)
    (g g' : ConstraintGraph) : Prop :=
  sameShape g g' ∧
  ∀ v s, Nodes g !! v = Some s →
    ∃ s', Nodes g' !! v = Some s' ∧ NodeIndex s' = NodeIndex s ∧
          boundNode tv S v (NodePtr s) (NodePtr s').

(** The node [n'] of [v] is the node [n] after the marks between [tv]
    and the type variables of [S] have been taken back. *)
Definition unboundNode (tv : TypeVariableType) (S : gset TypeVariableType)
    (v : TypeVariableType) (n n' : Node) : Prop :=
  wfNode n' ∧ sameButAdjacencies n n' ∧
  (∀ w, adjacencyOf n' w =
          ((adjacencyOf n w).1,
           if decide (boundPair tv S v w) then false
           else (adjacencyOf n w).2)) ∧
  ∀ A, A `prefix_of` Adjacencies n →
       (∀ w, boundPair tv S v w → w ∈ A → (adjacencyOf n w).1 ≠ 0) →
       A `prefix_of` Adjacencies n'.

Definition unboundBy (tv : TypeVariableType) (S : gset TypeVariableType)
    (g g' : ConstraintGraph) : Prop :=
  sameShape g g' ∧
  ∀ v s, Nodes g !! v = Some s →
    ∃ s', Nodes g' !! v = Some s' ∧ NodeIndex s' = NodeIndex s ∧
          unboundNode tv S v (NodePtr s) (NodePtr s').

(** [w] can be reached from [v] along the edges the search follows. *)
Definition reaches (CS : ConstraintSystem) (g : ConstraintGraph)
  : relation TypeVariableType :=
  rtc (λ v w, w ∈ searchEdges CS g v).

(** The type variables of each component before [c] reach one
    another. *)
Definition connectedBelow (CS : ConstraintSystem) (g : ConstraintGraph)
    (c : nat) (comps : list nat) : Prop :=
  ∀ v w m, v ∈ TypeVariables g → w ∈ TypeVariables g →
    markOf g comps v = Some m → markOf g comps w = Some m → m < c →
    reaches CS g v w.

(** [n'] is [n], or [n] with its empty equivalence class seeded with its
    own type variable, as [getEquivalenceClassUnsafe] leaves it. *)
Definition seededNode (n n' : Node) : Prop :=
  n' = n ∨ n' = (NodeOps.getEquivalenceClassUnsafe n).2.

(** [g'] is [g] up to seeded equivalence classes: the same type
    variables, change log and active scope, and the same nodes at the
    same positions. *)
Record seeded (g g' : ConstraintGraph) : Prop := MkSeeded {
  seeded_typeVariables : TypeVariables g' = TypeVariables g;
  seeded_changes : Changes g' = Changes g;
  seeded_scope : ActiveScope g' = ActiveScope g;
  seeded_created : ∀ v, Nodes g !! v = None → Nodes g' !! v = None;
  seeded_nodes : ∀ v s, Nodes g !! v = Some s →
    ∃ s', Nodes g' !! v = Some s' ∧ NodeIndex s' = NodeIndex s ∧
          seededNode (NodePtr s) (NodePtr s')
}.

(** What a search for component [c] marks is reached from where it
    started. *)
Definition marksReached (CS : ConstraintSystem) (g0 : ConstraintGraph)
    (c : nat) (dfs : TypeVariableType → list nat → M (list nat)) : Prop :=
  ∀ v comps g comps' g',
    seeded g0 g → v ∈ TypeVariables g0 →
    dfs v comps g = Ok (comps', g') →
    seeded g0 g' ∧
    ∀ y m, y ∈ TypeVariables g0 → markOf g0 comps' y = Some m →
      markOf g0 comps y = Some m ∨ (m = c ∧ reaches CS g0 v y).

(** What happens while a scope is open: mutations, and further scopes
    that are opened and closed in turn.  Scopes live on the stack, so
    they nest. *)
Inductive Step :=
| StepMutate (call : ConstraintSystem * nat * Mutation)
| StepScope (CS : ConstraintSystem) (fuel : nat) (body : list Step).

Fixpoint runStep (s : Step) : M unit :=
  match s with
  | StepMutate call => mutate call
  | StepScope CS fuel body =>
      scope <- openScope ;;
      (fix each (l : list Step) : M unit :=
         match l with
         | [] => ret tt
         | s' :: l' => runStep s' ;; each l'
         end) body ;;
      closeScope CS fuel scope
  end.

Definition runSteps (steps : list Step) : M unit := forEach steps runStep.






(** The nodes of [g] are kept in [g'], at their positions, and every
    node of [g'] is, but for its equivalence class, the node [g] has for
    its type variable, or a new node. *)
Record keptButClass (g g' : ConstraintGraph) : Prop := MkKeptButClass {
  kbc_kept : ∀ v s, Nodes g !! v = Some s →
    ∃ s', Nodes g' !! v = Some s' ∧ NodeIndex s' = NodeIndex s;
  kbc_same : ∀ v s', Nodes g' !! v = Some s' →
    sameButClass (nodeOr v g) (NodePtr s')
}.

(** ** Examples used below *)

Module Examples.

(** Every type variable is its own representative and none is bound. *)
Definition csFree : ConstraintSystem :=
  MkConstraintSystem (λ v, v) (λ _, None).

(** Type variable 0 has been merged into type variable 1. *)
Definition csMerged : ConstraintSystem :=
  MkConstraintSystem (λ v, if decide (v = 0) then 1 else v) (λ _, None).

(** Type variable 1 is bound to a type without type variables. *)
Definition csBound : ConstraintSystem :=
  MkConstraintSystem (λ v, v) (λ v, if decide (v = 1) then Some [] else None).


Definition cEqual (a : positive) (x y : TypeVariableType) : Constraint :=
  MkConstraint a Equal [x] [y] [] None.

(** A constraint between two types without type variables. *)
Definition cGround : Constraint := MkConstraint 1 Equal [] [] [] None.

(** The state a computation ends in, or the empty graph. *)
Definition stateOf {A} (m : M A) (g : ConstraintGraph) : ConstraintGraph :=
  match m g with Ok (_, g') => g' | _ => emptyGraph end.

(** Nodes for the type variables 0 and 1, in this order. *)
Definition g01 : ConstraintGraph :=
  stateOf (_ <- lookupNode csFree 1 0 ;; lookupNode csFree 1 1) emptyGraph.

(** A node for the type variable 1 only. *)
Definition g1 : ConstraintGraph :=
  stateOf (lookupNode csFree 1 1) emptyGraph.

(** [g01] with an open scope. *)
Definition g01scoped : ConstraintGraph := stateOf openScope g01.

End Examples.

Module Scenario.

Definition calls : list (ConstraintSystem * nat * GraphCall) :=
  [(Examples.csFree, 1, CallAddConstraint (Examples.cEqual 1 0 1));
   (Examples.csFree, 1, CallAddConstraint (Examples.cEqual 2 1 2))].

Definition graph : ConstraintGraph :=
  Examples.stateOf (runCalls calls) emptyGraph.

(** The node of variable 1 and what it records about variable 0. *)
Definition node1 : StoredNode :=
  default (MkStoredNode (newNode 1) 0) (Nodes graph !! 1).

Definition adjacency10 : Adjacency :=
  default (MkAdjacency 0 0 false) (AdjacencyInfo (NodePtr node1) !! 0).

End Scenario.

Module RoundTrip.


(** A constraint between the type variables 0 and 2. *)
Definition zeroTwo : Constraint := Examples.cEqual 7 0 2.

End RoundTrip.

Module Rollback.

(** Type variable 2 is bound to a type that mentions the type variables
    0 and 3. *)
Definition csBound2 : ConstraintSystem :=
  MkConstraintSystem (λ v, v)
    (λ v, if decide (v = 2) then Some [0; 3] else None).

(** Mutations of [Examples.g01] that create the nodes of the type
    variables 2 (bound on creation), 3 and 5, and leave none of the nodes
    0 and 1 as it was. *)
Definition calls : list (ConstraintSystem * nat * Mutation) :=
  [(csBound2, 2, MutAddConstraint (Examples.cEqual 9 0 2));
   (Examples.csMerged, 0, MutMergeNodes 0 1);
   (Examples.csFree, 0, MutBindTypeVariable 1 [0]);
   (Examples.csFree, 0, MutRemoveConstraint (Examples.cEqual 9 0 2));
   (Examples.csFree, 1, MutLookupNode 5)].

Definition scope : ConstraintGraphScope := MkScope None 0.

Definition mutated : ConstraintGraph :=
  Examples.stateOf (mutateAll calls) Examples.g01scoped.

End Rollback.

Module NodeExamples.

(** A node of the type variable 0 with three constraints and no
    adjacency. *)
Definition threeConstraints : Node :=
  MkNode 0
    [Examples.cEqual 1 0 1; Examples.cEqual 2 0 2; Examples.cEqual 3 0 3]
    (<[Examples.cEqual 1 0 1 := 0]>
       (<[Examples.cEqual 2 0 2 := 1]>
          (<[Examples.cEqual 3 0 3 := 2]> ∅))) [] ∅ [].

End NodeExamples.

Module NodeVerify.

(** [_require]: a requirement that fails stops the verification; the
    complaint it prints is not modelled. *)
Definition require (P : Prop) `{Decision P} : option unit :=
  if decide P then Some tt else None.

(** A loop whose body states requirements. *)
Fixpoint requireEach {A} (l : list A) (check : A → option unit)
  : option unit :=
  match l with
  | [] => Some tt
  | x :: l' => _ ← check x; requireEach l' check
  end.

(** The adjacencies [Node::verify] expects from the constraints of the
    node: for every type variable other than the node's own, the number
    of constraints that reference it. *)
Definition expectedAdjacencies (n : Node) : gmap TypeVariableType nat :=
  foldl
    (λ expected constraint,
       foldl
         (λ expected adjTypeVar,
            if decide (adjTypeVar = TypeVar n) then expected
            else <[adjTypeVar := S (default 0 (expected !! adjTypeVar))]>
                   expected)
         expected (gatherReferencedTypeVars constraint))
    ∅ (Constraints n).

(** [Node::verify].  The maps are visited in the order of their list of
    entries; the outcome does not depend on it. *)
Definition verify (n : Node) : option unit :=
  _ ← require (length (Constraints n) = size (ConstraintIndex n));
  _ ← requireEach (map_to_list (ConstraintIndex n))
        (λ info,
           _ ← require (info.2 < length (Constraints n));
           require (Constraints n !! info.2 = Some info.1));
  _ ← require (length (Adjacencies n) = size (AdjacencyInfo n));
  _ ← requireEach (map_to_list (AdjacencyInfo n))
        (λ info,
           _ ← require (Index info.2 < length (Adjacencies n));
           _ ← require (Adjacencies n !! Index info.2 = Some info.1);
           _ ← require (Adjacency_empty info.2 = false);
           require (NumConstraints info.2 ≤ length (Constraints n)));
  let expected := expectedAdjacencies n in
  _ ← requireEach (map_to_list expected)
        (λ adj,
           knownAdj ← AdjacencyInfo n !! adj.1;
           require (adj.2 = NumConstraints knownAdj));
  if decide (size (AdjacencyInfo n) ≠ size expected) then
    requireEach (map_to_list (AdjacencyInfo n))
      (λ adj,
         require (0 < match AdjacencyInfo n !! adj.1 with
                      | Some _ => 1
                      | None => 0
                      end))
  else Some tt.

End NodeVerify.

Module Binding.

(** The graph with the nodes of 0 and 1, in a scope, after type variable
    1 has been bound to a type that mentions type variable 0. *)
Definition bound : ConstraintGraph :=
  Examples.stateOf (bindTypeVariable Examples.csFree 0 1 [0])
    Examples.g01scoped.

End Binding.

Module Nesting.

(** Steps in a scope opened at [Examples.g01]: a constraint that creates
    the nodes of the type variables 2 and 3, then a scope in which 0 is
    merged into 1, 1 is bound and a further scope creates the node of 5,
    then the removal of the constraint. *)
Definition steps : list Step :=
  [StepMutate (Rollback.csBound2, 2,
               MutAddConstraint (Examples.cEqual 9 0 2));
   StepScope Examples.csFree 0
     [StepMutate (Examples.csMerged, 0, MutMergeNodes 0 1);
      StepMutate (Examples.csFree, 0, MutBindTypeVariable 1 [0]);
      StepScope Examples.csFree 0
        [StepMutate (Examples.csFree, 1, MutLookupNode 5)]];
   StepMutate (Examples.csFree, 0,
               MutRemoveConstraint (Examples.cEqual 9 0 2))].

Definition mutated : ConstraintGraph :=
  Examples.stateOf (runSteps steps) Examples.g01scoped.

End Nesting.

Module Reached.

(** From the empty graph: the nodes of 1 and 0 are created, a constraint
    creates those of 2 and 3 in a scope in which further scopes merge,
    bind and create the node of 5; closing the scopes removes the nodes
    of 5, 3 and 2 again. *)
Definition steps : list Step :=
  [StepMutate (Examples.csFree, 1, MutLookupNode 1);
   StepMutate (Examples.csFree, 1, MutLookupNode 0);
   StepScope Examples.csFree 0 Nesting.steps;
   StepMutate (Examples.csFree, 1,
               MutAddConstraint (Examples.cEqual 9 0 2))].

Definition graph : ConstraintGraph :=
  Examples.stateOf (runSteps steps) emptyGraph.

End Reached.

Module Gathered.

(** The node of the type variable 1 exists when 0 is merged into it, so
    that 0 is listed twice in the class of 1; then a constraint between 0
    and 1 is added. *)
Definition graph : ConstraintGraph :=
  Examples.stateOf
    (mergeNodes Examples.csMerged 1 0 1 ;;
     addConstraint Examples.csMerged 0 (Examples.cEqual 5 0 1))
    Examples.g1.

End Gathered.

(** * Properties *)

(** ** The graph monad *)

Lemma bind_Ok {A B} (m : M A) (k : A → M B) g r :
  bind m k g = Ok r ↔ ∃ a g1, m g = Ok (a, g1) ∧ k a g1 = Ok r.
Proof.
  unfold bind. split.
  - destruct (m g) as [[a g1]| |]; [|done..]. eauto.
  - intros (a & g1 & -> & H). done.
Qed.

Lemma ret_Ok {A} (a : A) g r : ret a g = Ok r ↔ r = (a, g).
Proof. unfold ret. split; [by intros [= <-]|by intros ->]. Qed.

Lemma withNode_Ok {A} tv (f : Node → option (A * Node)) g r :
  withNode tv f g = Ok r ↔
  ∃ stored a n', Nodes g !! tv = Some stored ∧
    f (NodePtr stored) = Some (a, n') ∧
    r = (a, MkGraph (<[tv := MkStoredNode n' (NodeIndex stored)]> (Nodes g))
              (TypeVariables g) (Changes g) (ActiveScope g)).
Proof.
  unfold withNode. split.
  - destruct (Nodes g !! tv) as [s|]; [|done].
    destruct (f (NodePtr s)) as [[a n']|] eqn:Hf; [|done].
    intros [= <-]. by exists s, a, n'.
  - intros (s & a & n' & -> & -> & ->). done.
Qed.

Lemma modifyNode_Ok tv (f : Node → option Node) g r :
  modifyNode tv f g = Ok r ↔
  ∃ stored n', Nodes g !! tv = Some stored ∧
    f (NodePtr stored) = Some n' ∧
    r = (tt, MkGraph (<[tv := MkStoredNode n' (NodeIndex stored)]> (Nodes g))
               (TypeVariables g) (Changes g) (ActiveScope g)).
Proof.
  unfold modifyNode. rewrite withNode_Ok. split.
  - intros (s & a & n' & Hs & Hf & ->).
    destruct (f (NodePtr s)) as [n''|] eqn:Hf'; simplify_eq/=.
    eexists _, _; eauto.
  - intros (s & n' & Hs & Hf & ->). exists s, tt, n'. by rewrite Hf.
Qed.

Lemma forEach_nil {A} (body : A → M unit) g : forEach [] body g = Ok (tt, g).
Proof. done. Qed.

Lemma graph_eta g :
  MkGraph (Nodes g) (TypeVariables g) (Changes g) (ActiveScope g) = g.
Proof. by destruct g. Qed.

Lemma node_eta n :
  MkNode (TypeVar n) (Constraints n) (ConstraintIndex n) (Adjacencies n)
    (AdjacencyInfo n) (EquivalenceClass n) = n.
Proof. by destruct n. Qed.

(** ** Constraints without type variables *)

(** C9: when the deduplicated set of type variables referenced by a
    constraint is empty, [addConstraint] changes no node and creates none;
    it only appends one [AddedConstraint] record when a scope is active,
    and nothing otherwise.  [removeConstraint] behaves the same way,
    recording [RemovedConstraint]. *)
Theorem addConstraint_without_type_variables CS fuel c g :
  gatherReferencedTypeVars c = [] →
  addConstraint CS fuel c g =
    Ok (tt, MkGraph (Nodes g) (TypeVariables g)
              (Changes g ++
                 match ActiveScope g with
                 | Some _ => [AddedConstraint c]
                 | None => []
                 end)
              (ActiveScope g)) ∧
  removeConstraint CS fuel c g =
    Ok (tt, MkGraph (Nodes g) (TypeVariables g)
              (Changes g ++
                 match ActiveScope g with
                 | Some _ => [RemovedConstraint c]
                 | None => []
                 end)
              (ActiveScope g)).
Proof.
  intros Hrefs. unfold addConstraint, removeConstraint. rewrite Hrefs.
  unfold bind, recordChange; simpl.
  destruct (ActiveScope g) eqn:Hs; rewrite ?app_nil_r; [done|].
  by rewrite <- Hs, graph_eta.
Qed.

Lemma addConstraint_without_type_variables_witness :
  addConstraint Examples.csFree 0 Examples.cGround Examples.g01scoped =
    Ok (tt, MkGraph (Nodes Examples.g01scoped)
              (TypeVariables Examples.g01scoped)
              [AddedConstraint Examples.cGround]
              (ActiveScope Examples.g01scoped)) ∧
  removeConstraint Examples.csFree 0 Examples.cGround Examples.g01scoped =
    Ok (tt, MkGraph (Nodes Examples.g01scoped)
              (TypeVariables Examples.g01scoped)
              [RemovedConstraint Examples.cGround]
              (ActiveScope Examples.g01scoped)).
Proof.
  apply (addConstraint_without_type_variables Examples.csFree 0
           Examples.cGround Examples.g01scoped).
  reflexivity.
Defined.


(** ** Removing a node *)

(** [removeNode] on the first of two nodes moves the last type variable
    into the freed slot of the vector but leaves the index stored for it
    unchanged: the registry and the vector agreed before the call and
    disagree after it. *)
Example removeNode_keeps_stale_index :
  registryAgrees Examples.g01 ∧
  ∃ g', removeNode 0 Examples.g01 = Ok (tt, g') ∧
        TypeVariables g' = [1] ∧
        NodeIndex <$> Nodes g' !! 1 = Some 1 ∧
        ¬ registryAgrees g'.
Proof.
  split; [by apply (bool_decide_unpack _); vm_compute|].
  eexists. split; [by vm_compute|].
  split; [done|]. split; [by vm_compute|].
  intros H. apply (bool_decide_pack _) in H. by vm_compute in H.
Qed.

(** When the registry and the vector agree, every position of the vector
    is the index stored for the type variable found there. *)
Lemma registryAgrees_position g i v :
  registryAgrees g → TypeVariables g !! i = Some v →
  ∃ s, Nodes g !! v = Some s ∧ NodeIndex s = i.
Proof.
  intros [Hlen Hall] Hi.
  set (L := map_to_list (Nodes g)).
  assert (NoDup ((NodeIndex ∘ snd) <$> L)) as Hnd.
  { apply NoDup_fmap_2_strong; [|apply NoDup_map_to_list].
    intros [w1 s1] [w2 s2] H1%elem_of_map_to_list H2%elem_of_map_to_list Heq.
    simpl in Heq.
    pose proof (Hall w1 s1 H1) as P1. pose proof (Hall w2 s2 H2) as P2.
    simpl in P1, P2. rewrite Heq in P1. simplify_eq. done. }
  assert ((NodeIndex ∘ snd) <$> L ≡ₚ seq 0 (length (TypeVariables g)))
    as Hperm.
  { apply submseteq_length_Permutation.
    - apply NoDup_submseteq; [done|]. intros j Hj.
      apply list_elem_of_fmap in Hj as ([w s] & -> & Hws).
      apply elem_of_map_to_list in Hws. simpl.
      apply elem_of_seq. split; [lia|]. simpl.
      eapply lookup_lt_Some, (Hall w s Hws).
    - rewrite length_seq, length_fmap. unfold L.
      rewrite length_map_to_list. lia. }
  assert (i ∈ (NodeIndex ∘ snd) <$> L) as Hin.
  { rewrite Hperm. apply elem_of_seq. apply lookup_lt_Some in Hi. lia. }
  apply list_elem_of_fmap in Hin as ([w s] & Hidx & Hws).
  apply elem_of_map_to_list in Hws. simpl in Hidx.
  pose proof (Hall w s Hws) as P. simpl in P. rewrite <- Hidx in P.
  simplify_eq. eauto.
Qed.

Lemma registryAgrees_NoDup g : registryAgrees g → NoDup (TypeVariables g).
Proof.
  intros Hag. apply NoDup_alt. intros i j v Hi Hj.
  destruct (registryAgrees_position g i v Hag Hi) as (s1 & H1 & <-).
  destruct (registryAgrees_position g j v Hag Hj) as (s2 & H2 & <-).
  congruence.
Qed.

Lemma lookup_pop_back {A} (l : list A) i :
  i < length l - 1 → pop_back l !! i = l !! i.
Proof. intros Hi. unfold pop_back. by rewrite lookup_take_lt. Qed.

Lemma length_pop_back {A} (l : list A) : length (pop_back l) = length l - 1.
Proof. unfold pop_back. rewrite length_take. lia. Qed.

(** X1: when the registry and the vector agree and [v] has a node,
    [removeNode] returns; it erases the registry entry of [v] and
    overwrites the slot of [v] with the last type variable [l] before
    dropping the last slot, and it leaves every stored index as it was.
    The entries of all type variables but [l] still name their position;
    when [l] is not [v] the entry of [l] still names the dropped last
    position while [l] now sits in the slot [v] had.  So the registry and
    the vector agree again exactly when [v] was the last type variable. *)
Theorem removeNode_agrees_iff_last v s g :
  registryAgrees g → Nodes g !! v = Some s →
  ∃ l g',
    last (TypeVariables g) = Some l ∧
    removeNode v g = Ok (tt, g') ∧
    Nodes g' = delete v (Nodes g) ∧
    TypeVariables g' = pop_back (<[NodeIndex s := l]> (TypeVariables g)) ∧
    (v ∉ TypeVariables g') ∧
    (∀ w s', Nodes g' !! w = Some s' → w ≠ l →
       TypeVariables g' !! NodeIndex s' = Some w) ∧
    (l ≠ v →
       ∃ sl, Nodes g' !! l = Some sl ∧
             NodeIndex sl = length (TypeVariables g') ∧
             TypeVariables g' !! NodeIndex s = Some l) ∧
    (registryAgrees g' ↔ l = v).
Proof.
  intros Hag Hs. pose proof Hag as [Hlen Hall].
  pose proof (registryAgrees_NoDup g Hag) as Hnd.
  pose proof (Hall v s Hs) as Hpos. simpl in Hpos.
  pose proof (lookup_lt_Some _ _ _ Hpos) as Hlt.
  assert (∃ x xs, TypeVariables g = x :: xs) as (x & xs & Htv).
  { destruct (TypeVariables g); [simpl in Hlt; lia|eauto]. }
  set (n := length (TypeVariables g)) in *.
  destruct (TypeVariables g !! (n - 1)) as [l|] eqn:Hl.
  2:{ apply lookup_ge_None in Hl. fold n in Hl. lia. }
  assert (last (TypeVariables g) = Some l) as Hlast.
  { rewrite last_lookup. fold n. by replace (pred n) with (n - 1) by lia. }
  set (tvs := pop_back (<[NodeIndex s := l]> (TypeVariables g))).
  assert (removeNode v g =
            Ok (tt, MkGraph (delete v (Nodes g)) tvs (Changes g)
                      (ActiveScope g))) as Hrun.
  { unfold removeNode. rewrite Hs.
    rewrite Htv at 1. fold n. case_decide as Hc.
    - by rewrite Hl.
    - assert (NodeIndex s = n - 1) as Hi by lia.
      unfold tvs. rewrite Hi, list_insert_id by done. done. }
  assert (length tvs = n - 1) as Hlen'.
  { unfold tvs. by rewrite length_pop_back, length_insert. }
  assert (∀ j, j < n - 1 → j ≠ NodeIndex s →
               tvs !! j = TypeVariables g !! j) as Hother.
  { intros j Hj Hne. unfold tvs.
    rewrite lookup_pop_back by (rewrite length_insert; fold n; lia).
    by rewrite list_lookup_insert_ne. }
  assert (NodeIndex s < n - 1 → tvs !! NodeIndex s = Some l) as Hmoved.
  { intros Hi. unfold tvs.
    rewrite lookup_pop_back by (rewrite length_insert; fold n; lia).
    apply list_lookup_insert_eq. fold n. lia. }
  assert (l = v ↔ NodeIndex s = n - 1) as Hlv.
  { split.
    - intros ->. eapply NoDup_lookup; done.
    - intros Hi. rewrite Hi in Hpos. congruence. }
  assert (∀ w s', delete v (Nodes g) !! w = Some s' → w ≠ l →
            tvs !! NodeIndex s' = Some w) as Hkept.
  { intros w s' Hw Hwl. apply lookup_delete_Some in Hw as [Hwv Hw].
    pose proof (Hall w s' Hw) as Hp. simpl in Hp.
    rewrite Hother; [done| |].
    - pose proof (lookup_lt_Some _ _ _ Hp). fold n in H.
      destruct (decide (NodeIndex s' = n - 1)) as [e|]; [|lia].
      rewrite e in Hp. congruence.
    - intros e. rewrite e in Hp. congruence. }
  exists l, (MkGraph (delete v (Nodes g)) tvs (Changes g) (ActiveScope g)).
  simpl. split_and!; [done..| | | |].
  - intros Hin. apply list_elem_of_lookup in Hin as [j Hj].
    pose proof (lookup_lt_Some _ _ _ Hj) as Hjlt. rewrite Hlen' in Hjlt.
    destruct (decide (j = NodeIndex s)) as [->|Hne].
    + rewrite Hmoved in Hj by done.
      assert (NodeIndex s = n - 1); [|lia]. apply Hlv. congruence.
    + rewrite Hother in Hj by done.
      apply Hne. eapply NoDup_lookup; done.
  - done.
  - intros Hne.
    destruct (registryAgrees_position g (n - 1) l Hag Hl) as (sl & Hsl & Hi).
    exists sl. split_and!.
    + rewrite lookup_delete_ne by done. done.
    + lia.
    + apply Hmoved. destruct (decide (NodeIndex s = n - 1)) as [e|]; [|lia].
      apply Hlv in e. done.
  - split.
    + intros [Hlen2 Hall2]. simpl in *.
      destruct (decide (l = v)) as [|Hne]; [done|]. exfalso.
      destruct (registryAgrees_position g (n - 1) l Hag Hl)
        as (sl & Hsl & Hi).
      assert (delete v (Nodes g) !! l = Some sl) as Hd
        by by rewrite lookup_delete_ne.
      pose proof (Hall2 l sl Hd) as Hp. simpl in Hp.
      apply lookup_lt_Some in Hp. lia.
    + intros ->. split; simpl.
      * rewrite Hlen', map_size_delete, Hs. fold n in Hlen. lia.
      * intros w s' Hw. simpl. apply Hkept; [done|].
        apply lookup_delete_Some in Hw as [? _]. done.
Qed.

Lemma removeNode_agrees_iff_last_witness :
  ∃ l g',
    last (TypeVariables Examples.g01) = Some l ∧
    removeNode 0 Examples.g01 = Ok (tt, g') ∧
    Nodes g' = delete 0 (Nodes Examples.g01) ∧
    TypeVariables g' =
      pop_back (<[0 := l]> (TypeVariables Examples.g01)) ∧
    (0 ∉ TypeVariables g') ∧
    (∀ w s', Nodes g' !! w = Some s' → w ≠ l →
       TypeVariables g' !! NodeIndex s' = Some w) ∧
    (l ≠ 0 →
       ∃ sl, Nodes g' !! l = Some sl ∧
             NodeIndex sl = length (TypeVariables g') ∧
             TypeVariables g' !! 0 = Some l) ∧
    (registryAgrees g' ↔ l = 0).
Proof.
  apply (removeNode_agrees_iff_last 0 (MkStoredNode (newNode 0) 0)
           Examples.g01).
  - by apply (bool_decide_unpack _); vm_compute.
  - by vm_compute.
Defined.

(** ** Merging nodes *)

(** C4: when the non-representative variable has no node, [mergeNodes]
    creates it through [lookupNode], which already merges it into its
    representative; [mergeNodes] then appends its class once more, and the
    variable occurs twice in the class of its representative. *)
Theorem mergeNodes_fresh_node_occurs_twice :
  Nodes Examples.g1 !! 0 = None ∧
  getRepresentative Examples.csMerged 0 = getRepresentative Examples.csMerged 1 ∧
  ∃ g' s, mergeNodes Examples.csMerged 1 0 1 Examples.g1 = Ok (tt, g') ∧
          Nodes g' !! getRepresentative Examples.csMerged 0 = Some s ∧
          EquivalenceClass (NodePtr s) = [1; 0; 0] ∧
          length (filter (λ m, m = 0) (EquivalenceClass (NodePtr s))) = 2.
Proof.
  split; [by vm_compute|]. split; [done|].
  eexists _, _. split; [by vm_compute|].
  split; [by vm_compute|]. split; by vm_compute.
Qed.

(** ** Vectors with an index map

    A node keeps its constraints, and its adjacencies, in a vector and in
    a map from each element to its position, and removes an element by
    moving the last one into its slot. *)

Section IndexedVector.
Context {K : Type} `{EqDecision K}.

Lemma indexed_NoDup (idx : K → option nat) (l : list K) : indexed idx l → NoDup l.
Proof.
  intros H. apply NoDup_alt. intros i j k Hi Hj.
  apply H in Hi, Hj. congruence.
Qed.

Lemma indexed_elem_of (idx : K → option nat) (l : list K) k : indexed idx l → is_Some (idx k) ↔ k ∈ l.
Proof.
  intros H. rewrite list_elem_of_lookup. split.
  - intros [i Hi]. exists i. by apply H.
  - intros [i Hi]. exists i. by apply H.
Qed.

Lemma indexed_None (idx : K → option nat) (l : list K) k : indexed idx l → idx k = None ↔ k ∉ l.
Proof.
  intros H. rewrite <- (indexed_elem_of idx l k H).
  rewrite <- not_eq_None_Some. destruct (idx k); naive_solver.
Qed.

Lemma pop_back_snoc (l : list K) k : pop_back (l ++ [k]) = l.
Proof.
  unfold pop_back. rewrite length_app. simpl.
  replace (length l + 1 - 1) with (length l) by lia.
  by rewrite take_app_length.
Qed.

Lemma lookup_last_snoc (l : list K) k :
  l !! (length l - 1) = Some k → l = pop_back l ++ [k].
Proof.
  destruct l as [|x l0 _] using rev_ind; [done|].
  rewrite length_app. simpl.
  replace (length l0 + 1 - 1) with (length l0) by lia.
  rewrite lookup_app_r, Nat.sub_diag by lia. simpl. intros [= ->].
  by rewrite pop_back_snoc.
Qed.

Lemma indexed_push (idx : K → option nat) (l : list K) k :
  indexed idx l → idx k = None →
  indexed (λ j, if decide (j = k) then Some (length l) else idx j) (l ++ [k]).
Proof.
  intros H Hk j i. pose proof (proj1 (indexed_None idx l k H) Hk) as Hnotin.
  destruct (decide (j = k)) as [->|Hne].
  - split.
    + intros [= <-]. by rewrite lookup_app_r, Nat.sub_diag by lia.
    + intros Hi. destruct (decide (i < length l)) as [Hlt|Hge].
      * rewrite lookup_app_l in Hi by done.
        exfalso. apply Hnotin. by eapply list_elem_of_lookup_2.
      * apply lookup_lt_Some in Hi. rewrite length_app in Hi. simpl in Hi.
        f_equal. lia.
  - rewrite (H j i). split.
    + intros Hi. rewrite lookup_app_l; [done|]. by eapply lookup_lt_Some.
    + intros Hi. destruct (decide (i < length l)) as [Hlt|Hge].
      * by rewrite lookup_app_l in Hi.
      * rewrite lookup_app_r in Hi by lia.
        destruct (i - length l) as [|?]; simplify_eq/=.
Qed.

Lemma indexed_pop (idx : K → option nat) (l : list K) k :
  indexed idx l → l !! (length l - 1) = Some k →
  indexed (λ j, if decide (j = k) then None else idx j) (pop_back l).
Proof.
  intros H Hk j i. pose proof (indexed_NoDup _ _ H) as Hnd.
  pose proof (lookup_last_snoc l k Hk) as Hl.
  set (l0 := pop_back l) in *. clearbody l0. subst l.
  apply NoDup_app in Hnd as (_ & Hdisj & _).
  destruct (decide (j = k)) as [->|Hne].
  - split; [done|]. intros Hi. exfalso.
    apply (Hdisj k); [by eapply list_elem_of_lookup_2|set_solver].
  - rewrite (H j i). split.
    + intros Hi. destruct (decide (i < length l0)) as [Hlt|Hge].
      * by rewrite lookup_app_l in Hi.
      * rewrite lookup_app_r in Hi by lia.
        destruct (i - length l0) as [|?]; simplify_eq/=.
    + intros Hi. rewrite lookup_app_l; [done|]. by eapply lookup_lt_Some.
Qed.

Lemma indexed_swap (idx : K → option nat) (l : list K) k kl i :
  indexed idx l → l !! i = Some k → i ≠ length l - 1 →
  l !! (length l - 1) = Some kl →
  kl ≠ k ∧
  indexed (λ j, if decide (j = kl) then Some i
               else if decide (j = k) then None else idx j)
    (pop_back (<[i := kl]> l)).
Proof.
  intros H Hi Hne Hkl. pose proof (indexed_NoDup _ _ H) as Hnd.
  assert (kl ≠ k) as Hkk.
  { intros ->. apply Hne. eapply NoDup_lookup; eauto. }
  split; [done|].
  pose proof (lookup_last_snoc l kl Hkl) as Hl.
  assert (i < length l - 1) as Hlt.
  { apply lookup_lt_Some in Hi. lia. }
  set (l0 := pop_back l) in *. clearbody l0. subst l.
  rewrite length_app in Hlt, Hne. simpl in *.
  assert (i < length l0) as Hlt0 by lia.
  rewrite insert_app_l by done.
  rewrite pop_back_snoc.
  rewrite lookup_app_l in Hi by done.
  apply NoDup_app in Hnd as (Hnd0 & Hdisj & _).
  assert (kl ∉ l0) as Hklnot.
  { intros Hin. apply (Hdisj kl Hin). set_solver. }
  intros j p. destruct (decide (j = kl)) as [->|Hjkl].
  - split.
    + intros [= <-]. by rewrite list_lookup_insert_eq.
    + intros Hp. destruct (decide (p = i)) as [->|Hpi]; [done|].
      rewrite list_lookup_insert_ne in Hp by done.
      exfalso. apply Hklnot. by eapply list_elem_of_lookup_2.
  - destruct (decide (j = k)) as [->|Hjk].
    + split; [done|]. intros Hp. exfalso.
      destruct (decide (p = i)) as [->|Hpi].
      * rewrite list_lookup_insert_eq in Hp by done. congruence.
      * rewrite list_lookup_insert_ne in Hp by done.
        apply Hpi. eapply NoDup_lookup; eauto.
    + rewrite (H j p). split.
      * intros Hp. destruct (decide (p < length l0)) as [Hplt|Hpge].
        -- rewrite lookup_app_l in Hp by done.
           rewrite list_lookup_insert_ne; [done|]. congruence.
        -- rewrite lookup_app_r in Hp by lia.
           destruct (p - length l0) as [|?]; simplify_eq/=.
      * intros Hp. destruct (decide (p = i)) as [->|Hpi].
        -- rewrite list_lookup_insert_eq in Hp by done. congruence.
        -- rewrite list_lookup_insert_ne in Hp by done.
           rewrite lookup_app_l; [done|]. by eapply lookup_lt_Some.
Qed.

Lemma pop_Permutation (l : list K) k :
  l !! (length l - 1) = Some k → l ≡ₚ k :: pop_back l.
Proof.
  intros Hk. rewrite (lookup_last_snoc l k Hk) at 1.
  by rewrite Permutation_app_comm.
Qed.

Lemma swap_Permutation (l : list K) k kl i :
  l !! i = Some k → i ≠ length l - 1 → l !! (length l - 1) = Some kl →
  l ≡ₚ k :: pop_back (<[i := kl]> l).
Proof.
  intros Hi Hne Hkl.
  pose proof (lookup_last_snoc l kl Hkl) as Hl.
  assert (i < length l - 1) as Hlt.
  { apply lookup_lt_Some in Hi. lia. }
  set (l0 := pop_back l) in *. clearbody l0. subst l.
  rewrite length_app in Hlt. simpl in *.
  rewrite insert_app_l by lia. rewrite pop_back_snoc.
  rewrite lookup_app_l in Hi by lia.
  rewrite insert_take_drop by lia.
  rewrite <- (take_drop_middle l0 i k Hi) at 1.
  etrans; [apply Permutation_app_comm|]. simpl.
  rewrite <- !Permutation_middle. apply Permutation_swap.
Qed.

End IndexedVector.

(** ** Node mutation *)

Lemma wfNode_newNode tv : wfNode (newNode tv).
Proof.
  split; simpl.
  - intros c i. by rewrite lookup_empty, lookup_nil.
  - intros v i. by rewrite lookup_empty, lookup_nil.
  - intros v a. by rewrite lookup_empty.
Qed.

Lemma adjacencyOf_nonempty n v :
  wfNode n → AdjacencyInfo n !! v = None ↔ adjacencyOf n v = (0, false).
Proof.
  intros Hwf. unfold adjacencyOf.
  destruct (AdjacencyInfo n !! v) as [a|] eqn:Ha; [|done].
  split; [done|]. intros [= Hc Hf].
  pose proof (wf_nonempty n Hwf v a Ha) as He.
  unfold Adjacency_empty in He. rewrite Hc, Hf in He. done.
Qed.

Lemma sameButAdjacencies_refl n : sameButAdjacencies n n.
Proof. done. Qed.

Lemma sameButAdjacencies_trans n1 n2 n3 :
  sameButAdjacencies n1 n2 → sameButAdjacencies n2 n3 →
  sameButAdjacencies n1 n3.
Proof. unfold sameButAdjacencies. intros (?&?&?&?) (?&?&?&?). split_and!; congruence. Qed.

Lemma addConstraint_Some c n n' :
  NodeOps.addConstraint c n = Some n' ↔
  ConstraintIndex n !! c = None ∧
  n' = MkNode (TypeVar n) (Constraints n ++ [c])
         (<[c := length (Constraints n)]> (ConstraintIndex n))
         (Adjacencies n) (AdjacencyInfo n) (EquivalenceClass n).
Proof.
  unfold NodeOps.addConstraint.
  destruct (ConstraintIndex n !! c); naive_solver.
Qed.

Lemma addConstraint_wf c n n' :
  wfNode n → NodeOps.addConstraint c n = Some n' → wfNode n'.
Proof.
  intros [Hc Ha He] (Hnone & ->)%addConstraint_Some. split; simpl; [|done..].
  intros k i. rewrite lookup_insert.
  pose proof (indexed_push _ _ c Hc Hnone k i) as Hp. simpl in Hp.
  destruct (decide (k = c)), (decide (c = k)); simplify_eq; done.
Qed.

Lemma removeConstraint_spec c n :
  wfNode n → c ∈ Constraints n →
  ∃ n', NodeOps.removeConstraint c n = Some n' ∧ wfNode n' ∧
        Constraints n ≡ₚ c :: Constraints n' ∧
        TypeVar n' = TypeVar n ∧ Adjacencies n' = Adjacencies n ∧
        AdjacencyInfo n' = AdjacencyInfo n ∧
        EquivalenceClass n' = EquivalenceClass n.
Proof.
  intros [Hc Ha He] Hin.
  apply (indexed_elem_of _ _ _ Hc) in Hin as [index Hidx].
  pose proof (proj1 (Hc c index) Hidx) as Hlook.
  unfold NodeOps.removeConstraint. rewrite Hidx, Hlook.
  rewrite decide_True by done.
  destruct (decide (index = length (Constraints n) - 1)) as [->|Hne].
  - eexists. split; [done|]. split_and!; simpl; try done.
    + split; simpl; [|done..].
      intros k i. rewrite lookup_delete.
      pose proof (indexed_pop _ _ c Hc Hlook k i) as Hp. simpl in Hp.
      destruct (decide (k = c)), (decide (c = k)); simplify_eq; done.
    + by apply pop_Permutation.
  - assert (is_Some (Constraints n !! (length (Constraints n) - 1)))
      as [lastC Hlast].
    { apply lookup_lt_is_Some. apply lookup_lt_Some in Hlook. lia. }
    rewrite Hlast. eexists. split; [done|]. split_and!; simpl; try done.
    + split; simpl; [|done..].
      destruct (indexed_swap _ _ c lastC index Hc Hlook Hne Hlast)
        as [Hkk Hs].
      intros k i. rewrite lookup_insert, lookup_delete.
      specialize (Hs k i). simpl in Hs.
      destruct (decide (k = lastC)), (decide (lastC = k)),
        (decide (k = c)), (decide (c = k)); simplify_eq; done.
    + by eapply swap_Permutation.
Qed.

Lemma removeConstraint_Some_elem_of c n n' :
  wfNode n → NodeOps.removeConstraint c n = Some n' → c ∈ Constraints n.
Proof.
  intros Hwf. unfold NodeOps.removeConstraint.
  destruct (ConstraintIndex n !! c) as [i|] eqn:Hi; [|done]. intros _.
  apply (indexed_elem_of _ _ _ (wf_constraints n Hwf)). by exists i.
Qed.

Lemma adjacencyOf_Some n v a :
  AdjacencyInfo n !! v = Some a →
  adjacencyOf n v = (NumConstraints a, FixedBinding a).
Proof. unfold adjacencyOf. by intros ->. Qed.

(** Obtaining the slot of [v] with [getAdjacency] and writing the counts
    [cnt] and [fx] into it. *)
Lemma getAdjacency_set_spec v n cnt fx :
  wfNode n → v ≠ TypeVar n → Adjacency_empty (MkAdjacency 0 cnt fx) = false →
  ∃ a n1, NodeOps.getAdjacency v n = Some (a, n1) ∧
    (NumConstraints a, FixedBinding a) = adjacencyOf n v ∧
    let n' := NodeOps.setAdjacency v (MkAdjacency (Index a) cnt fx) n1 in
    wfNode n' ∧ sameButAdjacencies n n' ∧
    adjacencyOf n' v = (cnt, fx) ∧
    ∀ w, w ≠ v → adjacencyOf n' w = adjacencyOf n w.
Proof.
  intros [Hc Ha He] Hv Hne. unfold NodeOps.getAdjacency.
  rewrite decide_False by done.
  destruct (AdjacencyInfo n !! v) as [a|] eqn:Hslot.
  - exists a, n. split; [done|]. split; [by rewrite (adjacencyOf_Some n v a)|].
    unfold NodeOps.setAdjacency; simpl. split_and!.
    + split; simpl; [done| |].
      * intros w i. rewrite <- (Ha w i). rewrite lookup_insert.
        destruct (decide (v = w)) as [<-|]; [|done]. by rewrite Hslot.
      * intros w b. rewrite lookup_insert.
        destruct (decide (v = w)) as [<-|]; [|by apply He].
        intros [= <-]. done.
    + done.
    + unfold adjacencyOf. simpl. by rewrite lookup_insert_eq.
    + intros w Hw. unfold adjacencyOf. simpl. by rewrite lookup_insert_ne.
  - eexists _, _. split; [done|].
    split; [by unfold adjacencyOf; rewrite Hslot|].
    unfold NodeOps.setAdjacency; simpl. rewrite insert_insert_eq. split_and!.
    + split; simpl; [done| |].
      * intros w i. rewrite lookup_insert.
        assert ((Index <$> AdjacencyInfo n !! v) = None) as Hnone
          by by rewrite Hslot.
        pose proof (indexed_push _ _ v Ha Hnone w i) as Hp. simpl in Hp.
        destruct (decide (w = v)), (decide (v = w)); simplify_eq; done.
      * intros w b. rewrite lookup_insert.
        destruct (decide (v = w)) as [<-|]; [|by apply He].
        intros [= <-]. done.
    + done.
    + unfold adjacencyOf. simpl. by rewrite lookup_insert_eq.
    + intros w Hw. unfold adjacencyOf. simpl. by rewrite lookup_insert_ne.
Qed.

Lemma addAdjacency_spec v n :
  wfNode n → v ≠ TypeVar n →
  ∃ n', NodeOps.addAdjacency v n = Some n' ∧ wfNode n' ∧
    sameButAdjacencies n n' ∧
    adjacencyOf n' v = (S (adjacencyOf n v).1, (adjacencyOf n v).2) ∧
    ∀ w, w ≠ v → adjacencyOf n' w = adjacencyOf n w.
Proof.
  intros Hwf Hv.
  destruct (getAdjacency_set_spec v n (S (adjacencyOf n v).1)
              (adjacencyOf n v).2 Hwf Hv) as (a & n1 & Hg & Ha & H).
  { unfold Adjacency_empty. simpl. apply andb_false_r. }
  unfold NodeOps.addAdjacency. rewrite Hg. simpl.
  rewrite <- Ha in H. simpl in H. rewrite <- Ha. simpl. eauto.
Qed.

Lemma addAdjacency_Some_ne v n n' :
  NodeOps.addAdjacency v n = Some n' → v ≠ TypeVar n.
Proof.
  unfold NodeOps.addAdjacency, NodeOps.getAdjacency.
  by destruct (decide (v = TypeVar n)).
Qed.

Lemma addFixedBinding_spec v n :
  wfNode n → v ≠ TypeVar n → (adjacencyOf n v).2 = false →
  ∃ n', NodeOps.addFixedBinding v n = Some n' ∧ wfNode n' ∧
    sameButAdjacencies n n' ∧
    adjacencyOf n' v = ((adjacencyOf n v).1, true) ∧
    ∀ w, w ≠ v → adjacencyOf n' w = adjacencyOf n w.
Proof.
  intros Hwf Hv Hfx.
  destruct (getAdjacency_set_spec v n (adjacencyOf n v).1 true Hwf Hv)
    as (a & n1 & Hg & Ha & H); [done|].
  unfold NodeOps.addFixedBinding. rewrite Hg. simpl.
  rewrite <- Ha in H, Hfx. simpl in *. rewrite Hfx, <- Ha. simpl. eauto.
Qed.

Lemma addFixedBinding_Some_inv v n n' :
  NodeOps.addFixedBinding v n = Some n' →
  v ≠ TypeVar n ∧ (adjacencyOf n v).2 = false.
Proof.
  unfold NodeOps.addFixedBinding, NodeOps.getAdjacency, adjacencyOf.
  destruct (decide (v = TypeVar n)); [done|].
  destruct (AdjacencyInfo n !! v) as [a|]; simpl; [|done].
  by destruct (FixedBinding a).
Qed.

Lemma modifyAdjacency_spec v modify n a a' :
  wfNode n → AdjacencyInfo n !! v = Some a → modify a = Some a' →
  Index a' = Index a →
  ∃ n', NodeOps.modifyAdjacency v modify n = Some n' ∧ wfNode n' ∧
    sameButAdjacencies n n' ∧
    adjacencyOf n' v =
      (if Adjacency_empty a' then (0, false)
       else (NumConstraints a', FixedBinding a')) ∧
    ∀ w, w ≠ v → adjacencyOf n' w = adjacencyOf n w.
Proof.
  intros [Hc Ha He] Hslot Hmod Hidx.
  assert (Adjacencies n !! Index a = Some v) as Hpos.
  { apply (Ha v (Index a)). by rewrite Hslot. }
  unfold NodeOps.modifyAdjacency. rewrite Hslot, Hpos.
  rewrite decide_True by done. rewrite Hmod.
  destruct (Adjacency_empty a') eqn:Hempty; simpl.
  - rewrite Hidx.
    destruct (decide (Index a = length (Adjacencies n) - 1)) as [Hlast|Hne].
    + eexists. split; [done|]. split_and!.
      * split; simpl; [done| |].
        -- rewrite Hlast in Hpos.
           intros w i. rewrite lookup_delete.
           pose proof (indexed_pop _ _ v Ha Hpos w i) as Hp. simpl in Hp.
           destruct (decide (w = v)), (decide (v = w)); simplify_eq; done.
        -- intros w b. rewrite lookup_delete.
           destruct (decide (v = w)); [done|]. by apply He.
      * done.
      * unfold adjacencyOf. simpl. by rewrite lookup_delete_eq.
      * intros w Hw. unfold adjacencyOf. simpl. by rewrite lookup_delete_ne.
    + assert (is_Some (Adjacencies n !! (length (Adjacencies n) - 1)))
        as [lastTV Hlast].
      { apply lookup_lt_is_Some. apply lookup_lt_Some in Hpos. lia. }
      rewrite Hlast.
      destruct (indexed_swap _ _ v lastTV (Index a) Ha Hpos Hne Hlast)
        as [Hkk Hs].
      assert (is_Some (AdjacencyInfo n !! lastTV)) as [aL HaL].
      { pose proof (proj2 (Ha lastTV _) Hlast) as HL.
        simpl in HL. destruct (AdjacencyInfo n !! lastTV); [eauto|done]. }
      rewrite lookup_delete_ne by done. rewrite HaL. simpl.
      eexists. split; [done|]. split_and!.
      * split; simpl; [done| |].
        -- intros w i. rewrite lookup_insert, lookup_delete.
           specialize (Hs w i). simpl in Hs.
           destruct (decide (w = lastTV)), (decide (lastTV = w)),
             (decide (w = v)), (decide (v = w)); simplify_eq; done.
        -- intros w b. rewrite lookup_insert.
           destruct (decide (lastTV = w)) as [<-|Hw].
           ++ intros [= <-]. pose proof (He _ _ HaL) as HeL.
              by destruct aL.
           ++ rewrite lookup_delete.
              destruct (decide (v = w)); [done|]. by apply He.
      * done.
      * unfold adjacencyOf. simpl.
        rewrite lookup_insert_ne by done. by rewrite lookup_delete_eq.
      * intros w Hw. unfold adjacencyOf. simpl.
        rewrite lookup_insert.
        destruct (decide (lastTV = w)) as [<-|Hw'].
        -- by rewrite HaL.
        -- by rewrite lookup_delete_ne.
  - eexists. split; [done|]. split_and!.
    + split; simpl; [done| |].
      * intros w i. rewrite <- (Ha w i). rewrite lookup_insert.
        destruct (decide (v = w)) as [<-|]; [|done].
        rewrite Hslot. simpl. by rewrite Hidx.
      * intros w b. rewrite lookup_insert.
        destruct (decide (v = w)) as [<-|]; [|by apply He].
        by intros [= <-].
    + done.
    + unfold adjacencyOf. simpl. by rewrite lookup_insert_eq.
    + intros w Hw. unfold adjacencyOf. simpl. by rewrite lookup_insert_ne.
Qed.

Lemma removeAdjacency_spec v n k :
  wfNode n → (adjacencyOf n v).1 = S k →
  ∃ n', NodeOps.removeAdjacency v n = Some n' ∧ wfNode n' ∧
    sameButAdjacencies n n' ∧
    adjacencyOf n' v = (k, (adjacencyOf n v).2) ∧
    ∀ w, w ≠ v → adjacencyOf n' w = adjacencyOf n w.
Proof.
  intros Hwf Hk. unfold adjacencyOf in Hk |- * at 2.
  destruct (AdjacencyInfo n !! v) as [a|] eqn:Hslot; [|done].
  simpl in Hk.
  destruct (modifyAdjacency_spec v
    (λ adj, match NumConstraints adj with
            | 0 => None
            | S k => Some (MkAdjacency (Index adj) k (FixedBinding adj))
            end) n a (MkAdjacency (Index a) k (FixedBinding a)) Hwf Hslot)
    as (n' & Hm & Hwf' & Hsame & Hv & Hw); [by rewrite Hk|done|].
  exists n'. split; [done|]. split_and!; [done..| |done].
  rewrite Hv. unfold Adjacency_empty. simpl.
  destruct (FixedBinding a), k; done.
Qed.

Lemma removeAdjacency_Some_inv v n n' :
  NodeOps.removeAdjacency v n = Some n' → ∃ k, (adjacencyOf n v).1 = S k.
Proof.
  unfold NodeOps.removeAdjacency, NodeOps.modifyAdjacency, adjacencyOf.
  destruct (AdjacencyInfo n !! v) as [a|]; [|done].
  destruct (Adjacencies n !! Index a); [|done].
  case_decide; [|done]. simpl.
  destruct (NumConstraints a); [done|]. eauto.
Qed.

Lemma removeFixedBinding_spec v n :
  wfNode n → (adjacencyOf n v).2 = true →
  ∃ n', NodeOps.removeFixedBinding v n = Some n' ∧ wfNode n' ∧
    sameButAdjacencies n n' ∧
    adjacencyOf n' v = ((adjacencyOf n v).1, false) ∧
    ∀ w, w ≠ v → adjacencyOf n' w = adjacencyOf n w.
Proof.
  intros Hwf Hk. unfold adjacencyOf in Hk |- * at 2.
  destruct (AdjacencyInfo n !! v) as [a|] eqn:Hslot; [|done].
  simpl in Hk.
  destruct (modifyAdjacency_spec v
    (λ adj, if FixedBinding adj
            then Some (MkAdjacency (Index adj) (NumConstraints adj) false)
            else None) n a (MkAdjacency (Index a) (NumConstraints a) false)
    Hwf Hslot)
    as (n' & Hm & Hwf' & Hsame & Hv & Hw); [by rewrite Hk|done|].
  exists n'. split; [done|]. split_and!; [done..| |done].
  rewrite Hv. unfold Adjacency_empty. simpl.
  case_bool_decide as Hz; simpl; [by rewrite Hz|done].
Qed.

Lemma removeFixedBinding_Some_inv v n n' :
  NodeOps.removeFixedBinding v n = Some n' → (adjacencyOf n v).2 = true.
Proof.
  unfold NodeOps.removeFixedBinding, NodeOps.modifyAdjacency, adjacencyOf.
  destruct (AdjacencyInfo n !! v) as [a|]; [|done].
  destruct (Adjacencies n !! Index a); [|done].
  case_decide; [|done]. simpl.
  by destruct (FixedBinding a).
Qed.

(** ** What node creation leaves alone *)

Lemma nodeKept_refl n : nodeKept n n.
Proof. done. Qed.

Lemma nodeKept_trans n1 n2 n3 :
  nodeKept n1 n2 → nodeKept n2 n3 → nodeKept n1 n3.
Proof.
  intros (?&?&?&H12) (?&?&?&H23). split_and!; [congruence..|].
  intros Hwf. destruct (H12 Hwf) as [Hwf2 Hc2].
  destruct (H23 Hwf2) as [Hwf3 Hc3]. split; [done|].
  intros w. by rewrite Hc3.
Qed.

Lemma nodeKept_sameButAdjacencies n n' :
  sameButAdjacencies n n' →
  (wfNode n → wfNode n' ∧ ∀ w, (adjacencyOf n' w).1 = (adjacencyOf n w).1) →
  nodeKept n n'.
Proof. intros (?&?&?&?) ?. done. Qed.

Lemma nodeKept_class n cls :
  nodeKept n (MkNode (TypeVar n) (Constraints n) (ConstraintIndex n)
                (Adjacencies n) (AdjacencyInfo n) cls).
Proof.
  split_and!; [done..|]. intros [Hc Ha He]. split; [|done].
  by split.
Qed.

Global Instance grows_preorder : PreOrder grows.
Proof.
  split.
  - intros g. split; try done.
    + intros v s Hs. exists s. split_and!; [done..|apply nodeKept_refl].
    + intros v s' Hn Hs. congruence.
  - intros g1 g2 g3 [Hs1 Ht1 Hc1 Hn1 Hk1 Hf1] [Hs2 Ht2 Hc2 Hn2 Hk2 Hf2].
    split.
    + congruence.
    + by etrans.
    + by etrans.
    + intros Hnone. rewrite Hn2, Hn1; [done..|congruence].
    + intros v s Hs. destruct (Hk1 v s Hs) as (s2 & Hs2' & Hi2 & Hkept2).
      destruct (Hk2 v s2 Hs2') as (s3 & Hs3 & Hi3 & Hkept3).
      exists s3. split_and!; [done|congruence|by eapply nodeKept_trans].
    + intros v s3 Hnone Hs3.
      destruct (Nodes g2 !! v) as [s2|] eqn:Hs2'.
      * destruct (Hk2 v s2 Hs2') as (s3' & Hs3' & Hi3 & Hkept3).
        simplify_eq. eapply nodeKept_trans; [|done]. by eapply Hf1.
      * by eapply Hf2.
Qed.

Lemma preserves_ret {A} (R : relation ConstraintGraph) `{!Reflexive R}
    (a : A) : preserves R (ret a).
Proof. intros g a' g' [= _ <-]. done. Qed.

Lemma preserves_abort {A} (R : relation ConstraintGraph) :
  preserves R (@abort A).
Proof. intros g a' g' [=]. Qed.

Lemma preserves_bind {A B} (R : relation ConstraintGraph) `{!Transitive R}
    (m : M A) (k : A → M B) :
  preserves R m → (∀ a, preserves R (k a)) → preserves R (bind m k).
Proof.
  intros Hm Hk g b g' (a & g1 & H1 & H2)%bind_Ok.
  etrans; [by eapply Hm|by eapply Hk].
Qed.

Lemma preserves_forEach {A} (R : relation ConstraintGraph) `{!PreOrder R}
    (l : list A) (body : A → M unit) :
  (∀ x, x ∈ l → preserves R (body x)) → preserves R (forEach l body).
Proof.
  induction l as [|x l IH]; intros Hbody; simpl.
  - apply preserves_ret, _.
  - apply preserves_bind; [apply _|apply Hbody; set_solver|].
    intros _. apply IH. intros y Hy. apply Hbody. set_solver.
Qed.

Lemma grows_withNode {A} tv (f : Node → option (A * Node)) :
  (∀ n a n', f n = Some (a, n') → nodeKept n n') →
  preserves grows (withNode tv f).
Proof.
  intros Hf g a g' (s & a' & n' & Hs & Hfn & [= -> ->])%withNode_Ok.
  split; simpl; try done.
  - intros v s0 Hs0. destruct (decide (tv = v)) as [<-|Hne].
    + rewrite lookup_insert_eq. eexists. split; [done|]. simplify_eq.
      split; [done|]. simpl. by eapply Hf.
    + rewrite lookup_insert_ne by done. exists s0.
      split_and!; [done..|apply nodeKept_refl].
  - intros v s' Hnone. destruct (decide (tv = v)) as [<-|Hne]; [congruence|].
    rewrite lookup_insert_ne by done. congruence.
Qed.

Lemma grows_modifyNode tv (f : Node → option Node) :
  (∀ n n', f n = Some n' → nodeKept n n') →
  preserves grows (modifyNode tv f).
Proof.
  intros Hf. apply grows_withNode. intros n a n' Hn. apply Hf.
  destruct (f n); by simplify_eq/=.
Qed.

Lemma grows_recordChange ch : preserves grows (recordChange ch).
Proof.
  intros g a g'. unfold recordChange.
  destruct (ActiveScope g) eqn:Hs; intros [= _ <-]; [|done].
  split; simpl; try done.
  - by apply prefix_app_r.
  - by rewrite Hs.
  - intros v s Hv. exists s. split_and!; [done..|apply nodeKept_refl].
  - congruence.
Qed.

Lemma nodeKept_getEquivalenceClassUnsafe n :
  nodeKept n (NodeOps.getEquivalenceClassUnsafe n).2.
Proof.
  unfold NodeOps.getEquivalenceClassUnsafe.
  destruct (EquivalenceClass n); simpl; [apply nodeKept_class|done].
Qed.

Lemma nodeKept_getEquivalenceClass rep n cls n' :
  NodeOps.getEquivalenceClass rep n = Some (cls, n') → nodeKept n n'.
Proof.
  unfold NodeOps.getEquivalenceClass. case_decide; [|done].
  intros [= Heq]. pose proof (nodeKept_getEquivalenceClassUnsafe n) as HK.
  by rewrite Heq in HK.
Qed.

Lemma nodeKept_addToEquivalenceClass rep tvs n n' :
  NodeOps.addToEquivalenceClass rep tvs n = Some n' → nodeKept n n'.
Proof.
  unfold NodeOps.addToEquivalenceClass. case_decide; [|done].
  pose proof (nodeKept_getEquivalenceClassUnsafe n) as HK.
  destruct (NodeOps.getEquivalenceClassUnsafe n) as [cls n1].
  intros [= <-]. eapply nodeKept_trans; [done|]. apply nodeKept_class.
Qed.

Lemma nodeKept_addFixedBinding v n n' :
  NodeOps.addFixedBinding v n = Some n' → nodeKept n n'.
Proof.
  intros Hadd. destruct (addFixedBinding_Some_inv _ _ _ Hadd) as [Hv Hfx].
  assert (sameButAdjacencies n n') as Hsame.
  { revert Hadd. unfold NodeOps.addFixedBinding, NodeOps.getAdjacency.
    rewrite decide_False by done.
    destruct (AdjacencyInfo n !! v) as [a|]; simpl.
    - destruct (FixedBinding a); [done|]. by intros [= <-].
    - by intros [= <-]. }
  apply nodeKept_sameButAdjacencies; [done|]. intros Hwf.
  destruct (addFixedBinding_spec v n Hwf Hv Hfx)
    as (n'' & Hadd' & Hwf' & _ & Hv' & Hw').
  simplify_eq. split; [done|]. intros w.
  destruct (decide (w = v)) as [->|Hne]; [by rewrite Hv'|by rewrite Hw'].
Qed.

Section GrowsLookup.
Variable CS : ConstraintSystem.

Lemma grows_mergeNodesWith lookup v1 v2 :
  (∀ v, preserves grows (lookup v)) →
  preserves grows (mergeNodesWith CS lookup v1 v2).
Proof.
  intros Hl. unfold mergeNodesWith. case_decide; [|apply preserves_abort].
  apply preserves_bind; [apply _|apply Hl|]. intros _.
  case_decide; [|apply preserves_abort].
  apply preserves_bind; [apply _| |].
  { intros g a g'. destruct (ActiveScope g); [|intros ?; by simplify_eq].
    revert g a g'. apply preserves_bind; [apply _| |].
    - apply grows_withNode. intros n cls n'.
      apply nodeKept_getEquivalenceClass.
    - intros cls. apply grows_recordChange. }
  intros _. apply preserves_bind; [apply _|apply Hl|]. intros _.
  apply preserves_bind; [apply _| |].
  - apply grows_withNode. intros n cls n' [= Heq].
    pose proof (nodeKept_getEquivalenceClassUnsafe n) as HK.
    by rewrite Heq in HK.
  - intros cls. apply grows_modifyNode. intros n n'.
    apply nodeKept_addToEquivalenceClass.
Qed.

Lemma grows_bindLoop lookup v known tvs :
  (∀ v, preserves grows (lookup v)) →
  preserves grows (bindLoop lookup v known tvs).
Proof.
  intros Hl. revert known. induction tvs as [|o tvs IH]; intros known; simpl.
  - apply preserves_ret, _.
  - case_decide; [apply IH|].
    apply preserves_bind; [apply _|apply Hl|]. intros _.
    apply preserves_bind; [apply _| |].
    { apply grows_modifyNode, nodeKept_addFixedBinding. }
    intros _. apply preserves_bind; [apply _| |].
    { apply grows_modifyNode, nodeKept_addFixedBinding. }
    intros _. apply IH.
Qed.

Lemma grows_bindTypeVariableWith lookup v fixed :
  (∀ v, preserves grows (lookup v)) →
  preserves grows (bindTypeVariableWith lookup v fixed).
Proof.
  intros Hl. unfold bindTypeVariableWith.
  destruct (hasTypeVariable fixed); [|apply preserves_ret, _].
  apply preserves_bind; [apply _|apply Hl|]. intros _.
  apply preserves_bind; [apply _|by apply grows_bindLoop|]. intros _.
  apply grows_recordChange.
Qed.

Lemma grows_lookupNode fuel v : preserves grows (lookupNode CS fuel v).
Proof.
  revert v. induction fuel as [|fuel IH]; intros v g a g'; simpl.
  - destruct (Nodes g !! v); [|done]. intros ?. by simplify_eq.
  - destruct (Nodes g !! v) eqn:Hv; [intros ?; by simplify_eq|].
    intros Hrun. etrans; [|eapply preserves_bind; [apply _|..]; [| |exact Hrun]].
    + split; simpl; try done.
      * by apply prefix_app_r.
      * intros w s Hw. destruct (decide (v = w)) as [<-|Hne]; [congruence|].
        rewrite lookup_insert_ne by done. exists s.
        split_and!; [done..|apply nodeKept_refl].
      * intros w s' Hnone. destruct (decide (v = w)) as [<-|Hne].
        -- rewrite lookup_insert_eq. intros [= <-]. apply nodeKept_refl.
        -- rewrite lookup_insert_ne by done. congruence.
    + apply grows_recordChange.
    + intros ?. apply preserves_bind; [apply _| |].
      * case_decide.
        -- destruct (getFixedType CS _); [|apply preserves_ret, _].
           by apply grows_bindTypeVariableWith.
        -- by apply grows_mergeNodesWith.
      * intros ?. apply grows_withNode. intros n r n' ?. by simplify_eq.
Qed.

Lemma grows_mergeNodes fuel v1 v2 :
  preserves grows (mergeNodes CS fuel v1 v2).
Proof. apply grows_mergeNodesWith, grows_lookupNode. Qed.

Lemma grows_bindTypeVariable fuel v fixed :
  preserves grows (bindTypeVariable CS fuel v fixed).
Proof. apply grows_bindTypeVariableWith, grows_lookupNode. Qed.

End GrowsLookup.

(** ** Looking up a type variable without a node *)

Lemma recordChange_withNewNode typeVar g :
  recordChange (AddedTypeVariable typeVar)
    (MkGraph
       (<[typeVar := MkStoredNode (newNode typeVar)
                       (length (TypeVariables g))]> (Nodes g))
       (TypeVariables g ++ [typeVar]) (Changes g) (ActiveScope g)) =
  Ok (tt, withNewNode typeVar g).
Proof.
  unfold recordChange, withNewNode. simpl.
  destruct (ActiveScope g); [done|]. by rewrite app_nil_r.
Qed.

Lemma lookupNode_S_None CS fuel typeVar g :
  Nodes g !! typeVar = None →
  lookupNode CS (S fuel) typeVar g =
    (afterNewNode CS fuel typeVar ;;
     withNode typeVar (λ n, Some ((n, length (TypeVariables g)), n)))
      (withNewNode typeVar g).
Proof.
  intros Hnone. simpl. rewrite Hnone. unfold bind at 1.
  by rewrite (recordChange_withNewNode typeVar g).
Qed.

Lemma grows_afterNewNode CS fuel typeVar :
  preserves grows (afterNewNode CS fuel typeVar).
Proof.
  unfold afterNewNode. case_decide.
  - destruct (getFixedType CS _); [apply grows_bindTypeVariable|].
    apply preserves_ret, _.
  - apply grows_mergeNodes.
Qed.

Lemma lookupNode_new_node CS fuel typeVar g g' :
  Nodes g !! typeVar = None →
  afterNewNode CS fuel typeVar (withNewNode typeVar g) = Ok (tt, g') →
  ∃ node,
    lookupNode CS (S fuel) typeVar g =
      Ok ((node, length (TypeVariables g)), g') ∧
    Nodes g' !! typeVar =
      Some (MkStoredNode node (length (TypeVariables g))) ∧
    grows (withNewNode typeVar g) g'.
Proof.
  intros Hnone Hafter. rewrite lookupNode_S_None by done. unfold bind.
  rewrite Hafter.
  pose proof (grows_afterNewNode _ _ _ _ _ _ Hafter) as Hgrows.
  destruct (grows_nodes _ _ Hgrows typeVar
              (MkStoredNode (newNode typeVar) (length (TypeVariables g))))
    as ([node idx] & Hstored & Hidx & _).
  { unfold withNewNode. simpl. by rewrite lookup_insert_eq. }
  simpl in Hidx. subst idx. exists node.
  unfold withNode. rewrite Hstored. simpl.
  rewrite insert_id by done. by rewrite graph_eta.
Qed.

(** The node and the index [lookupNode] returns are those stored for the
    type variable. *)
Lemma lookupNode_stored CS fuel typeVar g node index g' :
  lookupNode CS fuel typeVar g = Ok ((node, index), g') →
  Nodes g' !! typeVar = Some (MkStoredNode node index).
Proof.
  destruct (Nodes g !! typeVar) as [s|] eqn:Hs.
  - destruct fuel; simpl; rewrite Hs; intros ?; simplify_eq; by destruct s.
  - destruct fuel as [|fuel]; [by simpl; rewrite Hs|].
    intros Hrun. pose proof Hrun as Hrun'.
    rewrite lookupNode_S_None in Hrun' by done.
    apply bind_Ok in Hrun' as ([] & g1 & Hafter & _).
    destruct (lookupNode_new_node CS fuel typeVar g g1 Hs Hafter)
      as (node' & Hrun'' & Hstored & _).
    congruence.
Qed.

(** C7: for a type variable without a node, [lookupNode] creates the
    node, appends the type variable to [TypeVariables], records
    [AddedTypeVariable] exactly when a scope is active, then merges the
    type variable into its representative when it is not its own, or else
    binds it to its fixed type when it has one; the node and the index it
    returns are those stored for the type variable, the index being the
    position at which the type variable was appended. *)
Theorem lookupNode_creates CS fuel typeVar g :
  Nodes g !! typeVar = None →
  match afterNewNode CS fuel typeVar (withNewNode typeVar g) with
  | Ok (_, g') =>
      ∃ node,
        lookupNode CS (S fuel) typeVar g =
          Ok ((node, length (TypeVariables g)), g') ∧
        Nodes g' !! typeVar =
          Some (MkStoredNode node (length (TypeVariables g))) ∧
        TypeVariables g' !! length (TypeVariables g) = Some typeVar
  | Abort => lookupNode CS (S fuel) typeVar g = Abort
  | OutOfFuel => lookupNode CS (S fuel) typeVar g = OutOfFuel
  end.
Proof.
  intros Hnone.
  destruct (afterNewNode CS fuel typeVar (withNewNode typeVar g))
    as [[[] g']| |] eqn:Hafter.
  - destruct (lookupNode_new_node CS fuel typeVar g g' Hnone Hafter)
      as (node & Hrun & Hstored & Hgrows).
    exists node. split_and!; [done..|].
    destruct (grows_typeVariables _ _ Hgrows) as [rest Hrest].
    rewrite Hrest. unfold withNewNode. simpl.
    rewrite lookup_app_l by (rewrite length_app; simpl; lia).
    by rewrite lookup_app_r, Nat.sub_diag by lia.
  - rewrite lookupNode_S_None by done. unfold bind. by rewrite Hafter.
  - rewrite lookupNode_S_None by done. unfold bind. by rewrite Hafter.
Qed.

Lemma lookupNode_creates_witness :
  ∃ node,
    lookupNode Examples.csMerged 2 0 Examples.g1 =
      Ok ((node, 1),
          Examples.stateOf (mergeNodes Examples.csMerged 1 0 1)
            (withNewNode 0 Examples.g1)) ∧
    Nodes (Examples.stateOf (mergeNodes Examples.csMerged 1 0 1)
             (withNewNode 0 Examples.g1)) !! 0 =
      Some (MkStoredNode node 1) ∧
    TypeVariables (Examples.stateOf (mergeNodes Examples.csMerged 1 0 1)
                     (withNewNode 0 Examples.g1)) !! 1 = Some 0.
Proof.
  apply (lookupNode_creates Examples.csMerged 1 0 Examples.g1).
  reflexivity.
Defined.

(** ** Gathering the constraints of an equivalence class *)





(** A constraint between the two members of a class is gathered twice. *)
Example gatherConstraints_twice :
  let g := Examples.stateOf
             (addConstraint Examples.csFree 1 (Examples.cEqual 1 0 1) ;;
              mergeNodes Examples.csMerged 0 0 1) emptyGraph in
  ∃ g', gatherConstraints Examples.csMerged 0 0 [] g =
          Ok ([Examples.cEqual 1 0 1; Examples.cEqual 1 0 1], g').
Proof. eexists. by vm_compute. Qed.

(** ** What [addConstraint] and [removeConstraint] do to one node *)

Lemma bind_assoc {A B C} (m : M A) (k : A → M B) (h : B → M C) g :
  bind (bind m k) h g = bind m (λ a, bind (k a) h) g.
Proof. unfold bind. by destruct (m g) as [[a g1]| |]. Qed.

Lemma bind_ext {A B} (m : M A) (k k' : A → M B) g :
  (∀ a g1, m g = Ok (a, g1) → k a g1 = k' a g1) →
  bind m k g = bind m k' g.
Proof.
  intros H. unfold bind. destruct (m g) as [[a g1]| |]; [|done..].
  by apply H.
Qed.

Lemma forEach_ext {A} (l : list A) (body body' : A → M unit) g :
  (∀ x g1, x ∈ l → body x g1 = body' x g1) →
  forEach l body g = forEach l body' g.
Proof.
  revert g. induction l as [|x l IH]; intros g H; [done|]. simpl.
  unfold bind. rewrite (H x g) by set_solver.
  destruct (body' x g) as [[[] g1]| |]; [|done..].
  apply IH. intros y g2 Hy. apply H. set_solver.
Qed.

Lemma modifyNode_ext tv (f f' : Node → option Node) g :
  (∀ n, f n = f' n) → modifyNode tv f g = modifyNode tv f' g.
Proof.
  intros H. unfold modifyNode, withNode.
  destruct (Nodes g !! tv) as [s|]; [|done]. by rewrite H.
Qed.

Lemma modifyNode_then tv (f h : Node → option Node) g :
  bind (modifyNode tv f) (λ _, modifyNode tv h) g =
  modifyNode tv (λ n, f n ≫= h) g.
Proof.
  unfold bind, modifyNode, withNode.
  destruct (Nodes g !! tv) as [s|] eqn:Hs; [|done]. simpl.
  destruct (f (NodePtr s)) as [n1|]; simpl; [|done].
  rewrite lookup_insert_eq. simpl.
  destruct (h n1) as [n2|]; simpl; [|done].
  by rewrite insert_insert_eq.
Qed.

Lemma modifyNode_skip tv (f : Node → option Node) g :
  bind (modifyNode tv f) (λ _, ret tt) g = modifyNode tv f g.
Proof.
  unfold bind. by destruct (modifyNode tv f g) as [[[] g1]| |].
Qed.

Lemma modifyNode_forEach tv (f : Node → option Node)
    (h : TypeVariableType → Node → option Node)
    (body : TypeVariableType → M unit) (l : list TypeVariableType) g :
  (∀ o, body o = modifyNode tv (h o) ∨ (body o = ret tt ∧ ∀ n, h o n = Some n)) →
  bind (modifyNode tv f) (λ _, forEach l body) g =
  modifyNode tv (λ n, f n ≫= applyEach h l) g.
Proof.
  intros Hbody. revert f. induction l as [|o l IH]; intros f; simpl.
  - rewrite modifyNode_skip. apply modifyNode_ext. intros n.
    by destruct (f n).
  - rewrite <- bind_assoc.
    assert (∀ g', bind (modifyNode tv f) (λ _, body o) g' =
                  modifyNode tv (λ n, f n ≫= h o) g') as Hstep.
    { intros g'. destruct (Hbody o) as [->|[-> Hid]].
      - apply modifyNode_then.
      - rewrite modifyNode_skip. apply modifyNode_ext. intros n.
        destruct (f n) as [n1|]; simpl; [by rewrite Hid|done]. }
    unfold bind at 1. rewrite Hstep.
    fold (bind (modifyNode tv (λ n, f n ≫= h o)) (λ _, forEach l body) g).
    rewrite IH. apply modifyNode_ext. intros n. by destruct (f n).
Qed.

Lemma bind_ext_l {A B} (m m' : M A) (k : A → M B) g :
  m g = m' g → bind m k g = bind m' k g.
Proof. unfold bind. by intros ->. Qed.

Lemma addConstraint_per_node CS fuel c g :
  addConstraint CS fuel c g =
  bind (forEach (gatherReferencedTypeVars c)
          (λ tv, bind (lookupNode CS fuel tv)
                   (λ _, modifyNode tv
                           (nodeAddConstraint c
                              (gatherReferencedTypeVars c) tv))))
    (λ _, recordChange (AddedConstraint c)) g.
Proof.
  unfold addConstraint. apply bind_ext_l, forEach_ext.
  intros tv g1 _. apply bind_ext. intros _ g2 _.
  apply modifyNode_forEach. intros o. unfold addEdge.
  destruct (decide (tv = o)); [right|left]; done.
Qed.

Lemma removeConstraint_per_node CS fuel c g :
  removeConstraint CS fuel c g =
  bind (forEach (gatherReferencedTypeVars c)
          (λ tv, bind (lookupNode CS fuel tv)
                   (λ _, modifyNode tv
                           (nodeRemoveConstraint c
                              (gatherReferencedTypeVars c) tv))))
    (λ _, recordChange (RemovedConstraint c)) g.
Proof.
  unfold removeConstraint. apply bind_ext_l, forEach_ext.
  intros tv g1 _. apply bind_ext. intros _ g2 _.
  apply modifyNode_forEach. intros o. unfold removeEdge.
  destruct (decide (tv = o)); [right|left]; done.
Qed.

Lemma removeKnown_spec known l :
  NoDup (removeKnown known l) ∧
  ∀ x, x ∈ removeKnown known l ↔ x ∈ l ∧ x ∉ known.
Proof.
  revert known. induction l as [|y l IH]; intros known; simpl.
  - split; [constructor|set_solver].
  - destruct (decide (y ∈ known)) as [Hy|Hy].
    + destruct (IH known) as [Hnd Hin]. split; [done|].
      intros x. rewrite Hin. set_solver.
    + destruct (IH ({[y]} ∪ known)) as [Hnd Hin]. split.
      * constructor; [|done]. rewrite Hin. set_solver.
      * intros x. rewrite elem_of_cons, Hin.
        destruct (decide (x = y)); set_solver.
Qed.

Lemma gatherReferencedTypeVars_NoDup c : NoDup (gatherReferencedTypeVars c).
Proof. apply removeKnown_spec. Qed.

Lemma edgeTo_cons_self R tv w : edgeTo (tv :: R) tv w = edgeTo R tv w.
Proof.
  unfold edgeTo. destruct (decide (w ∈ R ∧ w ≠ tv)) as [H|H].
  - rewrite decide_True; [done|]. set_solver.
  - rewrite decide_False; [done|]. set_solver.
Qed.

Lemma edgeTo_cons_head R tv o : o ≠ tv → o ∉ R → edgeTo (o :: R) tv o = 1 ∧ edgeTo R tv o = 0.
Proof.
  intros Hne Hnotin. unfold edgeTo. split.
  - rewrite decide_True; [done|]. set_solver.
  - rewrite decide_False; [done|]. set_solver.
Qed.

Lemma edgeTo_cons_other R tv o w : w ≠ o → edgeTo (o :: R) tv w = edgeTo R tv w.
Proof.
  intros Hne. unfold edgeTo. destruct (decide (w ∈ R ∧ w ≠ tv)) as [H|H].
  - rewrite decide_True; [done|]. set_solver.
  - rewrite decide_False; [done|]. set_solver.
Qed.

Lemma applyEach_cons {A} (f : A → Node → option Node) x l n :
  applyEach f (x :: l) n = f x n ≫= applyEach f l.
Proof. done. Qed.

Lemma addEdge_self tv n : addEdge tv tv n = Some n.
Proof. unfold addEdge. by rewrite decide_True. Qed.

Lemma addEdge_other tv o n :
  tv ≠ o → addEdge tv o n = NodeOps.addAdjacency o n.
Proof. intros. unfold addEdge. by rewrite decide_False. Qed.

Lemma removeEdge_self tv n : removeEdge tv tv n = Some n.
Proof. unfold removeEdge. by rewrite decide_True. Qed.

Lemma removeEdge_other tv o n :
  tv ≠ o → removeEdge tv o n = NodeOps.removeAdjacency o n.
Proof. intros. unfold removeEdge. by rewrite decide_False. Qed.

Lemma addEdges_spec tv R n :
  wfNode n → TypeVar n = tv → NoDup R →
  ∃ n', applyEach (addEdge tv) R n = Some n' ∧ wfNode n' ∧
    sameButAdjacencies n n' ∧
    ∀ w, adjacencyOf n' w =
           ((adjacencyOf n w).1 + edgeTo R tv w, (adjacencyOf n w).2).
Proof.
  intros Hwf Htv Hnd. revert n Hwf Htv.
  induction Hnd as [|o R Ho Hnd IH]; intros n Hwf Htv.
  - exists n. split_and!; [done..|]. intros w. unfold edgeTo.
    rewrite decide_False by set_solver. rewrite Nat.add_0_r.
    by destruct (adjacencyOf n w).
  - rewrite applyEach_cons.
    destruct (decide (tv = o)) as [<-|Hne];
      [rewrite addEdge_self|rewrite addEdge_other by done]; simpl.
    + destruct (IH n Hwf Htv) as (n' & Hrun & Hwf' & Hsame & Hadj).
      exists n'. split_and!; [done..|]. intros w.
      by rewrite edgeTo_cons_self.
    + destruct (addAdjacency_spec o n Hwf) as (n1 & Hadd & Hwf1 & Hsame1 & Ho1 & Hw1);
        [congruence|].
      rewrite Hadd. simpl.
      destruct (IH n1 Hwf1) as (n' & Hrun & Hwf' & Hsame & Hadj).
      { destruct Hsame1 as (-> & _). done. }
      exists n'. split_and!; [done|done|by eapply sameButAdjacencies_trans|].
      intros w. rewrite Hadj. destruct (decide (w = o)) as [->|Hwo].
      * rewrite Ho1. simpl.
        destruct (edgeTo_cons_head R tv o) as [-> ->]; [done..|].
        f_equal. lia.
      * rewrite Hw1 by done. by rewrite edgeTo_cons_other.
Qed.

Lemma removeEdges_spec tv R n :
  wfNode n → NoDup R →
  (∀ w, w ∈ R → w ≠ tv → 0 < (adjacencyOf n w).1) →
  ∃ n', applyEach (removeEdge tv) R n = Some n' ∧ wfNode n' ∧
    sameButAdjacencies n n' ∧
    ∀ w, adjacencyOf n' w =
           ((adjacencyOf n w).1 - edgeTo R tv w, (adjacencyOf n w).2).
Proof.
  intros Hwf Hnd. revert n Hwf.
  induction Hnd as [|o R Ho Hnd IH]; intros n Hwf Hpos.
  - exists n. split_and!; [done..|]. intros w. unfold edgeTo.
    rewrite decide_False by set_solver. rewrite Nat.sub_0_r.
    by destruct (adjacencyOf n w).
  - rewrite applyEach_cons.
    destruct (decide (tv = o)) as [<-|Hne];
      [rewrite removeEdge_self|rewrite removeEdge_other by done]; simpl.
    + destruct (IH n Hwf) as (n' & Hrun & Hwf' & Hsame & Hadj).
      { intros w Hw. apply Hpos. set_solver. }
      exists n'. split_and!; [done..|]. intros w.
      by rewrite edgeTo_cons_self.
    + assert (∃ k, (adjacencyOf n o).1 = S k) as [k Hk].
      { specialize (Hpos o). exists ((adjacencyOf n o).1 - 1).
        assert (0 < (adjacencyOf n o).1); [|lia].
        apply Hpos; [set_solver|congruence]. }
      destruct (removeAdjacency_spec o n k Hwf Hk)
        as (n1 & Hrem & Hwf1 & Hsame1 & Ho1 & Hw1).
      rewrite Hrem. simpl.
      destruct (IH n1 Hwf1) as (n' & Hrun & Hwf' & Hsame & Hadj).
      { intros w Hw Hwtv. rewrite Hw1 by set_solver. apply Hpos; set_solver. }
      exists n'. split_and!; [done|done|by eapply sameButAdjacencies_trans|].
      intros w. rewrite Hadj. destruct (decide (w = o)) as [->|Hwo].
      * rewrite Ho1. simpl.
        destruct (edgeTo_cons_head R tv o) as [-> ->]; [done..|].
        f_equal. lia.
      * rewrite Hw1 by done. by rewrite edgeTo_cons_other.
Qed.

Lemma removeEdges_Some_inv tv R n n' :
  wfNode n → NoDup R → applyEach (removeEdge tv) R n = Some n' →
  ∀ w, w ∈ R → w ≠ tv → 0 < (adjacencyOf n w).1.
Proof.
  intros Hwf Hnd. revert n Hwf.
  induction Hnd as [|o R Ho Hnd IH]; intros n Hwf Hrun w Hw Hwtv;
    [set_solver|].
  rewrite applyEach_cons in Hrun.
  destruct (decide (tv = o)) as [<-|Hne];
    [rewrite removeEdge_self in Hrun|rewrite removeEdge_other in Hrun by done];
    simpl in Hrun.
  - eapply IH; [done..|set_solver|done].
  - destruct (NodeOps.removeAdjacency o n) as [n1|] eqn:Hrem; [|done].
    simpl in Hrun.
    destruct (removeAdjacency_Some_inv _ _ _ Hrem) as [k Hk].
    destruct (decide (w = o)) as [->|Hwo]; [lia|].
    destruct (removeAdjacency_spec o n k Hwf Hk)
      as (n1' & Hrem' & Hwf1 & Hsame1 & Ho1 & Hw1).
    simplify_eq. rewrite <- Hw1 by done.
    eapply IH; [done..|set_solver|done].
Qed.

Lemma nodeAddConstraint_spec c R tv n :
  wfNode n → TypeVar n = tv → NoDup R → c ∉ Constraints n →
  ∃ n', nodeAddConstraint c R tv n = Some n' ∧ wfNode n' ∧
    TypeVar n' = tv ∧ EquivalenceClass n' = EquivalenceClass n ∧
    Constraints n' = Constraints n ++ [c] ∧
    ∀ w, adjacencyOf n' w =
           ((adjacencyOf n w).1 + edgeTo R tv w, (adjacencyOf n w).2).
Proof.
  intros Hwf Htv Hnd Hc.
  assert (ConstraintIndex n !! c = None) as Hidx.
  { by apply (indexed_None _ _ _ (wf_constraints n Hwf)). }
  unfold nodeAddConstraint.
  destruct (NodeOps.addConstraint c n) as [n1|] eqn:Hadd; simpl.
  2:{ unfold NodeOps.addConstraint in Hadd. by rewrite Hidx in Hadd. }
  pose proof (addConstraint_wf _ _ _ Hwf Hadd) as Hwf1.
  apply addConstraint_Some in Hadd as [_ ->].
  destruct (addEdges_spec tv R _ Hwf1) as (n' & Hrun & Hwf' & Hsame & Hadj);
    [done..|].
  exists n'. destruct Hsame as (Ht & Hcs & _ & He). simpl in *.
  split_and!; [done|done|congruence|done|done|].
  intros w. by rewrite Hadj.
Qed.

Lemma nodeAddConstraint_Some_inv c R tv n n' :
  wfNode n → nodeAddConstraint c R tv n = Some n' → c ∉ Constraints n.
Proof.
  intros Hwf. unfold nodeAddConstraint.
  destruct (NodeOps.addConstraint c n) as [n1|] eqn:Hadd; [|done].
  intros _. apply addConstraint_Some in Hadd as [Hidx _].
  by apply (indexed_None _ _ _ (wf_constraints n Hwf)).
Qed.

Lemma nodeRemoveConstraint_spec c R tv n :
  wfNode n → NoDup R → c ∈ Constraints n →
  (∀ w, w ∈ R → w ≠ tv → 0 < (adjacencyOf n w).1) →
  ∃ n', nodeRemoveConstraint c R tv n = Some n' ∧ wfNode n' ∧
    TypeVar n' = TypeVar n ∧ EquivalenceClass n' = EquivalenceClass n ∧
    Constraints n ≡ₚ c :: Constraints n' ∧
    ∀ w, adjacencyOf n' w =
           ((adjacencyOf n w).1 - edgeTo R tv w, (adjacencyOf n w).2).
Proof.
  intros Hwf Hnd Hc Hpos.
  destruct (removeConstraint_spec c n Hwf Hc)
    as (n1 & Hrem & Hwf1 & Hperm & Ht & Ha & Hi & He).
  unfold nodeRemoveConstraint. rewrite Hrem. simpl.
  assert (∀ w, adjacencyOf n1 w = adjacencyOf n w) as Hadj1.
  { intros w. unfold adjacencyOf. by rewrite Hi. }
  destruct (removeEdges_spec tv R n1 Hwf1 Hnd)
    as (n' & Hrun & Hwf' & Hsame & Hadj).
  { intros w Hw Hwtv. rewrite Hadj1. by apply Hpos. }
  exists n'. destruct Hsame as (Ht' & Hcs & _ & He').
  split_and!; [done|done|congruence|congruence|by rewrite Hcs|].
  intros w. by rewrite Hadj, Hadj1.
Qed.

Lemma nodeRemoveConstraint_Some_inv c R tv n n' :
  wfNode n → NoDup R → nodeRemoveConstraint c R tv n = Some n' →
  c ∈ Constraints n ∧ ∀ w, w ∈ R → w ≠ tv → 0 < (adjacencyOf n w).1.
Proof.
  intros Hwf Hnd. unfold nodeRemoveConstraint.
  destruct (NodeOps.removeConstraint c n) as [n1|] eqn:Hrem; [|done].
  simpl. intros Hrun.
  pose proof (removeConstraint_Some_elem_of _ _ _ Hwf Hrem) as Hc.
  split; [done|].
  destruct (removeConstraint_spec c n Hwf Hc)
    as (n1' & Hrem' & Hwf1 & Hperm & Ht & Ha & Hi & He).
  simplify_eq. intros w Hw Hwtv.
  pose proof (removeEdges_Some_inv tv R n1 n' Hwf1 Hnd Hrun w Hw Hwtv) as H.
  unfold adjacencyOf in *. by rewrite Hi in H.
Qed.

(** ** Sequences of [addConstraint] and [removeConstraint] calls *)

Lemma matches_grows g g' EC EN :
  matches g EC EN → grows g g' → matches g' EC EN.
Proof.
  intros [Hn Ha] Hg. split.
  - intros v s' Hs'. destruct (Nodes g !! v) as [s|] eqn:Hs.
    + destruct (Hn v s Hs) as (Hwf & Htv & Hc & Hcnt).
      destruct (grows_nodes _ _ Hg v s Hs)
        as (s'' & Hs'' & _ & Htv' & Hc' & _ & Hk).
      simplify_eq. destruct (Hk Hwf) as [Hwf' Hcnt'].
      split_and!; [done|congruence|by rewrite Hc'|].
      intros w. by rewrite Hcnt'.
    + destruct (Ha v Hs) as [HEC HEN].
      destruct (grows_new _ _ Hg v s' Hs Hs') as (Htv' & Hc' & _ & Hk).
      destruct (Hk (wfNode_newNode v)) as [Hwf' Hcnt'].
      split_and!; [done|done|by rewrite Hc', HEC|].
      intros w. rewrite Hcnt', HEN. unfold adjacencyOf. simpl.
      by rewrite lookup_empty.
  - intros v Hnone. apply Ha.
    destruct (Nodes g !! v) as [s|] eqn:Hs; [|done].
    destruct (grows_nodes _ _ Hg v s Hs) as (s' & Hs' & _). congruence.
Qed.

Lemma matches_ext g EC EN EC' EN' :
  matches g EC EN → (∀ v, EC v ≡ₚ EC' v) → (∀ v w, EN v w = EN' v w) →
  matches g EC' EN'.
Proof.
  intros [Hn Ha] HC HN. split.
  - intros v s Hs. destruct (Hn v s Hs) as (Hwf & Htv & Hc & Hcnt).
    split_and!; [done..|by rewrite <- HC|]. intros w. by rewrite <- HN.
  - intros v Hnone. destruct (Ha v Hnone) as [HEC HEN]. split.
    + apply Permutation_nil_r. by rewrite <- HC, HEC.
    + intros w. by rewrite <- HN.
Qed.

Lemma matches_recordChange g g' ch EC EN :
  matches g EC EN → recordChange ch g = Ok (tt, g') → matches g' EC EN.
Proof.
  intros Hm Hrec. eapply matches_grows; [done|].
  by eapply grows_recordChange.
Qed.

(** One round of the outer loop of [addConstraint] or
    [removeConstraint]: the node of [tv] goes from the expectations
    [EC0], [EN0] to [EC1], [EN1]. *)
Lemma matches_round CS fuel tv f g g' (P : list TypeVariableType)
    EC0 EN0 EC1 EN1 :
  tv ∉ P →
  (∀ n n', wfNode n → TypeVar n = tv → Constraints n ≡ₚ EC0 tv →
     (∀ w, (adjacencyOf n w).1 = EN0 tv w) → f n = Some n' →
     wfNode n' ∧ TypeVar n' = tv ∧ Constraints n' ≡ₚ EC1 tv ∧
     ∀ w, (adjacencyOf n' w).1 = EN1 tv w) →
  matches g (λ v, if decide (v ∈ P) then EC1 v else EC0 v)
            (λ v, if decide (v ∈ P) then EN1 v else EN0 v) →
  (∀ v, v ∈ P → is_Some (Nodes g !! v)) →
  bind (lookupNode CS fuel tv) (λ _, modifyNode tv f) g = Ok (tt, g') →
  matches g' (λ v, if decide (v ∈ tv :: P) then EC1 v else EC0 v)
             (λ v, if decide (v ∈ tv :: P) then EN1 v else EN0 v) ∧
  (∀ v, v ∈ tv :: P → is_Some (Nodes g' !! v)).
Proof.
  intros HtvP Hf Hm HP ([node idx] & g1 & Hl & Hmod)%bind_Ok.
  pose proof (grows_lookupNode _ _ _ _ _ _ Hl) as Hg.
  pose proof (matches_grows _ _ _ _ Hm Hg) as [Hn1 Ha1].
  apply lookupNode_stored in Hl.
  apply modifyNode_Ok in Hmod as (s & n' & Hs & Hfn & Heq).
  simplify_eq. simpl in *.
  destruct (Hn1 tv _ Hl) as (Hwf & Htv & Hc & Hcnt). simpl in *.
  rewrite decide_False in Hc by done.
  destruct (Hf node n' Hwf Htv Hc) as (Hwf' & Htv' & Hc' & Hcnt'); [|done|].
  { intros w. rewrite Hcnt. by rewrite decide_False. }
  split.
  - split; simpl.
    + intros v s Hs. destruct (decide (tv = v)) as [<-|Hne].
      * rewrite lookup_insert_eq in Hs. simplify_eq. simpl.
        rewrite decide_True by set_solver.
        split_and!; [done..|]. intros w.
        by rewrite decide_True by set_solver.
      * rewrite lookup_insert_ne in Hs by done.
        destruct (Hn1 v s Hs) as (Hwfv & Htvv & Hcv & Hcntv).
        split_and!; [done..| |].
        -- destruct (decide (v ∈ P)).
           ++ by rewrite decide_True by set_solver.
           ++ by rewrite decide_False by set_solver.
        -- intros w. rewrite Hcntv. destruct (decide (v ∈ P)).
           ++ by rewrite decide_True by set_solver.
           ++ by rewrite decide_False by set_solver.
    + intros v Hnone. destruct (decide (tv = v)) as [<-|Hne].
      * by rewrite lookup_insert_eq in Hnone.
      * rewrite lookup_insert_ne in Hnone by done.
        destruct (Ha1 v Hnone) as [HEC HEN].
        destruct (decide (v ∈ P)).
        -- rewrite !decide_True by set_solver. by split.
        -- rewrite !decide_False by set_solver. by split.
  - intros v Hv. simpl. destruct (decide (tv = v)) as [<-|Hne].
    + by rewrite lookup_insert_eq.
    + rewrite lookup_insert_ne by done.
      destruct (HP v) as [s Hs]; [set_solver|].
      destruct (grows_nodes _ _ Hg v s Hs) as (s' & -> & _). done.
Qed.

Lemma matches_rounds CS fuel (f : TypeVariableType → Node → option Node)
    EC0 EN0 EC1 EN1 (Q P : list TypeVariableType) g g' :
  NoDup (Q ++ P) →
  (∀ tv n n', tv ∈ Q → wfNode n → TypeVar n = tv →
     Constraints n ≡ₚ EC0 tv →
     (∀ w, (adjacencyOf n w).1 = EN0 tv w) → f tv n = Some n' →
     wfNode n' ∧ TypeVar n' = tv ∧ Constraints n' ≡ₚ EC1 tv ∧
     ∀ w, (adjacencyOf n' w).1 = EN1 tv w) →
  matches g (λ v, if decide (v ∈ P) then EC1 v else EC0 v)
            (λ v, if decide (v ∈ P) then EN1 v else EN0 v) →
  (∀ v, v ∈ P → is_Some (Nodes g !! v)) →
  forEach Q (λ tv, bind (lookupNode CS fuel tv) (λ _, modifyNode tv (f tv))) g
    = Ok (tt, g') →
  matches g' (λ v, if decide (v ∈ Q ++ P) then EC1 v else EC0 v)
             (λ v, if decide (v ∈ Q ++ P) then EN1 v else EN0 v).
Proof.
  revert P g. induction Q as [|tv Q IH]; intros P g Hnd Hf Hm HP Hrun.
  - apply ret_Ok in Hrun. by simplify_eq.
  - simpl in Hrun. apply bind_Ok in Hrun as ([] & g1 & Hround & Hrest).
    simpl in Hnd. apply NoDup_cons in Hnd as [Htv Hnd].
    destruct (matches_round CS fuel tv (f tv) g g1 P EC0 EN0 EC1 EN1)
      as [Hm1 HP1]; [set_solver| |done..|].
    { intros n n'. apply Hf. set_solver. }
    assert (NoDup (Q ++ tv :: P)) as Hnd'.
    { rewrite <- Permutation_middle. by constructor. }
    pose proof (IH (tv :: P) g1 Hnd') as IH'.
    eapply matches_ext; [apply IH'; try done|..].
    + intros tv' n n' Htv'. apply Hf. set_solver.
    + intros v. simpl.
      destruct (decide (v ∈ Q ++ tv :: P)) as [Hin|Hin].
      * rewrite decide_True; [done|]. set_solver.
      * rewrite decide_False; [done|]. set_solver.
    + intros v w. simpl.
      destruct (decide (v ∈ Q ++ tv :: P)) as [Hin|Hin].
      * rewrite decide_True; [done|]. set_solver.
      * rewrite decide_False; [done|]. set_solver.
Qed.

Lemma edgeTo_self R v : edgeTo R v v = 0.
Proof. unfold edgeTo. by rewrite decide_False by naive_solver. Qed.

Lemma referencing_app live c v :
  referencing (live ++ [c]) v =
  referencing live v ++
    (if decide (v ∈ gatherReferencedTypeVars c) then [c] else []).
Proof.
  unfold referencing. rewrite filter_app, filter_cons, filter_nil.
  by destruct (decide _).
Qed.

Lemma pairCount_app live c v w :
  pairCount (live ++ [c]) v w =
  pairCount live v w +
    (if decide (v ∈ gatherReferencedTypeVars c)
     then edgeTo (gatherReferencedTypeVars c) v w else 0).
Proof.
  unfold pairCount. destruct (decide (w = v)) as [->|Hne].
  - rewrite edgeTo_self. by destruct (decide _).
  - unfold referencingBoth.
    rewrite filter_app, length_app, filter_cons, filter_nil. f_equal.
    unfold edgeTo.
    destruct (decide (v ∈ gatherReferencedTypeVars c)) as [Hv|Hv].
    + destruct (decide (w ∈ gatherReferencedTypeVars c)) as [Hw|Hw].
      * rewrite !decide_True by done. done.
      * rewrite !decide_False by naive_solver. done.
    + rewrite decide_False by naive_solver. done.
Qed.

Lemma removeFirst_Permutation c l : c ∈ l → l ≡ₚ c :: removeFirst c l.
Proof.
  induction l as [|x l IH]; [set_solver|]. simpl.
  destruct (decide (x = c)) as [->|Hne]; [done|].
  intros Hin. rewrite Permutation_swap. f_equiv. apply IH. set_solver.
Qed.

Lemma removeFirst_not_elem_of c l : c ∉ l → removeFirst c l = l.
Proof.
  induction l as [|x l IH]; [done|]. simpl. intros Hnotin.
  rewrite decide_False by set_solver. f_equal. apply IH. set_solver.
Qed.

Lemma referencing_removeFirst_in live c v :
  c ∈ live → v ∈ gatherReferencedTypeVars c →
  referencing live v ≡ₚ c :: referencing (removeFirst c live) v.
Proof.
  intros Hin Hv. unfold referencing.
  rewrite (removeFirst_Permutation c live Hin) at 1.
  rewrite filter_cons. by rewrite decide_True.
Qed.

Lemma referencing_removeFirst_out live c v :
  v ∉ gatherReferencedTypeVars c →
  referencing (removeFirst c live) v ≡ₚ referencing live v.
Proof.
  intros Hv. destruct (decide (c ∈ live)) as [Hin|Hout].
  - unfold referencing.
    rewrite (removeFirst_Permutation c live Hin) at 2.
    rewrite filter_cons. by rewrite decide_False.
  - by rewrite removeFirst_not_elem_of.
Qed.

Lemma pairCount_removeFirst_in live c v w :
  c ∈ live → v ∈ gatherReferencedTypeVars c →
  pairCount live v w =
  pairCount (removeFirst c live) v w +
    edgeTo (gatherReferencedTypeVars c) v w.
Proof.
  intros Hin Hv. unfold pairCount. destruct (decide (w = v)) as [->|Hne].
  - by rewrite edgeTo_self.
  - unfold referencingBoth.
    rewrite (removeFirst_Permutation c live Hin) at 1.
    rewrite filter_cons. unfold edgeTo.
    destruct (decide (w ∈ gatherReferencedTypeVars c)) as [Hw|Hw].
    + rewrite !decide_True by done. simpl. lia.
    + rewrite !decide_False by naive_solver. lia.
Qed.

Lemma pairCount_removeFirst_out live c v w :
  v ∉ gatherReferencedTypeVars c →
  pairCount (removeFirst c live) v w = pairCount live v w.
Proof.
  intros Hv. destruct (decide (c ∈ live)) as [Hin|Hout].
  - unfold pairCount. destruct (decide (w = v)); [done|].
    unfold referencingBoth.
    rewrite (removeFirst_Permutation c live Hin) at 2.
    rewrite filter_cons. rewrite decide_False by naive_solver. done.
  - by rewrite removeFirst_not_elem_of.
Qed.

Lemma tracks_addConstraint CS fuel c g g' live :
  tracks g live → addConstraint CS fuel c g = Ok (tt, g') →
  tracks g' (live ++ [c]).
Proof.
  intros Ht Hrun. rewrite addConstraint_per_node in Hrun.
  apply bind_Ok in Hrun as ([] & g1 & Hloop & Hrec).
  eapply matches_recordChange; [|done].
  pose proof (gatherReferencedTypeVars_NoDup c) as Hnd.
  set (R := gatherReferencedTypeVars c) in *.
  eapply matches_ext;
    [eapply (matches_rounds CS fuel (nodeAddConstraint c R)
               (referencing live) (pairCount live)
               (λ v, referencing live v ++ [c])
               (λ v w, pairCount live v w + edgeTo R v w) R [] g g1)|..].
  - by rewrite app_nil_r.
  - intros tv n n' Htv Hwf Htvn Hc Hcnt Hadd.
    pose proof (nodeAddConstraint_Some_inv _ _ _ _ _ Hwf Hadd) as Hnotin.
    destruct (nodeAddConstraint_spec c R tv n Hwf Htvn Hnd Hnotin)
      as (n'' & Hadd' & Hwf' & Htv' & _ & Hc' & Hadj).
    simplify_eq. split_and!; [done..|by rewrite Hc', Hc|].
    intros w. rewrite Hadj. simpl. by rewrite Hcnt.
  - eapply matches_ext; [exact Ht|..]; intros; by rewrite decide_False by set_solver.
  - set_solver.
  - done.
  - intros v. simpl. rewrite app_nil_r, referencing_app. unfold R.
    destruct (decide (v ∈ gatherReferencedTypeVars c));
      [done|by rewrite app_nil_r].
  - intros v w. simpl. rewrite app_nil_r, pairCount_app. unfold R.
    destruct (decide (v ∈ gatherReferencedTypeVars c)); [done|lia].
Qed.

Lemma tracks_removeConstraint CS fuel c g g' live :
  tracks g live → removeConstraint CS fuel c g = Ok (tt, g') →
  tracks g' (removeFirst c live).
Proof.
  intros Ht Hrun. rewrite removeConstraint_per_node in Hrun.
  apply bind_Ok in Hrun as ([] & g1 & Hloop & Hrec).
  eapply matches_recordChange; [|done].
  pose proof (gatherReferencedTypeVars_NoDup c) as Hnd.
  set (R := gatherReferencedTypeVars c) in *.
  eapply matches_ext;
    [eapply (matches_rounds CS fuel (nodeRemoveConstraint c R)
               (referencing live) (pairCount live)
               (referencing (removeFirst c live))
               (pairCount (removeFirst c live)) R [] g g1)|..].
  - by rewrite app_nil_r.
  - intros tv n n' Htv Hwf Htvn Hc Hcnt Hrem.
    destruct (nodeRemoveConstraint_Some_inv _ _ _ _ _ Hwf Hnd Hrem)
      as [Hin Hpos].
    destruct (nodeRemoveConstraint_spec c R tv n Hwf Hnd Hin Hpos)
      as (n'' & Hrem' & Hwf' & Htv' & _ & Hc' & Hadj).
    simplify_eq.
    assert (c ∈ live) as Hlive.
    { rewrite Hc in Hin. unfold referencing in Hin.
      by apply list_elem_of_filter in Hin as [_ ?]. }
    split_and!; [done|congruence| |].
    + eapply (Permutation_cons_inv (a := c)).
      rewrite <- Hc', Hc. by apply referencing_removeFirst_in.
    + intros w. rewrite Hadj. simpl. rewrite Hcnt.
      rewrite (pairCount_removeFirst_in live c (TypeVar n) w) by done.
      fold R. lia.
  - eapply matches_ext; [exact Ht|..]; intros; by rewrite decide_False by set_solver.
  - set_solver.
  - done.
  - intros v. simpl. rewrite app_nil_r.
    destruct (decide (v ∈ R)); [done|].
    symmetry. by apply referencing_removeFirst_out.
  - intros v w. simpl. rewrite app_nil_r.
    destruct (decide (v ∈ R)); [done|].
    symmetry. by apply pairCount_removeFirst_out.
Qed.

Lemma tracks_emptyGraph : tracks emptyGraph [].
Proof.
  split.
  - intros v s. simpl. by rewrite lookup_empty.
  - intros v _. split; [done|]. intros w. unfold pairCount.
    by destruct (decide _).
Qed.

Lemma tracks_runCalls calls g g' live :
  tracks g live → runCalls calls g = Ok (tt, g') →
  tracks g' (liveConstraints calls live).
Proof.
  revert g live. induction calls as [|[[CS fuel] call] calls IH];
    intros g live Ht Hrun.
  - apply ret_Ok in Hrun. by simplify_eq.
  - unfold runCalls in Hrun. simpl in Hrun.
    apply bind_Ok in Hrun as ([] & g1 & Hcall & Hrest).
    destruct call as [c|c]; simpl.
    + eapply IH; [|exact Hrest]. by eapply tracks_addConstraint.
    + eapply IH; [|exact Hrest]. by eapply tracks_removeConstraint.
Qed.

(** The scenario of the specification: variables 0, 1 and 2, a constraint
    between 0 and 1 and a constraint between 1 and 2. *)

Lemma referencingBoth_length_comm live u v :
  length (referencingBoth live u v) = length (referencingBoth live v u).
Proof.
  unfold referencingBoth. induction live as [|c live IH]; [done|].
  rewrite !filter_cons.
  destruct (decide (u ∈ gatherReferencedTypeVars c ∧
                    v ∈ gatherReferencedTypeVars c)) as [H|H].
  - rewrite decide_True by naive_solver. simpl. by rewrite IH.
  - rewrite decide_False by naive_solver. done.
Qed.

Lemma referencingBoth_length_le live u v :
  length (referencingBoth live u v) ≤ length (referencing live u).
Proof.
  unfold referencingBoth, referencing.
  induction live as [|c live IH]; [done|].
  rewrite !filter_cons.
  destruct (decide (u ∈ gatherReferencedTypeVars c ∧
                    v ∈ gatherReferencedTypeVars c)) as [H|H].
  - rewrite decide_True by naive_solver. simpl. lia.
  - destruct (decide (u ∈ gatherReferencedTypeVars c)); simpl; lia.
Qed.

Lemma tracks_numConstraintsTo g live u v :
  tracks g live → u ≠ v →
  numConstraintsTo g u v = length (referencingBoth live u v).
Proof.
  intros [Hn Ha] Hne. unfold numConstraintsTo.
  destruct (Nodes g !! u) as [s|] eqn:Hs.
  - destruct (Hn u s Hs) as (_ & _ & _ & Hcnt). rewrite Hcnt.
    unfold pairCount. by rewrite decide_False by done.
  - destruct (Ha u Hs) as [_ HEN]. specialize (HEN v).
    unfold pairCount in HEN. by rewrite decide_False in HEN by done.
Qed.

Lemma tracks_no_entry g live u v :
  tracks g live → numConstraintsTo g u v = 0 →
  fixedBindingTo g u v = false → ¬ hasAdjacencyEntry g u v.
Proof.
  intros [Hn Ha] Hk Hfx (s & Hs & Hentry).
  unfold numConstraintsTo, fixedBindingTo in *. rewrite Hs in Hk, Hfx.
  destruct (Hn u s Hs) as (Hwf & _).
  assert (adjacencyOf (NodePtr s) v = (0, false)) as Hzero.
  { destruct (adjacencyOf (NodePtr s) v). simpl in *. congruence. }
  apply (adjacencyOf_nonempty _ _ Hwf) in Hzero.
  rewrite Hzero in Hentry. by destruct Hentry.
Qed.

(** C6: after any sequence of [addConstraint] and [removeConstraint]
    calls on the empty graph, for two distinct type variables that appear
    together in the referenced type variables of [k] live constraints,
    each one's adjacency count towards the other is [k]; when [k] is 0
    and there is no fixed binding, neither node has an adjacency entry
    for the other. *)
Theorem adjacency_counts_symmetric calls g u v :
  runCalls calls emptyGraph = Ok (tt, g) → u ≠ v →
  let k := length (referencingBoth (liveConstraints calls []) u v) in
  numConstraintsTo g u v = k ∧ numConstraintsTo g v u = k ∧
  (k = 0 → fixedBindingTo g u v = false → ¬ hasAdjacencyEntry g u v) ∧
  (k = 0 → fixedBindingTo g v u = false → ¬ hasAdjacencyEntry g v u).
Proof.
  intros Hrun Hne.
  pose proof (tracks_runCalls _ _ _ _ tracks_emptyGraph Hrun) as Ht.
  pose proof (tracks_numConstraintsTo _ _ u v Ht Hne) as Huv.
  pose proof (tracks_numConstraintsTo _ _ v u Ht (not_eq_sym Hne)) as Hvu.
  rewrite <- referencingBoth_length_comm in Hvu. simpl.
  split_and!; [done..| |].
  - intros Hk. eapply tracks_no_entry; [done|congruence].
  - intros Hk. eapply tracks_no_entry; [done|congruence].
Qed.

Lemma adjacency_counts_symmetric_witness :
  numConstraintsTo Scenario.graph 0 1 = 1 ∧
  numConstraintsTo Scenario.graph 1 0 = 1 ∧
  (1 = 0 → fixedBindingTo Scenario.graph 0 1 = false →
   ¬ hasAdjacencyEntry Scenario.graph 0 1) ∧
  (1 = 0 → fixedBindingTo Scenario.graph 1 0 = false →
   ¬ hasAdjacencyEntry Scenario.graph 1 0).
Proof.
  apply (adjacency_counts_symmetric Scenario.calls Scenario.graph 0 1).
  - vm_compute. reflexivity.
  - lia.
Defined.

(** C10: after any sequence of [addConstraint] and [removeConstraint]
    calls on the empty graph, the constraint count of every adjacency
    entry of a node is at most the number of constraints recorded on that
    node. *)
Theorem adjacency_count_at_most_constraints calls g v s w a :
  runCalls calls emptyGraph = Ok (tt, g) →
  Nodes g !! v = Some s → AdjacencyInfo (NodePtr s) !! w = Some a →
  NumConstraints a ≤ length (Constraints (NodePtr s)).
Proof.
  intros Hrun Hs Ha.
  pose proof (tracks_runCalls _ _ _ _ tracks_emptyGraph Hrun) as [Hn _].
  destruct (Hn v s Hs) as (_ & _ & Hc & Hcnt).
  specialize (Hcnt w). rewrite (adjacencyOf_Some _ _ _ Ha) in Hcnt.
  simpl in Hcnt. rewrite Hcnt, Hc. unfold pairCount.
  destruct (decide (w = v)); [lia|]. apply referencingBoth_length_le.
Qed.

Lemma adjacency_count_at_most_constraints_witness :
  NumConstraints Scenario.adjacency10 ≤
  length (Constraints (NodePtr Scenario.node1)).
Proof.
  apply (adjacency_count_at_most_constraints Scenario.calls Scenario.graph
           1 Scenario.node1 0 Scenario.adjacency10); by vm_compute.
Defined.

(** ** Adding a constraint and removing it again *)

(** A well-formed node is determined by its vectors, the contents of its
    adjacencies and its equivalence class. *)
Lemma wfNode_ext n m :
  wfNode n → wfNode m → TypeVar n = TypeVar m →
  Constraints n = Constraints m → Adjacencies n = Adjacencies m →
  (∀ v, adjacencyOf n v = adjacencyOf m v) →
  EquivalenceClass n = EquivalenceClass m → n = m.
Proof.
  intros [Hcn Han Hen] [Hcm Ham Hem] Htv Hc Ha Hadj Hcls.
  destruct n as [tvn cn cin an ain en], m as [tvm cm cim am aim em].
  simpl in *. subst. f_equal.
  - apply map_eq. intros c. apply option_eq. intros i.
    by rewrite (Hcn c i), (Hcm c i).
  - apply map_eq. intros v.
    specialize (Hadj v). unfold adjacencyOf in Hadj. simpl in Hadj.
    destruct (ain !! v) as [a|] eqn:Hain, (aim !! v) as [b|] eqn:Haim.
    + f_equal. destruct a as [ia ca fa], b as [ib cb fb]. simplify_eq/=.
      f_equal.
      assert (am !! ia = Some v) as H1 by (apply Han; by rewrite Hain).
      assert (am !! ib = Some v) as H2 by (apply Ham; by rewrite Haim).
      eapply NoDup_lookup; [|done..]. by eapply indexed_NoDup.
    + pose proof (Hen v a Hain) as He. destruct a as [ia ca fa].
      simplify_eq/=; done.
    + pose proof (Hem v b Haim) as He. destruct b as [ib cb fb].
      simplify_eq/=; done.
    + done.
Qed.

Lemma removeConstraint_after_add c n m :
  ConstraintIndex n !! c = None →
  Constraints m = Constraints n ++ [c] →
  ConstraintIndex m = <[c := length (Constraints n)]> (ConstraintIndex n) →
  NodeOps.removeConstraint c m =
    Some (MkNode (TypeVar m) (Constraints n) (ConstraintIndex n)
            (Adjacencies m) (AdjacencyInfo m) (EquivalenceClass m)).
Proof.
  intros Hnone Hc Hi. unfold NodeOps.removeConstraint.
  rewrite Hi, lookup_insert_eq, Hc.
  rewrite lookup_app_r, Nat.sub_diag by lia. simpl.
  rewrite decide_True by done. rewrite length_app. simpl.
  rewrite decide_True by lia.
  rewrite pop_back_snoc. by rewrite delete_insert_id.
Qed.

Lemma getAdjacency_prefix v n a n' :
  NodeOps.getAdjacency v n = Some (a, n') →
  Adjacencies n `prefix_of` Adjacencies n'.
Proof.
  unfold NodeOps.getAdjacency. case_decide; [done|].
  destruct (AdjacencyInfo n !! v); intros ?; simplify_eq/=; [done|].
  by apply prefix_app_r.
Qed.

Lemma addAdjacency_prefix v n n' :
  NodeOps.addAdjacency v n = Some n' →
  Adjacencies n `prefix_of` Adjacencies n'.
Proof.
  unfold NodeOps.addAdjacency.
  destruct (NodeOps.getAdjacency v n) as [[a n1]|] eqn:Hg; [|done].
  simpl. intros [= <-]. simpl. by eapply getAdjacency_prefix.
Qed.


(** What [modifyAdjacency] does to the vector of adjacencies: nothing when
    the adjacency stays, and nothing before the slot when it goes. *)
Lemma modifyAdjacency_Adjacencies v modify n n' a a' :
  NodeOps.modifyAdjacency v modify n = Some n' →
  AdjacencyInfo n !! v = Some a → modify a = Some a' →
  Index a' = Index a →
  (Adjacency_empty a' = false → Adjacencies n' = Adjacencies n) ∧
  take (Index a) (Adjacencies n') = take (Index a) (Adjacencies n).
Proof.
  unfold NodeOps.modifyAdjacency. intros Hrun Hslot Hmod Hidx.
  rewrite Hslot, Hmod in Hrun.
  destruct (Adjacencies n !! Index a) as [tv|] eqn:Hpos; [|done].
  apply lookup_lt_Some in Hpos.
  case_decide; [|done].
  destruct (Adjacency_empty a'); simpl in Hrun.
  - split; [done|]. rewrite Hidx in Hrun. case_decide.
    + simplify_eq/=. unfold pop_back. rewrite take_take.
      f_equal. lia.
    + destruct (Adjacencies n !! (length (Adjacencies n) - 1)) as [l|];
        [|done].
      simplify_eq/=. unfold pop_back. rewrite take_take, length_insert.
      replace (Index a `min` (length (Adjacencies n) - 1)) with (Index a)
        by lia.
      by rewrite take_insert_ge by lia.
  - by simplify_eq/=.
Qed.

Lemma prefix_of_take {A} (l1 l2 : list A) :
  take (length l1) l2 = l1 → l1 `prefix_of` l2.
Proof. intros H. exists (drop (length l1) l2). by rewrite <- H at 1; rewrite take_drop. Qed.

Lemma removeAdjacency_prefix o m m' (A : list TypeVariableType) :
  wfNode m → NodeOps.removeAdjacency o m = Some m' →
  A `prefix_of` Adjacencies m →
  (o ∈ A → adjacencyOf m o ≠ (1, false)) →
  A `prefix_of` Adjacencies m'.
Proof.
  intros Hwf Hrem [rest Hrest] HA.
  destruct (removeAdjacency_Some_inv _ _ _ Hrem) as [k Hk].
  unfold adjacencyOf in Hk, HA.
  destruct (AdjacencyInfo m !! o) as [a|] eqn:Hslot; [|done].
  simpl in Hk.
  destruct (modifyAdjacency_Adjacencies _ _ _ _ a
              (MkAdjacency (Index a) k (FixedBinding a)) Hrem Hslot)
    as [Hsame Htake]; [by rewrite Hk|done|].
  destruct (decide (o ∈ A)) as [Hin|Hout].
  - rewrite Hsame; [by exists rest|].
    specialize (HA Hin). unfold Adjacency_empty. simpl.
    destruct (FixedBinding a) eqn:Hfx; [done|]. simpl.
    apply bool_decide_eq_false. intros ->. apply HA. by rewrite Hk.
  - assert (Adjacencies m !! Index a = Some o) as Hpos.
    { apply (wf_adjacencies m Hwf). by rewrite Hslot. }
    assert (length A ≤ Index a) as Hle.
    { destruct (decide (Index a < length A)) as [Hlt|]; [|lia].
      rewrite Hrest, lookup_app_l in Hpos by done.
      exfalso. apply Hout. by eapply list_elem_of_lookup_2. }
    apply prefix_of_take.
    replace (length A) with (length A `min` Index a) by lia.
    rewrite <- take_take, Htake, take_take.
    replace (length A `min` Index a) with (length A) by lia.
    by rewrite Hrest, take_app_length.
Qed.



Lemma round_existing CS fuel tv f g s n' :
  Nodes g !! tv = Some s → f (NodePtr s) = Some n' →
  bind (lookupNode CS fuel tv) (λ _, modifyNode tv f) g =
    Ok (tt, MkGraph (<[tv := MkStoredNode n' (NodeIndex s)]> (Nodes g))
              (TypeVariables g) (Changes g) (ActiveScope g)).
Proof.
  intros Hs Hf. unfold bind.
  assert (lookupNode CS fuel tv g = Ok ((NodePtr s, NodeIndex s), g)) as ->.
  { destruct fuel; simpl; by rewrite Hs. }
  unfold modifyNode, withNode. rewrite Hs, Hf. done.
Qed.

Lemma afterNewNode_quiet CS fuel tv g :
  createsQuietly CS tv → afterNewNode CS fuel tv g = Ok (tt, g).
Proof.
  intros [Hrep Hfix]. unfold afterNewNode. rewrite Hrep.
  rewrite decide_True by done.
  destruct (getFixedType CS tv) as [fixed|] eqn:Hf; [|done].
  unfold bindTypeVariable, bindTypeVariableWith.
  by rewrite (Hfix fixed).
Qed.





Lemma g01_Nodes :
  Nodes Examples.g01 =
    <[0 := MkStoredNode (newNode 0) 0]>
      (<[1 := MkStoredNode (newNode 1) 1]> ∅).
Proof. by vm_compute. Qed.


Lemma wfGraph_g01 : wfGraph Examples.g01.
Proof.
  intros v s. rewrite g01_Nodes. intros Hs.
  apply lookup_insert_Some in Hs as [[<- <-]|[_ Hs]].
  { split; [apply wfNode_newNode|done]. }
  apply lookup_insert_Some in Hs as [[<- <-]|[_ Hs]]; [|done].
  split; [apply wfNode_newNode|done].
Qed.


Lemma untracked_g01 c : untracked c Examples.g01.
Proof.
  intros v s. rewrite g01_Nodes. intros Hs.
  apply lookup_insert_Some in Hs as [[<- <-]|[_ Hs]]; [simpl; set_solver|].
  apply lookup_insert_Some in Hs as [[<- <-]|[_ Hs]]; [|done].
  simpl. set_solver.
Qed.


(** ** Connected components *)

Lemma wanted_iff CS typeVars v :
  wanted CS typeVars v ↔
  ¬ is_Some (getFixedType CS v) ∧
  ¬ ((list_to_set typeVars : gset TypeVariableType) ≠ ∅ ∧
     v ∉ (list_to_set typeVars : gset TypeVariableType)).
Proof.
  unfold wanted. rewrite <- eq_None_not_Some.
  assert ((list_to_set typeVars : gset TypeVariableType) = ∅ ↔
          typeVars = []) as Hempty.
  { split.
    - destruct typeVars as [|x l]; [done|]. simpl. set_solver.
    - by intros ->. }
  rewrite elem_of_list_to_set.
  split; intros [Hf Hs]; (split; [done|]).
  - intros [Hne Hnotin]. destruct Hs as [->|?]; [by apply Hne|done].
  - destruct (decide (typeVars = [])) as [?|Hne]; [by left|right].
    destruct (decide (v ∈ typeVars)) as [?|Hnotin]; [done|].
    exfalso. apply Hs. split; [|done]. by rewrite Hempty.
Qed.

Lemma markUnbound_spec CS typeVars TVs comps idxs has0 has :
  markUnbound CS (list_to_set typeVars) TVs comps idxs has0 = Some has →
  length has = length has0 ∧
  (∀ c, has !! c = Some true ↔
        has0 !! c = Some true ∨
        ∃ i v, i ∈ idxs ∧ TVs !! i = Some v ∧ wanted CS typeVars v ∧
               comps !! i = Some c) ∧
  (∀ i v, i ∈ idxs → TVs !! i = Some v → wanted CS typeVars v →
          ∃ c, comps !! i = Some c ∧ c < length has0).
Proof.
  revert has0. induction idxs as [|i idxs IH]; intros has0 Hrun.
  - simpl in Hrun. simplify_eq. split; [done|]. split; [|set_solver].
    intros c. split; [by left|]. intros [?|(i & v & Hi & _)]; [done|].
    set_solver.
  - simpl in Hrun.
    destruct (TVs !! i) as [tv|] eqn:Htv; [|done]. simpl in Hrun.
    assert (∀ has1,
      markUnbound CS (list_to_set typeVars) TVs comps idxs has1 = Some has →
      length has1 = length has0 →
      (∀ c, has1 !! c = Some true ↔
            has0 !! c = Some true ∨
            (wanted CS typeVars tv ∧ comps !! i = Some c)) →
      (wanted CS typeVars tv → ∃ c, comps !! i = Some c ∧ c < length has0) →
      length has = length has0 ∧
      (∀ c, has !! c = Some true ↔
            has0 !! c = Some true ∨
            ∃ i' v, i' ∈ i :: idxs ∧ TVs !! i' = Some v ∧
                    wanted CS typeVars v ∧ comps !! i' = Some c) ∧
      (∀ i' v, i' ∈ i :: idxs → TVs !! i' = Some v → wanted CS typeVars v →
               ∃ c, comps !! i' = Some c ∧ c < length has0)) as Hstep.
    { intros has1 Hrun1 Hlen1 Hhas1 Hw1.
      destruct (IH has1 Hrun1) as (Hlen & Hhas & Hw).
      split; [congruence|]. split.
      - intros c. rewrite Hhas, Hhas1. split.
        + intros [[?|[Hwt Hc]]|(i' & v & Hi' & ? & ? & ?)]; [by left|..].
          * right. exists i, tv. split_and!; [set_solver|done..].
          * right. exists i', v. split_and!; [set_solver|done..].
        + intros [?|(i' & v & Hi' & Hv & Hwv & Hc)]; [by left; left|].
          apply elem_of_cons in Hi' as [->|Hi'].
          * left. right. by simplify_eq.
          * right. by exists i', v.
      - intros i' v Hi' Hv Hwv.
        apply elem_of_cons in Hi' as [->|Hi'].
        + simplify_eq. by apply Hw1.
        + rewrite <- Hlen1. by eapply Hw. }
    destruct (decide (is_Some (getFixedType CS tv))) as [Hfix|Hfix].
    { apply (Hstep has0 Hrun eq_refl).
      - intros c. split; [by left|]. intros [?|[Hwt _]]; [done|].
        apply wanted_iff in Hwt as [? _]. done.
      - intros Hwt. apply wanted_iff in Hwt as [? _]. done. }
    destruct (decide ((list_to_set typeVars : gset TypeVariableType) ≠ ∅ ∧
                      tv ∉ (list_to_set typeVars : gset TypeVariableType)))
      as [Hsub|Hsub].
    { apply (Hstep has0 Hrun eq_refl).
      - intros c. split; [by left|]. intros [?|[Hwt _]]; [done|].
        apply wanted_iff in Hwt as [_ ?]. done.
      - intros Hwt. apply wanted_iff in Hwt as [_ ?]. done. }
    assert (wanted CS typeVars tv) as Hwt by by apply wanted_iff.
    destruct (comps !! i) as [c0|] eqn:Hc0; [|done]. simpl in Hrun.
    destruct (decide (c0 < length has0)) as [Hlt|]; [|done].
    apply (Hstep _ Hrun).
    + by rewrite length_insert.
    + intros c. destruct (decide (c = c0)) as [->|Hne].
      * rewrite list_lookup_insert_eq by done. naive_solver.
      * rewrite list_lookup_insert_ne by done. naive_solver.
    + intros _. by exists c0.
Qed.

Lemma renumber_spec has idxs ren0 k0 ren k :
  renumber has idxs ren0 k0 = Some (ren, k) → NoDup idxs →
  k0 ≤ k ∧ length ren = length ren0 ∧
  (∀ c, c ∉ idxs → ren !! c = ren0 !! c) ∧
  (∀ c, c ∈ idxs → has !! c = Some true →
        ∃ r, ren !! c = Some r ∧ k0 ≤ r < k) ∧
  (∀ r, k0 ≤ r < k →
        ∃ c, c ∈ idxs ∧ has !! c = Some true ∧ ren !! c = Some r).
Proof.
  revert ren0 k0. induction idxs as [|c idxs IH]; intros ren0 k0 Hrun Hnd.
  - simpl in Hrun. simplify_eq. split_and!; [done..|set_solver|]. lia.
  - simpl in Hrun. apply NoDup_cons in Hnd as [Hc Hnd].
    destruct (has !! c) as [[]|] eqn:Hhas; [| |done]; simpl in Hrun.
    + destruct (decide (c < length ren0)) as [Hlt|]; [|done].
      destruct (IH _ _ Hrun Hnd) as (Hk & Hlen & Hout & Hin & Hsurj).
      rewrite length_insert in Hlen.
      assert (ren !! c = Some k0) as Hrc.
      { rewrite Hout by done. by rewrite list_lookup_insert_eq. }
      split_and!; [lia|done|..].
      * intros c' Hc'. rewrite Hout by set_solver.
        rewrite list_lookup_insert_ne; [done|]. set_solver.
      * intros c' Hc' Hlive. apply elem_of_cons in Hc' as [->|Hc'].
        -- exists k0. split; [done|]. lia.
        -- destruct (Hin c' Hc' Hlive) as (r & Hr & ?).
           exists r. split; [done|]. lia.
      * intros r Hr. destruct (decide (r = k0)) as [->|Hne].
        -- exists c. split_and!; [set_solver|done..].
        -- destruct (Hsurj r) as (c' & Hc' & ? & ?); [lia|].
           exists c'. split_and!; [set_solver|done..].
    + destruct (IH _ _ Hrun Hnd) as (Hk & Hlen & Hout & Hin & Hsurj).
      split_and!; [done..| | |].
      * intros c' Hc'. apply Hout. set_solver.
      * intros c' Hc' Hlive. apply elem_of_cons in Hc' as [->|Hc'].
        -- congruence.
        -- by apply Hin.
      * intros r Hr. destruct (Hsurj r Hr) as (c' & Hc' & ? & ?).
        exists c'. split_and!; [set_solver|done..].
Qed.

Lemma take_S_insert {A} (l : list A) n x :
  n < length l → take (S n) (<[n := x]> l) = take n l ++ [x].
Proof.
  intros Hlt. rewrite (take_S_r _ _ x).
  - by rewrite take_insert_ge by lia.
  - by rewrite list_lookup_insert_eq.
Qed.

Lemma copyLive_spec TVs has ren orig m :
  ∀ i tvs0 comps0 out0 tvs comps' out,
    copyLive TVs has ren (seq i m) tvs0 comps0 out0 = Some (tvs, comps', out) →
    out0 ≤ i → length comps0 = length orig →
    (∀ k, i ≤ k → comps0 !! k = orig !! k) →
    tvs = tvs0 ++ (omap (liveAt TVs has ren orig) (seq i m)).*1 ∧
    take out comps' =
      take out0 comps0 ++ (omap (liveAt TVs has ren orig) (seq i m)).*2 ∧
    (∀ k, i ≤ k < i + m → ∃ c b, orig !! k = Some c ∧ has !! c = Some b).
Proof.
  induction m as [|m IH]; intros i tvs0 comps0 out0 tvs comps' out Hrun
    Hout Hlen Hagree.
  - simpl in Hrun. simplify_eq. simpl. rewrite !app_nil_r.
    split_and!; [done..|]. intros k ?. lia.
  - simpl in Hrun. rewrite Hagree in Hrun by lia.
    destruct (orig !! i) as [c|] eqn:Hc; [|done]. simpl in Hrun.
    destruct (has !! c) as [b|] eqn:Hb; [|done]. simpl in Hrun.
    assert (∀ k, i ≤ k < i + S m →
              (∀ k', S i ≤ k' < S i + m →
                 ∃ c b, orig !! k' = Some c ∧ has !! c = Some b) →
              ∃ c b, orig !! k = Some c ∧ has !! c = Some b) as Hall.
    { intros k Hk Hrest. destruct (decide (k = i)) as [->|?]; [eauto|].
      apply Hrest. lia. }
    destruct b.
    + destruct (TVs !! i) as [v|] eqn:Hv; [|done]. simpl in Hrun.
      destruct (ren !! c) as [r|] eqn:Hr; [|done]. simpl in Hrun.
      destruct (decide (out0 < length comps0)) as [Hlt|]; [|done].
      destruct (IH _ _ _ _ _ _ _ Hrun) as (Htvs & Htake & Hrest).
      { lia. } { by rewrite length_insert. }
      { intros k Hk. rewrite list_lookup_insert_ne by lia. apply Hagree. lia. }
      assert (liveAt TVs has ren orig i = Some (v, r)) as Hlive.
      { unfold liveAt. rewrite Hc. simpl. rewrite Hb. simpl.
        rewrite Hv. simpl. by rewrite Hr. }
      cbn [seq omap list_omap]. rewrite Hlive. simpl.
      split_and!.
      * by rewrite Htvs, <- app_assoc.
      * rewrite Htake, take_S_insert by done. by rewrite <- app_assoc.
      * intros k Hk. by apply Hall.
    + destruct (IH _ _ _ _ _ _ _ Hrun) as (Htvs & Htake & Hrest).
      { lia. } { done. } { intros k Hk. apply Hagree. lia. }
      assert (liveAt TVs has ren orig i = None) as Hlive.
      { unfold liveAt. rewrite Hc. simpl. by rewrite Hb. }
      cbn [seq omap list_omap]. rewrite Hlive.
      split_and!; [done..|]. intros k Hk. by apply Hall.
Qed.

Lemma omap_seq_sublist {A} (f : nat → option A) (l : list A) :
  (∀ k v, k < length l → f k = Some v → l !! k = Some v) →
  omap f (seq 0 (length l)) `sublist_of` l.
Proof.
  induction l as [|x l IH] using rev_ind; intros Hf; [done|].
  rewrite length_app. simpl. rewrite Nat.add_1_r, seq_S, omap_app. simpl.
  apply sublist_app.
  - apply IH. intros k v Hlt Hk.
    assert ((l ++ [x]) !! k = Some v) as Hl.
    { apply Hf; [|done]. rewrite length_app. simpl. lia. }
    by rewrite lookup_app_l in Hl.
  - destruct (f (length l)) as [v|] eqn:Hv; simpl.
    + apply Hf in Hv; [|rewrite length_app; simpl; lia].
      rewrite lookup_app_r, Nat.sub_diag in Hv by lia.
      by simplify_eq/=.
    + apply sublist_nil_l.
Qed.

Lemma lookupNode_in_range CS fuel v g node index g' :
  lookupNode CS fuel v g = Ok ((node, index), g') →
  index < length (TypeVariables g) →
  g' = g ∧ Nodes g !! v = Some (MkStoredNode node index).
Proof.
  intros Hl Hlt. destruct (Nodes g !! v) as [s|] eqn:Hs.
  - destruct fuel; simpl in Hl; rewrite Hs in Hl; simplify_eq;
      by destruct s.
  - destruct fuel as [|fuel]; [by simpl in Hl; rewrite Hs in Hl|].
    pose proof Hl as Hl'. rewrite lookupNode_S_None in Hl' by done.
    apply bind_Ok in Hl' as ([] & g1 & Hafter & _).
    destruct (lookupNode_new_node CS fuel v g g1 Hs Hafter)
      as (node' & Hl'' & _). rewrite Hl in Hl''. simplify_eq. lia.
Qed.

Lemma withNode_TypeVariables {A} tv (f : Node → option (A * Node)) g a g' :
  withNode tv f g = Ok (a, g') → TypeVariables g' = TypeVariables g.
Proof. intros (s & a' & n' & _ & _ & ?)%withNode_Ok. by simplify_eq. Qed.

Section ComponentsPreserve.
Variable CS : ConstraintSystem.

Lemma visitAdjacencies_keepsShape dfs fuel component typeVars :
  keepsShape dfs →
  ∀ comps g comps' g',
    visitAdjacenciesWith CS dfs fuel component typeVars comps g =
      Ok (comps', g') →
    length comps = length (TypeVariables g) →
    length comps' = length comps ∧ TypeVariables g' = TypeVariables g.
Proof.
  intros Hdfs. induction typeVars as [|adj rest IH];
    intros comps g comps' g' Hrun Hlen.
  - apply ret_Ok in Hrun. by simplify_eq.
  - simpl in Hrun. apply bind_Ok in Hrun as ([node idx] & g1 & Hl & Hrun).
    simpl in Hrun.
    destruct (comps !! idx) as [cur|] eqn:Hcur; [|done].
    apply lookup_lt_Some in Hcur.
    destruct (lookupNode_in_range _ _ _ _ _ _ _ Hl) as [-> _]; [lia|].
    case_decide; [by apply IH|].
    case_decide; [|done].
    apply bind_Ok in Hrun as (comps1 & g2 & Hd & Hrun).
    destruct (Hdfs _ _ _ _ _ Hd) as [Hlen1 Htv1].
    { by rewrite length_insert. }
    rewrite length_insert in Hlen1.
    destruct (IH _ _ _ _ Hrun) as [Hlen2 Htv2]; [congruence|].
    split; congruence.
Qed.

Lemma connectedComponentsDFS_S depth fuel node component components :
  connectedComponentsDFS CS (S depth) fuel node component components =
  let visitAdjacencies :=
    visitAdjacenciesWith CS
      (λ adj components,
         connectedComponentsDFS CS depth fuel adj component components)
      fuel component in
  bind (withNode node (λ n, Some (Adjacencies n, n))) (λ adjacencies,
  bind (visitAdjacencies adjacencies components) (λ components,
  bind (withNode node (λ n, Some (TypeVar n, n))) (λ typeVar,
  let typeVarRep := getRepresentative CS typeVar in
  if decide (typeVarRep = typeVar) then
    bind (withNode node
            (NodeOps.getEquivalenceClass (getRepresentative CS)))
      (λ equivClass, visitAdjacencies (drop 1 equivClass) components)
  else visitAdjacencies [typeVarRep] components))).
Proof. done. Qed.

Lemma connectedComponentsDFS_keepsShape depth fuel component :
  keepsShape (λ adj comps,
                connectedComponentsDFS CS depth fuel adj component comps).
Proof.
  induction depth as [|depth IH]; intros node comps g comps' g' Hrun Hlen;
    [done|].
  rewrite connectedComponentsDFS_S in Hrun. cbv zeta in Hrun.
  apply bind_Ok in Hrun as (adjs & g1 & Hadj & Hrun).
  apply withNode_TypeVariables in Hadj as Htv1.
  apply bind_Ok in Hrun as (comps1 & g2 & Hv1 & Hrun).
  destruct (visitAdjacencies_keepsShape _ _ _ _ IH _ _ _ _ Hv1)
    as [Hlen1 Htv2]; [congruence|].
  apply bind_Ok in Hrun as (tv & g3 & Htv & Hrun).
  apply withNode_TypeVariables in Htv as Htv3.
  case_decide.
  - apply bind_Ok in Hrun as (cls & g4 & Hcls & Hrun).
    apply withNode_TypeVariables in Hcls as Htv4.
    destruct (visitAdjacencies_keepsShape _ _ _ _ IH _ _ _ _ Hrun)
      as [Hlen2 Htv5]; [congruence|].
    split; congruence.
  - destruct (visitAdjacencies_keepsShape _ _ _ _ IH _ _ _ _ Hrun)
      as [Hlen2 Htv5]; [congruence|].
    split; congruence.
Qed.

Lemma assignComponents_keepsShape fuel n idxs :
  ∀ comps k g comps' k' g',
    assignComponents CS fuel n idxs comps k g = Ok ((comps', k'), g') →
    length comps = length (TypeVariables g) →
    length comps' = length comps ∧ TypeVariables g' = TypeVariables g.
Proof.
  induction idxs as [|i idxs IH]; intros comps k g comps' k' g' Hrun Hlen.
  - apply ret_Ok in Hrun. by simplify_eq.
  - simpl in Hrun. apply bind_Ok in Hrun as (tv & g0 & Htv & Hrun).
    assert (g0 = g) as ->.
    { destruct (TypeVariables g !! i); by simplify_eq/=. }
    apply bind_Ok in Hrun as ([node idx] & g1 & Hl & Hrun). simpl in Hrun.
    destruct (comps !! idx) as [cur|] eqn:Hcur; [|done].
    apply lookup_lt_Some in Hcur.
    destruct (lookupNode_in_range _ _ _ _ _ _ _ Hl) as [-> _]; [lia|].
    case_decide; [|by eapply IH].
    apply bind_Ok in Hrun as (comps1 & g2 & Hd & Hrun).
    destruct (connectedComponentsDFS_keepsShape _ _ _ _ _ _ _ _ Hd)
      as [Hlen1 Htv1].
    { by rewrite length_insert. }
    rewrite length_insert in Hlen1.
    destruct (IH _ _ _ _ _ _ Hrun) as [Hlen2 Htv2]; [congruence|].
    split; congruence.
Qed.

End ComponentsPreserve.

Lemma omap_fst {A B C} (f : A → option (B * C)) (l : list A) :
  (omap f l).*1 = omap (λ x, fst <$> f x) l.
Proof.
  induction l as [|x l IH]; [done|]. cbn [omap list_omap].
  destruct (f x) as [[b c]|]; simpl; [|done].
  f_equal. exact IH.
Qed.

Lemma liveAt_Some TVs has ren orig k v r :
  liveAt TVs has ren orig k = Some (v, r) ↔
  ∃ c, orig !! k = Some c ∧ has !! c = Some true ∧ TVs !! k = Some v ∧
       ren !! c = Some r.
Proof.
  unfold liveAt. split.
  - destruct (orig !! k) as [c|] eqn:Hc; [|done]. simpl.
    destruct (has !! c) as [[]|] eqn:Hh; [|done..]. simpl.
    destruct (TVs !! k) as [v'|] eqn:Hv; [|done]. simpl.
    destruct (ren !! c) as [r'|] eqn:Hr; [|done]. simpl.
    intros [= <- <-]. by exists c.
  - intros (c & -> & Hh & -> & Hr). simpl. rewrite Hh. simpl.
    by rewrite Hr.
Qed.

(** What [computeConnectedComponents] has done when it returns: it has
    not changed the vector of type variables; the two output arrays have
    the same length and pair each reported type variable with one
    component index below the returned count, every index below the count
    being used; the reported type variables are a subsequence of the
    graph's type variables; every type variable of the graph that has no
    fixed type and is in the requested subset (when that is non-empty) is
    reported; and every reported component has such a member. *)
Lemma computeConnectedComponents_Ok_partition CS fuel typeVars g
    tvs comps n g' :
  computeConnectedComponents CS fuel typeVars g = Ok ((tvs, comps, n), g') →
  TypeVariables g' = TypeVariables g ∧
  length comps = length tvs ∧
  tvs `sublist_of` TypeVariables g ∧
  (NoDup (TypeVariables g) → NoDup tvs) ∧
  (∀ j c, comps !! j = Some c → c < n) ∧
  (∀ c, c < n → c ∈ comps) ∧
  (∀ v, v ∈ TypeVariables g → wanted CS typeVars v → v ∈ tvs) ∧
  (∀ j c, comps !! j = Some c →
     ∃ j' v, comps !! j' = Some c ∧ tvs !! j' = Some v ∧
             wanted CS typeVars v).
Proof.
  intros Hrun. unfold computeConnectedComponents in Hrun.
  apply bind_Ok in Hrun as ([comps1 numC] & g1 & Hassign & Hrun).
  destruct (assignComponents_keepsShape _ _ _ _ _ _ _ _ _ _ Hassign)
    as [Hlen1 Htv1]; [by rewrite length_replicate|].
  rewrite length_replicate in Hlen1.
  destruct (markUnbound CS (list_to_set typeVars) (TypeVariables g1) comps1
              (seq 0 (length (TypeVariables g))) (replicate numC false))
    as [has|] eqn:Hmark; [|done]. simpl in Hrun.
  destruct (renumber has (seq 0 (length has)) (replicate numC 0) 0)
    as [[ren n']|] eqn:Hren; [|done]. simpl in Hrun.
  destruct (copyLive (TypeVariables g1) has ren
              (seq 0 (length (TypeVariables g1))) [] comps1 0)
    as [[[tvs' comps'] out]|] eqn:Hcopy; [|done]. simpl in Hrun.
  simplify_eq.
  destruct (markUnbound_spec _ _ _ _ _ _ _ Hmark) as (Hlenh & Hhas & Hwant).
  rewrite length_replicate in Hlenh, Hwant.
  destruct (renumber_spec _ _ _ _ _ _ Hren (NoDup_seq _ _))
    as (_ & _ & _ & Hrin & Hsurj).
  destruct (copyLive_spec _ _ _ comps1 _ _ _ _ _ _ _ _ Hcopy)
    as (Htvs & Htake & Hall); [done..|].
  simpl in Htvs, Htake. rewrite Htake, Htvs. clear Htake Htvs Hcopy.
  rewrite Htv1 in *.
  set (L := omap (liveAt (TypeVariables g) has ren comps1)
              (seq 0 (length (TypeVariables g)))).
  assert (∀ v r, (v, r) ∈ L ↔
            ∃ k, liveAt (TypeVariables g) has ren comps1 k = Some (v, r))
    as HL.
  { intros v r. unfold L. rewrite list_elem_of_omap. split.
    - intros (k & _ & Hk). eauto.
    - intros (k & Hk). exists k. split; [|done].
      apply liveAt_Some in Hk as (c & _ & _ & Hv & _).
      apply lookup_lt_Some in Hv. apply elem_of_seq. lia. }
  assert (∀ c0, has !! c0 = Some true →
            ∃ r, ren !! c0 = Some r ∧ r < n) as Hlive_ren.
  { intros c0 Hc0. destruct (Hrin c0) as (r & Hr & ?); [|done|].
    - apply elem_of_seq. apply lookup_lt_Some in Hc0. lia.
    - exists r. split; [done|lia]. }
  assert (∀ c0, has !! c0 = Some true →
            ∃ i v, TypeVariables g !! i = Some v ∧ wanted CS typeVars v ∧
                   comps1 !! i = Some c0) as Hlive_member.
  { intros c0 Hc0. apply Hhas in Hc0 as [Hc0|(i & v & _ & ? & ? & ?)].
    - apply lookup_replicate in Hc0 as [? _]. done.
    - eauto. }
  assert (L.*1 `sublist_of` TypeVariables g) as Hsub.
  { unfold L. rewrite omap_fst.
    apply omap_seq_sublist. intros k v _ Hk.
    destruct (liveAt _ _ _ _ k) as [[v' r]|] eqn:Hlive; [|done].
    simpl in Hk. simplify_eq.
    by apply liveAt_Some in Hlive as (c & _ & _ & Hv & _). }
  split_and!.
  - done.
  - by rewrite !length_fmap.
  - done.
  - intros Hnd. by eapply sublist_NoDup.
  - intros j c Hj. apply list_elem_of_lookup_2 in Hj.
    apply list_elem_of_fmap in Hj as ([v r] & -> & Hin). simpl.
    apply HL in Hin as (k & (c0 & _ & Hc0 & _ & Hr)%liveAt_Some).
    destruct (Hlive_ren c0 Hc0) as (r' & Hr' & ?). congruence.
  - intros c Hc. destruct (Hsurj c) as (c0 & _ & Hc0 & Hr); [lia|].
    destruct (Hlive_member c0 Hc0) as (i & v & Hv & _ & Hi).
    apply list_elem_of_fmap. exists (v, c). split; [done|].
    apply HL. exists i. apply liveAt_Some. by exists c0.
  - intros v Hv Hw. apply list_elem_of_lookup in Hv as [i Hi].
    destruct (Hwant i v) as (c0 & Hc0 & _); [|done..|].
    { apply elem_of_seq. apply lookup_lt_Some in Hi. lia. }
    assert (has !! c0 = Some true) as Hh.
    { apply Hhas. right. exists i, v. split_and!; [|done..].
      apply elem_of_seq. apply lookup_lt_Some in Hi. lia. }
    destruct (Hlive_ren c0 Hh) as (r & Hr & _).
    apply list_elem_of_fmap. exists (v, r). split; [done|].
    apply HL. exists i. apply liveAt_Some. by exists c0.
  - intros j c Hj. apply list_lookup_fmap_Some in Hj as ([v0 r0] & -> & Hj).
    simpl. apply list_elem_of_lookup_2 in Hj.
    apply HL in Hj as (k & (c0 & _ & Hc0 & _ & Hr)%liveAt_Some).
    destruct (Hlive_member c0 Hc0) as (i & v & Hv & Hw & Hi).
    assert ((v, r0) ∈ L) as Hin.
    { apply HL. exists i. apply liveAt_Some. by exists c0. }
    apply list_elem_of_lookup in Hin as [j' Hj'].
    exists j', v.
    split_and!; [apply list_lookup_fmap_Some; by exists (v, r0)..|done].
Qed.

(** ** The search returns on a consistent graph *)

Lemma marksGrow_refl n c comps : marksGrow n c comps comps.
Proof. apply Forall2_same_length_lookup_2; [done|]. intros; simplify_eq; auto. Qed.

Lemma marksGrow_trans n c comps1 comps2 comps3 :
  marksGrow n c comps1 comps2 → marksGrow n c comps2 comps3 →
  marksGrow n c comps1 comps3.
Proof.
  intros H1 H2. revert comps3 H2.
  induction H1 as [|m m' l l' Hm _ IH]; intros comps3 H2;
    inversion H2 as [|? m'' ? l'' Hm' Hl']; simplify_eq; [constructor|].
  constructor; [|by apply IH]. naive_solver.
Qed.

Lemma marksGrow_length n c comps comps' :
  marksGrow n c comps comps' → length comps' = length comps.
Proof. intros H. symmetry. by eapply Forall2_length. Qed.

Lemma marksGrow_lookup n c comps comps' i m :
  marksGrow n c comps comps' → comps !! i = Some m →
  ∃ m', comps' !! i = Some m' ∧ (m' = m ∨ (m = n ∧ m' = c)).
Proof. intros H Hi. by eapply Forall2_lookup_l in H. Qed.

Lemma marksGrow_lookup_r n c comps comps' i m' :
  marksGrow n c comps comps' → comps' !! i = Some m' →
  ∃ m, comps !! i = Some m ∧ (m' = m ∨ (m = n ∧ m' = c)).
Proof. intros H Hi. by eapply Forall2_lookup_r in H. Qed.

Lemma marksGrow_insert n c comps i :
  comps !! i = Some n → marksGrow n c comps (<[i := c]> comps).
Proof.
  intros Hi. apply Forall2_same_length_lookup_2; [by rewrite length_insert|].
  intros j m m' Hm Hm'. destruct (decide (i = j)) as [->|Hne].
  - rewrite list_lookup_insert_eq in Hm' by by eapply lookup_lt_Some.
    simplify_eq. auto.
  - rewrite list_lookup_insert_ne in Hm' by done. simplify_eq. auto.
Qed.

Lemma marksGrow_pending n c comps comps' :
  c ≠ n → marksGrow n c comps comps' → pending n comps' ≤ pending n comps.
Proof.
  intros Hc H. unfold pending.
  induction H as [|m m' l l' Hm _ IH]; [done|].
  rewrite !filter_cons. destruct Hm as [->|[-> ->]].
  - destruct (decide (m = n)); simpl; lia.
  - repeat case_decide; simplify_eq; simpl; lia.
Qed.

Lemma pending_insert n c comps i :
  c ≠ n → comps !! i = Some n →
  S (pending n (<[i := c]> comps)) = pending n comps.
Proof.
  intros Hc. unfold pending. revert i.
  induction comps as [|m l IH]; intros i Hi; [done|].
  destruct i as [|i]; simpl in *.
  - simplify_eq. rewrite !filter_cons.
    repeat case_decide; simplify_eq; done.
  - rewrite !filter_cons. specialize (IH i Hi).
    destruct (decide (m = n)); simpl; lia.
Qed.

Lemma lookupNode_known CS fuel v g s :
  Nodes g !! v = Some s →
  lookupNode CS fuel v g = Ok ((NodePtr s, NodeIndex s), g).
Proof. intros Hv. destruct fuel; simpl; by rewrite Hv. Qed.

Lemma sameSearch_refl g : sameSearch g g.
Proof. split; [done|]. intros v s Hv. by exists s. Qed.

Lemma sameSearch_withNode {A} g0 g v (f : Node → option (A * Node)) a g' :
  sameSearch g0 g → withNode v f g = Ok (a, g') →
  (∀ n a n', f n = Some (a, n') →
     TypeVar n' = TypeVar n ∧ Adjacencies n' = Adjacencies n ∧
     (NodeOps.getEquivalenceClassUnsafe n').1 =
       (NodeOps.getEquivalenceClassUnsafe n).1) →
  sameSearch g0 g'.
Proof.
  intros [HT HN] (st & a' & n' & Hst & Hf & ?)%withNode_Ok Hkeep.
  simplify_eq. split; [done|]. intros w s Hw. simpl.
  destruct (HN w s Hw) as (s' & Hs' & Hi & Htv & Hadj & Hcls).
  destruct (decide (v = w)) as [->|Hne].
  - rewrite lookup_insert_eq. eexists; split; [done|]. simpl.
    simplify_eq. destruct (Hkeep _ _ _ Hf) as (-> & -> & ->). done.
  - rewrite lookup_insert_ne by done. by exists s'.
Qed.

Section Search.
Variable CS : ConstraintSystem.
Variable g0 : ConstraintGraph.
Hypothesis Hs : searchable CS g0.

Lemma listed_node v :
  v ∈ TypeVariables g0 →
  ∃ s, Nodes g0 !! v = Some s ∧
       TypeVariables g0 !! NodeIndex s = Some v ∧ TypeVar (NodePtr s) = v.
Proof using Hs.
  intros [i Hi]%list_elem_of_lookup_1.
  destruct (sr_listed _ _ Hs i v Hi) as (s & ? & <- & ?). eauto.
Qed.

Lemma markOf_insert_eq v s c comps :
  Nodes g0 !! v = Some s → NodeIndex s < length comps →
  markOf g0 (<[NodeIndex s := c]> comps) v = Some c.
Proof.
  intros Hv Hlt. unfold markOf. rewrite Hv. simpl.
  by rewrite list_lookup_insert_eq.
Qed.

Lemma markOf_insert_ne v w s c comps :
  v ∈ TypeVariables g0 → w ∈ TypeVariables g0 → v ≠ w →
  Nodes g0 !! w = Some s →
  markOf g0 (<[NodeIndex s := c]> comps) v = markOf g0 comps v.
Proof using Hs.
  intros (sv & Hsv & Hiv & _)%listed_node (sw & Hsw & Hiw & _)%listed_node
    Hne Hw.
  simplify_eq. unfold markOf. rewrite Hsv. simpl.
  rewrite list_lookup_insert_ne; [done|]. intros Heq.
  rewrite Heq in Hiw. congruence.
Qed.

Lemma markOf_grow c comps comps' v m :
  marksGrow (length (TypeVariables g0)) c comps comps' →
  markOf g0 comps v = Some m → m ≠ length (TypeVariables g0) →
  markOf g0 comps' v = Some m.
Proof.
  unfold markOf. intros Hg Hm Hne.
  destruct (Nodes g0 !! v) as [s|]; [simpl in *|done].
  destruct (marksGrow_lookup _ _ _ _ _ _ Hg Hm) as (m' & -> & [->|[? _]]);
    done.
Qed.

Lemma markOf_grow_r c comps comps' v m' :
  marksGrow (length (TypeVariables g0)) c comps comps' →
  markOf g0 comps' v = Some m' →
  markOf g0 comps v = Some m' ∨
  (markOf g0 comps v = Some (length (TypeVariables g0)) ∧ m' = c).
Proof.
  unfold markOf. intros Hg Hm.
  destruct (Nodes g0 !! v) as [s|]; [simpl in *|done].
  destruct (marksGrow_lookup_r _ _ _ _ _ _ Hg Hm) as (m & -> & [->|[-> ->]]);
    auto.
Qed.

Lemma closedBelow_grow c comps comps' :
  c < length (TypeVariables g0) →
  marksGrow (length (TypeVariables g0)) c comps comps' →
  closedBelow CS g0 c comps → closedBelow CS g0 c comps'.
Proof.
  intros Hc Hg Hcl v w m Hv Hw Hm Hlt.
  destruct (markOf_grow_r _ _ _ _ _ Hg Hm) as [Hm'|[_ ->]]; [|lia].
  eapply markOf_grow; [done| |lia]. by eapply Hcl.
Qed.

Lemma bounded_grow c comps comps' :
  marksGrow (length (TypeVariables g0)) c comps comps' →
  Forall (λ m, m = length (TypeVariables g0) ∨ m ≤ c) comps →
  Forall (λ m, m = length (TypeVariables g0) ∨ m ≤ c) comps'.
Proof.
  intros Hg Hb. apply Forall_lookup. intros i m' Hi.
  destruct (marksGrow_lookup_r _ _ _ _ _ _ Hg Hi) as (m & Hm & [->|[-> ->]]).
  - by eapply (proj1 (Forall_lookup _ _) Hb).
  - right; lia.
Qed.

Lemma visitAdjacencies_searches dfs fuel c depth x :
  searches CS g0 c depth dfs →
  c < length (TypeVariables g0) → x ∈ TypeVariables g0 →
  ∀ ws comps g,
    sameSearch g0 g → (∀ w, w ∈ ws → w ∈ searchEdges CS g0 x) →
    markOf g0 comps x = Some c →
    length comps = length (TypeVariables g0) →
    Forall (λ m, m = length (TypeVariables g0) ∨ m ≤ c) comps →
    closedBelow CS g0 c comps →
    pending (length (TypeVariables g0)) comps ≤ depth →
    ∃ comps' g',
      visitAdjacenciesWith CS dfs fuel c ws comps g = Ok (comps', g') ∧
      sameSearch g0 g' ∧
      marksGrow (length (TypeVariables g0)) c comps comps' ∧
      (∀ w, w ∈ ws → markOf g0 comps' w = Some c) ∧
      (∀ y, y ∈ TypeVariables g0 → markOf g0 comps' y = Some c →
         markOf g0 comps y = Some (length (TypeVariables g0)) →
         ∀ w, w ∈ searchEdges CS g0 y → markOf g0 comps' w = Some c).
Proof using Hs.
  intros Hdfs Hc Hx. induction ws as [|w ws IH];
    intros comps g Hg Hws Hmx Hlen Hb Hcl Hp.
  { exists comps, g. split; [done|]. split; [done|].
    split; [apply marksGrow_refl|]. split; [by intros ? ?%elem_of_nil|].
    intros y _ Hy Hy'. rewrite Hy in Hy'. simplify_eq. lia. }
  assert (w ∈ searchEdges CS g0 x) as Hwx by (apply Hws; left).
  assert (w ∈ TypeVariables g0) as Hw by by eapply sr_closed.
  destruct (listed_node w Hw) as (s & Hsw & Hiw & Htw).
  destruct (proj2 Hg w s Hsw) as (s' & Hs' & Hidx & _).
  assert (NodeIndex s < length comps) as Hlt
    by (rewrite Hlen; by eapply lookup_lt_Some).
  destruct (lookup_lt_is_Some_2 _ _ Hlt) as [cur Hcur].
  assert (markOf g0 comps w = Some cur) as Hmw
    by (unfold markOf; by rewrite Hsw).
  simpl. unfold bind at 1. rewrite (lookupNode_known _ _ _ _ _ Hs'). simpl.
  rewrite Hidx, Hcur.
  destruct (decide (cur = c)) as [->|Hcc].
  { destruct (IH comps g) as (comps' & g' & Hrun & Hg' & Hgrow & Hall & Hnew);
      try done.
    { intros; apply Hws; by right. }
    exists comps', g'. do 3 (split; [done|]). split; [|done].
    intros w' [->|Hw']%elem_of_cons; [|by apply Hall].
    eapply markOf_grow; [done..|lia]. }
  rewrite Hlen. destruct (decide (cur = length (TypeVariables g0))) as [->|Hcn].
  2:{ exfalso. assert (cur < c) as Hlt'.
      { pose proof (proj1 (Forall_lookup _ _) Hb _ _ Hcur) as Hle.
        simpl in Hle. lia. }
      pose proof (Hcl w x cur Hw (sr_symmetric _ _ Hs _ _ Hx Hwx) Hmw Hlt').
      congruence. }
  set (comps1 := <[NodeIndex s := c]> comps).
  assert (marksGrow (length (TypeVariables g0)) c comps comps1) as Hg1
    by by apply marksGrow_insert.
  assert (x ≠ w) as Hxw by (intros ->; rewrite Hmx in Hmw; simplify_eq; lia).
  destruct (Hdfs w comps1 g) as (comps2 & g2 & Hrun2 & Hg2 & Hgrow2 & Hnew2);
    try done.
  { by apply markOf_insert_eq. }
  { unfold comps1. by rewrite length_insert. }
  { by eapply bounded_grow. }
  { by eapply closedBelow_grow. }
  { pose proof (pending_insert (length (TypeVariables g0)) c comps
                  (NodeIndex s) ltac:(lia) Hcur). fold comps1 in H. lia. }
  unfold bind at 1. fold comps1. rewrite Hrun2. simpl.
  assert (marksGrow (length (TypeVariables g0)) c comps comps2) as Hg02
    by by eapply marksGrow_trans.
  destruct (IH comps2 g2) as (comps3 & g3 & Hrun3 & Hg3 & Hgrow3 & Hall & Hnew);
    try done.
  { intros; apply Hws; by right. }
  { eapply markOf_grow; [done..|lia]. }
  { rewrite (marksGrow_length _ _ _ _ Hg02). done. }
  { by eapply bounded_grow. }
  { by eapply closedBelow_grow. }
  { assert (c ≠ length (TypeVariables g0)) as Hne by lia.
    pose proof (marksGrow_pending _ _ _ _ Hne Hg02). lia. }
  exists comps3, g3. split; [done|]. split; [done|].
  split; [by eapply marksGrow_trans|]. split.
  - intros w' [->|Hw']%elem_of_cons; [|by apply Hall].
    apply (markOf_grow c comps2 comps3); [done| |lia].
    apply (markOf_grow c comps1 comps2); [done| |lia].
    by apply markOf_insert_eq.
  - intros y Hy Hy3 Hy0 w' Hw'.
    destruct (markOf_grow_r _ _ _ _ _ Hgrow3 Hy3) as [Hy2|[Hy2 _]].
    + apply (markOf_grow c comps2 comps3); [done| |lia].
      apply (Hnew2 y); [done..| |done].
      destruct (decide (y = w)) as [->|Hyw]; [by right|left].
      unfold comps1. by rewrite (markOf_insert_ne y w).
    + by eapply Hnew.
Qed.

Lemma withNode_searched {A} g v s (f : Node → option (A * Node)) a n' :
  sameSearch g0 g → Nodes g !! v = Some s → f (NodePtr s) = Some (a, n') →
  TypeVar n' = TypeVar (NodePtr s) →
  Adjacencies n' = Adjacencies (NodePtr s) →
  (NodeOps.getEquivalenceClassUnsafe n').1 =
    (NodeOps.getEquivalenceClassUnsafe (NodePtr s)).1 →
  ∃ g', withNode v f g = Ok (a, g') ∧ sameSearch g0 g'.
Proof.
  intros [HT HN] Hv Hf Htv Hadj Hcls. eexists. split.
  { apply withNode_Ok. by exists s, a, n'. }
  split; [done|]. intros w sw Hw. simpl.
  destruct (HN w sw Hw) as (s' & Hs' & Hi & Htv' & Hadj' & Hcls').
  destruct (decide (v = w)) as [->|Hne].
  - rewrite lookup_insert_eq. eexists; split; [done|]. simpl.
    simplify_eq. by rewrite Htv, Hadj, Hcls.
  - rewrite lookup_insert_ne by done. by exists s'.
Qed.

Lemma getEquivalenceClassUnsafe_seeded n :
  TypeVar (NodeOps.getEquivalenceClassUnsafe n).2 = TypeVar n ∧
  Adjacencies (NodeOps.getEquivalenceClassUnsafe n).2 = Adjacencies n ∧
  (NodeOps.getEquivalenceClassUnsafe
     (NodeOps.getEquivalenceClassUnsafe n).2).1 =
    (NodeOps.getEquivalenceClassUnsafe n).1.
Proof.
  unfold NodeOps.getEquivalenceClassUnsafe.
  destruct (EquivalenceClass n) as [|m l] eqn:Hcls; simpl; [done|].
  by rewrite Hcls.
Qed.

Lemma connectedComponentsDFS_searches fuel c depth :
  c < length (TypeVariables g0) →
  searches CS g0 c depth
    (λ adj comps, connectedComponentsDFS CS depth fuel adj c comps).
Proof using Hs.
  intros Hc. induction depth as [|depth IH];
    intros v comps g Hg Hv Hmv _ Hlen Hb Hcl Hp; [lia|].
  rewrite connectedComponentsDFS_S; cbv zeta.
  destruct (listed_node v Hv) as (s & Hsv & Hiv & Htv).
  assert (searchEdges CS g0 v =
            Adjacencies (NodePtr s) ++
            (if decide (getRepresentative CS v = v)
             then drop 1 (NodeOps.getEquivalenceClassUnsafe (NodePtr s)).1
             else [getRepresentative CS v])) as Hedges
    by (unfold searchEdges; by rewrite Hsv).
  (* the adjacencies *)
  destruct (proj2 Hg v s Hsv) as (s1 & Hs1 & _ & _ & Hadj1 & _).
  destruct (withNode_searched g v s1 (λ n, Some (Adjacencies n, n)) _ _
              Hg Hs1 eq_refl) as (g1 & Hrun1 & Hg1); [done..|].
  destruct (visitAdjacencies_searches _ fuel c depth v IH Hc Hv
              (Adjacencies (NodePtr s1)) comps g1)
    as (compsA & gA & HrunA & HgA & HgrowA & HallA & HnewA); try done.
  { intros w Hw. rewrite Hedges, <-Hadj1. set_solver. }
  { lia. }
  (* the type variable *)
  destruct (proj2 HgA v s Hsv) as (s2 & Hs2 & _ & Htv2 & _ & _).
  destruct (withNode_searched gA v s2 (λ n, Some (TypeVar n, n)) _ _
              HgA Hs2 eq_refl) as (g2 & Hrun2 & Hg2); [done..|].
  assert (c ≠ length (TypeVariables g0)) as Hcn by lia.
  assert (markOf g0 compsA v = Some c) as HmvA by by eapply markOf_grow.
  assert (length compsA = length (TypeVariables g0)) as HlenA
    by by rewrite (marksGrow_length _ _ _ _ HgrowA).
  assert (pending (length (TypeVariables g0)) compsA ≤ depth) as HpA.
  { pose proof (marksGrow_pending _ _ _ _ Hcn HgrowA). lia. }
  (* the equivalence class, or the representative *)
  assert (∃ compsB gB,
    (if decide (getRepresentative CS (TypeVar (NodePtr s2)) =
                TypeVar (NodePtr s2)) then
       bind (withNode v
               (NodeOps.getEquivalenceClass (getRepresentative CS)))
         (λ equivClass,
            visitAdjacenciesWith CS
              (λ adj components,
                 connectedComponentsDFS CS depth fuel adj c components)
              fuel c (drop 1 equivClass) compsA)
     else
       visitAdjacenciesWith CS
         (λ adj components,
            connectedComponentsDFS CS depth fuel adj c components)
         fuel c [getRepresentative CS (TypeVar (NodePtr s2))] compsA) g2 =
      Ok (compsB, gB) ∧
    sameSearch g0 gB ∧
    marksGrow (length (TypeVariables g0)) c compsA compsB ∧
    (∀ w, w ∈ (if decide (getRepresentative CS v = v)
               then drop 1 (NodeOps.getEquivalenceClassUnsafe (NodePtr s)).1
               else [getRepresentative CS v]) →
          markOf g0 compsB w = Some c) ∧
    (∀ y, y ∈ TypeVariables g0 → markOf g0 compsB y = Some c →
       markOf g0 compsA y = Some (length (TypeVariables g0)) →
       ∀ w, w ∈ searchEdges CS g0 y → markOf g0 compsB w = Some c))
    as (compsB & gB & HrunB & HgB & HgrowB & HallB & HnewB).
  { rewrite Htv2, Htv.
    destruct (decide (getRepresentative CS v = v)) as [Hrep|Hrep].
    - destruct (proj2 Hg2 v s Hsv) as (s3 & Hs3 & _ & Htv3 & _ & Hcls3).
      destruct (withNode_searched g2 v s3
                  (NodeOps.getEquivalenceClass (getRepresentative CS))
                  (NodeOps.getEquivalenceClassUnsafe (NodePtr s3)).1
                  (NodeOps.getEquivalenceClassUnsafe (NodePtr s3)).2
                  Hg2 Hs3) as (g3 & Hrun3 & Hg3);
        try apply getEquivalenceClassUnsafe_seeded.
      { unfold NodeOps.getEquivalenceClass.
        rewrite Htv3, Htv, decide_True by done.
        by destruct (NodeOps.getEquivalenceClassUnsafe (NodePtr s3)). }
      destruct (visitAdjacencies_searches _ fuel c depth v IH Hc Hv
                  (drop 1 (NodeOps.getEquivalenceClassUnsafe (NodePtr s3)).1)
                  compsA g3)
        as (compsB & gB & HrunB & HgB & HgrowB & HallB & HnewB); try done.
      { intros w Hw. rewrite Hedges, <-Hcls3. set_solver. }
      { by eapply bounded_grow. }
      { by eapply closedBelow_grow. }
      exists compsB, gB. split.
      { apply bind_Ok. eauto. }
      rewrite <-Hcls3. done.
    - destruct (visitAdjacencies_searches _ fuel c depth v IH Hc Hv
                  [getRepresentative CS v] compsA g2)
        as (compsB & gB & HrunB & HgB & HgrowB & HallB & HnewB); try done.
      { intros w Hw. rewrite Hedges. set_solver. }
      { by eapply bounded_grow. }
      { by eapply closedBelow_grow. }
      exists compsB, gB. done. }
  exists compsB, gB. split.
  { apply bind_Ok. exists (Adjacencies (NodePtr s1)), g1. split; [done|].
    apply bind_Ok. exists compsA, gA. split; [done|].
    apply bind_Ok. exists (TypeVar (NodePtr s2)), g2. split; [done|].
    done. }
  split; [done|]. split; [by eapply marksGrow_trans|].
  intros y Hy HyB Hy0 w Hw.
  destruct (markOf_grow_r _ _ _ _ _ HgrowB HyB) as [HyA|[HyA _]];
    [|by eapply HnewB].
  destruct Hy0 as [Hy0| ->].
  { apply (markOf_grow c compsA compsB); [done| |done]. by eapply HnewA. }
  rewrite Hedges in Hw. apply elem_of_app in Hw as [Hw|Hw].
  - apply (markOf_grow c compsA compsB); [done| |done].
    apply HallA. by rewrite Hadj1.
  - by apply HallB.
Qed.

Lemma assignComponents_searches fuel :
  ∀ idxs comps k g,
    sameSearch g0 g →
    (∀ i, i ∈ idxs → i < length (TypeVariables g0)) →
    length comps = length (TypeVariables g0) →
    Forall (λ m, m = length (TypeVariables g0) ∨ m < k) comps →
    closedBelow CS g0 k comps →
    k + pending (length (TypeVariables g0)) comps
      ≤ length (TypeVariables g0) →
    ∃ comps' k' g',
      assignComponents CS fuel (length (TypeVariables g0)) idxs comps k g =
        Ok ((comps', k'), g') ∧
      sameSearch g0 g' ∧
      length comps' = length (TypeVariables g0) ∧
      Forall (λ m, m = length (TypeVariables g0) ∨ m < k') comps' ∧
      (∀ i, i ∈ idxs → comps' !! i ≠ Some (length (TypeVariables g0))) ∧
      (∀ i, i < length (TypeVariables g0) →
            comps !! i ≠ Some (length (TypeVariables g0)) →
            comps' !! i ≠ Some (length (TypeVariables g0))).
Proof using Hs.
  induction idxs as [|i idxs IH]; intros comps k g Hg Hidxs Hlen Hb Hcl Hp.
  { exists comps, k, g. do 4 (split; [done|]).
    split; [by intros ? ?%elem_of_nil|done]. }
  assert (i < length (TypeVariables g0)) as Hi by (apply Hidxs; left).
  destruct (lookup_lt_is_Some_2 (TypeVariables g0) i Hi) as [v Hv].
  destruct (sr_listed _ _ Hs i v Hv) as (s & Hsv & Hidx & Htv).
  destruct (proj2 Hg v s Hsv) as (s' & Hs' & Hidx' & _).
  assert (v ∈ TypeVariables g0) as Hvin by by eapply list_elem_of_lookup_2.
  destruct (lookup_lt_is_Some_2 comps i ltac:(lia)) as [cur Hcur].
  assert (∀ rest : TypeVariableType → M (list nat * nat),
            bind (λ g, of_option ((λ tv, (tv, g)) <$> TypeVariables g !! i))
              rest g = rest v g) as Hread.
  { intros rest. unfold bind. by rewrite (proj1 Hg), Hv. }
  simpl. rewrite Hread. unfold bind at 1.
  rewrite (lookupNode_known _ _ _ _ _ Hs'). simpl. rewrite Hidx', Hidx, Hcur.
  destruct (decide (cur = length (TypeVariables g0))) as [->|Hcn].
  2:{ destruct (IH comps k g) as (comps' & k' & g' & Hrun & ? & ? & ? & Hdone
                                  & Hkeep); try done.
      { intros; apply Hidxs; by right. }
      exists comps', k', g'. do 4 (split; [done|]). split; [|done].
      intros j [->|Hj]%elem_of_cons; [|by apply Hdone].
      apply Hkeep; [done|]. congruence. }
  set (comps1 := <[i := k]> comps).
  pose proof (marksGrow_insert _ k _ _ Hcur) as Hg1. fold comps1 in Hg1.
  assert (k < length (TypeVariables g0)) as Hk.
  { assert (S (length (TypeVariables g0)) ≠ length (TypeVariables g0))
      as Hne by lia.
    pose proof (pending_insert _ _ comps i Hne Hcur). lia. }
  assert (k ≠ length (TypeVariables g0)) as Hkn by lia.
  pose proof (pending_insert _ k comps i Hkn Hcur) as Hp1. fold comps1 in Hp1.
  assert (markOf g0 comps1 v = Some k) as Hmv.
  { unfold comps1. rewrite <-Hidx. apply markOf_insert_eq; [done|].
    rewrite Hidx. lia. }
  destruct (connectedComponentsDFS_searches fuel k
              (length (TypeVariables g0)) Hk v comps1 g)
    as (comps2 & g2 & Hrun2 & Hg2 & Hgrow2 & Hnew2); try done.
  { unfold comps1. by rewrite length_insert. }
  { apply (bounded_grow k comps comps1); [done|].
    eapply Forall_impl; [done|]. simpl; intros; lia. }
  { by eapply closedBelow_grow. }
  { lia. }
  unfold bind at 1. fold comps1. rewrite Hrun2. simpl.
  assert (marksGrow (length (TypeVariables g0)) k comps comps2) as Hg02
    by by eapply marksGrow_trans.
  assert (Forall (λ m, m = length (TypeVariables g0) ∨ m ≤ k) comps2) as Hb2.
  { apply (bounded_grow k comps comps2); [done|].
    eapply Forall_impl; [done|]. simpl; intros; lia. }
  destruct (IH comps2 (S k) g2)
    as (comps' & k' & g' & Hrun & ? & ? & ? & Hdone & Hkeep); try done.
  { intros; apply Hidxs; by right. }
  { by rewrite (marksGrow_length _ _ _ _ Hg02). }
  { eapply Forall_impl; [done|]. simpl; intros; lia. }
  { intros y w m Hy Hw Hm Hlt.
    destruct (decide (m = k)) as [->|Hmk].
    2:{ eapply (closedBelow_grow k comps comps2); [done..|lia]. }
    apply (Hnew2 y); [done..| |done].
    destruct (decide (y = v)) as [->|Hyv]; [by right|left].
    destruct (markOf_grow_r _ _ _ _ _ Hgrow2 Hm) as [Hm1|[Hm1 _]]; [|done].
    exfalso. unfold comps1 in Hm1. rewrite <-Hidx in Hm1.
    rewrite (markOf_insert_ne y v) in Hm1 by done.
    unfold markOf in Hm1. destruct (Nodes g0 !! y) as [sy|]; [|done].
    simpl in Hm1.
    pose proof (proj1 (Forall_lookup _ _) Hb _ _ Hm1) as Hle.
    simpl in Hle. lia. }
  { pose proof (marksGrow_pending _ _ _ _ Hkn Hgrow2). lia. }
  assert (∀ j, j < length (TypeVariables g0) →
               comps !! j ≠ Some (length (TypeVariables g0)) →
               comps2 !! j ≠ Some (length (TypeVariables g0))) as Hkeep2.
  { intros j Hj Hne Hj2.
    destruct (marksGrow_lookup_r _ _ _ _ _ _ Hg02 Hj2)
      as (m & Hm & [Heq|[_ ?]]); [congruence|lia]. }
  exists comps', k', g'. do 4 (split; [done|]). split.
  - intros j [->|Hj]%elem_of_cons; [|by apply Hdone].
    apply Hkeep; [done|]. intros Hj2.
    assert (comps1 !! i = Some k) as Hik
      by (apply list_lookup_insert_eq; lia).
    destruct (marksGrow_lookup _ _ _ _ _ _ Hgrow2 Hik)
      as (m' & Hm' & [Heq|[? ?]]); congruence.
  - intros j Hj Hne. apply Hkeep; [done|]. by apply Hkeep2.
Qed.

End Search.

Lemma markUnbound_total CS subset TVs comps :
  ∀ idxs has0,
    (∀ i, i ∈ idxs → is_Some (TVs !! i) ∧
            ∃ c, comps !! i = Some c ∧ c < length has0) →
    is_Some (markUnbound CS subset TVs comps idxs has0).
Proof.
  induction idxs as [|i idxs IH]; intros has0 Hidxs; [by eexists|].
  destruct (Hidxs i ltac:(left)) as [[v Hv] (c & Hc & Hlt)].
  assert (∀ i, i ∈ idxs → is_Some (TVs !! i) ∧
            ∃ c', comps !! i = Some c' ∧
                  c' < length (<[c := true]> has0)) as Hrest
    by (intros j Hj; rewrite length_insert; apply Hidxs; by right).
  simpl. rewrite Hv. simpl. repeat case_decide.
  - apply IH. intros; apply Hidxs; by right.
  - apply IH. intros; apply Hidxs; by right.
  - rewrite Hc. simpl. rewrite decide_True by done. by apply IH.
Qed.

Lemma renumber_total has :
  ∀ idxs ren0 k0,
    (∀ i, i ∈ idxs → i < length has ∧ i < length ren0) →
    is_Some (renumber has idxs ren0 k0).
Proof.
  induction idxs as [|i idxs IH]; intros ren0 k0 Hidxs; [by eexists|].
  destruct (Hidxs i ltac:(left)) as [Hh Hr].
  destruct (lookup_lt_is_Some_2 _ _ Hh) as [b Hb].
  simpl. rewrite Hb. simpl. destruct b.
  - rewrite decide_True by done. apply IH. intros j Hj.
    rewrite length_insert. apply Hidxs; by right.
  - apply IH. intros; apply Hidxs; by right.
Qed.

Lemma copyLive_total TVs has ren m :
  ∀ i tvs0 comps0 out0,
    out0 ≤ i → i + m ≤ length comps0 →
    (∀ k, i ≤ k < i + m →
       is_Some (TVs !! k) ∧
       ∃ c, comps0 !! k = Some c ∧ c < length has ∧ c < length ren) →
    is_Some (copyLive TVs has ren (seq i m) tvs0 comps0 out0).
Proof.
  induction m as [|m IH]; intros i tvs0 comps0 out0 Hout Hlen Hk;
    [by eexists|].
  destruct (Hk i ltac:(lia)) as [[v Hv] (c & Hc & Hh & Hr)].
  destruct (lookup_lt_is_Some_2 _ _ Hh) as [b Hb].
  destruct (lookup_lt_is_Some_2 _ _ Hr) as [r Hren].
  simpl. rewrite Hc. simpl. rewrite Hb. simpl. destruct b.
  - rewrite Hv. simpl. rewrite Hren. simpl.
    rewrite decide_True by lia. apply IH; [lia| |].
    { rewrite length_insert. lia. }
    intros k Hrange. rewrite list_lookup_insert_ne by lia.
    apply Hk. lia.
  - apply IH; [lia..|]. intros k Hrange. apply Hk. lia.
Qed.

(** On a searchable graph the computation returns. *)
Lemma computeConnectedComponents_returns CS fuel typeVars g :
  searchable CS g →
  ∃ r g', computeConnectedComponents CS fuel typeVars g = Ok (r, g').
Proof.
  intros Hs. unfold computeConnectedComponents.
  destruct (assignComponents_searches CS g Hs fuel
              (seq 0 (length (TypeVariables g)))
              (replicate (length (TypeVariables g))
                 (length (TypeVariables g))) 0 g)
    as (comps & k & g' & Hrun & Hg' & Hlen & Hb & Hdone & _).
  { apply sameSearch_refl. }
  { by intros i [_ ?]%elem_of_seq. }
  { by rewrite length_replicate. }
  { apply Forall_replicate. by left. }
  { intros v w m _ _ _ Hm. lia. }
  { unfold pending. pose proof (length_filter
      (λ m, m = length (TypeVariables g))
      (replicate (length (TypeVariables g)) (length (TypeVariables g)))) as H.
    rewrite length_replicate in H. lia. }
  assert (∀ i, i < length (TypeVariables g) →
               ∃ c, comps !! i = Some c ∧ c < k) as Hmarks.
  { intros i Hi.
    destruct (lookup_lt_is_Some_2 comps i ltac:(lia)) as [c Hc].
    exists c. split; [done|].
    pose proof (proj1 (Forall_lookup _ _) Hb _ _ Hc) as Hle. simpl in Hle.
    destruct Hle as [->|?]; [|done].
    exfalso. apply (Hdone i); [|done]. apply elem_of_seq. lia. }
  unfold bind. rewrite Hrun. rewrite (proj1 Hg').
  destruct (markUnbound_total CS (list_to_set typeVars) (TypeVariables g)
              comps (seq 0 (length (TypeVariables g))) (replicate k false))
    as [has Hhas].
  { intros i [_ Hi]%elem_of_seq. split; [by apply lookup_lt_is_Some_2|].
    rewrite length_replicate. apply Hmarks. lia. }
  rewrite Hhas. simpl.
  assert (length has = k) as Hhk.
  { apply markUnbound_spec in Hhas as [-> _]. by rewrite length_replicate. }
  destruct (renumber_total has (seq 0 (length has)) (replicate k 0) 0)
    as [[ren k'] Hren].
  { intros i [_ Hi]%elem_of_seq. rewrite length_replicate. lia. }
  rewrite Hren. simpl.
  assert (length ren = k) as Hrk.
  { apply renumber_spec in Hren as (_ & -> & _); [|apply NoDup_seq].
    by rewrite length_replicate. }
  destruct (copyLive_total (TypeVariables g) has ren
              (length (TypeVariables g)) 0 [] comps 0)
    as [[[tvs comps'] out] Hcopy]; [lia..| |].
  { intros i [_ Hi]. split; [by apply lookup_lt_is_Some_2|].
    destruct (Hmarks i Hi) as (c & ? & ?). exists c. split; [done|]. lia. }
  rewrite Hcopy. simpl. eauto.
Qed.

(** The scenario graph is searchable under every constraint system that
    has merged nothing. *)
Lemma scenario_searchable CS :
  (∀ v, getRepresentative CS v = v) → searchable CS Scenario.graph.
Proof.
  intros Hrep.
  assert (∀ v, v ∈ TypeVariables Scenario.graph → v = 0 ∨ v = 1 ∨ v = 2)
    as Hvars.
  { intros v Hv. vm_compute in Hv. set_unfold. naive_solver. }
  assert (∀ v, searchEdges CS Scenario.graph v =
               match Nodes Scenario.graph !! v with
               | None => []
               | Some s =>
                   Adjacencies (NodePtr s) ++
                   drop 1 (NodeOps.getEquivalenceClassUnsafe (NodePtr s)).1
               end) as Hedges.
  { intros v. unfold searchEdges.
    destruct (Nodes Scenario.graph !! v); [|done].
    by rewrite Hrep, decide_True. }
  split.
  - intros i v Hi.
    destruct i as [|[|[|i]]]; vm_compute in Hi; simplify_eq;
      (eexists; split; [vm_compute; reflexivity|done]).
  - intros v w Hv Hw. rewrite Hedges in Hw.
    destruct (Hvars v Hv) as [->|[->| ->]]; vm_compute in Hw;
      vm_compute; set_unfold; naive_solver.
  - intros v w Hv Hw. rewrite Hedges in Hw. rewrite Hedges.
    destruct (Hvars v Hv) as [->|[->| ->]]; vm_compute in Hw;
      set_unfold; destruct_or?; simplify_eq; vm_compute; set_solver.
Qed.

Lemma searchable_NoDup CS g : searchable CS g → NoDup (TypeVariables g).
Proof.
  intros Hs. apply NoDup_alt. intros i j v Hi Hj.
  destruct (sr_listed _ _ Hs i v Hi) as (s & Hsv & <- & _).
  destruct (sr_listed _ _ Hs j v Hj) as (s' & Hsv' & <- & _).
  congruence.
Qed.

(** C2, amended: on a searchable graph [computeConnectedComponents]
    returns, whatever subset is requested, and leaves the vector of type
    variables as it was.  The two output arrays have the same length and
    pair each reported type variable with one component index below the
    returned count, every index below the count being used.  The
    reported type variables are distinct and a subsequence of the graph's
    type variables; every type variable of the graph that has no fixed
    type and is in the requested subset (when that is non-empty) is
    reported; and every reported component has such a member. *)
Theorem computeConnectedComponents_partition CS fuel typeVars g :
  searchable CS g →
  ∃ tvs comps n g',
    computeConnectedComponents CS fuel typeVars g =
      Ok ((tvs, comps, n), g') ∧
    TypeVariables g' = TypeVariables g ∧
    length comps = length tvs ∧
    tvs `sublist_of` TypeVariables g ∧
    NoDup tvs ∧
    (∀ j c, comps !! j = Some c → c < n) ∧
    (∀ c, c < n → c ∈ comps) ∧
    (∀ v, v ∈ TypeVariables g → wanted CS typeVars v → v ∈ tvs) ∧
    (∀ j c, comps !! j = Some c →
       ∃ j' v, comps !! j' = Some c ∧ tvs !! j' = Some v ∧
               wanted CS typeVars v).
Proof.
  intros Hs.
  destruct (computeConnectedComponents_returns CS fuel typeVars g Hs)
    as ([[tvs comps] n] & g' & Hrun).
  exists tvs, comps, n, g'. split; [done|].
  destruct (computeConnectedComponents_Ok_partition _ _ _ _ _ _ _ _ Hrun)
    as (? & ? & ? & Hnd & ? & ? & ? & ?).
  split_and!; try done. apply Hnd. by eapply searchable_NoDup.
Qed.

(** In the scenario graph, with type variable 1 bound to a type without
    type variables, the single component is reported whole: the bound
    type variable comes back to a caller who asked for the unresolved
    type variables. *)
Lemma computeConnectedComponents_reports_bound :
  ¬ (∀ CS fuel typeVars g tvs comps n g',
       searchable CS g →
       computeConnectedComponents CS fuel typeVars g =
         Ok ((tvs, comps, n), g') →
       ∀ v, v ∈ tvs ↔ v ∈ TypeVariables g ∧ wanted CS typeVars v).
Proof.
  intros H.
  destruct (computeConnectedComponents Examples.csBound 0 [] Scenario.graph)
    as [[[[tvs comps] n] g']| |] eqn:Hrun; [|by vm_compute in Hrun..].
  specialize (H _ _ _ _ _ _ _ _
                (scenario_searchable Examples.csBound (λ _, eq_refl)) Hrun 1).
  vm_compute in Hrun. injection Hrun as <- _ _ _.
  destruct H as [H _]. destruct H as [_ [Hfixed _]]; [set_solver|].
  by vm_compute in Hfixed.
Qed.

Lemma computeConnectedComponents_partition_witness :
  ∃ tvs comps n g',
    computeConnectedComponents Examples.csFree 0 [] Scenario.graph =
      Ok ((tvs, comps, n), g') ∧
    TypeVariables g' = TypeVariables Scenario.graph ∧
    length comps = length tvs ∧
    tvs `sublist_of` TypeVariables Scenario.graph ∧
    NoDup tvs ∧
    (∀ j c, comps !! j = Some c → c < n) ∧
    (∀ c, c < n → c ∈ comps) ∧
    (∀ v, v ∈ TypeVariables Scenario.graph →
          wanted Examples.csFree [] v → v ∈ tvs) ∧
    (∀ j c, comps !! j = Some c →
       ∃ j' v, comps !! j' = Some c ∧ tvs !! j' = Some v ∧
               wanted Examples.csFree [] v).
Proof.
  apply (computeConnectedComponents_partition Examples.csFree 0 []
           Scenario.graph).
  apply scenario_searchable. reflexivity.
Defined.

(** ** Scopes: what the change log accounts for *)

Lemma replay_app {X} (step : Change → X → option X) l1 l2 x :
  replay step (l1 ++ l2) x = replay step l1 x ≫= replay step l2.
Proof.
  revert x. induction l1 as [|r l1 IH]; intros x; simpl; [done|].
  destruct (step r x) as [x'|]; simpl; [apply IH|done].
Qed.

Lemma replay_app_Some {X} (step : Change → X → option X) l1 l2 x y z :
  replay step l1 x = Some y → replay step l2 y = Some z →
  replay step (l1 ++ l2) x = Some z.
Proof. intros H1 H2. by rewrite replay_app, H1. Qed.

Lemma replay_snoc_inv {X} (step : Change → X → option X) l r x z :
  replay step (l ++ [r]) x = Some z →
  ∃ y, replay step l x = Some y ∧ step r y = Some z.
Proof.
  rewrite replay_app. destruct (replay step l x) as [y|]; [|done].
  simpl. destruct (step r y) as [z'|] eqn:Hstep; [|done].
  simpl. intros ?; simplify_eq. eauto.
Qed.

Lemma created_app l1 l2 : created (l1 ++ l2) = created l1 ++ created l2.
Proof. apply omap_app. Qed.

Lemma classLike_refl v X : classLike v X X.
Proof. by left. Qed.

Lemma classLike_trans v X Y Z :
  classLike v X Y → classLike v Y Z → classLike v X Z.
Proof.
  intros [->|[-> ->]] H; [done|].
  destruct H as [<-|[_ ?]]; [by right|done].
Qed.

Lemma classBack_like v rs X Y Z :
  classLike v X Y → replay (classBack v) rs Y = Some Z →
  ∃ Z', replay (classBack v) rs X = Some Z' ∧ classLike v Z' Z.
Proof.
  revert X Y. induction rs as [|r rs IH]; intros X Y Hlike Hrun.
  { simpl in *. simplify_eq. eauto. }
  destruct Hlike as [->|[-> ->]]; [exists Z; split; [done|by left]|].
  simpl in *. destruct r as [v'| | |v' k|]; simpl in *;
    try (by apply (IH [v] []); [right|]).
  - destruct (decide (v' = v)); simpl in *.
    + exists Z. split; [done|by left].
    + by apply (IH [v] []); [right|].
  - destruct (decide (v' = v)); simpl in *.
    + rewrite decide_False in Hrun by (simpl; lia). done.
    + by apply (IH [v] []); [right|].
Qed.

Lemma framedBy_refl g : wfGraph g → framedBy [] g g.
Proof.
  intros Hwf. split; simpl; try done.
  - by rewrite app_nil_r.
  - by rewrite app_nil_r.
  - intros v s Hv. by exists s.
Qed.

Lemma framedBy_trans l1 l2 g g1 g2 :
  framedBy l1 g g1 → framedBy l2 g1 g2 → framedBy (l1 ++ l2) g g2.
Proof.
  intros [? Hs1 Hc1 Ht1 Hd1 Hi1 Hn1] [? Hs2 Hc2 Ht2 Hd2 Hi2 Hn2].
  split.
  - done.
  - congruence.
  - by rewrite Hc2, Hc1, app_assoc.
  - by rewrite Ht2, Ht1, created_app, app_assoc.
  - by eapply replay_app_Some.
  - intros v s Hv. destruct (Hi1 v s Hv) as (s1 & Hv1 & <-).
    destruct (Hi2 v s1 Hv1) as (s2 & Hv2 & <-). eauto.
  - intros i v. rewrite created_app. intros Hi.
    apply lookup_app_Some in Hi as [Hi|[Hlen Hi]].
    + destruct (Hn1 i v Hi) as (s1 & Hv1 & <-).
      destruct (Hi2 v s1 Hv1) as (s2 & Hv2 & <-). eauto.
    + destruct (Hn2 _ v Hi) as (s2 & Hv2 & Hidx). exists s2.
      split; [done|]. rewrite Hidx, Ht1, length_app. lia.
Qed.

Lemma consAcc_trans l1 l2 g g1 g2 :
  consAcc l1 g g1 → consAcc l2 g1 g2 → consAcc (l1 ++ l2) g g2.
Proof. intros H1 H2 v. by eapply replay_app_Some. Qed.

Lemma cntAcc_trans l1 l2 g g1 g2 :
  cntAcc l1 g g1 → cntAcc l2 g1 g2 → cntAcc (l1 ++ l2) g g2.
Proof. intros H1 H2 v w. by eapply replay_app_Some. Qed.

Lemma flagAcc_trans l1 l2 g g1 g2 :
  flagAcc l1 g g1 → flagAcc l2 g1 g2 → flagAcc (l1 ++ l2) g g2.
Proof. intros H1 H2 v w. by eapply replay_app_Some. Qed.

Lemma classAcc_trans l1 l2 g g1 g2 :
  classAcc l1 g g1 → classAcc l2 g1 g2 → classAcc (l1 ++ l2) g g2.
Proof.
  intros H1 H2 v. destruct (H1 v) as (X1 & Hrun1 & Hlike1).
  destruct (H2 v) as (X2 & Hrun2 & Hlike2).
  destruct (classBack_like v _ _ _ _ Hlike2 Hrun1) as (Z & Hrun & Hlike).
  exists Z. split; [|by eapply classLike_trans].
  rewrite reverse_app. by eapply replay_app_Some.
Qed.

Lemma accountedBy_refl g : wfGraph g → accountedBy [] g g.
Proof.
  intros Hwf. split; [by apply framedBy_refl|done..|].
  intros v. exists (rawClass g v). split; [done|apply classLike_refl].
Qed.

Lemma accountedBy_trans l1 l2 g g1 g2 :
  accountedBy l1 g g1 → accountedBy l2 g1 g2 →
  accountedBy (l1 ++ l2) g g2.
Proof.
  intros [] []. split; eauto using framedBy_trans, consAcc_trans,
    cntAcc_trans, flagAcc_trans, classAcc_trans.
Qed.

Lemma quietLog_app l1 l2 : quietLog l1 → quietLog l2 → quietLog (l1 ++ l2).
Proof. apply Forall_app_2. Qed.

Global Instance accounts_preorder : PreOrder accounts.
Proof.
  split.
  - intros g Hwf _. exists []. by apply accountedBy_refl.
  - intros g g1 g2 H1 H2 Hwf Hsc.
    destruct (H1 Hwf Hsc) as (l1 & Hacc1).
    destruct (H2 (fr_wf _ _ _ (acc_framed _ _ _ Hacc1))) as (l2 & Hacc2).
    { by rewrite (fr_scope _ _ _ (acc_framed _ _ _ Hacc1)). }
    exists (l1 ++ l2). by eapply accountedBy_trans.
Qed.

Global Instance creates_preorder : PreOrder creates.
Proof.
  split.
  - intros g Hwf _. exists []. split; [by apply accountedBy_refl|].
    constructor.
  - intros g g1 g2 H1 H2 Hwf Hsc.
    destruct (H1 Hwf Hsc) as (l1 & Hacc1 & Hq1).
    destruct (H2 (fr_wf _ _ _ (acc_framed _ _ _ Hacc1))) as (l2 & Hacc2 & Hq2).
    { by rewrite (fr_scope _ _ _ (acc_framed _ _ _ Hacc1)). }
    exists (l1 ++ l2). split; [by eapply accountedBy_trans|].
    by apply quietLog_app.
Qed.

Lemma creates_accounts g g' : creates g g' → accounts g g'.
Proof. intros H Hwf Hsc. destruct (H Hwf Hsc) as (l & ? & _). eauto. Qed.

Lemma withNode_setNode {A} v (f : Node → option (A * Node)) g a g' :
  withNode v f g = Ok (a, g') ↔
  ∃ s n', Nodes g !! v = Some s ∧ f (NodePtr s) = Some (a, n') ∧
          g' = setNode v n' g.
Proof.
  rewrite withNode_Ok. unfold setNode. split.
  - intros (s & a' & n' & Hs & Hf & ?). simplify_eq.
    exists s, n'. by rewrite Hs.
  - intros (s & n' & Hs & Hf & ->). rewrite Hs. by exists s, a, n'.
Qed.

Lemma modifyNode_setNode v (f : Node → option Node) g g' :
  modifyNode v f g = Ok (tt, g') ↔
  ∃ s n', Nodes g !! v = Some s ∧ f (NodePtr s) = Some n' ∧
          g' = setNode v n' g.
Proof.
  unfold modifyNode. rewrite withNode_setNode. split.
  - intros (s & n' & Hs & Hf & ->). exists s, n'. split; [done|].
    destruct (f (NodePtr s)); simpl in *; by simplify_eq.
  - intros (s & n' & Hs & Hf & ->). exists s, n'. by rewrite Hf.
Qed.

Section SetNode.
Variable v : TypeVariableType.
Variable n' : Node.
Variable g : ConstraintGraph.
Variable s : StoredNode.
Hypothesis Hs : Nodes g !! v = Some s.

Lemma setNode_Nodes :
  Nodes (setNode v n' g) = <[v := MkStoredNode n' (NodeIndex s)]> (Nodes g).
Proof using Hs. unfold setNode. by rewrite Hs. Qed.

Lemma setNode_TypeVariables :
  TypeVariables (setNode v n' g) = TypeVariables g.
Proof using Hs. unfold setNode. by rewrite Hs. Qed.

Lemma setNode_Changes : Changes (setNode v n' g) = Changes g.
Proof using Hs. unfold setNode. by rewrite Hs. Qed.

Lemma setNode_ActiveScope : ActiveScope (setNode v n' g) = ActiveScope g.
Proof using Hs. unfold setNode. by rewrite Hs. Qed.

Lemma setNode_dom : dom (Nodes (setNode v n' g)) = dom (Nodes g).
Proof using Hs.
  rewrite setNode_Nodes, dom_insert_L.
  apply elem_of_dom_2 in Hs. set_solver.
Qed.

Lemma setNode_nodeOr_eq : nodeOr v (setNode v n' g) = n'.
Proof using Hs. unfold nodeOr. by rewrite setNode_Nodes, lookup_insert_eq. Qed.

Lemma setNode_nodeOr_ne w : w ≠ v → nodeOr w (setNode v n' g) = nodeOr w g.
Proof using Hs.
  intros Hne. unfold nodeOr. by rewrite setNode_Nodes, lookup_insert_ne.
Qed.

Lemma setNode_wf :
  wfGraph g → wfNode n' → TypeVar n' = v → wfGraph (setNode v n' g).
Proof using Hs.
  intros Hwf Hn Htv w sw. rewrite setNode_Nodes.
  destruct (decide (w = v)) as [->|Hne].
  - rewrite lookup_insert_eq. intros ?; by simplify_eq.
  - rewrite lookup_insert_ne by done. apply Hwf.
Qed.

Lemma nodeOr_stored : nodeOr v g = NodePtr s.
Proof using Hs. unfold nodeOr. by rewrite Hs. Qed.

End SetNode.

Lemma framedBy_setNode log g0 g v s n' :
  framedBy log g0 g → Nodes g !! v = Some s →
  wfNode n' → TypeVar n' = v → framedBy log g0 (setNode v n' g).
Proof.
  intros [Hwf Hsc Hch Htv Hdom Hidx Hnew] Hs Hn' Hv. split.
  - by eapply setNode_wf.
  - by rewrite (setNode_ActiveScope _ _ _ _ Hs).
  - by rewrite (setNode_Changes _ _ _ _ Hs).
  - by rewrite (setNode_TypeVariables _ _ _ _ Hs).
  - by rewrite (setNode_dom _ _ _ _ Hs).
  - intros w sw Hw. destruct (Hidx w sw Hw) as (s' & Hs' & <-).
    rewrite (setNode_Nodes _ _ _ _ Hs).
    destruct (decide (w = v)) as [->|Hne].
    + rewrite lookup_insert_eq. eexists; split; [done|]. simpl. congruence.
    + rewrite lookup_insert_ne by done. eauto.
  - intros i w Hi. destruct (Hnew i w Hi) as (s' & Hs' & <-).
    rewrite (setNode_Nodes _ _ _ _ Hs).
    destruct (decide (w = v)) as [->|Hne].
    + rewrite lookup_insert_eq. eexists; split; [done|]. simpl. congruence.
    + rewrite lookup_insert_ne by done. eauto.
Qed.

Lemma consAcc_ext log g0 g g' :
  consAcc log g0 g → (∀ v, consSet g' v = consSet g v) → consAcc log g0 g'.
Proof. intros H Heq v. rewrite Heq. apply H. Qed.

Lemma cntAcc_ext log g0 g g' :
  cntAcc log g0 g → (∀ v w, cntOf g' v w = cntOf g v w) → cntAcc log g0 g'.
Proof. intros H Heq v w. rewrite Heq. apply H. Qed.

Lemma flagAcc_ext log g0 g g' :
  flagAcc log g0 g → (∀ v w, flagOf g' v w = flagOf g v w) →
  flagAcc log g0 g'.
Proof. intros H Heq v w. rewrite Heq. apply H. Qed.

Lemma classAcc_like log g0 g g' :
  classAcc log g0 g → (∀ v, classLike v (rawClass g' v) (rawClass g v)) →
  classAcc log g0 g'.
Proof.
  intros H Hlike v. destruct (H v) as (X & Hrun & HX).
  destruct (classBack_like v _ _ _ _ (Hlike v) Hrun) as (Z & Hrun' & HZ).
  exists Z. split; [done|]. by eapply classLike_trans.
Qed.

(** Storing a node that differs from the stored one by a seeded class
    at most is not a change. *)
Lemma accountedBy_setNode log g0 g v s n' :
  accountedBy log g0 g → Nodes g !! v = Some s →
  wfNode n' → TypeVar n' = v →
  Constraints n' = Constraints (NodePtr s) →
  (∀ w, adjacencyOf n' w = adjacencyOf (NodePtr s) w) →
  classLike v (EquivalenceClass n') (EquivalenceClass (NodePtr s)) →
  accountedBy log g0 (setNode v n' g).
Proof.
  intros [Hfr Hcons Hcnt Hflag Hcls] Hs Hn' Hv Hc Hadj Hlike.
  assert (∀ w, w ≠ v → nodeOr w (setNode v n' g) = nodeOr w g) as Hne
    by (intros; by eapply setNode_nodeOr_ne).
  pose proof (setNode_nodeOr_eq v n' g s Hs) as Heq.
  pose proof (nodeOr_stored v g s Hs) as Hold.
  split.
  - by eapply framedBy_setNode.
  - eapply consAcc_ext; [done|]. intros w. unfold consSet.
    destruct (decide (w = v)) as [->|?]; [|by rewrite Hne].
    by rewrite Heq, Hold, Hc.
  - eapply cntAcc_ext; [done|]. intros w x. unfold cntOf.
    destruct (decide (w = v)) as [->|?]; [|by rewrite Hne].
    by rewrite Heq, Hold, Hadj.
  - eapply flagAcc_ext; [done|]. intros w x. unfold flagOf.
    destruct (decide (w = v)) as [->|?]; [|by rewrite Hne].
    by rewrite Heq, Hold, Hadj.
  - eapply classAcc_like; [done|]. intros w. unfold rawClass.
    destruct (decide (w = v)) as [->|?]; [|rewrite Hne by done; by left].
    by rewrite Heq, Hold.
Qed.

Lemma sameButClass_wf n n' : sameButClass n n' → wfNode n → wfNode n'.
Proof.
  intros (Htv & Hc & Hci & Ha & Hai) [H1 H2 H3].
  split; rewrite ?Hc, ?Hci, ?Ha, ?Hai; done.
Qed.

Lemma sameButClass_adjacencyOf n n' w :
  sameButClass n n' → adjacencyOf n' w = adjacencyOf n w.
Proof. intros (_ & _ & _ & _ & Hai). unfold adjacencyOf. by rewrite Hai. Qed.

Lemma sameButClass_refl n : sameButClass n n.
Proof. done. Qed.

Lemma seeded_sameButClass n :
  sameButClass n (NodeOps.getEquivalenceClassUnsafe n).2.
Proof.
  unfold NodeOps.getEquivalenceClassUnsafe.
  by destruct (EquivalenceClass n).
Qed.

Lemma seeded_class n :
  EquivalenceClass (NodeOps.getEquivalenceClassUnsafe n).2 =
    (NodeOps.getEquivalenceClassUnsafe n).1 ∧
  (NodeOps.getEquivalenceClassUnsafe n).1 ≠ [] ∧
  classLike (TypeVar n) (NodeOps.getEquivalenceClassUnsafe n).1
    (EquivalenceClass n).
Proof.
  unfold NodeOps.getEquivalenceClassUnsafe.
  destruct (EquivalenceClass n) as [|x l] eqn:Hcls; simpl.
  - split; [done|]. split; [done|]. by right.
  - split; [done|]. split; [done|]. by left.
Qed.

Lemma accountedBy_read log g0 g v s n' :
  accountedBy log g0 g → Nodes g !! v = Some s →
  sameButClass (NodePtr s) n' →
  classLike v (EquivalenceClass n') (EquivalenceClass (NodePtr s)) →
  accountedBy log g0 (setNode v n' g).
Proof.
  intros Hacc Hs Hsame Hlike.
  destruct (fr_wf _ _ _ (acc_framed _ _ _ Hacc) v s Hs) as [Hwf Htv].
  eapply accountedBy_setNode; try done.
  - by eapply sameButClass_wf.
  - destruct Hsame as (-> & _). done.
  - by destruct Hsame as (_ & -> & _).
  - intros w. by apply sameButClass_adjacencyOf.
Qed.

(** Reading a node, which can seed its class, creates nothing. *)
Lemma creates_withNode {A} v (f : Node → option (A * Node)) :
  (∀ n a n', f n = Some (a, n') →
     sameButClass n n' ∧
     classLike (TypeVar n) (EquivalenceClass n') (EquivalenceClass n)) →
  preserves creates (withNode v f).
Proof.
  intros Hf g a g' (s & n' & Hs & Hfn & ->)%withNode_setNode Hwf Hsc.
  exists []. split; [|constructor].
  destruct (Hf _ _ _ Hfn) as [Hsame Hlike].
  destruct (Hwf v s Hs) as [_ Htv]. rewrite Htv in Hlike.
  eapply accountedBy_read; [by apply accountedBy_refl|done..].
Qed.

Lemma creates_withNode_get {A} v (x : Node → A) :
  preserves creates (withNode v (λ n, Some (x n, n))).
Proof.
  apply creates_withNode. intros n a n' ?; simplify_eq.
  split; [done|by left].
Qed.

Lemma creates_withNode_getEquivalenceClassUnsafe v :
  preserves creates
    (withNode v (λ n, Some (NodeOps.getEquivalenceClassUnsafe n))).
Proof.
  apply creates_withNode. intros n a n' Hf.
  pose proof (seeded_sameButClass n) as Hsame.
  destruct (seeded_class n) as (Hcls & _ & Hlike).
  destruct (NodeOps.getEquivalenceClassUnsafe n) as [cls n1].
  simpl in *. simplify_eq. done.
Qed.

Lemma creates_withNode_getEquivalenceClass rep v :
  preserves creates (withNode v (NodeOps.getEquivalenceClass rep)).
Proof.
  apply creates_withNode. intros n a n'.
  unfold NodeOps.getEquivalenceClass. case_decide; [|done].
  pose proof (seeded_sameButClass n) as Hsame.
  destruct (seeded_class n) as (Hcls & _ & Hlike).
  destruct (NodeOps.getEquivalenceClassUnsafe n) as [cls n1].
  simpl in *. intros ?; simplify_eq. done.
Qed.

(** Allocating the node of a type variable is accounted for by its
    record. *)
Lemma accountedBy_withNewNode v g :
  wfGraph g → is_Some (ActiveScope g) → Nodes g !! v = None →
  accountedBy [AddedTypeVariable v] g (withNewNode v g).
Proof.
  intros Hwf [sc Hsc] Hv.
  assert (nodeOr v g = newNode v) as Hold by (unfold nodeOr; by rewrite Hv).
  assert (nodeOr v (withNewNode v g) = newNode v) as Hnew.
  { unfold nodeOr, withNewNode. simpl. by rewrite lookup_insert_eq. }
  assert (∀ w, w ≠ v → nodeOr w (withNewNode v g) = nodeOr w g) as Hne.
  { intros w Hw. unfold nodeOr, withNewNode. simpl.
    by rewrite lookup_insert_ne. }
  split; [split|..].
  - intros w sw. unfold withNewNode. simpl.
    destruct (decide (w = v)) as [->|Hw].
    + rewrite lookup_insert_eq. intros ?; simplify_eq.
      split; [apply wfNode_newNode|done].
    + rewrite lookup_insert_ne by done. apply Hwf.
  - done.
  - unfold withNewNode. simpl. by rewrite Hsc.
  - done.
  - simpl. rewrite decide_False by by apply not_elem_of_dom.
    unfold withNewNode. simpl. by rewrite dom_insert_L.
  - intros w sw Hw. exists sw. split; [|done].
    unfold withNewNode. simpl. rewrite lookup_insert_ne; [done|].
    intros ->. congruence.
  - intros i w Hi. destruct i; simpl in Hi; [|done]. simplify_eq.
    eexists. unfold withNewNode. simpl. rewrite lookup_insert_eq.
    split; [done|]. simpl. lia.
  - intros w. simpl. unfold consSet.
    destruct (decide (v = w)) as [<-|Hw].
    + rewrite Hold, Hnew. simpl. by rewrite decide_True.
    + by rewrite Hne.
  - intros w x. simpl. unfold cntOf.
    destruct (decide (v = w)) as [<-|Hw].
    + rewrite Hold, Hnew. simpl. done.
    + by rewrite Hne.
  - intros w x. simpl. unfold flagOf.
    destruct (decide (v = w)) as [<-|Hw].
    + rewrite Hold, Hnew. simpl. done.
    + by rewrite Hne.
  - intros w. simpl. unfold rawClass.
    destruct (decide (v = w)) as [<-|Hw].
    + rewrite Hold. exists []. split; [done|by left].
    + rewrite Hne by done. eexists. split; [done|by left].
Qed.

Lemma recordChange_record r g :
  is_Some (ActiveScope g) → recordChange r g = Ok (tt, record r g).
Proof. intros [sc Hsc]. unfold recordChange, record. by rewrite Hsc. Qed.

Lemma nodeOr_record r g v : nodeOr v (record r g) = nodeOr v g.
Proof. done. Qed.

Lemma framedBy_record log g0 g r :
  framedBy log g0 g →
  domStep r (dom (Nodes g)) = Some (dom (Nodes g)) → created [r] = [] →
  framedBy (log ++ [r]) g0 (record r g).
Proof.
  intros [Hwf Hsc Hch Htv Hdom Hidx Hnew] Hr Hcr. split; simpl; try done.
  - by rewrite Hch, app_assoc.
  - by rewrite created_app, Hcr, app_nil_r.
  - by eapply replay_app_Some; [done|simpl; rewrite Hr].
  - by rewrite created_app, Hcr, app_nil_r.
Qed.

Lemma consAcc_snoc log g0 g g' r :
  consAcc log g0 g →
  (∀ v, consStep v r (consSet g v) = Some (consSet g' v)) →
  consAcc (log ++ [r]) g0 g'.
Proof.
  intros H Hr v. eapply replay_app_Some; [apply H|]. simpl.
  by rewrite Hr.
Qed.

Lemma cntAcc_snoc log g0 g g' r :
  cntAcc log g0 g →
  (∀ v w, cntStep v w r (cntOf g v w) = Some (cntOf g' v w)) →
  cntAcc (log ++ [r]) g0 g'.
Proof.
  intros H Hr v w. eapply replay_app_Some; [apply H|]. simpl.
  by rewrite Hr.
Qed.

Lemma flagAcc_snoc log g0 g g' r :
  flagAcc log g0 g →
  (∀ v w, flagStep v w r (flagOf g v w) = Some (flagOf g' v w)) →
  flagAcc (log ++ [r]) g0 g'.
Proof.
  intros H Hr v w. eapply replay_app_Some; [apply H|]. simpl.
  by rewrite Hr.
Qed.

Lemma classAcc_snoc log g0 g g' r :
  classAcc log g0 g →
  (∀ v, ∃ X, classBack v r (rawClass g' v) = Some X ∧
             classLike v X (rawClass g v)) →
  classAcc (log ++ [r]) g0 g'.
Proof.
  intros H Hr. replace (log ++ [r]) with (log ++ [r] ++ []) by done.
  eapply classAcc_trans; [done|]. intros v.
  destruct (Hr v) as (X & HX & Hlike). exists X. simpl.
  rewrite HX. done.
Qed.

Lemma classBack_prefix v rs X X' Y :
  X `prefix_of` X' → replay (classBack v) rs X = Some Y →
  ∃ Y', replay (classBack v) rs X' = Some Y' ∧ Y `prefix_of` Y' ∧
        ((∃ k, ExtendedEquivalenceClass v k ∈ rs) → Y' = Y).
Proof.
  revert X X'. induction rs as [|r rs IH]; intros X X' Hpre Hrun.
  { simpl in *. simplify_eq. exists X'. split; [done|]. split; [done|].
    intros [k Hk]. by apply elem_of_nil in Hk. }
  assert (∀ Z, replay (classBack v) rs Z = Some Y →
    ∃ Y', replay (classBack v) rs Z = Some Y' ∧ Y `prefix_of` Y' ∧
          ((∃ k, ExtendedEquivalenceClass v k ∈ r :: rs) → Y' = Y)) as Hsame.
  { intros Z HZ. exists Y. done. }
  assert ((∃ k, ExtendedEquivalenceClass v k ∈ r :: rs) →
          (∀ v' k, r ≠ ExtendedEquivalenceClass v' k ∨ v' ≠ v) →
          ∃ k, ExtendedEquivalenceClass v k ∈ rs) as Hin.
  { intros [k [Heq|Hk]%elem_of_cons] Hr; [|eauto].
    destruct (Hr v k); done. }
  simpl in *. destruct r as [v'| | |v' k|]; simpl in *;
    try (destruct (IH X X' Hpre Hrun) as (Y' & ? & ? & HY);
         exists Y'; split; [done|]; split; [done|];
         intros Hk; apply HY, Hin; [done|by left]).
  - destruct (decide (v' = v)); simpl in *; [by apply Hsame|].
    destruct (IH X X' Hpre Hrun) as (Y' & ? & ? & HY).
    exists Y'. split; [done|]. split; [done|].
    intros Hk; apply HY, Hin; [done|by left].
  - destruct (decide (v' = v)) as [->|Hne]; simpl in *.
    + destruct (decide (1 ≤ k ≤ length X)) as [Hk|]; [|done].
      simpl in *. pose proof (prefix_length _ _ Hpre).
      rewrite decide_True by lia. simpl.
      destruct Hpre as [Z ->]. rewrite take_app_le by lia.
      by apply Hsame.
    + destruct (IH X X' Hpre Hrun) as (Y' & ? & ? & HY).
      exists Y'. split; [done|]. split; [done|].
      intros Hk; apply HY, Hin; [done|]. intros v0 k0.
      destruct (decide (v0 = v)) as [->|]; [left; congruence|by right].
Qed.

(** Extending the class of a node is accounted for by an earlier record
    of the size of that class. *)
Lemma accountedBy_extend log g0 g v s n' k :
  accountedBy log g0 g → Nodes g !! v = Some s →
  sameButClass (NodePtr s) n' →
  EquivalenceClass (NodePtr s) `prefix_of` EquivalenceClass n' →
  ExtendedEquivalenceClass v k ∈ log →
  accountedBy log g0 (setNode v n' g).
Proof.
  intros [Hfr Hcons Hcnt Hflag Hcls] Hs Hsame Hpre Hk.
  destruct (fr_wf _ _ _ Hfr v s Hs) as [Hwf Htv].
  assert (∀ w, w ≠ v → nodeOr w (setNode v n' g) = nodeOr w g) as Hne
    by (intros; by eapply setNode_nodeOr_ne).
  pose proof (setNode_nodeOr_eq v n' g s Hs) as Heq.
  pose proof (nodeOr_stored v g s Hs) as Hold.
  split.
  - eapply framedBy_setNode; [done..|by eapply sameButClass_wf|].
    by destruct Hsame as (-> & _).
  - eapply consAcc_ext; [done|]. intros w. unfold consSet.
    destruct (decide (w = v)) as [->|?]; [|by rewrite Hne].
    rewrite Heq, Hold. by destruct Hsame as (_ & -> & _).
  - eapply cntAcc_ext; [done|]. intros w x. unfold cntOf.
    destruct (decide (w = v)) as [->|?]; [|by rewrite Hne].
    by rewrite Heq, Hold, (sameButClass_adjacencyOf _ _ _ Hsame).
  - eapply flagAcc_ext; [done|]. intros w x. unfold flagOf.
    destruct (decide (w = v)) as [->|?]; [|by rewrite Hne].
    by rewrite Heq, Hold, (sameButClass_adjacencyOf _ _ _ Hsame).
  - intros w. destruct (Hcls w) as (X & Hrun & Hlike).
    unfold rawClass in *.
    destruct (decide (w = v)) as [->|?]; [|rewrite Hne by done; eauto].
    rewrite Heq. rewrite Hold in Hrun.
    destruct (classBack_prefix v _ _ _ _ Hpre Hrun) as (Y' & Hrun' & _ & HY).
    exists Y'. split; [done|]. rewrite HY; [done|].
    exists k. by apply elem_of_reverse.
Qed.

Lemma accountedBy_wf log g g' : accountedBy log g g' → wfGraph g'.
Proof. intros H. apply (fr_wf _ _ _ (acc_framed _ _ _ H)). Qed.

Lemma accountedBy_scope log g g' :
  accountedBy log g g' → ActiveScope g' = ActiveScope g.
Proof. intros H. apply (fr_scope _ _ _ (acc_framed _ _ _ H)). Qed.

(** Recording the size of the class of a representative. *)
Lemma accountedBy_record_class rep g v s cls n' :
  wfGraph g → is_Some (ActiveScope g) → Nodes g !! v = Some s →
  NodeOps.getEquivalenceClass rep (NodePtr s) = Some (cls, n') →
  accountedBy [ExtendedEquivalenceClass v (length cls)] g
    (record (ExtendedEquivalenceClass v (length cls)) (setNode v n' g)).
Proof.
  intros Hwf Hsc Hs Hget.
  assert (sameButClass (NodePtr s) n' ∧ EquivalenceClass n' = cls ∧
          cls ≠ [] ∧ classLike v cls (EquivalenceClass (NodePtr s)))
    as (Hsame & Hcls & Hne & Hlike).
  { revert Hget. unfold NodeOps.getEquivalenceClass. case_decide; [|done].
    pose proof (seeded_sameButClass (NodePtr s)) as Hsame.
    destruct (seeded_class (NodePtr s)) as (Hcls & Hne & Hlike).
    rewrite (proj2 (Hwf v s Hs)) in Hlike.
    destruct (NodeOps.getEquivalenceClassUnsafe (NodePtr s)) as [c n1].
    simpl in *. intros ?; by simplify_eq. }
  assert (accountedBy [] g (setNode v n' g)) as Hread.
  { eapply accountedBy_read; [by apply accountedBy_refl|done..|].
    by rewrite Hcls. }
  destruct Hread as [Hfr Hcons Hcnt Hflag Hclass].
  split.
  - by apply (framedBy_record [] g (setNode v n' g)).
  - by apply (consAcc_snoc [] g (setNode v n' g)).
  - apply (cntAcc_snoc [] g (setNode v n' g)); [done|]. by intros ? ?.
  - by apply (flagAcc_snoc [] g (setNode v n' g)).
  - apply (classAcc_snoc [] g (setNode v n' g)); [done|]. intros w.
    unfold rawClass. rewrite nodeOr_record. simpl.
    destruct (decide (v = w)) as [<-|Hw]; [|eexists; split; [done|by left]].
    rewrite (setNode_nodeOr_eq _ _ _ _ Hs), Hcls.
    rewrite decide_True.
    + rewrite firstn_all. eexists; split; [done|by left].
    + destruct cls; simpl; [done|lia].
Qed.

Section CreatesLookup.
Variable CS : ConstraintSystem.
Variable lookup : TypeVariableType → M (Node * nat).
Hypothesis Hlookup : ∀ x, preserves creates (lookup x).

Lemma creates_mergeNodesWith v1 v2 :
  preserves creates (mergeNodesWith CS lookup v1 v2).
Proof using Hlookup.
  intros g [] g5 Hrun Hwf Hsc. unfold mergeNodesWith in Hrun.
  case_decide; [|done].
  apply bind_Ok in Hrun as (x & g1 & Hl1 & Hrun).
  case_decide; [|done].
  apply bind_Ok in Hrun as (u & g2 & Hrec & Hrun).
  apply bind_Ok in Hrun as (y & g3 & Hl3 & Hrun).
  apply bind_Ok in Hrun as (cls & g4 & Hcls & Hmod).
  set (rep := getRepresentative CS v1) in *.
  destruct (Hlookup _ _ _ _ Hl1 Hwf Hsc) as (l1 & Hacc1 & Hq1).
  pose proof (accountedBy_wf _ _ _ Hacc1) as Hwf1.
  assert (is_Some (ActiveScope g1)) as Hsc1
    by by rewrite (accountedBy_scope _ _ _ Hacc1).
  (* the size of the class is recorded *)
  assert (∃ k, accountedBy [ExtendedEquivalenceClass rep k] g1 g2)
    as [k Hacc2].
  { destruct Hsc1 as [sc Hsc1]. rewrite Hsc1 in Hrec.
    apply bind_Ok in Hrec as (cls0 & g1' & Hget & Hrec).
    apply withNode_setNode in Hget as (s1 & n1 & Hs1 & Hget & ->).
    rewrite recordChange_record in Hrec
      by (rewrite (setNode_ActiveScope _ _ _ _ Hs1); by rewrite Hsc1).
    simplify_eq. exists (length cls0).
    eapply accountedBy_record_class; [done|by rewrite Hsc1|done..]. }
  pose proof (accountedBy_wf _ _ _ Hacc2) as Hwf2.
  assert (is_Some (ActiveScope g2)) as Hsc2
    by by rewrite (accountedBy_scope _ _ _ Hacc2).
  destruct (Hlookup _ _ _ _ Hl3 Hwf2 Hsc2) as (l3 & Hacc3 & Hq3).
  pose proof (accountedBy_wf _ _ _ Hacc3) as Hwf3.
  assert (is_Some (ActiveScope g3)) as Hsc3
    by by rewrite (accountedBy_scope _ _ _ Hacc3).
  destruct (creates_withNode_getEquivalenceClassUnsafe _ _ _ _ Hcls Hwf3 Hsc3)
    as (l4 & Hacc4 & Hq4).
  pose proof (accountedBy_trans _ _ _ _ _
                (accountedBy_trans _ _ _ _ _
                   (accountedBy_trans _ _ _ _ _ Hacc1 Hacc2) Hacc3) Hacc4)
    as Hacc.
  (* the class is extended *)
  apply modifyNode_setNode in Hmod as (s4 & n5 & Hs4 & Hadd & ->).
  exists (((l1 ++ [ExtendedEquivalenceClass rep k]) ++ l3) ++ l4).
  split.
  - eapply (accountedBy_extend _ _ _ _ _ _ k); [exact Hacc|exact Hs4| | |].
    + revert Hadd. unfold NodeOps.addToEquivalenceClass.
      destruct (decide (TypeVar _ = _)); [|done].
      pose proof (seeded_sameButClass (NodePtr s4)) as Hsame.
      destruct (NodeOps.getEquivalenceClassUnsafe (NodePtr s4)) as [c n1].
      simpl in *. intros ?; simplify_eq. done.
    + revert Hadd. unfold NodeOps.addToEquivalenceClass.
      destruct (decide (TypeVar _ = _)); [|done].
      destruct (seeded_class (NodePtr s4)) as (_ & _ & Hlike).
      destruct (NodeOps.getEquivalenceClassUnsafe (NodePtr s4)) as [c n1].
      simpl in *. intros ?; simplify_eq. simpl.
      destruct Hlike as [->|[-> _]]; [by apply prefix_app_r|].
      apply prefix_nil.
    + set_solver.
  - repeat apply quietLog_app; try done. by repeat constructor.
Qed.

End CreatesLookup.

Lemma flagStep_true v w l b :
  replay (flagStep v w) l true = Some b →
  b = true ∧ replay (flagStep v w) l false = Some false.
Proof.
  induction l as [|r l IH]; simpl; [by intros ?; simplify_eq|].
  destruct r as [v'| | | |tv F]; simpl; try done.
  - destruct (decide (v' = v)); simpl; done.
  - destruct (decide (boundPair tv _ v w)); simpl; done.
Qed.

Lemma bindingBy_start tv log g g' :
  accountedBy log g g' → bindingBy tv ∅ log g g'.
Proof.
  intros [Hfr Hcons Hcnt Hflag Hcls]. split; try done.
  intros v w. exists (flagOf g' v w). split; [apply Hflag|].
  rewrite decide_False; [done|]. unfold boundPair. set_solver.
Qed.

Lemma bindingBy_trans tv K l1 l2 g g1 g2 :
  bindingBy tv K l1 g g1 → accountedBy l2 g1 g2 →
  bindingBy tv K (l1 ++ l2) g g2.
Proof.
  intros [Hfr Hcons Hcnt Hcls Hflag] [Hfr2 Hcons2 Hcnt2 Hflag2 Hcls2].
  split; eauto using framedBy_trans, consAcc_trans, cntAcc_trans,
    classAcc_trans.
  intros v w. destruct (Hflag v w) as (b & Hb & Hcase).
  specialize (Hflag2 v w).
  destruct (decide (boundPair tv K v w)) as [Hpair|Hpair].
  - destruct Hcase as [-> Htrue]. rewrite Htrue in Hflag2.
    apply flagStep_true in Hflag2 as [Htrue2 Hfalse].
    exists false. split; [by eapply replay_app_Some|done].
  - exists (flagOf g2 v w). rewrite <-Hcase in Hb.
    split; [by eapply replay_app_Some|done].
Qed.

(** Marking an adjacency as a fixed binding, in the graph. *)
Lemma addFixedBinding_graph v o g g' :
  wfGraph g →
  modifyNode v (NodeOps.addFixedBinding o) g = Ok (tt, g') →
  ∃ s n', Nodes g !! v = Some s ∧ g' = setNode v n' g ∧
    wfNode n' ∧ TypeVar n' = v ∧ o ≠ v ∧
    flagOf g v o = false ∧ flagOf g' v o = true ∧
    (∀ x y, x ≠ v ∨ y ≠ o → flagOf g' x y = flagOf g x y) ∧
    (∀ x, consSet g' x = consSet g x) ∧
    (∀ x y, cntOf g' x y = cntOf g x y) ∧
    (∀ x, rawClass g' x = rawClass g x).
Proof.
  intros Hwf (s & n' & Hs & Hadd & ->)%modifyNode_setNode.
  destruct (Hwf v s Hs) as [Hwfn Htv].
  destruct (addFixedBinding_Some_inv _ _ _ Hadd) as [Hov Hfalse].
  destruct (addFixedBinding_spec o (NodePtr s) Hwfn Hov Hfalse)
    as (n'' & Hadd' & Hwf' & (Htv' & Hc' & _ & Hcls') & Ho & Hother).
  rewrite Hadd in Hadd'. simplify_eq.
  pose proof (setNode_nodeOr_eq _ n'' _ _ Hs) as Heq.
  pose proof (nodeOr_stored _ _ _ Hs) as Hold.
  assert (∀ x, x ≠ TypeVar (NodePtr s) →
    nodeOr x (setNode (TypeVar (NodePtr s)) n'' g) = nodeOr x g) as Hne
    by (intros; by eapply setNode_nodeOr_ne).
  exists s, n''. split; [done|]. split; [done|]. split; [done|].
  split; [done|]. split; [done|]. unfold flagOf, cntOf, consSet, rawClass.
  split; [by rewrite Hold|]. split; [by rewrite Heq, Ho|].
  split; [|split; [|split]].
  - intros x y Hxy. destruct (decide (x = TypeVar (NodePtr s))) as [->|Hx];
      [|by rewrite Hne].
    rewrite Heq, Hold. apply (f_equal snd), Hother. by destruct Hxy.
  - intros x. destruct (decide (x = TypeVar (NodePtr s))) as [->|Hx];
      [|by rewrite Hne].
    by rewrite Heq, Hold, Hc'.
  - intros x y. destruct (decide (x = TypeVar (NodePtr s))) as [->|Hx];
      [|by rewrite Hne].
    rewrite Heq, Hold. destruct (decide (y = o)) as [->|Hy].
    + by rewrite Ho.
    + by rewrite Hother.
  - intros x. destruct (decide (x = TypeVar (NodePtr s))) as [->|Hx];
      [|by rewrite Hne].
    by rewrite Heq, Hold, Hcls'.
Qed.

Lemma bindingBy_mark tv K log g g1 g2 g3 o :
  bindingBy tv K log g g1 → o ∉ K →
  modifyNode o (NodeOps.addFixedBinding tv) g1 = Ok (tt, g2) →
  modifyNode tv (NodeOps.addFixedBinding o) g2 = Ok (tt, g3) →
  tv ≠ o ∧ bindingBy tv ({[o]} ∪ K) log g g3.
Proof.
  intros [Hfr Hcons Hcnt Hcls Hflag] HoK Hm1 Hm2.
  destruct (addFixedBinding_graph _ _ _ _ (fr_wf _ _ _ Hfr) Hm1)
    as (s1 & n1 & Hs1 & -> & Hwf1 & Htv1 & Hne1 & Hf1 & Ht1 & Ho1 & Hc1
        & Hn1 & Hr1).
  pose proof (framedBy_setNode _ _ _ _ _ _ Hfr Hs1 Hwf1 Htv1) as Hfr2.
  destruct (addFixedBinding_graph _ _ _ _ (fr_wf _ _ _ Hfr2) Hm2)
    as (s2 & n2 & Hs2 & -> & Hwf2 & Htv2 & Hne2 & Hf2 & Ht2 & Ho2 & Hc2
        & Hn2 & Hr2).
  pose proof (framedBy_setNode _ _ _ _ _ _ Hfr2 Hs2 Hwf2 Htv2) as Hfr3.
  split; [done|]. split; try done.
  - eapply consAcc_ext; [done|]. intros x. by rewrite Hc2, Hc1.
  - eapply cntAcc_ext; [done|]. intros x y. by rewrite Hn2, Hn1.
  - eapply classAcc_like; [done|]. intros x. rewrite Hr2, Hr1. by left.
  - intros v w. destruct (Hflag v w) as (b & Hb & Hcase).
    exists b. split; [done|].
    destruct (decide ((v = o ∧ w = tv) ∨ (v = tv ∧ w = o))) as [Hnew|Hold].
    + assert (¬ boundPair tv K v w) as Hnp.
      { unfold boundPair. destruct Hnew as [[-> ->]|[-> ->]]; naive_solver. }
      rewrite decide_False in Hcase by done.
      rewrite decide_True by (unfold boundPair; set_solver).
      destruct Hnew as [[-> ->]|[-> ->]].
      * rewrite Ho2 by (left; congruence). rewrite Ht1.
        split; [congruence|done].
      * rewrite Ht2. rewrite Ho1 in Hf2 by (left; congruence).
        split; [congruence|done].
    + assert (flagOf (setNode tv n2 (setNode o n1 g1)) v w = flagOf g1 v w)
        as ->.
      { rewrite Ho2, Ho1; [done| |].
        - destruct (decide (v = o)); [|by left].
          destruct (decide (w = tv)); [|by right]. naive_solver.
        - destruct (decide (v = tv)); [|by left].
          destruct (decide (w = o)); [|by right]. naive_solver. }
      destruct (decide (boundPair tv K v w)) as [Hp|Hp].
      * rewrite decide_True; [done|]. unfold boundPair in *. set_solver.
      * rewrite decide_False; [done|]. unfold boundPair in *.
        intros [[-> [->%elem_of_singleton|?]%elem_of_union]|
                [-> [->%elem_of_singleton|?]%elem_of_union]]; naive_solver.
Qed.

Lemma bindingBy_record tv fixed log g g1 :
  bindingBy tv (list_to_set (getTypeVariables fixed [])) log g g1 →
  tv ∉ getTypeVariables fixed [] →
  accountedBy (log ++ [BoundTypeVariable tv fixed]) g
    (record (BoundTypeVariable tv fixed) g1).
Proof.
  intros [Hfr Hcons Hcnt Hcls Hflag] Htv. split.
  - apply framedBy_record; [done| |done]. simpl.
    by rewrite decide_False.
  - by eapply consAcc_snoc.
  - eapply cntAcc_snoc; [done|]. by intros ? ?.
  - intros v w. destruct (Hflag v w) as (b & Hb & Hcase).
    eapply replay_app_Some; [done|]. simpl.
    unfold flagOf. rewrite nodeOr_record. fold (flagOf g1 v w).
    destruct (decide (boundPair tv _ v w)).
    + destruct Hcase as [-> ->]. done.
    + by rewrite Hcase.
  - eapply classAcc_snoc; [done|]. intros v. eexists. split; [done|].
    by left.
Qed.

Section CreatesBind.
Variable CS : ConstraintSystem.
Variable lookup : TypeVariableType → M (Node * nat).
Hypothesis Hlookup : ∀ x, preserves creates (lookup x).

Lemma bindLoop_binding tv typeVars :
  ∀ K log g0 g g',
    bindingBy tv K log g0 g → quietLog log → tv ∉ K →
    is_Some (ActiveScope g0) →
    bindLoop lookup tv K typeVars g = Ok (tt, g') →
    ∃ log', bindingBy tv (K ∪ list_to_set typeVars) log' g0 g' ∧
            quietLog log' ∧ tv ∉ K ∪ list_to_set typeVars.
Proof using Hlookup.
  induction typeVars as [|o typeVars IH]; intros K log g0 g g' Hb Hq Htv Hsc.
  { simpl. intros ?%ret_Ok; simplify_eq. exists log.
    by rewrite (right_id_L ∅ (∪)). }
  simpl. destruct (decide (o ∈ K)) as [Ho|Ho].
  { intros Hrun. destruct (IH K log g0 g g' Hb Hq Htv Hsc Hrun)
      as (log' & Hb' & Hq' & Htv').
    exists log'.
    replace (K ∪ ({[o]} ∪ list_to_set typeVars))
      with (K ∪ list_to_set typeVars) by set_solver. done. }
  intros Hrun.
  apply bind_Ok in Hrun as (x & g1 & Hl & Hrun).
  apply bind_Ok in Hrun as ([] & g2 & Hm1 & Hrun).
  apply bind_Ok in Hrun as ([] & g3 & Hm2 & Hrun).
  destruct (Hlookup _ _ _ _ Hl (fr_wf _ _ _ (bd_framed _ _ _ _ _ Hb)))
    as (l1 & Hacc1 & Hq1).
  { by rewrite (fr_scope _ _ _ (bd_framed _ _ _ _ _ Hb)). }
  pose proof (bindingBy_trans _ _ _ _ _ _ _ Hb Hacc1) as Hb1.
  destruct (bindingBy_mark _ _ _ _ _ _ _ _ Hb1 Ho Hm1 Hm2) as [Hne Hb3].
  destruct (IH ({[o]} ∪ K) (log ++ l1) g0 g3 g' Hb3) as (log' & Hb' & Hq' & Htv');
    [by apply quietLog_app|set_solver|done..|].
  exists log'.
  replace (K ∪ ({[o]} ∪ list_to_set typeVars))
    with ({[o]} ∪ K ∪ list_to_set typeVars) by set_solver. done.
Qed.

Lemma creates_bindTypeVariableWith tv fixed :
  preserves creates (bindTypeVariableWith lookup tv fixed).
Proof using Hlookup.
  intros g [] g' Hrun Hwf Hsc. unfold bindTypeVariableWith in Hrun.
  destruct (hasTypeVariable fixed).
  2:{ apply ret_Ok in Hrun. simplify_eq. by apply creates_preorder. }
  apply bind_Ok in Hrun as (x & g1 & Hl & Hrun).
  apply bind_Ok in Hrun as ([] & g2 & Hloop & Hrec).
  destruct (Hlookup _ _ _ _ Hl Hwf Hsc) as (l1 & Hacc1 & Hq1).
  destruct (bindLoop_binding tv (getTypeVariables fixed []) ∅ l1 g g1 g2)
    as (log & Hb & Hq & Htv); [by apply bindingBy_start|done|set_solver|
                                done..|].
  replace (∅ ∪ list_to_set (getTypeVariables fixed []))
    with (list_to_set (getTypeVariables fixed []) : gset TypeVariableType)
    in * by set_solver.
  rewrite recordChange_record in Hrec
    by by rewrite (fr_scope _ _ _ (bd_framed _ _ _ _ _ Hb)).
  simplify_eq. exists (log ++ [BoundTypeVariable tv fixed]). split.
  - apply bindingBy_record; [done|]. set_solver.
  - apply quietLog_app; [done|]. by repeat constructor.
Qed.

End CreatesBind.

Section CreatesNode.
Variable CS : ConstraintSystem.

Lemma creates_lookupNode fuel v : preserves creates (lookupNode CS fuel v).
Proof.
  revert v. induction fuel as [|fuel IH]; intros v g [node idx] g' Hrun.
  { simpl in Hrun. destruct (Nodes g !! v); [|done].
    simplify_eq. by apply creates_preorder. }
  destruct (Nodes g !! v) as [s|] eqn:Hv.
  { simpl in Hrun. rewrite Hv in Hrun. simplify_eq.
    by apply creates_preorder. }
  rewrite lookupNode_S_None in Hrun by done.
  apply bind_Ok in Hrun as ([] & g1 & Hafter & Hread).
  intros Hwf Hsc.
  pose proof (accountedBy_withNewNode v g Hwf Hsc Hv) as Hnew.
  assert (creates (withNewNode v g) g1) as H1.
  { revert Hafter. unfold afterNewNode. case_decide.
    - destruct (getFixedType CS _) as [fixed|].
      + by apply creates_bindTypeVariableWith.
      + intros ?%ret_Ok. simplify_eq. by apply creates_preorder.
    - by apply creates_mergeNodesWith. }
  destruct (H1 (accountedBy_wf _ _ _ Hnew)) as (l1 & Hacc1 & Hq1).
  { by rewrite (accountedBy_scope _ _ _ Hnew). }
  destruct (creates_withNode_get _ _ _ _ _ Hread
              (accountedBy_wf _ _ _ Hacc1)) as (l2 & Hacc2 & Hq2).
  { by rewrite (accountedBy_scope _ _ _ Hacc1),
      (accountedBy_scope _ _ _ Hnew). }
  exists (([AddedTypeVariable v] ++ l1) ++ l2). split.
  - eauto using accountedBy_trans.
  - repeat apply quietLog_app; try done. by repeat constructor.
Qed.

Lemma creates_mergeNodes fuel v1 v2 :
  preserves creates (mergeNodes CS fuel v1 v2).
Proof. apply creates_mergeNodesWith, creates_lookupNode. Qed.

Lemma creates_bindTypeVariable fuel tv fixed :
  preserves creates (bindTypeVariable CS fuel tv fixed).
Proof. apply creates_bindTypeVariableWith, creates_lookupNode. Qed.

End CreatesNode.

Lemma domStep_fresh l D D' v :
  replay domStep l D = Some D' → v ∈ D →
  AddedTypeVariable v ∉ l ∧ v ∈ D'.
Proof.
  revert D. induction l as [|r l IH]; intros D Hrun Hv; simpl in *.
  { simplify_eq. split; [apply not_elem_of_nil|done]. }
  destruct (domStep r D) as [D1|] eqn:Hstep; [|done]. simpl in Hrun.
  assert (v ∈ D1 ∧ r ≠ AddedTypeVariable v) as [Hv1 Hr].
  { destruct r as [v'|c|c|v' k|tv F]; simpl in Hstep;
      try case_decide; simplify_eq; try done.
    split; [set_solver|]. intros ?; simplify_eq. done. }
  destruct (IH D1 Hrun Hv1) as [Hnot HD']. split; [|done].
  intros [?|?]%elem_of_cons; done.
Qed.

Lemma consStep_frame v l X :
  quietLog l → AddedTypeVariable v ∉ l → replay (consStep v) l X = Some X.
Proof.
  induction l as [|r l IH]; intros Hq Hv; [done|].
  apply Forall_cons in Hq as [Hr Hq].
  apply not_elem_of_cons in Hv as [Hrv Hv].
  simpl. destruct r as [v'| | | |]; simpl; try done; try by apply IH.
  rewrite decide_False by congruence. simpl. by apply IH.
Qed.

Lemma cntStep_frame v w l n :
  quietLog l → AddedTypeVariable v ∉ l → replay (cntStep v w) l n = Some n.
Proof.
  induction l as [|r l IH]; intros Hq Hv; [done|].
  apply Forall_cons in Hq as [Hr Hq].
  apply not_elem_of_cons in Hv as [Hrv Hv].
  simpl. destruct r as [v'| | | |]; simpl; try done; try by apply IH.
  rewrite decide_False by congruence. simpl. by apply IH.
Qed.

Lemma pendingBy_start r log g g' :
  accountedBy log g g' → quietLog log → pendingBy r ∅ log g g'.
Proof.
  intros [Hfr Hcons Hcnt Hflag Hcls] Hq. split; try done.
  - intros v. exists (consSet g' v). split; [apply Hcons|].
    by rewrite decide_False by set_solver.
  - intros v w. exists (cntOf g' v w). split; [apply Hcnt|].
    by rewrite decide_False by set_solver.
Qed.

Lemma pendingBy_trans r P l1 l2 g g1 g2 :
  pendingBy r P l1 g g1 → accountedBy l2 g1 g2 → quietLog l2 →
  pendingBy r P (l1 ++ l2) g g2.
Proof.
  intros [Hfr Hflag Hcls Hq Hdom Hcons Hcnt]
    [Hfr2 Hcons2 Hcnt2 Hflag2 Hcls2] Hq2.
  assert (∀ v, v ∈ P → AddedTypeVariable v ∉ l2 ∧ v ∈ dom (Nodes g2)) as HP.
  { intros v Hv. eapply domStep_fresh; [apply (fr_dom _ _ _ Hfr2)|].
    by apply Hdom. }
  split; eauto using framedBy_trans, flagAcc_trans, classAcc_trans,
    quietLog_app.
  - intros v Hv. by apply HP.
  - intros v. destruct (Hcons v) as (X & HX & Hcase).
    specialize (Hcons2 v). destruct (decide (v ∈ P)) as [Hv|Hv].
    + exists X. split.
      * eapply replay_app_Some; [done|].
        apply consStep_frame; [done|by apply HP].
      * rewrite consStep_frame in Hcons2 by (done || by apply HP).
        injection Hcons2 as Heq. by rewrite <-Heq.
    + exists (consSet g2 v). split; [|done].
      eapply replay_app_Some; [done|]. by rewrite <-Hcase.
  - intros v w. destruct (Hcnt v w) as (n & Hn & Hcase).
    specialize (Hcnt2 v w). destruct (decide (v ∈ P)) as [Hv|Hv].
    + exists n. split.
      * eapply replay_app_Some; [done|].
        apply cntStep_frame; [done|by apply HP].
      * rewrite cntStep_frame in Hcnt2 by (done || by apply HP).
        injection Hcnt2 as Heq. by rewrite <-Heq.
    + exists (cntOf g2 v w). split; [|done].
      eapply replay_app_Some; [done|]. by rewrite <-Hcase.
Qed.

Lemma pendingBy_step r P log g g1 tv s n' :
  pendingBy r P log g g1 → tv ∉ P → Nodes g1 !! tv = Some s →
  nodeSteps r tv (NodePtr s) n' →
  pendingBy r ({[tv]} ∪ P) log g (setNode tv n' g1).
Proof.
  intros [Hfr Hflag Hcls Hq Hdom Hcons Hcnt] Htv Hs
    (Hwf & Htv' & Hcls' & Hfl' & Hc' & Hn').
  assert (∀ w, w ≠ tv → nodeOr w (setNode tv n' g1) = nodeOr w g1) as Hne
    by (intros; by eapply setNode_nodeOr_ne).
  pose proof (setNode_nodeOr_eq tv n' g1 s Hs) as Heq.
  pose proof (nodeOr_stored tv g1 s Hs) as Hold.
  split; try done.
  - by eapply framedBy_setNode.
  - eapply flagAcc_ext; [done|]. intros v w. unfold flagOf.
    destruct (decide (v = tv)) as [->|?]; [|by rewrite Hne].
    by rewrite Heq, Hold, Hfl'.
  - eapply classAcc_like; [done|]. intros v. unfold rawClass.
    destruct (decide (v = tv)) as [->|?]; [|rewrite Hne by done; by left].
    rewrite Heq, Hold, Hcls'. by left.
  - rewrite (setNode_dom _ _ _ _ Hs). apply elem_of_dom_2 in Hs.
    set_solver.
  - intros v. destruct (Hcons v) as (X & HX & Hcase). exists X.
    split; [done|]. unfold consSet in *.
    destruct (decide (v = tv)) as [->|Hv].
    + rewrite decide_True by set_solver.
      rewrite decide_False in Hcase by done.
      rewrite Heq. rewrite Hold in Hcase. by rewrite <-Hcase.
    + rewrite Hne by done. destruct (decide (v ∈ P)).
      * by rewrite decide_True by set_solver.
      * by rewrite decide_False by set_solver.
  - intros v w. destruct (Hcnt v w) as (n & Hn & Hcase). exists n.
    split; [done|]. unfold cntOf in *.
    destruct (decide (v = tv)) as [->|Hv].
    + rewrite decide_True by set_solver.
      rewrite decide_False in Hcase by done.
      rewrite Heq. rewrite Hold in Hcase. by rewrite <-Hcase.
    + rewrite Hne by done. destruct (decide (v ∈ P)).
      * by rewrite decide_True by set_solver.
      * by rewrite decide_False by set_solver.
Qed.

Lemma pendingBy_record r c log g g1 :
  r = AddedConstraint c ∨ r = RemovedConstraint c →
  pendingBy r (list_to_set (gatherReferencedTypeVars c)) log g g1 →
  accountedBy (log ++ [r]) g (record r g1).
Proof.
  intros Hr [Hfr Hflag Hcls Hq Hdom Hcons Hcnt]. split.
  - apply framedBy_record; [done| |by destruct Hr as [->| ->]].
    destruct Hr as [->| ->]; simpl; [done|]. by rewrite decide_True.
  - intros v. destruct (Hcons v) as (X & HX & Hcase).
    eapply replay_app_Some; [done|]. simpl.
    unfold consSet. rewrite nodeOr_record. fold (consSet g1 v).
    destruct (decide (v ∈ _)) as [Hv|Hv]; [by rewrite Hcase|].
    rewrite elem_of_list_to_set in Hv. rewrite <-Hcase.
    destruct Hr as [->| ->]; simpl; by rewrite decide_False.
  - intros v w. destruct (Hcnt v w) as (n & Hn & Hcase).
    eapply replay_app_Some; [done|]. simpl.
    unfold cntOf. rewrite nodeOr_record. fold (cntOf g1 v w).
    destruct (decide (v ∈ _)) as [Hv|Hv]; [by rewrite Hcase|].
    rewrite elem_of_list_to_set in Hv. rewrite <-Hcase.
    destruct Hr as [->| ->]; simpl; unfold linkOf;
      rewrite (decide_False (P:=v ∈ gatherReferencedTypeVars c)) by done.
    + by rewrite Nat.add_0_r.
    + rewrite decide_True by lia. by rewrite Nat.sub_0_r.
  - eapply flagAcc_snoc; [done|]. intros v w.
    by destruct Hr as [->| ->].
  - eapply classAcc_snoc; [done|]. intros v. eexists. split; [|by left].
    by destruct Hr as [->| ->].
Qed.

Lemma nodeAddConstraint_steps c tv n n' :
  wfNode n → TypeVar n = tv → tv ∈ gatherReferencedTypeVars c →
  nodeAddConstraint c (gatherReferencedTypeVars c) tv n = Some n' →
  nodeSteps (AddedConstraint c) tv n n'.
Proof.
  intros Hwf Htv Hin Hrun.
  pose proof (nodeAddConstraint_Some_inv _ _ _ _ _ Hwf Hrun) as Hc.
  destruct (nodeAddConstraint_spec c _ tv n Hwf Htv
              (gatherReferencedTypeVars_NoDup c) Hc)
    as (n'' & Hrun' & Hwf' & Htv' & Hcls & Hcons & Hadj).
  rewrite Hrun in Hrun'. simplify_eq.
  split; [done|]. split; [done|]. split; [done|].
  split; [by intros w; rewrite Hadj|]. split.
  - simpl. rewrite decide_True by done.
    rewrite decide_False by by rewrite elem_of_list_to_set.
    f_equal. rewrite Hcons, list_to_set_app_L. simpl. set_solver.
  - intros w. simpl. rewrite Hadj. simpl. unfold linkOf.
    by rewrite decide_True.
Qed.

Lemma nodeRemoveConstraint_steps c tv n n' :
  wfNode n → TypeVar n = tv → tv ∈ gatherReferencedTypeVars c →
  nodeRemoveConstraint c (gatherReferencedTypeVars c) tv n = Some n' →
  nodeSteps (RemovedConstraint c) tv n n'.
Proof.
  intros Hwf Htv Hin Hrun.
  destruct (nodeRemoveConstraint_Some_inv _ _ _ _ _ Hwf
              (gatherReferencedTypeVars_NoDup c) Hrun) as [Hc Hpos].
  destruct (nodeRemoveConstraint_spec c _ tv n Hwf
              (gatherReferencedTypeVars_NoDup c) Hc Hpos)
    as (n'' & Hrun' & Hwf' & Htv' & Hcls & Hperm & Hadj).
  rewrite Hrun in Hrun'. simplify_eq.
  split; [done|]. split; [done|]. split; [done|].
  split; [by intros w; rewrite Hadj|]. split.
  - simpl. rewrite decide_True by done.
    rewrite decide_True by by rewrite elem_of_list_to_set.
    f_equal.
    assert (NoDup (c :: Constraints n'')) as Hnd.
    { rewrite <-Hperm. apply (indexed_NoDup _ _ (wf_constraints _ Hwf)). }
    apply NoDup_cons in Hnd as [Hnot _].
    apply set_eq. intros x.
    rewrite elem_of_difference, !elem_of_list_to_set, Hperm.
    set_solver.
  - intros w. simpl. rewrite Hadj. simpl. unfold linkOf.
    rewrite (decide_True (P:=TypeVar n ∈ gatherReferencedTypeVars c))
      by done.
    assert (edgeTo (gatherReferencedTypeVars c) (TypeVar n) w
              ≤ (adjacencyOf n w).1) as Hle.
    { unfold edgeTo. case_decide as Hw; [|lia].
      destruct Hw as [Hw Hne]. specialize (Hpos w Hw Hne). lia. }
    by rewrite decide_True.
Qed.

Section AccountsConstraint.
Variable CS : ConstraintSystem.
Variable fuel : nat.
Variable r : Change.
Variable c : Constraint.
Variable F : TypeVariableType → Node → option Node.
Hypothesis Hr : r = AddedConstraint c ∨ r = RemovedConstraint c.
Hypothesis HF :
  ∀ tv n n', tv ∈ gatherReferencedTypeVars c → wfNode n → TypeVar n = tv →
    F tv n = Some n' → nodeSteps r tv n n'.

Lemma rounds_pending Q :
  ∀ P log g0 g g',
    NoDup Q → (∀ tv, tv ∈ Q → tv ∈ gatherReferencedTypeVars c ∧ tv ∉ P) →
    pendingBy r P log g0 g → is_Some (ActiveScope g0) →
    forEach Q (λ tv, bind (lookupNode CS fuel tv)
                       (λ _, modifyNode tv (F tv))) g = Ok (tt, g') →
    ∃ log', pendingBy r (P ∪ list_to_set Q) log' g0 g'.
Proof using Hr HF.
  induction Q as [|tv Q IH]; intros P log g0 g g' Hnd HQ Hp Hsc Hrun.
  { apply ret_Ok in Hrun. simplify_eq. exists log. simpl.
    by rewrite (right_id_L ∅ (∪)). }
  apply NoDup_cons in Hnd as [Htv Hnd].
  simpl in Hrun. apply bind_Ok in Hrun as ([] & g2 & Hbody & Hrun).
  apply bind_Ok in Hbody as (x & g1 & Hl & Hm).
  destruct (creates_lookupNode _ _ _ _ _ _ Hl
              (fr_wf _ _ _ (pd_framed _ _ _ _ _ Hp)))
    as (l1 & Hacc1 & Hq1).
  { by rewrite (fr_scope _ _ _ (pd_framed _ _ _ _ _ Hp)). }
  pose proof (pendingBy_trans _ _ _ _ _ _ _ Hp Hacc1 Hq1) as Hp1.
  apply modifyNode_setNode in Hm as (s & n' & Hs & Hf & ->).
  destruct (accountedBy_wf _ _ _ Hacc1 tv s Hs) as [Hwfn Htvn].
  destruct (HQ tv ltac:(left)) as [HtvR HtvP].
  pose proof (pendingBy_step _ _ _ _ _ _ _ _ Hp1 HtvP Hs
                (HF _ _ _ HtvR Hwfn Htvn Hf)) as Hp2.
  assert (∀ o, o ∈ Q → o ∈ gatherReferencedTypeVars c ∧ o ∉ {[tv]} ∪ P)
    as HQ'.
  { intros o Ho. destruct (HQ o ltac:(by right)) as [? ?].
    split; [done|]. set_solver. }
  destruct (IH _ _ _ _ _ Hnd HQ' Hp2 Hsc Hrun) as (log' & Hp').
  exists log'. simpl.
  replace (P ∪ ({[tv]} ∪ list_to_set Q))
    with ({[tv]} ∪ P ∪ list_to_set Q) by set_solver. done.
Qed.

Lemma accounts_rounds :
  preserves accounts
    (bind (forEach (gatherReferencedTypeVars c)
             (λ tv, bind (lookupNode CS fuel tv)
                      (λ _, modifyNode tv (F tv))))
       (λ _, recordChange r)).
Proof using Hr HF.
  intros g [] g' ([] & g1 & Hloop & Hrec)%bind_Ok Hwf Hsc.
  destruct (rounds_pending (gatherReferencedTypeVars c) ∅ [] g g g1)
    as (log & Hp).
  { apply gatherReferencedTypeVars_NoDup. }
  { intros tv Htv. split; [done|set_solver]. }
  { apply pendingBy_start; [by apply accountedBy_refl|constructor]. }
  { done. }
  { done. }
  rewrite (left_id_L ∅ (∪)) in Hp.
  rewrite recordChange_record in Hrec
    by by rewrite (fr_scope _ _ _ (pd_framed _ _ _ _ _ Hp)).
  simplify_eq. exists (log ++ [r]). by eapply pendingBy_record.
Qed.

End AccountsConstraint.

Lemma accounts_addConstraint CS fuel c :
  preserves accounts (addConstraint CS fuel c).
Proof.
  intros g u g' Hrun. rewrite addConstraint_per_node in Hrun.
  revert Hrun. apply (accounts_rounds CS fuel (AddedConstraint c) c);
    [by left|].
  intros tv n n' ? ? ? ?. by apply nodeAddConstraint_steps.
Qed.

Lemma accounts_removeConstraint CS fuel c :
  preserves accounts (removeConstraint CS fuel c).
Proof.
  intros g u g' Hrun. rewrite removeConstraint_per_node in Hrun.
  revert Hrun. apply (accounts_rounds CS fuel (RemovedConstraint c) c);
    [by right|].
  intros tv n n' ? ? ? ?. by apply nodeRemoveConstraint_steps.
Qed.

(** Every mutation in a scope leaves a log that accounts for it. *)
Lemma accounts_mutate call : preserves accounts (mutate call).
Proof.
  destruct call as [[CS fuel] [c|c|v1 v2|v fixed|v]]; simpl.
  - apply accounts_addConstraint.
  - apply accounts_removeConstraint.
  - intros g u g' Hrun. by eapply creates_accounts, creates_mergeNodes.
  - intros g u g' Hrun.
    by eapply creates_accounts, creates_bindTypeVariable.
  - intros g u g' (x & g1 & Hl & ?%ret_Ok)%bind_Ok. simplify_eq.
    by eapply creates_accounts, creates_lookupNode.
Qed.

Lemma accounts_mutateAll calls : preserves accounts (mutateAll calls).
Proof.
  apply preserves_forEach; [apply _|]. intros call _.
  apply accounts_mutate.
Qed.

(** ** Scopes: undoing the log *)

Lemma domStep_mono l D D' : replay domStep l D = Some D' → D ⊆ D'.
Proof.
  revert D. induction l as [|r l IH]; intros D Hrun; simpl in *.
  { by simplify_eq. }
  destruct (domStep r D) as [D1|] eqn:Hstep; [|done]. simpl in Hrun.
  etrans; [|by apply IH].
  destruct r; simpl in Hstep; try case_decide; simplify_eq; set_solver.
Qed.

Lemma domStep_created l D D' v :
  replay domStep l D = Some D' → v ∈ created l → v ∈ D'.
Proof.
  revert D. induction l as [|r l IH]; intros D Hrun Hv; simpl in *.
  { by apply elem_of_nil in Hv. }
  destruct (domStep r D) as [D1|] eqn:Hstep; [|done]. simpl in Hrun.
  destruct r as [v'| | | |]; simpl in *; try by eapply IH.
  apply elem_of_cons in Hv as [->|Hv]; [|by eapply IH].
  case_decide; [done|]. simplify_eq.
  apply (domStep_mono _ _ _ Hrun). set_solver.
Qed.

Lemma accountedBy_lastStep log r g0 g :
  accountedBy (log ++ [r]) g0 g → lastStep r g.
Proof.
  intros [[Hwf Hsc Hch Htv Hdom Hidx Hnew] Hcons Hcnt Hflag Hcls]. split.
  - done.
  - apply replay_snoc_inv in Hdom as (D & _ & HD). eauto.
  - intros v. destruct (replay_snoc_inv _ _ _ _ _ (Hcons v)) as (X & _ & HX).
    eauto.
  - intros v w.
    destruct (replay_snoc_inv _ _ _ _ _ (Hcnt v w)) as (n & _ & Hn). eauto.
  - intros v w.
    destruct (replay_snoc_inv _ _ _ _ _ (Hflag v w)) as (b & _ & Hb). eauto.
  - intros v. destruct (Hcls v) as (X & HX & _).
    rewrite reverse_snoc in HX. simpl in HX.
    destruct (classBack v r (rawClass g v)); [done|done].
  - intros v ->. rewrite created_app in Htv, Hnew. simpl in *.
    destruct (Hnew (length (created log)) v) as (s & Hs & Hi).
    { by rewrite lookup_app_r, Nat.sub_diag by lia. }
    exists (TypeVariables g0 ++ created log), s.
    split; [by rewrite Htv, app_assoc|]. split; [done|].
    by rewrite Hi, length_app.
Qed.

Lemma accountedBy_undone log r g0 g g' :
  accountedBy (log ++ [r]) g0 g → undone r g g' →
  ActiveScope g' = ActiveScope g →
  accountedBy log g0
    (MkGraph (Nodes g') (TypeVariables g') (pop_back (Changes g'))
       (ActiveScope g')).
Proof.
  intros [[Hwf Hsc Hch Htv Hdom Hidx Hnew] Hcons Hcnt Hflag Hcls]
    [Hwf' Hch' Htv' Hdom' Hidx' Hcons' Hcnt' Hflag' Hcls'] Hsc'.
  apply replay_snoc_inv in Hdom as (D & HD & HrD).
  assert (∀ v, r = AddedTypeVariable v → v ∉ D) as Hfresh.
  { intros v ->. simpl in HrD. by case_decide. }
  split; [split|..]; simpl.
  - done.
  - congruence.
  - by rewrite Hch', Hch, app_assoc, pop_back_snoc.
  - rewrite created_app, app_assoc in Htv. rewrite Htv in Htv'.
    by apply app_inv_tail in Htv'.
  - by rewrite (Hdom' D HrD).
  - intros v s Hv. destruct (Hidx v s Hv) as (s1 & Hs1 & <-).
    apply Hidx'; [done|]. intros Hr. apply (Hfresh v Hr).
    apply (domStep_mono _ _ _ HD). by eapply elem_of_dom_2.
  - intros i v Hi. destruct (Hnew i v) as (s1 & Hs1 & <-).
    { rewrite created_app. by apply lookup_app_l_Some. }
    apply Hidx'; [done|]. intros Hr. apply (Hfresh v Hr).
    eapply domStep_created; [done|]. by eapply list_elem_of_lookup_2.
  - intros v. destruct (replay_snoc_inv _ _ _ _ _ (Hcons v)) as (X & HX & Hr).
    by rewrite <-(Hcons' v X Hr) in HX.
  - intros v w.
    destruct (replay_snoc_inv _ _ _ _ _ (Hcnt v w)) as (n & Hn & Hr).
    by rewrite <-(Hcnt' v w n Hr) in Hn.
  - intros v w.
    destruct (replay_snoc_inv _ _ _ _ _ (Hflag v w)) as (b & Hb & Hr).
    by rewrite <-(Hflag' v w b Hr) in Hb.
  - intros v. destruct (Hcls v) as (X & HX & Hlike).
    rewrite reverse_snoc in HX. simpl in HX.
    destruct (classBack v r (rawClass g v)) as [X1|] eqn:Hr; [|done].
    simpl in HX. exists X. split; [|done].
    change (rawClass (MkGraph (Nodes g') (TypeVariables g')
                        (pop_back (Changes g')) (ActiveScope g')) v)
      with (rawClass g' v).
    by rewrite (Hcls' v X1 Hr).
Qed.

Lemma removeNode_undone v g :
  lastStep (AddedTypeVariable v) g →
  ∃ g', removeNode v g = Ok (tt, g') ∧
        undone (AddedTypeVariable v) g g' ∧
        ActiveScope g' = ActiveScope g.
Proof.
  intros [Hwf _ _ _ _ _ Hlast].
  destruct (Hlast v eq_refl) as (l & s & Htv & Hs & Hidx).
  exists (MkGraph (delete v (Nodes g)) l (Changes g) (ActiveScope g)).
  assert (nodeOr v (MkGraph (delete v (Nodes g)) l (Changes g)
                      (ActiveScope g)) = newNode v) as Heq.
  { unfold nodeOr. simpl. by rewrite lookup_delete_eq. }
  assert (∀ w, w ≠ v →
    nodeOr w (MkGraph (delete v (Nodes g)) l (Changes g) (ActiveScope g))
      = nodeOr w g) as Hne.
  { intros w Hw. unfold nodeOr. simpl. by rewrite lookup_delete_ne. }
  split; [|split; [split|done]]; simpl.
  - unfold removeNode. rewrite Hs, Htv.
    destruct (l ++ [v]) as [|x l'] eqn:Hl; [by destruct l|].
    rewrite <-Hl. rewrite decide_False by (rewrite length_app; simpl; lia).
    by rewrite pop_back_snoc.
  - intros w sw Hw. simpl in Hw.
    apply lookup_delete_Some in Hw as [Hw Hsw]. by apply Hwf.
  - done.
  - done.
  - intros D HD. case_decide; [done|]. simplify_eq.
    rewrite dom_delete_L, <-HD. set_solver.
  - intros w sw Hw Hr. exists sw. split; [|done]. simpl.
    rewrite lookup_delete_ne; [done|]. congruence.
  - intros w X. unfold consSet. destruct (decide (v = w)) as [<-|Hw].
    + rewrite Heq. case_decide; [|done]. by intros ?; simplify_eq.
    + rewrite Hne by done. by intros ?; simplify_eq.
  - intros w x n. unfold cntOf. destruct (decide (v = w)) as [<-|Hw].
    + rewrite Heq. case_decide; [|done]. by intros ?; simplify_eq.
    + rewrite Hne by done. by intros ?; simplify_eq.
  - intros w x b. unfold flagOf. destruct (decide (v = w)) as [<-|Hw].
    + rewrite Heq. destruct b; [done|]. by intros ?; simplify_eq.
    + rewrite Hne by done. by intros ?; simplify_eq.
  - intros w X. unfold rawClass. destruct (decide (v = w)) as [<-|Hw].
    + rewrite Heq. by intros ?; simplify_eq.
    + rewrite Hne by done. by intros ?; simplify_eq.
Qed.

Lemma consStep_opposite c r r' v X Y :
  opposite c r r' → consStep v r X = Some Y → consStep v r' Y = Some X.
Proof.
  intros [[-> ->]|[-> ->]]; simpl;
    (destruct (decide (v ∈ gatherReferencedTypeVars c)); [|done]).
  - destruct (decide (c ∈ X)); [done|]. intros ?; simplify_eq.
    rewrite decide_True by set_solver. f_equal. set_solver.
  - destruct (decide (c ∈ X)); [|done]. intros ?; simplify_eq.
    rewrite decide_False by set_solver. f_equal.
    apply set_eq. intros x. destruct (decide (x = c)); set_solver.
Qed.

Lemma cntStep_opposite c r r' v w n m :
  opposite c r r' → cntStep v w r n = Some m → cntStep v w r' m = Some n.
Proof.
  intros [[-> ->]|[-> ->]]; simpl.
  - intros ?; simplify_eq. rewrite decide_True by lia. f_equal. lia.
  - case_decide; [|done]. intros ?; simplify_eq. f_equal. lia.
Qed.

Lemma rounds_existing CS fuel (F : TypeVariableType → Node → option Node)
    Q :
  ∀ g, NoDup Q →
    (∀ tv, tv ∈ Q →
       ∃ s, Nodes g !! tv = Some s ∧ is_Some (F tv (NodePtr s))) →
    ∃ g',
      forEach Q (λ tv, bind (lookupNode CS fuel tv)
                         (λ _, modifyNode tv (F tv))) g = Ok (tt, g') ∧
      TypeVariables g' = TypeVariables g ∧ Changes g' = Changes g ∧
      ActiveScope g' = ActiveScope g ∧
      (∀ v, v ∉ Q → Nodes g' !! v = Nodes g !! v) ∧
      (∀ v s, v ∈ Q → Nodes g !! v = Some s →
         ∃ n', F v (NodePtr s) = Some n' ∧
               Nodes g' !! v = Some (MkStoredNode n' (NodeIndex s))).
Proof.
  induction Q as [|tv Q IH]; intros g Hnd HQ.
  { exists g. split; [done|]. split; [done|]. split; [done|].
    split; [done|]. split; [done|]. by intros v s ?%elem_of_nil. }
  apply NoDup_cons in Hnd as [Htv Hnd].
  destruct (HQ tv ltac:(left)) as (s & Hs & [n' Hn']).
  pose proof (round_existing CS fuel tv (F tv) g s n' Hs Hn') as Hround.
  set (g1 := MkGraph (<[tv := MkStoredNode n' (NodeIndex s)]> (Nodes g))
               (TypeVariables g) (Changes g) (ActiveScope g)) in *.
  destruct (IH g1 Hnd) as (g' & Hrun & Ht & Hc & Hsc & Hout & Hin).
  { intros o Ho. destruct (HQ o ltac:(by right)) as (so & Hso & Hf).
    exists so. split; [|done]. unfold g1. simpl.
    rewrite lookup_insert_ne; [done|]. by intros ->. }
  exists g'. split.
  { simpl. apply bind_Ok. exists tt, g1. done. }
  split; [done|]. split; [done|]. split; [done|]. split.
  - intros v Hv. apply not_elem_of_cons in Hv as [Hv1 Hv2].
    rewrite Hout by done. unfold g1. simpl. by rewrite lookup_insert_ne.
  - intros v sv [->|Hv]%elem_of_cons Hsv.
    + simplify_eq. exists n'. split; [done|].
      rewrite Hout by done. unfold g1. simpl. by rewrite lookup_insert_eq.
    + apply Hin; [done|]. unfold g1. simpl.
      rewrite lookup_insert_ne; [done|]. by intros ->.
Qed.

Section UndoConstraint.
Variable CS : ConstraintSystem.
Variable fuel : nat.
Variable c : Constraint.
Variable r r' : Change.
Variable F : TypeVariableType → Node → option Node.
Hypothesis Hopp : opposite c r r'.
Hypothesis HF :
  ∀ tv n, tv ∈ gatherReferencedTypeVars c → wfNode n → TypeVar n = tv →
    is_Some (consStep tv r' (list_to_set (Constraints n))) →
    (∀ w, is_Some (cntStep tv w r' (adjacencyOf n w).1)) →
    ∃ n', F tv n = Some n' ∧ nodeSteps r' tv n n'.

Lemma rounds_undone g :
  lastStep r g → ActiveScope g = None →
  ∃ g',
    bind (forEach (gatherReferencedTypeVars c)
            (λ tv, bind (lookupNode CS fuel tv)
                     (λ _, modifyNode tv (F tv))))
      (λ _, recordChange r') g = Ok (tt, g') ∧
    undone r g g' ∧ ActiveScope g' = None.
Proof using Hopp HF.
  intros [Hwf [D HD] Hcons Hcnt Hflag Hcls _] Hsc.
  assert (D = dom (Nodes g) ∧
          (r = RemovedConstraint c →
           list_to_set (gatherReferencedTypeVars c) ⊆ dom (Nodes g)))
    as [-> Hdom].
  { destruct Hopp as [[-> ->]|[-> ->]]; simpl in HD.
    - by simplify_eq.
    - case_decide; by simplify_eq. }
  assert (created [r] = []) as Hcr by by destruct Hopp as [[-> ->]|[-> ->]].
  assert (∀ v, v ∉ gatherReferencedTypeVars c →
               ∀ X, consStep v r X = Some X) as Hcid.
  { intros v Hv X.
    destruct Hopp as [[-> ->]|[-> ->]]; simpl; by rewrite decide_False. }
  assert (∀ v w, v ∉ gatherReferencedTypeVars c →
                 ∀ n, cntStep v w r n = Some n) as Hnid.
  { intros v w Hv n. destruct Hopp as [[-> ->]|[-> ->]]; simpl;
      unfold linkOf; rewrite (decide_False (P:=v ∈ _)) by done.
    - by rewrite Nat.add_0_r.
    - rewrite decide_True by lia. by rewrite Nat.sub_0_r. }
  assert (∀ v w b, flagStep v w r b = Some b) as Hfid
    by by destruct Hopp as [[-> ->]|[-> ->]].
  assert (∀ v X, classBack v r X = Some X) as Hkid
    by by destruct Hopp as [[-> ->]|[-> ->]].
  (* every referenced node exists, and the call goes through in it *)
  assert (∀ tv, tv ∈ gatherReferencedTypeVars c →
    ∃ s n', Nodes g !! tv = Some s ∧ F tv (NodePtr s) = Some n' ∧
            nodeSteps r' tv (NodePtr s) n') as Hnodes.
  { intros tv Htv.
    destruct (Hcons tv) as (X & HX).
    pose proof (consStep_opposite _ _ _ _ _ _ Hopp HX) as HX'.
    assert (is_Some (Nodes g !! tv)) as [s Hs].
    { destruct Hopp as [[-> ->]|[-> ->]].
      - simpl in HX. rewrite decide_True in HX by done.
        case_decide; [done|]. simplify_eq.
        destruct (Nodes g !! tv) as [s|] eqn:Hs; [done|].
        exfalso. unfold consSet, nodeOr in HX. rewrite Hs in HX.
        simpl in HX. set_solver.
      - apply elem_of_dom, Hdom; [done|]. by apply elem_of_list_to_set. }
    destruct (Hwf tv s Hs) as [Hwfn Htvn].
    pose proof (nodeOr_stored _ _ _ Hs) as Hold.
    destruct (HF tv (NodePtr s) Htv Hwfn Htvn) as (n' & Hf & Hsteps).
    { unfold consSet in HX'. rewrite Hold in HX'. by rewrite HX'. }
    { intros w. destruct (Hcnt tv w) as (n & Hn).
      pose proof (cntStep_opposite _ _ _ _ _ _ _ Hopp Hn) as Hn'.
      unfold cntOf in Hn'. rewrite Hold in Hn'. by rewrite Hn'. }
    eauto. }
  destruct (rounds_existing CS fuel F (gatherReferencedTypeVars c) g
              (gatherReferencedTypeVars_NoDup c))
    as (g' & Hrun & Ht & Hc & Hsc' & Hout & Hin).
  { intros tv Htv. destruct (Hnodes tv Htv) as (s & n' & Hs & Hf & _).
    exists s. by rewrite Hf. }
  exists g'. split.
  { apply bind_Ok. exists tt, g'. split; [done|].
    unfold recordChange. by rewrite Hsc', Hsc. }
  split; [|congruence].
  (* the nodes of [g'] *)
  assert (∀ v, v ∈ gatherReferencedTypeVars c →
    ∃ s n', Nodes g !! v = Some s ∧
            Nodes g' !! v = Some (MkStoredNode n' (NodeIndex s)) ∧
            nodeSteps r' v (NodePtr s) n') as Hin'.
  { intros v Hv. destruct (Hnodes v Hv) as (s & n' & Hs & Hf & Hsteps).
    destruct (Hin v s Hv Hs) as (n'' & Hf' & Hs').
    rewrite Hf in Hf'. simplify_eq. eauto. }
  assert (∀ v, v ∉ gatherReferencedTypeVars c → nodeOr v g' = nodeOr v g)
    as Hsame.
  { intros v Hv. unfold nodeOr. by rewrite Hout. }
  split.
  - intros v s' Hs'.
    destruct (decide (v ∈ gatherReferencedTypeVars c)) as [Hv|Hv].
    + destruct (Hin' v Hv) as (s & n' & Hs & Hn' & Hwf' & Htv' & _).
      rewrite Hn' in Hs'. by simplify_eq.
    + rewrite Hout in Hs' by done. by apply Hwf.
  - done.
  - by rewrite Hcr, app_nil_r.
  - intros D HD'. assert (D = dom (Nodes g)) as ->.
    { destruct Hopp as [[-> ->]|[-> ->]]; simpl in HD'.
      - by simplify_eq.
      - case_decide; by simplify_eq. }
    apply set_eq. intros v. rewrite !elem_of_dom.
    destruct (decide (v ∈ gatherReferencedTypeVars c)) as [Hv|Hv].
    + destruct (Hin' v Hv) as (s & n' & Hs & Hn' & _).
      rewrite Hs, Hn'. split; eauto.
    + by rewrite Hout.
  - intros v s Hs _.
    destruct (decide (v ∈ gatherReferencedTypeVars c)) as [Hv|Hv].
    + destruct (Hin' v Hv) as (s0 & n' & Hs0 & Hn' & _).
      simplify_eq. eauto.
    + exists s. by rewrite Hout.
  - intros v X HX. unfold consSet in *.
    destruct (decide (v ∈ gatherReferencedTypeVars c)) as [Hv|Hv].
    + destruct (Hin' v Hv) as (s & n' & Hs & Hn' & _ & _ & _ & _ & Hc' & _).
      pose proof (consStep_opposite _ _ _ _ _ _ Hopp HX) as HX'.
      rewrite (nodeOr_stored _ _ _ Hs) in HX'.
      unfold nodeOr at 1. rewrite Hn'. simpl.
      rewrite HX' in Hc'. by simplify_eq.
    + rewrite Hsame by done. rewrite Hcid in HX by done. by simplify_eq.
  - intros v w n Hn. unfold cntOf in *.
    destruct (decide (v ∈ gatherReferencedTypeVars c)) as [Hv|Hv].
    + destruct (Hin' v Hv) as (s & n' & Hs & Hn' & _ & _ & _ & _ & _ & Hc').
      pose proof (cntStep_opposite _ _ _ _ _ _ _ Hopp Hn) as Hn2.
      rewrite (nodeOr_stored _ _ _ Hs) in Hn2.
      unfold nodeOr at 1. rewrite Hn'. simpl.
      specialize (Hc' w). rewrite Hn2 in Hc'. by simplify_eq.
    + rewrite Hsame by done. rewrite Hnid in Hn by done. by simplify_eq.
  - intros v w b Hb. rewrite Hfid in Hb. simplify_eq. unfold flagOf.
    destruct (decide (v ∈ gatherReferencedTypeVars c)) as [Hv|Hv].
    + destruct (Hin' v Hv) as (s & n' & Hs & Hn' & _ & _ & _ & Hfl & _).
      rewrite (nodeOr_stored _ _ _ Hs).
      unfold nodeOr at 1. rewrite Hn'. simpl. apply Hfl.
    + by rewrite Hsame.
  - intros v X HX. rewrite Hkid in HX. simplify_eq. unfold rawClass.
    destruct (decide (v ∈ gatherReferencedTypeVars c)) as [Hv|Hv].
    + destruct (Hin' v Hv) as (s & n' & Hs & Hn' & _ & _ & Hcl & _).
      rewrite (nodeOr_stored _ _ _ Hs).
      unfold nodeOr at 1. by rewrite Hn'.
    + by rewrite Hsame.
Qed.

End UndoConstraint.

Lemma removeConstraint_undone CS fuel c g :
  lastStep (AddedConstraint c) g → ActiveScope g = None →
  ∃ g', removeConstraint CS fuel c g = Ok (tt, g') ∧
        undone (AddedConstraint c) g g' ∧ ActiveScope g' = None.
Proof.
  intros Hlast Hsc.
  destruct (rounds_undone CS fuel c (AddedConstraint c)
              (RemovedConstraint c)
              (nodeRemoveConstraint c (gatherReferencedTypeVars c))
              ltac:(by left)) with (g := g) as (g' & Hrun & Hun);
    [|done..|].
  - intros tv n Htv Hwf Htvn Hc Hn.
    assert (∃ n', nodeRemoveConstraint c (gatherReferencedTypeVars c) tv n
                    = Some n') as [n' Hn'].
    { destruct (nodeRemoveConstraint_spec c (gatherReferencedTypeVars c)
                  tv n Hwf (gatherReferencedTypeVars_NoDup c))
        as (n' & Hn' & _); [| |by eauto].
      - simpl in Hc. rewrite decide_True in Hc by done.
        case_decide as Hin; [|by destruct Hc].
        by apply elem_of_list_to_set in Hin.
      - intros w Hw Hne. specialize (Hn w). simpl in Hn.
        case_decide as Hle; [|by destruct Hn].
        unfold linkOf, edgeTo in Hle.
        rewrite decide_True in Hle by done.
        rewrite decide_True in Hle by done. lia. }
    exists n'. split; [done|]. by apply nodeRemoveConstraint_steps.
  - exists g'. by rewrite removeConstraint_per_node.
Qed.

Lemma addConstraint_undone CS fuel c g :
  lastStep (RemovedConstraint c) g → ActiveScope g = None →
  ∃ g', addConstraint CS fuel c g = Ok (tt, g') ∧
        undone (RemovedConstraint c) g g' ∧ ActiveScope g' = None.
Proof.
  intros Hlast Hsc.
  destruct (rounds_undone CS fuel c (RemovedConstraint c)
              (AddedConstraint c)
              (nodeAddConstraint c (gatherReferencedTypeVars c))
              ltac:(by right)) with (g := g) as (g' & Hrun & Hun);
    [|done..|].
  - intros tv n Htv Hwf Htvn Hc Hn.
    assert (∃ n', nodeAddConstraint c (gatherReferencedTypeVars c) tv n
                    = Some n') as [n' Hn'].
    { destruct (nodeAddConstraint_spec c (gatherReferencedTypeVars c)
                  tv n Hwf Htvn (gatherReferencedTypeVars_NoDup c))
        as (n' & Hn' & _); [|by eauto].
      simpl in Hc. rewrite decide_True in Hc by done.
      case_decide as Hin; [by destruct Hc|].
      by rewrite elem_of_list_to_set in Hin. }
    exists n'. split; [done|]. by apply nodeAddConstraint_steps.
  - exists g'. by rewrite addConstraint_per_node.
Qed.

Lemma truncateClass_undone CS fuel v k g :
  lastStep (ExtendedEquivalenceClass v k) g →
  ∃ g', bind (lookupNode CS fuel v)
          (λ _, modifyNode v (truncateClass k)) g = Ok (tt, g') ∧
        undone (ExtendedEquivalenceClass v k) g g' ∧
        ActiveScope g' = ActiveScope g.
Proof.
  intros [Hwf _ _ _ _ Hcls _].
  destruct (Hcls v) as [X HX]. simpl in HX.
  rewrite decide_True in HX by done. case_decide as Hk; [|done].
  assert (is_Some (Nodes g !! v)) as [s Hs].
  { destruct (Nodes g !! v) as [s|] eqn:Hs; [done|].
    unfold rawClass, nodeOr in Hk. rewrite Hs in Hk. simpl in Hk. lia. }
  pose proof (nodeOr_stored _ _ _ Hs) as Hold.
  unfold rawClass in Hk. rewrite Hold in Hk.
  set (n' := MkNode (TypeVar (NodePtr s)) (Constraints (NodePtr s))
               (ConstraintIndex (NodePtr s)) (Adjacencies (NodePtr s))
               (AdjacencyInfo (NodePtr s))
               (take k (EquivalenceClass (NodePtr s)))).
  assert (sameButClass (NodePtr s) n') as Hsame by done.
  destruct (Hwf v s Hs) as [Hwfn Htv].
  assert (∀ w, w ≠ v → nodeOr w (setNode v n' g) = nodeOr w g) as Hne
    by (intros; by eapply setNode_nodeOr_ne).
  pose proof (setNode_nodeOr_eq v n' g s Hs) as Heq.
  exists (setNode v n' g). split; [|split; [split|]].
  - apply bind_Ok. exists (NodePtr s, NodeIndex s), g.
    split; [by apply lookupNode_known|].
    apply modifyNode_setNode. exists s, n'. split; [done|].
    split; [|done]. unfold truncateClass. rewrite decide_True by lia. done.
  - eapply setNode_wf; [done..|by eapply sameButClass_wf|done].
  - by rewrite (setNode_Changes _ _ _ _ Hs).
  - simpl. by rewrite (setNode_TypeVariables _ _ _ _ Hs), app_nil_r.
  - intros D HD. simpl in HD. injection HD as ->.
    by rewrite (setNode_dom _ _ _ _ Hs).
  - intros w sw Hw _. rewrite (setNode_Nodes _ _ _ _ Hs).
    destruct (decide (w = v)) as [->|Hwv].
    + rewrite lookup_insert_eq. rewrite Hs in Hw. injection Hw as <-.
      eauto.
    + rewrite lookup_insert_ne by done. eauto.
  - intros w Y HY. simpl in HY. injection HY as ->. unfold consSet.
    destruct (decide (w = v)) as [->|Hwv]; [|by rewrite Hne].
    by rewrite Heq, Hold.
  - intros w x m Hm. simpl in Hm. injection Hm as ->. unfold cntOf.
    destruct (decide (w = v)) as [->|Hwv]; [|by rewrite Hne].
    by rewrite Heq, Hold.
  - intros w x b Hb. simpl in Hb. injection Hb as ->. unfold flagOf.
    destruct (decide (w = v)) as [->|Hwv]; [|by rewrite Hne].
    by rewrite Heq, Hold.
  - intros w Y HY. simpl in HY. unfold rawClass in *.
    destruct (decide (v = w)) as [<-|Hwv].
    + rewrite Hold in HY. rewrite decide_True in HY by done.
      injection HY as <-. by rewrite Heq.
    + injection HY as <-. by rewrite Hne.
  - by rewrite (setNode_ActiveScope _ _ _ _ Hs).
Qed.

(** Clearing a fixed binding, in the graph. *)
Lemma removeFixedBinding_graph v o g :
  wfGraph g → flagOf g v o = true →
  ∃ s n', Nodes g !! v = Some s ∧
    modifyNode v (NodeOps.removeFixedBinding o) g =
      Ok (tt, setNode v n' g) ∧
    wfNode n' ∧ TypeVar n' = v ∧
    flagOf (setNode v n' g) v o = false ∧
    (∀ x y, x ≠ v ∨ y ≠ o → flagOf (setNode v n' g) x y = flagOf g x y) ∧
    (∀ x, consSet (setNode v n' g) x = consSet g x) ∧
    (∀ x y, cntOf (setNode v n' g) x y = cntOf g x y) ∧
    (∀ x, rawClass (setNode v n' g) x = rawClass g x).
Proof.
  intros Hwf Hflag.
  assert (is_Some (Nodes g !! v)) as [s Hs].
  { destruct (Nodes g !! v) as [s|] eqn:Hs; [done|].
    unfold flagOf, nodeOr in Hflag. by rewrite Hs in Hflag. }
  destruct (Hwf v s Hs) as [Hwfn Htv].
  pose proof (nodeOr_stored _ _ _ Hs) as Hold.
  unfold flagOf in Hflag. rewrite Hold in Hflag.
  destruct (removeFixedBinding_spec o (NodePtr s) Hwfn Hflag)
    as (n' & Hrem & Hwf' & (Htv' & Hc' & _ & Hcls') & Ho & Hother).
  pose proof (setNode_nodeOr_eq _ n' _ _ Hs) as Heq.
  assert (∀ x, x ≠ v → nodeOr x (setNode v n' g) = nodeOr x g) as Hne
    by (intros; by eapply setNode_nodeOr_ne).
  exists s, n'. split; [done|]. split.
  { apply modifyNode_setNode. by exists s, n'. }
  split; [done|]. split; [congruence|].
  unfold flagOf, cntOf, consSet, rawClass.
  split; [by rewrite Heq, Ho|]. split; [|split; [|split]].
  - intros x y Hxy. destruct (decide (x = v)) as [->|Hx]; [|by rewrite Hne].
    rewrite Heq, Hold. apply (f_equal snd), Hother. by destruct Hxy.
  - intros x. destruct (decide (x = v)) as [->|Hx]; [|by rewrite Hne].
    by rewrite Heq, Hold, Hc'.
  - intros x y. destruct (decide (x = v)) as [->|Hx]; [|by rewrite Hne].
    rewrite Heq, Hold. destruct (decide (y = o)) as [->|Hy].
    + by rewrite Ho.
    + by rewrite Hother.
  - intros x. destruct (decide (x = v)) as [->|Hx]; [|by rewrite Hne].
    by rewrite Heq, Hold, Hcls'.
Qed.

Lemma sameButFlags_refl g : wfGraph g → sameButFlags g g.
Proof.
  intros Hwf. do 5 (split; [done|]). split; [|done].
  intros v s Hs. eauto.
Qed.

Lemma sameButFlags_trans g1 g2 g3 :
  sameButFlags g1 g2 → sameButFlags g2 g3 → sameButFlags g1 g3.
Proof.
  intros (? & ? & ? & ? & ? & Hi1 & ? & ? & ?)
    (? & ? & ? & ? & ? & Hi2 & ? & ? & ?).
  split; [done|]. do 4 (split; [congruence|]). split; [|split; [|split]].
  - intros v s Hs. destruct (Hi1 v s Hs) as (s1 & Hs1 & <-).
    destruct (Hi2 v s1 Hs1) as (s2 & Hs2 & <-). eauto.
  - intros x. congruence.
  - intros x y. congruence.
  - intros x. congruence.
Qed.

Lemma sameButFlags_setNode v n' g s :
  wfGraph g → Nodes g !! v = Some s → wfNode n' → TypeVar n' = v →
  (∀ x, consSet (setNode v n' g) x = consSet g x) →
  (∀ x y, cntOf (setNode v n' g) x y = cntOf g x y) →
  (∀ x, rawClass (setNode v n' g) x = rawClass g x) →
  sameButFlags g (setNode v n' g).
Proof.
  intros Hwf Hs Hwf' Htv Hc Hn Hr. split; [by eapply setNode_wf|].
  split; [by rewrite (setNode_TypeVariables _ _ _ _ Hs)|].
  split; [by rewrite (setNode_Changes _ _ _ _ Hs)|].
  split; [by rewrite (setNode_ActiveScope _ _ _ _ Hs)|].
  split; [by rewrite (setNode_dom _ _ _ _ Hs)|].
  split; [|done].
  intros w sw Hw. rewrite (setNode_Nodes _ _ _ _ Hs).
  destruct (decide (w = v)) as [->|Hwv].
  - rewrite lookup_insert_eq. rewrite Hs in Hw. injection Hw as <-. eauto.
  - rewrite lookup_insert_ne by done. eauto.
Qed.

Lemma unbindLoop_undone CS fuel tv typeVars :
  ∀ K g,
    wfGraph g → tv ∉ typeVars →
    (∀ o, o ∈ typeVars → o ∉ K →
          flagOf g o tv = true ∧ flagOf g tv o = true) →
    ∃ g', unbindLoop CS fuel tv K typeVars g = Ok (tt, g') ∧
      sameButFlags g g' ∧
      ∀ x y, flagOf g' x y =
        if decide (boundPair tv (list_to_set typeVars ∖ K) x y)
        then false else flagOf g x y.
Proof.
  induction typeVars as [|o typeVars IH]; intros K g Hwf Htv Hflags.
  { exists g. split; [done|]. split; [by apply sameButFlags_refl|].
    intros x y. rewrite decide_False; [done|].
    unfold boundPair. set_solver. }
  apply not_elem_of_cons in Htv as [Hne Htv].
  simpl. destruct (decide (o ∈ K)) as [Ho|Ho].
  { destruct (IH K g Hwf Htv) as (g' & Hrun & Hsame & Hfl).
    { intros o' Ho' HK. apply Hflags; [by right|done]. }
    exists g'. split; [done|]. split; [done|].
    intros x y. rewrite Hfl.
    replace (({[o]} ∪ list_to_set typeVars) ∖ K)
      with ((list_to_set typeVars : gset TypeVariableType) ∖ K)
      by set_solver. done. }
  destruct (Hflags o ltac:(left) Ho) as [Hf1 Hf2].
  destruct (removeFixedBinding_graph o tv g Hwf Hf1)
    as (s1 & n1 & Hs1 & Hm1 & Hwf1 & Htv1 & Hz1 & Ho1 & Hc1 & Hn1 & Hr1).
  pose proof (sameButFlags_setNode _ _ _ _ Hwf Hs1 Hwf1 Htv1 Hc1 Hn1 Hr1)
    as Hsame1.
  set (g1 := setNode o n1 g) in *.
  assert (flagOf g1 tv o = true) as Hf2'
    by (rewrite Ho1; [done|by left]).
  destruct (removeFixedBinding_graph tv o g1 (proj1 Hsame1) Hf2')
    as (s2 & n2 & Hs2 & Hm2 & Hwf2 & Htv2 & Hz2 & Ho2 & Hc2 & Hn2 & Hr2).
  pose proof (sameButFlags_setNode _ _ _ _ (proj1 Hsame1) Hs2 Hwf2 Htv2
                Hc2 Hn2 Hr2) as Hsame2.
  set (g2 := setNode tv n2 g1) in *.
  destruct (IH ({[o]} ∪ K) g2 (proj1 Hsame2) Htv)
    as (g' & Hrun & Hsame & Hfl).
  { intros o' Ho' HK.
    assert (o' ≠ o) by set_solver. assert (o' ≠ tv) by set_solver.
    destruct (Hflags o' ltac:(by right) ltac:(set_solver)) as [? ?].
    split.
    - unfold g2. rewrite Ho2 by by left. unfold g1.
      rewrite Ho1 by by left. done.
    - unfold g2. rewrite Ho2 by by right. unfold g1.
      rewrite Ho1 by by left. done. }
  exists g'. split.
  { apply bind_Ok. exists (NodePtr s1, NodeIndex s1), g.
    split; [by apply lookupNode_known|].
    apply bind_Ok. exists tt, g1. split; [done|].
    apply bind_Ok. exists tt, g2. done. }
  split; [eauto using sameButFlags_trans|].
  intros x y. rewrite Hfl.
  destruct (decide ((x = o ∧ y = tv) ∨ (x = tv ∧ y = o))) as [Hxy|Hxy].
  - rewrite (decide_True (P:=boundPair tv (_ ∖ K) x y))
      by (unfold boundPair; set_solver).
    case_decide; [done|].
    destruct Hxy as [[-> ->]|[-> ->]].
    + unfold g2. rewrite Ho2 by by left. done.
    + done.
  - assert (flagOf g2 x y = flagOf g x y) as ->.
    { unfold g2. rewrite Ho2.
      - unfold g1. rewrite Ho1; [done|].
        destruct (decide (x = o)); [|by left].
        destruct (decide (y = tv)); [|by right]. naive_solver.
      - destruct (decide (x = tv)); [|by left].
        destruct (decide (y = o)); [|by right]. naive_solver. }
    destruct (decide (boundPair tv (list_to_set typeVars ∖ ({[o]} ∪ K)) x y))
      as [Hp|Hp].
    + rewrite decide_True; [done|]. unfold boundPair in *. set_solver.
    + rewrite decide_False; [done|]. unfold boundPair in *.
      intros [[-> Hy]|[-> Hx]].
      * apply Hp. left. split; [done|].
        assert (y ≠ o) by naive_solver. set_solver.
      * apply Hp. right. split; [done|].
        assert (x ≠ o) by naive_solver. set_solver.
Qed.

Lemma unbindTypeVariable_undone CS fuel tv fixed g :
  lastStep (BoundTypeVariable tv fixed) g →
  ∃ g', unbindTypeVariable CS fuel tv fixed g = Ok (tt, g') ∧
        undone (BoundTypeVariable tv fixed) g g' ∧
        ActiveScope g' = ActiveScope g.
Proof.
  intros [Hwf [D HD] _ _ Hflag _ _].
  simpl in HD. case_decide as Htv; [done|]. clear HD D.
  assert (∀ v w, boundPair tv (list_to_set (getTypeVariables fixed [])) v w →
                 flagOf g v w = true) as Hset.
  { intros v w Hp. destruct (Hflag v w) as (b & Hb). simpl in Hb.
    rewrite decide_True in Hb by done. destruct b; by simplify_eq. }
  assert (∃ g', unbindTypeVariable CS fuel tv fixed g = Ok (tt, g') ∧
    sameButFlags g g' ∧
    ∀ x y, flagOf g' x y =
      if decide (boundPair tv (list_to_set (getTypeVariables fixed [])) x y)
      then false else flagOf g x y)
    as (g' & Hrun & (Hwf' & Ht & Hc & Hsc & Hdom & Hidx & Hcs & Hcn & Hcl)
        & Hfl).
  { unfold unbindTypeVariable. destruct fixed as [|o fixed]; simpl.
    { exists g. split; [done|]. split; [by apply sameButFlags_refl|].
      intros x y. rewrite decide_False; [done|].
      unfold boundPair. set_solver. }
    destruct (unbindLoop_undone CS fuel tv (o :: fixed) ∅ g Hwf Htv)
      as (g' & Hrun & Hsame & Hfl).
    { intros o' Ho' _. split; apply Hset; unfold boundPair;
        simpl; set_solver. }
    assert (is_Some (Nodes g !! tv)) as [s Hs].
    { specialize (Hset tv o). unfold flagOf, nodeOr in Hset.
      destruct (Nodes g !! tv); [done|]. simpl in Hset.
      discriminate Hset. unfold boundPair. simpl. set_solver. }
    exists g'. split.
    { apply bind_Ok. exists (NodePtr s, NodeIndex s), g.
      split; [by apply lookupNode_known|done]. }
    split; [done|]. intros x y. rewrite Hfl. simpl.
    replace (({[o]} ∪ list_to_set fixed) ∖ ∅)
      with ({[o]} ∪ list_to_set fixed : gset TypeVariableType)
      by set_solver. done. }
  exists g'. split; [done|]. split; [split|done]; try done.
  - simpl. by rewrite Ht, app_nil_r.
  - intros D HD. simpl in HD. rewrite decide_False in HD by done.
    injection HD as ->. done.
  - intros v s Hs _. by apply Hidx.
  - intros v X HX. simpl in HX. injection HX as ->. apply Hcs.
  - intros v w n Hn. simpl in Hn. injection Hn as ->. apply Hcn.
  - intros v w b Hb. simpl in Hb. rewrite Hfl. simpl.
    destruct (decide (boundPair tv _ v w)); destruct b; by simplify_eq.
  - intros v X HX. simpl in HX. injection HX as <-. apply Hcl.
Qed.

Lemma lastStep_withScope r g sc : lastStep r g → lastStep r (withScope sc g).
Proof. intros []. by split. Qed.

Lemma undone_withScope r g g' sc sc' :
  undone r (withScope sc g) g' → undone r g (withScope sc' g').
Proof. intros []. by split. Qed.

(** [Change::undo] returns the graph before the change. *)
Lemma undo_undone CS fuel r g :
  lastStep r g →
  ∃ g', undo CS fuel r g = Ok (tt, g') ∧ undone r g g' ∧
        ActiveScope g' = ActiveScope g.
Proof.
  intros Hlast%(lastStep_withScope _ _ None).
  assert (∃ g1,
    match r with
    | AddedTypeVariable typeVar => removeNode typeVar
    | AddedConstraint constraint => removeConstraint CS fuel constraint
    | RemovedConstraint constraint => addConstraint CS fuel constraint
    | ExtendedEquivalenceClass typeVar prevSize =>
        bind (lookupNode CS fuel typeVar)
          (λ _, modifyNode typeVar (truncateClass prevSize))
    | BoundTypeVariable typeVar fixed =>
        unbindTypeVariable CS fuel typeVar fixed
    end (withScope None g) = Ok (tt, g1) ∧
    undone r (withScope None g) g1) as (g1 & Hrun & Hun).
  { destruct r as [v|c|c|v k|tv fixed].
    - destruct (removeNode_undone v _ Hlast) as (g1 & ? & ? & _). eauto.
    - destruct (removeConstraint_undone CS fuel c _ Hlast)
        as (g1 & ? & ? & _); eauto.
    - destruct (addConstraint_undone CS fuel c _ Hlast)
        as (g1 & ? & ? & _); eauto.
    - destruct (truncateClass_undone CS fuel v k _ Hlast)
        as (g1 & ? & ? & _); eauto.
    - destruct (unbindTypeVariable_undone CS fuel tv fixed _ Hlast)
        as (g1 & ? & ? & _); eauto. }
  exists (withScope (ActiveScope g) g1). split; [|split; [|done]].
  - unfold undo. apply bind_Ok. exists tt, (withScope None g).
    split; [done|]. apply bind_Ok. exists tt, g1. split; [|done].
    by destruct r.
  - by eapply undone_withScope.
Qed.

Lemma undo_pop CS fuel log r g0 g :
  accountedBy (log ++ [r]) g0 g →
  ∃ g', bind (undo CS fuel r) (λ _, popChange) g = Ok (tt, g') ∧
        accountedBy log g0 g'.
Proof.
  intros Hacc.
  destruct (undo_undone CS fuel r g (accountedBy_lastStep _ _ _ _ Hacc))
    as (g1 & Hrun & Hun & Hsc).
  eexists. split.
  - apply bind_Ok. exists tt, g1. split; [done|]. done.
  - by eapply accountedBy_undone.
Qed.

(** Undoing the log, last change first, leaves nothing to account
    for. *)
Lemma undoAll_accounted CS fuel log :
  ∀ g0 g, accountedBy log g0 g →
    ∃ g', forEach (reverse log)
            (λ r, bind (undo CS fuel r) (λ _, popChange)) g = Ok (tt, g') ∧
          accountedBy [] g0 g'.
Proof.
  induction log as [|r log IH] using rev_ind; intros g0 g Hacc.
  { exists g. done. }
  destruct (undo_pop CS fuel log r g0 g Hacc) as (g1 & Hrun1 & Hacc1).
  destruct (IH g0 g1 Hacc1) as (g' & Hrun & Hacc').
  exists g'. split; [|done]. rewrite reverse_snoc. simpl.
  apply bind_Ok. exists tt, g1. done.
Qed.

(** The loop of the destructor of a scope is that undoing. *)
Lemma undoChanges_accounted CS fuel log :
  ∀ iterations g0 g,
    accountedBy log g0 g → length log ≤ iterations →
    ∃ g', undoChanges CS iterations fuel (length (Changes g0)) g =
            Ok (tt, g') ∧
          forEach (reverse log)
            (λ r, bind (undo CS fuel r) (λ _, popChange)) g = Ok (tt, g') ∧
          accountedBy [] g0 g'.
Proof.
  induction log as [|r log IH] using rev_ind;
    intros iterations g0 g Hacc Hlen.
  { exists g. split; [|done].
    pose proof (fr_changes _ _ _ (acc_framed _ _ _ Hacc)) as Hch.
    rewrite app_nil_r in Hch.
    destruct iterations; simpl; rewrite Hch, decide_False by lia; done. }
  pose proof (fr_changes _ _ _ (acc_framed _ _ _ Hacc)) as Hch.
  rewrite length_app in Hlen. simpl in Hlen.
  destruct iterations as [|iterations]; [lia|].
  destruct (undo_pop CS fuel log r g0 g Hacc) as (g1 & Hrun1 & Hacc1).
  destruct (IH iterations g0 g1 Hacc1) as (g' & Hrun & Hall & Hacc');
    [lia|].
  exists g'. split; [|split; [|done]].
  - simpl. rewrite decide_True
      by (rewrite Hch, !length_app; simpl; lia).
    assert (Changes g !! (length (Changes g) - 1) = Some r) as ->.
    { rewrite Hch, app_assoc, length_app. simpl.
      rewrite lookup_app_r by lia.
      replace (_ - _) with 0 by lia. done. }
    apply bind_Ok in Hrun1 as ([] & g2 & Hundo & Hpop).
    apply bind_Ok. exists tt, g2. split; [done|].
    apply bind_Ok. exists tt, g1. done.
  - rewrite reverse_snoc. simpl. apply bind_Ok. exists tt, g1. done.
Qed.

Lemma classLike_observed v n n' :
  TypeVar n = v → TypeVar n' = v →
  classLike v (EquivalenceClass n') (EquivalenceClass n) →
  (NodeOps.getEquivalenceClassUnsafe n').1 =
    (NodeOps.getEquivalenceClassUnsafe n).1.
Proof.
  intros Hn Hn' Hlike. unfold NodeOps.getEquivalenceClassUnsafe.
  destruct Hlike as [->|[-> ->]].
  - destruct (EquivalenceClass n); simpl; congruence.
  - simpl. congruence.
Qed.

Lemma accountedBy_restored g0 g' :
  wfGraph g0 → accountedBy [] g0 g' → restored g0 g'.
Proof.
  intros Hwf0 [[Hwf Hsc Hch Htv Hdom Hidx _] Hcons Hcnt Hflag Hcls].
  simpl in *. rewrite app_nil_r in *.
  split; [done|]. split; [done|]. split; [done|].
  split; [by simplify_eq|]. intros v s Hs.
  destruct (Hidx v s Hs) as (s' & Hs' & Hi). exists s'.
  split; [done|]. split; [done|].
  destruct (Hwf0 v s Hs) as [Hwfn Htvn].
  destruct (Hwf v s' Hs') as [Hwfn' Htvn'].
  pose proof (nodeOr_stored _ _ _ Hs) as Hold.
  pose proof (nodeOr_stored _ _ _ Hs') as Hnew.
  split; [congruence|]. split; [|split].
  - specialize (Hcons v). unfold consSet in Hcons.
    rewrite Hold, Hnew in Hcons. injection Hcons as Hcons.
    apply NoDup_Permutation.
    + apply (indexed_NoDup _ _ (wf_constraints _ Hwfn')).
    + apply (indexed_NoDup _ _ (wf_constraints _ Hwfn)).
    + intros x. rewrite <-!(elem_of_list_to_set (C:=gset Constraint)).
      by rewrite Hcons.
  - intros w. specialize (Hcnt v w). specialize (Hflag v w).
    unfold cntOf, flagOf in *. rewrite Hold, Hnew in *.
    destruct (adjacencyOf (NodePtr s') w), (adjacencyOf (NodePtr s) w).
    simpl in *. by simplify_eq.
  - destruct (Hcls v) as (X & HX & Hlike). unfold rawClass in *.
    rewrite Hold, Hnew in *. simpl in HX. injection HX as <-.
    by apply (classLike_observed v).
Qed.

(** C1: for every well-formed graph and every sequence of mutations that
    return, performed while a scope opened at that graph is the active
    scope, closing the scope returns; it undoes the changes recorded
    since the scope was opened, last change first, popping each; and it
    leaves the vector of type variables, the change log and the active
    scope as they were before the scope was opened, and the same nodes
    at the same positions, each with the same constraints, the same
    adjacency counts and fixed-binding flags and the same equivalence
    class. *)
Theorem closeScope_restores CS fuel S scope g0 calls g1 :
  wfGraph S →
  openScope S = Ok (scope, g0) →
  mutateAll calls g0 = Ok (tt, g1) →
  ∃ g2,
    closeScope CS fuel scope g1 = Ok (tt, g2) ∧
    bind (forEach (reverse (drop (length (Changes S)) (Changes g1)))
            (λ r, bind (undo CS fuel r) (λ _, popChange)))
      (λ _, setActiveScope (ParentScope scope)) g1 = Ok (tt, g2) ∧
    restored S g2.
Proof.
  intros Hwf Hopen Hrun. unfold openScope in Hopen. simplify_eq.
  set (scope := MkScope (ActiveScope S) (length (Changes S))) in *.
  set (g0 := MkGraph (Nodes S) (TypeVariables S) (Changes S) (Some scope))
    in *.
  destruct (accounts_mutateAll calls g0 tt g1 Hrun) as (log & Hacc);
    [done|by eexists|].
  pose proof (fr_changes _ _ _ (acc_framed _ _ _ Hacc)) as Hch.
  simpl in Hch.
  destruct (undoChanges_accounted CS fuel log (length (Changes g1)) g0 g1
              Hacc) as (g' & Hundo & Hall & Hacc').
  { rewrite Hch, length_app. lia. }
  exists (withScope (ActiveScope S) g'). split; [|split].
  - unfold closeScope. simpl.
    rewrite decide_True by (rewrite Hch, length_app; lia).
    apply bind_Ok. exists tt, g'. done.
  - rewrite Hch, drop_app_length. apply bind_Ok. exists tt, g'. done.
  - destruct (accountedBy_restored g0 g' Hwf Hacc')
      as (Ht & Hc & _ & Hd & Hn).
    split; [done|]. split; [done|]. split; [done|]. split; [done|].
    apply Hn.
Qed.

Lemma closeScope_restores_witness :
  ∃ g2,
    closeScope Examples.csFree 0 Rollback.scope Rollback.mutated =
      Ok (tt, g2) ∧
    bind (forEach
            (reverse (drop (length (Changes Examples.g01))
                        (Changes Rollback.mutated)))
            (λ r, bind (undo Examples.csFree 0 r) (λ _, popChange)))
      (λ _, setActiveScope (ParentScope Rollback.scope))
      Rollback.mutated = Ok (tt, g2) ∧
    restored Examples.g01 g2.
Proof.
  apply (closeScope_restores Examples.csFree 0 Examples.g01 Rollback.scope
           Examples.g01scoped Rollback.calls Rollback.mutated).
  - apply wfGraph_g01.
  - by vm_compute.
  - by vm_compute.
Defined.

(** * Further properties of the code *)

(** ** Looking up a node again *)

(** X2: once [lookupNode] has returned a node and its index for a type
    variable, every later lookup of that type variable in the graph it
    left finds the same node at the same index and changes nothing,
    whatever the constraint system reports by then: it needs no fuel,
    creates no node and records no change. *)
Theorem lookupNode_again CS fuel typeVar g node index g' CS' fuel' :
  lookupNode CS fuel typeVar g = Ok ((node, index), g') →
  lookupNode CS' fuel' typeVar g' = Ok ((node, index), g').
Proof.
  intros Hrun. apply lookupNode_stored in Hrun.
  destruct fuel'; simpl; by rewrite Hrun.
Qed.

Lemma lookupNode_again_witness :
  ∃ node index g',
    lookupNode Examples.csMerged 2 0 emptyGraph = Ok ((node, index), g') ∧
    lookupNode Examples.csFree 0 0 g' = Ok ((node, index), g').
Proof.
  eexists _, _, _. split; [by vm_compute|].
  apply (lookupNode_again Examples.csMerged 2 0 emptyGraph).
  by vm_compute.
Defined.

(** ** The type variables a constraint references *)

Lemma gatherReferencedTypeVarsRec_app c typeVars :
  gatherReferencedTypeVarsRec c typeVars =
    typeVars ++ gatherReferencedTypeVarsRec c [].
Proof.
  revert c typeVars. fix IH 1. intros [a k t1 t2 ns b] typeVars.
  assert (∀ acc,
    (fix each (l : list Constraint) (acc : list TypeVariableType) :=
       match l with
       | [] => acc
       | n :: l' => each l' (gatherReferencedTypeVarsRec n acc)
       end) ns acc =
    acc ++ flat_map (λ n, gatherReferencedTypeVarsRec n []) ns) as Hns.
  { induction ns as [|n ns IHns]; intros acc; simpl.
    - by rewrite app_nil_r.
    - rewrite IHns, (IH n acc). by rewrite <- app_assoc. }
  destruct k; simpl; unfold gatherBaseType, getTypeVariables;
    rewrite ?Hns; simpl; try destruct b; by rewrite <- ?app_assoc.
Qed.

Lemma gatherReferencedTypeVarsRec_nested c :
  getKind c = Conjunction ∨ getKind c = Disjunction →
  gatherReferencedTypeVarsRec c [] =
    flat_map (λ n, gatherReferencedTypeVarsRec n [])
      (getNestedConstraints c).
Proof.
  destruct c as [a k t1 t2 ns b]. simpl. intros Hk.
  assert (∀ acc,
    (fix each (l : list Constraint) (acc : list TypeVariableType) :=
       match l with
       | [] => acc
       | n :: l' => each l' (gatherReferencedTypeVarsRec n acc)
       end) ns acc =
    acc ++ flat_map (λ n, gatherReferencedTypeVarsRec n []) ns) as Hns.
  { induction ns as [|n ns IHns]; intros acc; simpl.
    - by rewrite app_nil_r.
    - rewrite IHns, (gatherReferencedTypeVarsRec_app n acc).
      by rewrite <- app_assoc. }
  destruct Hk as [-> | ->]; by rewrite Hns.
Qed.

Lemma elem_of_flat_map {A B} (f : A → list B) (l : list A) x :
  x ∈ flat_map f l ↔ ∃ y, y ∈ l ∧ x ∈ f y.
Proof.
  induction l as [|y l IH]; simpl; [set_solver|].
  rewrite elem_of_app, IH. set_solver.
Qed.

Lemma removeKnown_sublist known l : removeKnown known l `sublist_of` l.
Proof.
  revert known. induction l as [|x l IH]; intros known; simpl; [done|].
  case_decide.
  - apply sublist_cons, IH.
  - apply sublist_skip, IH.
Qed.

(** ** Merging nodes *)

(** X4: [mergeNodes] does not depend on the order of its two arguments:
    the representative and the type variable merged into it are told
    apart by the constraint system alone. *)
Theorem mergeNodes_comm CS fuel typeVar1 typeVar2 g :
  mergeNodes CS fuel typeVar1 typeVar2 g =
  mergeNodes CS fuel typeVar2 typeVar1 g.
Proof.
  unfold mergeNodes, mergeNodesWith.
  destruct (decide (getRepresentative CS typeVar1 =
                    getRepresentative CS typeVar2)) as [Heq|Hne].
  2:{ rewrite (decide_False (P := getRepresentative CS typeVar2 = _));
        [done|congruence]. }
  rewrite (decide_True (P := getRepresentative CS typeVar2 = _))
    by congruence.
  rewrite <- Heq. apply bind_ext. intros ? g1.
  set (rep := getRepresentative CS typeVar1).
  destruct (decide (typeVar1 = rep)) as [H1|H1],
           (decide (typeVar2 = rep)) as [H2|H2].
  - rewrite !decide_True by tauto. by rewrite H1, H2.
  - rewrite !decide_True by tauto. done.
  - rewrite !decide_True by tauto. done.
  - rewrite !decide_False by tauto. done.
Qed.

(** ** Connected components *)

(** X5: when no type variable of a searchable graph is one the caller
    wants (each is bound to a fixed type or outside the requested
    subset), which includes the graph without type variables,
    [computeConnectedComponents] reports nothing: both output vectors
    are empty and the number of components is 0. *)
Theorem computeConnectedComponents_nothing_wanted CS fuel typeVars g :
  searchable CS g →
  (∀ v, v ∈ TypeVariables g → ¬ wanted CS typeVars v) →
  ∃ g',
    computeConnectedComponents CS fuel typeVars g = Ok (([], [], 0), g').
Proof.
  intros Hs Hnone.
  destruct (computeConnectedComponents_returns CS fuel typeVars g Hs)
    as ([[tvs comps] n] & g' & Hrun).
  destruct (computeConnectedComponents_Ok_partition _ _ _ _ _ _ _ _ Hrun)
    as (_ & Hlen & Hsub & _ & _ & Hall & _ & Hlive).
  assert (comps = []) as ->.
  { destruct comps as [|c comps]; [done|]. exfalso.
    destruct (Hlive 0 c eq_refl) as (j' & v & _ & Hv & Hw).
    apply (Hnone v); [|done].
    eapply elem_of_sublist; [|done]. by eapply list_elem_of_lookup_2. }
  destruct tvs; [|done].
  assert (n = 0) as ->.
  { destruct n; [done|]. specialize (Hall 0 ltac:(lia)). set_solver. }
  eauto.
Qed.

Lemma computeConnectedComponents_nothing_wanted_witness :
  ∃ g',
    computeConnectedComponents
      (MkConstraintSystem (λ v, v) (λ _, Some [])) 0 [] Scenario.graph =
    Ok (([], [], 0), g').
Proof.
  apply computeConnectedComponents_nothing_wanted.
  - by apply scenario_searchable.
  - by intros v _ [? _].
Defined.

(** ** Operations on one node *)

(** A well-formed node whose adjacency vector extends that of another
    well-formed node with the same adjacency contents has the same
    adjacency vector. *)
Lemma wfNode_prefix_eq n m :
  wfNode n → wfNode m →
  Adjacencies n `prefix_of` Adjacencies m →
  (∀ w, adjacencyOf m w = adjacencyOf n w) →
  Adjacencies m = Adjacencies n.
Proof.
  intros Hwf Hwfm [extra Hextra] Hadj. rewrite Hextra.
  destruct extra as [|x extra]; [by rewrite app_nil_r|]. exfalso.
  assert (x ∈ Adjacencies m) as Hx by (rewrite Hextra; set_solver).
  apply (indexed_elem_of _ _ _ (wf_adjacencies m Hwfm)) in Hx as [i Hi].
  destruct (AdjacencyInfo m !! x) as [a|] eqn:Ha; [|done].
  pose proof (wf_nonempty m Hwfm x a Ha) as Hne'.
  assert (AdjacencyInfo n !! x = None) as Hnone.
  { apply eq_None_not_Some. intros Hsome.
    assert (is_Some (Index <$> AdjacencyInfo n !! x)) as Hsome'
      by (destruct Hsome as [? ->]; eauto).
    apply (indexed_elem_of _ _ _ (wf_adjacencies n Hwf)) in Hsome'.
    pose proof (indexed_NoDup _ _ (wf_adjacencies m Hwfm)) as Hnd2.
    rewrite Hextra in Hnd2. apply NoDup_app in Hnd2 as (_ & Hdisj & _).
    apply (Hdisj x Hsome'). set_solver. }
  specialize (Hadj x). unfold adjacencyOf in Hadj.
  rewrite Ha, Hnone in Hadj. unfold Adjacency_empty in Hne'.
  injection Hadj as Hz Hf. rewrite Hz, Hf in Hne'. done.
Qed.

Lemma wfNode_restored n m :
  wfNode n → wfNode m → sameButAdjacencies n m →
  Adjacencies n `prefix_of` Adjacencies m →
  (∀ w, adjacencyOf m w = adjacencyOf n w) → m = n.
Proof.
  intros Hwf Hwfm (Ht & Hc & _ & He) Hpre Hadj.
  apply wfNode_ext; try done.
  by apply wfNode_prefix_eq.
Qed.

(** What [modifyAdjacency] keeps of a prefix of the adjacency vector
    whose adjacencies stay. *)
Lemma modifyAdjacency_prefix o modify m m' a a'
    (A : list TypeVariableType) :
  wfNode m → NodeOps.modifyAdjacency o modify m = Some m' →
  AdjacencyInfo m !! o = Some a → modify a = Some a' →
  Index a' = Index a →
  A `prefix_of` Adjacencies m →
  (o ∈ A → Adjacency_empty a' = false) →
  A `prefix_of` Adjacencies m'.
Proof.
  intros Hwf Hrem Hslot Hmod Hidx [rest Hrest] HA.
  destruct (modifyAdjacency_Adjacencies _ _ _ _ a a' Hrem Hslot Hmod Hidx)
    as [Hsame Htake].
  destruct (decide (o ∈ A)) as [Hin|Hout].
  - rewrite Hsame; [by exists rest|]. by apply HA.
  - assert (Adjacencies m !! Index a = Some o) as Hpos.
    { apply (wf_adjacencies m Hwf). by rewrite Hslot. }
    assert (length A ≤ Index a) as Hle.
    { destruct (decide (Index a < length A)) as [Hlt|]; [|lia].
      rewrite Hrest, lookup_app_l in Hpos by done.
      exfalso. apply Hout. by eapply list_elem_of_lookup_2. }
    apply prefix_of_take.
    replace (length A) with (length A `min` Index a) by lia.
    rewrite <- take_take, Htake, take_take.
    replace (length A `min` Index a) with (length A) by lia.
    by rewrite Hrest, take_app_length.
Qed.

(** X6: on a well-formed node, [Node::addConstraint] refuses a
    constraint the node already has and [Node::removeConstraint] one it
    does not have; a constraint the node does not have is added at the
    end of the constraint vector, the node stays well formed, and
    removing it again gives back exactly the node there was. *)
Theorem Node_addConstraint_removeConstraint c n :
  wfNode n →
  (c ∈ Constraints n → NodeOps.addConstraint c n = None) ∧
  (c ∉ Constraints n →
   NodeOps.removeConstraint c n = None ∧
   ∃ n1, NodeOps.addConstraint c n = Some n1 ∧ wfNode n1 ∧
         Constraints n1 = Constraints n ++ [c] ∧
         NodeOps.removeConstraint c n1 = Some n).
Proof.
  intros Hwf. split.
  - intros Hin.
    apply (indexed_elem_of _ _ _ (wf_constraints n Hwf)) in Hin as [i Hi].
    unfold NodeOps.addConstraint. by rewrite Hi.
  - intros Hout.
    assert (ConstraintIndex n !! c = None) as Hidx
      by by apply (indexed_None _ _ _ (wf_constraints n Hwf)).
    split; [unfold NodeOps.removeConstraint; by rewrite Hidx|].
    destruct (NodeOps.addConstraint c n) as [n1|] eqn:Hadd.
    2:{ unfold NodeOps.addConstraint in Hadd. by rewrite Hidx in Hadd. }
    exists n1. pose proof (addConstraint_wf _ _ _ Hwf Hadd) as Hwf1.
    apply addConstraint_Some in Hadd as [_ ->].
    split_and!; [done..|].
    erewrite (removeConstraint_after_add c n); [|done|by simpl..].
    simpl. by destruct n.
Qed.

Lemma Node_addConstraint_removeConstraint_witness :
  (Examples.cGround ∈ Constraints (newNode 0) →
   NodeOps.addConstraint Examples.cGround (newNode 0) = None) ∧
  (Examples.cGround ∉ Constraints (newNode 0) →
   NodeOps.removeConstraint Examples.cGround (newNode 0) = None ∧
   ∃ n1, NodeOps.addConstraint Examples.cGround (newNode 0) = Some n1 ∧
         wfNode n1 ∧
         Constraints n1 = Constraints (newNode 0) ++ [Examples.cGround] ∧
         NodeOps.removeConstraint Examples.cGround n1 = Some (newNode 0)).
Proof.
  apply (Node_addConstraint_removeConstraint Examples.cGround (newNode 0)).
  apply wfNode_newNode.
Defined.

Lemma wfNode_threeConstraints : wfNode NodeExamples.threeConstraints.
Proof.
  split; simpl.
  - intros k i. rewrite !lookup_insert, lookup_empty.
    repeat case_decide; simplify_eq;
      destruct i as [|[|[|i]]]; simpl; naive_solver.
  - intros v i. rewrite lookup_empty. simpl. by destruct i.
  - intros v a. by rewrite lookup_empty.
Qed.

(** X7: [Node::removeConstraint] removes a constraint in constant time:
    the last constraint of the vector takes the slot of the removed one,
    and the index map is updated for it, so that the vector and the map
    stay in sync; the other constraints keep their positions, but the
    order of the vector is not preserved.  The adjacencies and the
    equivalence class are not touched. *)
Theorem Node_removeConstraint_swaps c n i :
  wfNode n → ConstraintIndex n !! c = Some i →
  ∃ l n',
    last (Constraints n) = Some l ∧
    NodeOps.removeConstraint c n = Some n' ∧ wfNode n' ∧
    Constraints n' = pop_back (<[i := l]> (Constraints n)) ∧
    ConstraintIndex n' =
      (if decide (l = c) then delete c (ConstraintIndex n)
       else <[l := i]> (delete c (ConstraintIndex n))) ∧
    (∀ d, d ∈ Constraints n' ↔ d ∈ Constraints n ∧ d ≠ c) ∧
    TypeVar n' = TypeVar n ∧ Adjacencies n' = Adjacencies n ∧
    AdjacencyInfo n' = AdjacencyInfo n ∧
    EquivalenceClass n' = EquivalenceClass n.
Proof.
  intros Hwf Hidx.
  pose proof (proj1 (wf_constraints n Hwf c i) Hidx) as Hpos.
  assert (c ∈ Constraints n) as Hin by by eapply list_elem_of_lookup_2.
  destruct (removeConstraint_spec c n Hwf Hin)
    as (n' & Hrem & Hwf' & Hperm & Ht & Ha & Hai & He).
  pose proof (lookup_lt_Some _ _ _ Hpos) as Hlt.
  destruct (Constraints n !! (length (Constraints n) - 1)) as [l|] eqn:Hl.
  2:{ apply lookup_ge_None in Hl. lia. }
  assert (last (Constraints n) = Some l) as Hlast.
  { rewrite last_lookup.
    by replace (pred (length (Constraints n)))
      with (length (Constraints n) - 1) by lia. }
  pose proof (indexed_NoDup _ _ (wf_constraints n Hwf)) as Hnd.
  exists l, n'. split_and!; try done.
  - revert Hrem. unfold NodeOps.removeConstraint.
    rewrite Hidx, Hpos, decide_True by done.
    case_decide as Hi.
    + intros [= <-]. simpl. rewrite list_insert_id; [done|].
      rewrite Hi in Hpos |- *. congruence.
    + rewrite Hl. by intros [= <-].
  - revert Hrem. unfold NodeOps.removeConstraint.
    rewrite Hidx, Hpos, decide_True by done.
    case_decide as Hi.
    + intros [= <-]. simpl. rewrite decide_True; [done|].
      rewrite Hi in Hpos. congruence.
    + rewrite Hl. intros [= <-]. simpl. rewrite decide_False; [done|].
      intros ->. apply Hi. eapply NoDup_lookup; done.
  - intros d. rewrite Hperm in Hnd. apply NoDup_cons in Hnd as [Hc _].
    split.
    + intros Hd. split; [rewrite Hperm; set_solver|]. by intros ->.
    + intros [Hd Hne]. rewrite Hperm in Hd. set_solver.
Qed.

Lemma Node_removeConstraint_swaps_witness :
  ∃ l n',
    last (Constraints NodeExamples.threeConstraints) = Some l ∧
    NodeOps.removeConstraint (Examples.cEqual 1 0 1)
      NodeExamples.threeConstraints = Some n' ∧
    wfNode n' ∧
    Constraints n' =
      pop_back (<[0 := l]> (Constraints NodeExamples.threeConstraints)) ∧
    ConstraintIndex n' =
      (if decide (l = Examples.cEqual 1 0 1)
       then delete (Examples.cEqual 1 0 1)
              (ConstraintIndex NodeExamples.threeConstraints)
       else <[l := 0]> (delete (Examples.cEqual 1 0 1)
                           (ConstraintIndex NodeExamples.threeConstraints))) ∧
    (∀ d, d ∈ Constraints n' ↔
          d ∈ Constraints NodeExamples.threeConstraints ∧
          d ≠ Examples.cEqual 1 0 1) ∧
    TypeVar n' = TypeVar NodeExamples.threeConstraints ∧
    Adjacencies n' = Adjacencies NodeExamples.threeConstraints ∧
    AdjacencyInfo n' = AdjacencyInfo NodeExamples.threeConstraints ∧
    EquivalenceClass n' = EquivalenceClass NodeExamples.threeConstraints.
Proof.
  apply (Node_removeConstraint_swaps (Examples.cEqual 1 0 1)
           NodeExamples.threeConstraints 0).
  - apply wfNode_threeConstraints.
  - done.
Defined.

Lemma addFixedBinding_prefix v n n' :
  NodeOps.addFixedBinding v n = Some n' →
  Adjacencies n `prefix_of` Adjacencies n'.
Proof.
  unfold NodeOps.addFixedBinding.
  destruct (NodeOps.getAdjacency v n) as [[a n1]|] eqn:Hg; [|done].
  simpl. destruct (FixedBinding a); [done|].
  intros [= <-]. simpl. by eapply getAdjacency_prefix.
Qed.

Lemma removeFixedBinding_prefix o m m' (A : list TypeVariableType) :
  wfNode m → NodeOps.removeFixedBinding o m = Some m' →
  A `prefix_of` Adjacencies m →
  (o ∈ A → (adjacencyOf m o).1 ≠ 0) →
  A `prefix_of` Adjacencies m'.
Proof.
  intros Hwf Hrem Hpre HA.
  pose proof (removeFixedBinding_Some_inv _ _ _ Hrem) as Hfx.
  unfold adjacencyOf in Hfx, HA.
  destruct (AdjacencyInfo m !! o) as [a|] eqn:Hslot; [|done].
  simpl in Hfx, HA.
  eapply (modifyAdjacency_prefix o _ m m' a
            (MkAdjacency (Index a) (NumConstraints a) false));
    [done|exact Hrem|done|by simpl; rewrite Hfx|done|done|].
  intros Hin. unfold Adjacency_empty. simpl.
  apply bool_decide_eq_false. by apply HA.
Qed.

(** X8: a node cannot be made adjacent to its own type variable, and
    [Node::removeAdjacency] refuses a type variable that no constraint
    links to the node.  On a well-formed node, [Node::addAdjacency]
    counts one more constraint towards the type variable, creating the
    adjacency at the end of the vector when there was none, and
    [Node::removeAdjacency] then gives back exactly the node there
    was. *)
Theorem Node_addAdjacency_removeAdjacency v n :
  wfNode n →
  NodeOps.addAdjacency (TypeVar n) n = None ∧
  ((adjacencyOf n v).1 = 0 → NodeOps.removeAdjacency v n = None) ∧
  (v ≠ TypeVar n →
   ∃ n1, NodeOps.addAdjacency v n = Some n1 ∧ wfNode n1 ∧
         adjacencyOf n1 v = (S (adjacencyOf n v).1, (adjacencyOf n v).2) ∧
         (∀ w, w ≠ v → adjacencyOf n1 w = adjacencyOf n w) ∧
         Adjacencies n `prefix_of` Adjacencies n1 ∧
         NodeOps.removeAdjacency v n1 = Some n).
Proof.
  intros Hwf. split_and!.
  - unfold NodeOps.addAdjacency, NodeOps.getAdjacency.
    by rewrite decide_True.
  - intros Hz. destruct (NodeOps.removeAdjacency v n) eqn:Hrem; [|done].
    apply removeAdjacency_Some_inv in Hrem as [k Hk]. lia.
  - intros Hv.
    destruct (addAdjacency_spec v n Hwf Hv)
      as (n1 & Hadd & Hwf1 & Hsame1 & Hv1 & Hw1).
    pose proof (addAdjacency_prefix _ _ _ Hadd) as Hpre1.
    exists n1. split_and!; [done..|].
    destruct (removeAdjacency_spec v n1 (adjacencyOf n v).1 Hwf1)
      as (n2 & Hrem & Hwf2 & Hsame2 & Hv2 & Hw2); [by rewrite Hv1|].
    rewrite Hrem. f_equal. apply wfNode_restored; try done.
    + by eapply sameButAdjacencies_trans.
    + eapply (removeAdjacency_prefix v n1 n2); [done..|].
      intros Hin. rewrite Hv1. intros [= Hz Hf].
      apply (indexed_elem_of _ _ _ (wf_adjacencies n Hwf)) in Hin
        as [i Hi].
      destruct (AdjacencyInfo n !! v) as [a|] eqn:Ha; [|done].
      pose proof (wf_nonempty n Hwf v a Ha) as Hne.
      rewrite (adjacencyOf_Some n v a Ha) in Hz, Hf. simpl in *.
      unfold Adjacency_empty in Hne. rewrite Hz, Hf in Hne. done.
    + intros w. destruct (decide (w = v)) as [->|Hne].
      * rewrite Hv2, Hv1. simpl. by destruct (adjacencyOf n v).
      * by rewrite Hw2, Hw1.
Qed.

Lemma Node_addAdjacency_removeAdjacency_witness :
  NodeOps.addAdjacency (TypeVar (newNode 0)) (newNode 0) = None ∧
  ((adjacencyOf (newNode 0) 1).1 = 0 →
   NodeOps.removeAdjacency 1 (newNode 0) = None) ∧
  (1 ≠ TypeVar (newNode 0) →
   ∃ n1, NodeOps.addAdjacency 1 (newNode 0) = Some n1 ∧ wfNode n1 ∧
         adjacencyOf n1 1 =
           (S (adjacencyOf (newNode 0) 1).1, (adjacencyOf (newNode 0) 1).2) ∧
         (∀ w, w ≠ 1 → adjacencyOf n1 w = adjacencyOf (newNode 0) w) ∧
         Adjacencies (newNode 0) `prefix_of` Adjacencies n1 ∧
         NodeOps.removeAdjacency 1 n1 = Some (newNode 0)).
Proof.
  apply (Node_addAdjacency_removeAdjacency 1 (newNode 0)).
  apply wfNode_newNode.
Defined.

(** X9: [Node::addFixedBinding] refuses a type variable that is already
    marked and [Node::removeFixedBinding] one that is not.  On a
    well-formed node, marking an unmarked type variable leaves the
    constraint counts alone, creating the adjacency at the end of the
    vector when there was none, and [Node::removeFixedBinding] then gives
    back exactly the node there was. *)
Theorem Node_addFixedBinding_removeFixedBinding v n :
  wfNode n →
  ((adjacencyOf n v).2 = true → NodeOps.addFixedBinding v n = None) ∧
  ((adjacencyOf n v).2 = false → NodeOps.removeFixedBinding v n = None) ∧
  (v ≠ TypeVar n → (adjacencyOf n v).2 = false →
   ∃ n1, NodeOps.addFixedBinding v n = Some n1 ∧ wfNode n1 ∧
         adjacencyOf n1 v = ((adjacencyOf n v).1, true) ∧
         (∀ w, w ≠ v → adjacencyOf n1 w = adjacencyOf n w) ∧
         Adjacencies n `prefix_of` Adjacencies n1 ∧
         NodeOps.removeFixedBinding v n1 = Some n).
Proof.
  intros Hwf. split_and!.
  - intros Hfx. destruct (NodeOps.addFixedBinding v n) eqn:Hadd; [|done].
    apply addFixedBinding_Some_inv in Hadd as [_ Hf]. congruence.
  - intros Hfx. destruct (NodeOps.removeFixedBinding v n) eqn:Hrem; [|done].
    apply removeFixedBinding_Some_inv in Hrem. congruence.
  - intros Hv Hfx.
    destruct (addFixedBinding_spec v n Hwf Hv Hfx)
      as (n1 & Hadd & Hwf1 & Hsame1 & Hv1 & Hw1).
    pose proof (addFixedBinding_prefix _ _ _ Hadd) as Hpre1.
    exists n1. split_and!; [done..|].
    destruct (removeFixedBinding_spec v n1 Hwf1)
      as (n2 & Hrem & Hwf2 & Hsame2 & Hv2 & Hw2); [by rewrite Hv1|].
    rewrite Hrem. f_equal. apply wfNode_restored; try done.
    + by eapply sameButAdjacencies_trans.
    + eapply (removeFixedBinding_prefix v n1 n2); [done..|].
      intros Hin. rewrite Hv1. simpl. intros Hz.
      apply (indexed_elem_of _ _ _ (wf_adjacencies n Hwf)) in Hin
        as [i Hi].
      destruct (AdjacencyInfo n !! v) as [a|] eqn:Ha; [|done].
      pose proof (wf_nonempty n Hwf v a Ha) as Hne.
      rewrite (adjacencyOf_Some n v a Ha) in Hz, Hfx. simpl in *.
      unfold Adjacency_empty in Hne. rewrite Hz, Hfx in Hne. done.
    + intros w. destruct (decide (w = v)) as [->|Hne].
      * rewrite Hv2, Hv1. simpl. rewrite <- Hfx.
        by destruct (adjacencyOf n v).
      * by rewrite Hw2, Hw1.
Qed.

Lemma Node_addFixedBinding_removeFixedBinding_witness :
  ((adjacencyOf (newNode 0) 1).2 = true →
   NodeOps.addFixedBinding 1 (newNode 0) = None) ∧
  ((adjacencyOf (newNode 0) 1).2 = false →
   NodeOps.removeFixedBinding 1 (newNode 0) = None) ∧
  (1 ≠ TypeVar (newNode 0) → (adjacencyOf (newNode 0) 1).2 = false →
   ∃ n1, NodeOps.addFixedBinding 1 (newNode 0) = Some n1 ∧ wfNode n1 ∧
         adjacencyOf n1 1 = ((adjacencyOf (newNode 0) 1).1, true) ∧
         (∀ w, w ≠ 1 → adjacencyOf n1 w = adjacencyOf (newNode 0) w) ∧
         Adjacencies (newNode 0) `prefix_of` Adjacencies n1 ∧
         NodeOps.removeFixedBinding 1 n1 = Some (newNode 0)).
Proof.
  apply (Node_addFixedBinding_removeFixedBinding 1 (newNode 0)).
  apply wfNode_newNode.
Defined.

(** ** What the mutations keep *)

Global Instance framed_preorder : PreOrder framed.
Proof.
  split.
  - intros g. split; try done. intros v s Hs. eauto.
  - intros g1 g2 g3 [H1 H2 H3 H4 H5 H6] [K1 K2 K3 K4 K5 K6].
    split.
    + congruence.
    + by etrans.
    + intros Hn. rewrite K3, H3; [done..|congruence].
    + by etrans.
    + intros v s Hs. destruct (H5 v s Hs) as (s' & Hs' & Hi).
      destruct (K5 v s' Hs') as (s'' & Hs'' & Hi'). exists s''.
      split; [done|congruence].
    + auto.
Qed.

Lemma framed_withNode {A} tv (f : Node → option (A * Node)) :
  preserves framed (withNode tv f).
Proof.
  intros g a g' (s & a' & n' & Hs & Hfn & [= -> ->])%withNode_Ok.
  split; simpl; try done.
  - intros v s0 Hs0. destruct (decide (tv = v)) as [<-|Hne].
    + rewrite lookup_insert_eq. eexists. split; [done|]. by simplify_eq.
    + rewrite lookup_insert_ne by done. eauto.
  - intros [Hlen Hall]. split; simpl.
    + rewrite map_size_insert_Some; [done|eauto].
    + intros v s0. destruct (decide (tv = v)) as [<-|Hne].
      * rewrite lookup_insert_eq. intros [= <-]. simpl. by apply (Hall tv s).
      * rewrite lookup_insert_ne by done. apply Hall.
Qed.

Lemma framed_modifyNode tv (f : Node → option Node) :
  preserves framed (modifyNode tv f).
Proof. apply framed_withNode. Qed.

Lemma framed_recordChange ch : preserves framed (recordChange ch).
Proof.
  intros g a g'. unfold recordChange.
  destruct (ActiveScope g) eqn:Hsc; intros ?; simplify_eq; [|done].
  split; simpl; try done.
  - by apply prefix_app_r.
  - congruence.
  - intros v s Hs. eauto.
Qed.

Lemma framed_newNode v g :
  Nodes g !! v = None →
  framed g
    (MkGraph
       (<[v := MkStoredNode (newNode v) (length (TypeVariables g))]>
          (Nodes g))
       (TypeVariables g ++ [v]) (Changes g) (ActiveScope g)).
Proof.
  intros Hv. split; simpl; try done.
  - by apply prefix_app_r.
  - intros w s Hs. destruct (decide (v = w)) as [<-|Hne]; [congruence|].
    rewrite lookup_insert_ne by done. eauto.
  - intros [Hlen Hall]. split; simpl.
    + rewrite map_size_insert_None by done. rewrite length_app. simpl. lia.
    + intros w s. destruct (decide (v = w)) as [<-|Hne].
      * rewrite lookup_insert_eq. intros [= <-]. simpl.
        rewrite lookup_app_r, Nat.sub_diag by lia. done.
      * rewrite lookup_insert_ne by done. intros Hs.
        pose proof (Hall w s Hs) as Hp. simpl in Hp.
        rewrite lookup_app_l; [done|]. by eapply lookup_lt_Some.
Qed.

Section FramedLookup.
Variable CS : ConstraintSystem.

Lemma framed_mergeNodesWith lookup v1 v2 :
  (∀ v, preserves framed (lookup v)) →
  preserves framed (mergeNodesWith CS lookup v1 v2).
Proof.
  intros Hl. unfold mergeNodesWith. case_decide; [|apply preserves_abort].
  apply preserves_bind; [apply _|apply Hl|]. intros _.
  case_decide; [|apply preserves_abort].
  apply preserves_bind; [apply _| |].
  { intros g a g'. destruct (ActiveScope g); [|intros ?; by simplify_eq].
    revert g a g'. apply preserves_bind; [apply _| |].
    - apply framed_withNode.
    - intros cls. apply framed_recordChange. }
  intros _. apply preserves_bind; [apply _|apply Hl|]. intros _.
  apply preserves_bind; [apply _|apply framed_withNode|].
  intros cls. apply framed_modifyNode.
Qed.

Lemma framed_bindLoop lookup v known tvs :
  (∀ v, preserves framed (lookup v)) →
  preserves framed (bindLoop lookup v known tvs).
Proof.
  intros Hl. revert known. induction tvs as [|o tvs IH]; intros known; simpl.
  - apply preserves_ret, _.
  - case_decide; [apply IH|].
    apply preserves_bind; [apply _|apply Hl|]. intros _.
    apply preserves_bind; [apply _|apply framed_modifyNode|].
    intros _. apply preserves_bind; [apply _|apply framed_modifyNode|].
    intros _. apply IH.
Qed.

Lemma framed_bindTypeVariableWith lookup v fixed :
  (∀ v, preserves framed (lookup v)) →
  preserves framed (bindTypeVariableWith lookup v fixed).
Proof.
  intros Hl. unfold bindTypeVariableWith.
  destruct (hasTypeVariable fixed); [|apply preserves_ret, _].
  apply preserves_bind; [apply _|apply Hl|]. intros _.
  apply preserves_bind; [apply _|by apply framed_bindLoop|]. intros _.
  apply framed_recordChange.
Qed.

Lemma framed_lookupNode fuel v : preserves framed (lookupNode CS fuel v).
Proof.
  revert v. induction fuel as [|fuel IH]; intros v g a g'; simpl.
  - destruct (Nodes g !! v); [|done]. intros ?. by simplify_eq.
  - destruct (Nodes g !! v) eqn:Hv; [intros ?; by simplify_eq|].
    intros Hrun.
    etrans; [by apply framed_newNode|].
    eapply preserves_bind; [apply _|..]; [| |exact Hrun].
    + apply framed_recordChange.
    + intros ?. apply preserves_bind; [apply _| |].
      * case_decide.
        -- destruct (getFixedType CS _); [|apply preserves_ret, _].
           by apply framed_bindTypeVariableWith.
        -- by apply framed_mergeNodesWith.
      * intros ?. apply framed_withNode.
Qed.

Lemma framed_addConstraint fuel c : preserves framed (addConstraint CS fuel c).
Proof.
  unfold addConstraint.
  apply preserves_bind; [apply _| |intros _; apply framed_recordChange].
  apply preserves_forEach; [apply _|]. intros tv _.
  apply preserves_bind; [apply _|apply framed_lookupNode|]. intros _.
  apply preserves_bind; [apply _|apply framed_modifyNode|]. intros _.
  apply preserves_forEach; [apply _|]. intros o _.
  case_decide; [apply preserves_ret, _|apply framed_modifyNode].
Qed.

Lemma framed_removeConstraint fuel c :
  preserves framed (removeConstraint CS fuel c).
Proof.
  unfold removeConstraint.
  apply preserves_bind; [apply _| |intros _; apply framed_recordChange].
  apply preserves_forEach; [apply _|]. intros tv _.
  apply preserves_bind; [apply _|apply framed_lookupNode|]. intros _.
  apply preserves_bind; [apply _|apply framed_modifyNode|]. intros _.
  apply preserves_forEach; [apply _|]. intros o _.
  case_decide; [apply preserves_ret, _|apply framed_modifyNode].
Qed.

End FramedLookup.

Lemma framed_mutate call : preserves framed (mutate call).
Proof.
  destruct call as [[CS fuel] []]; simpl.
  - apply framed_addConstraint.
  - apply framed_removeConstraint.
  - apply framed_mergeNodesWith, framed_lookupNode.
  - apply framed_bindTypeVariableWith, framed_lookupNode.
  - apply preserves_bind; [apply _|apply framed_lookupNode|].
    intros _. apply preserves_ret, _.
Qed.

(** X10: what no sequence of mutations ([addConstraint],
    [removeConstraint], [mergeNodes], [bindTypeVariable], [lookupNode])
    does: it never changes the active scope, never drops or rewrites a
    recorded change, records nothing at all when no scope is active,
    never removes or reorders the type variables of the vector, never
    removes a node or moves its index; and when the node map and the
    vector of type variables are in sync before, they are in sync
    after. *)
Theorem mutateAll_frame calls g g' :
  mutateAll calls g = Ok (tt, g') →
  ActiveScope g' = ActiveScope g ∧
  Changes g `prefix_of` Changes g' ∧
  (ActiveScope g = None → Changes g' = Changes g) ∧
  TypeVariables g `prefix_of` TypeVariables g' ∧
  (∀ v s, Nodes g !! v = Some s →
     ∃ s', Nodes g' !! v = Some s' ∧ NodeIndex s' = NodeIndex s) ∧
  (registryAgrees g → registryAgrees g').
Proof.
  intros Hrun.
  assert (framed g g') as [].
  { eapply (preserves_forEach framed calls mutate); [|exact Hrun].
    intros call _. apply framed_mutate. }
  done.
Qed.

Lemma mutateAll_frame_witness :
  ActiveScope Rollback.mutated = ActiveScope Examples.g01scoped ∧
  Changes Examples.g01scoped `prefix_of` Changes Rollback.mutated ∧
  (ActiveScope Examples.g01scoped = None →
   Changes Rollback.mutated = Changes Examples.g01scoped) ∧
  TypeVariables Examples.g01scoped `prefix_of`
    TypeVariables Rollback.mutated ∧
  (∀ v s, Nodes Examples.g01scoped !! v = Some s →
     ∃ s', Nodes Rollback.mutated !! v = Some s' ∧
           NodeIndex s' = NodeIndex s) ∧
  (registryAgrees Examples.g01scoped → registryAgrees Rollback.mutated).
Proof.
  apply (mutateAll_frame Rollback.calls). by vm_compute.
Defined.

Global Instance wfKept_preorder : PreOrder wfKept.
Proof.
  split; [intros g H; exact H|].
  intros g1 g2 g3 H1 H2 H. apply H2, H1, H.
Qed.

Lemma wfKept_grows g g' : grows g g' → wfKept g g'.
Proof.
  intros Hg Hwf v s' Hs'.
  destruct (Nodes g !! v) as [s|] eqn:Hs.
  - destruct (grows_nodes _ _ Hg v s Hs) as (s'' & Hs'' & _ & Ht & _ & _ & Hk).
    simplify_eq. destruct (Hwf v s Hs) as [Hw Htv].
    split; [by apply Hk|congruence].
  - destruct (grows_new _ _ Hg v s' Hs Hs') as (Ht & _ & _ & Hk).
    split; [apply Hk, wfNode_newNode|done].
Qed.

Lemma wfKept_modifyNode tv (f : Node → option Node) :
  (∀ n n', wfNode n → f n = Some n' → wfNode n' ∧ TypeVar n' = TypeVar n) →
  preserves wfKept (modifyNode tv f).
Proof.
  intros Hf g a g' Hrun Hwf.
  apply modifyNode_Ok in Hrun as (s & n1 & Hs & Hf1 & Heq).
  injection Heq as -> ->.
  intros v s'. simpl. destruct (decide (tv = v)) as [<-|Hne].
  - rewrite lookup_insert_eq. intros [= <-]. simpl.
    destruct (Hwf tv s Hs) as [Hw Htv].
    destruct (Hf _ _ Hw Hf1) as [Hw' Htv']. split; [done|congruence].
  - rewrite lookup_insert_ne by done. apply Hwf.
Qed.

Lemma wfKept_recordChange ch : preserves wfKept (recordChange ch).
Proof.
  intros g a g'. unfold recordChange.
  destruct (ActiveScope g); intros ? Hwf; by simplify_eq.
Qed.

Lemma sameButAdjacencies_TypeVar n n' :
  sameButAdjacencies n n' → TypeVar n' = TypeVar n.
Proof. by intros (? & _). Qed.

Section WfKeptRounds.
Variable CS : ConstraintSystem.

Lemma wfKept_addConstraint fuel c : preserves wfKept (addConstraint CS fuel c).
Proof.
  unfold addConstraint.
  apply preserves_bind; [apply _| |intros _; apply wfKept_recordChange].
  apply preserves_forEach; [apply _|]. intros tv _.
  apply preserves_bind; [apply _| |].
  { intros g a g' Hrun. eapply wfKept_grows, grows_lookupNode, Hrun. }
  intros _. apply preserves_bind; [apply _| |].
  { apply wfKept_modifyNode. intros n n' Hwf Hadd.
    split; [by eapply addConstraint_wf|].
    by apply addConstraint_Some in Hadd as [_ ->]. }
  intros _. apply preserves_forEach; [apply _|]. intros o _.
  case_decide; [apply preserves_ret, _|].
  apply wfKept_modifyNode. intros n n' Hwf Hadd.
  destruct (addAdjacency_spec o n Hwf (addAdjacency_Some_ne _ _ _ Hadd))
    as (n1 & Hadd' & Hwf1 & Hsame & _).
  simplify_eq. split; [done|by apply sameButAdjacencies_TypeVar].
Qed.

Lemma wfKept_removeConstraint fuel c :
  preserves wfKept (removeConstraint CS fuel c).
Proof.
  unfold removeConstraint.
  apply preserves_bind; [apply _| |intros _; apply wfKept_recordChange].
  apply preserves_forEach; [apply _|]. intros tv _.
  apply preserves_bind; [apply _| |].
  { intros g a g' Hrun. eapply wfKept_grows, grows_lookupNode, Hrun. }
  intros _. apply preserves_bind; [apply _| |].
  { apply wfKept_modifyNode. intros n n' Hwf Hrem.
    destruct (removeConstraint_spec c n Hwf
                (removeConstraint_Some_elem_of _ _ _ Hwf Hrem))
      as (n1 & Hrem' & Hwf1 & _ & Ht & _).
    by simplify_eq. }
  intros _. apply preserves_forEach; [apply _|]. intros o _.
  case_decide; [apply preserves_ret, _|].
  apply wfKept_modifyNode. intros n n' Hwf Hrem.
  destruct (removeAdjacency_Some_inv _ _ _ Hrem) as [k Hk].
  destruct (removeAdjacency_spec o n k Hwf Hk)
    as (n1 & Hrem' & Hwf1 & Hsame & _).
  simplify_eq. split; [done|by apply sameButAdjacencies_TypeVar].
Qed.

End WfKeptRounds.

Lemma wfKept_mutate call : preserves wfKept (mutate call).
Proof.
  destruct call as [[CS fuel] []]; simpl.
  - apply wfKept_addConstraint.
  - apply wfKept_removeConstraint.
  - intros g a g' Hrun. eapply wfKept_grows, grows_mergeNodes, Hrun.
  - intros g a g' Hrun. eapply wfKept_grows, grows_bindTypeVariable, Hrun.
  - apply preserves_bind; [apply _| |intros _; apply preserves_ret, _].
    intros g a g' Hrun. eapply wfKept_grows, grows_lookupNode, Hrun.
Qed.

(** X11: the mutations keep what the verifier checks of every node,
    whether a scope is active or not: when every node of the graph has
    its constraint vector and its adjacency vector in sync with their
    index maps, holds no empty adjacency and is stored under its own type
    variable, the same is true after any sequence of [addConstraint],
    [removeConstraint], [mergeNodes], [bindTypeVariable] and
    [lookupNode] calls that returns, of the nodes there were and of the
    nodes created. *)
Theorem mutateAll_wfGraph calls g g' :
  wfGraph g → mutateAll calls g = Ok (tt, g') → wfGraph g'.
Proof.
  intros Hwf Hrun.
  eapply (preserves_forEach wfKept calls mutate); [|exact Hrun|exact Hwf].
  intros call _. apply wfKept_mutate.
Qed.

Lemma mutateAll_wfGraph_witness : wfGraph Rollback.mutated.
Proof.
  apply (mutateAll_wfGraph Rollback.calls Examples.g01scoped).
  - intros v s Hs. apply (wfGraph_g01 v s). exact Hs.
  - by vm_compute.
Defined.

(** ** Constraints added twice, or removed without having been added *)

Lemma rounds_rejects CS fuel (F : TypeVariableType → Node → option Node)
    (P : Node → Prop) R v :
  (∀ n n', P n → nodeKept n n' → P n') →
  (∀ n, P n → F v n = None) →
  v ∈ R →
  ∀ g s r, Nodes g !! v = Some s → P (NodePtr s) →
    forEach R (λ tv, bind (lookupNode CS fuel tv)
                       (λ _, modifyNode tv (F tv))) g ≠ Ok r.
Proof.
  intros Hstable Hrej. induction R as [|tv R IH]; intros Hv g s r Hs HP;
    [set_solver|].
  simpl. intros Hrun.
  apply bind_Ok in Hrun as ([] & g2 & Hround & Hrest).
  apply bind_Ok in Hround as (a & g1 & Hlook & Hmod).
  destruct (grows_nodes _ _ (grows_lookupNode CS fuel tv _ _ _ Hlook) v s Hs)
    as (s1 & Hs1 & _ & Hk).
  pose proof (Hstable _ _ HP Hk) as HP1.
  apply modifyNode_Ok in Hmod as (st & n' & Hst & Hf & Heq).
  destruct (decide (tv = v)) as [->|Hne].
  - simplify_eq. rewrite (Hrej _ HP1) in Hf. done.
  - injection Heq as ->.
    assert (v ∈ R) as HvR by set_solver.
    eapply (IH HvR _ s1 r); [|done|exact Hrest].
    simpl. by rewrite lookup_insert_ne.
Qed.

(** X12: [addConstraint] never returns when the node of one of the type
    variables the constraint references already holds the constraint,
    and [removeConstraint] never returns when the node of one of them
    does not hold it: the assertions of [Node::addConstraint] and
    [Node::removeConstraint] stop the call, whatever nodes were visited
    or created before. *)
Theorem addConstraint_rejects_tracked CS fuel c g v s :
  v ∈ gatherReferencedTypeVars c → Nodes g !! v = Some s →
  (is_Some (ConstraintIndex (NodePtr s) !! c) →
   ∀ r, addConstraint CS fuel c g ≠ Ok r) ∧
  (ConstraintIndex (NodePtr s) !! c = None →
   ∀ r, removeConstraint CS fuel c g ≠ Ok r).
Proof.
  intros Hv Hs. split.
  - intros Hin r Hrun. rewrite addConstraint_per_node in Hrun.
    apply bind_Ok in Hrun as ([] & g1 & Hloop & _).
    eapply (rounds_rejects CS fuel _
              (λ n, is_Some (ConstraintIndex n !! c)));
      [| |exact Hv|exact Hs|exact Hin|exact Hloop].
    + intros n n' HP (_ & _ & Hi & _). by rewrite Hi.
    + intros n [i Hi]. unfold nodeAddConstraint, NodeOps.addConstraint.
      by rewrite Hi.
  - intros Hout r Hrun. rewrite removeConstraint_per_node in Hrun.
    apply bind_Ok in Hrun as ([] & g1 & Hloop & _).
    eapply (rounds_rejects CS fuel _
              (λ n, ConstraintIndex n !! c = None));
      [| |exact Hv|exact Hs|exact Hout|exact Hloop].
    + intros n n' HP (_ & _ & Hi & _). by rewrite Hi.
    + intros n Hi. unfold nodeRemoveConstraint, NodeOps.removeConstraint.
      by rewrite Hi.
Qed.

Lemma addConstraint_rejects_tracked_witness :
  (is_Some (ConstraintIndex (NodePtr Scenario.node1)
              !! Examples.cEqual 1 0 1) →
   ∀ r, addConstraint Examples.csFree 1 (Examples.cEqual 1 0 1)
          Scenario.graph ≠ Ok r) ∧
  (ConstraintIndex (NodePtr Scenario.node1) !! Examples.cEqual 1 0 1
     = None →
   ∀ r, removeConstraint Examples.csFree 1 (Examples.cEqual 1 0 1)
          Scenario.graph ≠ Ok r).
Proof.
  apply (addConstraint_rejects_tracked Examples.csFree 1
           (Examples.cEqual 1 0 1) Scenario.graph 1 Scenario.node1).
  - by vm_compute; set_solver.
  - by vm_compute.
Defined.

(** ** The verifier of a node *)

Lemma require_Some (P : Prop) `{Decision P} :
  NodeVerify.require P = Some tt ↔ P.
Proof. unfold NodeVerify.require. case_decide; naive_solver. Qed.

Lemma requireEach_Some {A} (l : list A) (check : A → option unit) :
  NodeVerify.requireEach l check = Some tt ↔
  Forall (λ x, check x = Some tt) l.
Proof.
  induction l as [|x l IH]; simpl; [by split|].
  rewrite Forall_cons, <- IH.
  destruct (check x) as [[]|]; simpl; naive_solver.
Qed.

Lemma requireEach_map `{Countable K} {V} (m : gmap K V)
    (check : K * V → option unit) :
  NodeVerify.requireEach (map_to_list m) check = Some tt ↔
  ∀ k v, m !! k = Some v → check (k, v) = Some tt.
Proof.
  rewrite requireEach_Some, Forall_forall. split.
  - intros Hall k v Hk. apply (Hall (k, v)). by apply elem_of_map_to_list.
  - intros Hall [k v] Hk%elem_of_map_to_list. by apply Hall.
Qed.

Lemma bind_unit_Some (m k : option unit) :
  (_ ← m; k) = Some tt ↔ m = Some tt ∧ k = Some tt.
Proof. destruct m as [[]|]; simpl; naive_solver. Qed.

(** A vector and its index map are in sync, as the verifier checks it,
    exactly when they describe each other. *)
Lemma indexed_iff_synced `{Countable K} (idx : gmap K nat) (l : list K) :
  indexed (λ k, idx !! k) l ↔
  length l = size idx ∧
  ∀ k i, idx !! k = Some i → i < length l ∧ l !! i = Some k.
Proof.
  set (L := map_to_list idx).
  split.
  - intros Hidx.
    assert (∀ k i, idx !! k = Some i → i < length l ∧ l !! i = Some k) as Hall.
    { intros k i Hk. apply Hidx in Hk. split; [|done].
      by eapply lookup_lt_Some. }
    split; [|done].
    assert (snd <$> L ≡ₚ seq 0 (length l)) as Hperm.
    { apply NoDup_Permutation.
      - apply NoDup_fmap_2_strong; [|apply NoDup_map_to_list].
        intros [k1 i1] [k2 i2] H1%elem_of_map_to_list
          H2%elem_of_map_to_list Heq. simpl in Heq. subst i2.
        apply Hidx in H1, H2. congruence.
      - apply NoDup_seq.
      - intros i. rewrite elem_of_seq, list_elem_of_fmap. split.
        + intros ([k i'] & -> & Hk%elem_of_map_to_list). simpl.
          apply Hall in Hk. lia.
        + intros [_ Hi]. simpl in Hi.
          destruct (lookup_lt_is_Some_2 l i Hi) as [k Hk].
          exists (k, i). split; [done|].
          apply elem_of_map_to_list. by apply Hidx. }
    apply Permutation_length in Hperm.
    rewrite length_fmap, length_seq in Hperm. unfold L in Hperm.
    by rewrite length_map_to_list in Hperm.
  - intros [Hlen Hall] k i. split; [intros Hk; by apply Hall|].
    intros Hi.
    assert (NoDup (snd <$> L)) as Hnd.
    { apply NoDup_fmap_2_strong; [|apply NoDup_map_to_list].
      intros [k1 i1] [k2 i2] H1%elem_of_map_to_list
        H2%elem_of_map_to_list Heq. simpl in Heq. subst i2.
      apply Hall in H1 as [_ H1], H2 as [_ H2]. congruence. }
    assert (snd <$> L ≡ₚ seq 0 (length l)) as Hperm.
    { apply submseteq_length_Permutation.
      - apply NoDup_submseteq; [done|]. intros j Hj.
        apply list_elem_of_fmap in Hj as ([k' j'] & -> & Hk).
        apply elem_of_map_to_list in Hk. simpl.
        apply elem_of_seq. apply Hall in Hk. lia.
      - rewrite length_seq, length_fmap. unfold L.
        rewrite length_map_to_list. lia. }
    assert (i ∈ snd <$> L) as Hin.
    { rewrite Hperm. apply elem_of_seq. apply lookup_lt_Some in Hi. lia. }
    apply list_elem_of_fmap in Hin as ([k' i'] & Heq & Hk).
    apply elem_of_map_to_list in Hk. simpl in Heq. subst i'.
    pose proof (Hall _ _ Hk) as [_ Hl]. congruence.
Qed.

Lemma expectedAdjacencies_step tv (R : list TypeVariableType)
    (e : gmap TypeVariableType nat) w :
  NoDup R →
  foldl (λ expected adjTypeVar,
           if decide (adjTypeVar = tv) then expected
           else <[adjTypeVar := S (default 0 (expected !! adjTypeVar))]>
                  expected) e R !! w =
  if decide (w ∈ R ∧ w ≠ tv) then Some (S (default 0 (e !! w)))
  else e !! w.
Proof.
  intros Hnd. revert e.
  induction Hnd as [|o R Ho Hnd IH]; intros e; cbn [foldl].
  - case_decide; [exfalso; set_solver|done].
  - rewrite IH. destruct (decide (o = tv)) as [->|Hotv].
    + do 2 case_decide; [done|exfalso; set_solver..|done].
    + destruct (decide (w = o)) as [->|Hwo].
      * rewrite lookup_insert_eq.
        do 2 case_decide; [exfalso; set_solver..|done|exfalso; set_solver].
      * rewrite lookup_insert_ne by done.
        do 2 case_decide; [done|exfalso; set_solver..|done].
Qed.

Lemma expectedAdjacencies_spec n w :
  NodeVerify.expectedAdjacencies n !! w =
  if decide (w ≠ TypeVar n ∧ 0 < linkedBy n w) then Some (linkedBy n w)
  else None.
Proof.
  unfold NodeVerify.expectedAdjacencies, linkedBy.
  induction (Constraints n) as [|c l IH] using rev_ind; simpl.
  - rewrite lookup_empty, decide_False; [done|]. simpl. lia.
  - rewrite foldl_app. simpl.
    rewrite expectedAdjacencies_step by apply gatherReferencedTypeVars_NoDup.
    rewrite IH, filter_app, length_app. clear IH.
    set (k := length (filter _ l)).
    rewrite filter_cons, filter_nil.
    destruct (decide (w ∈ gatherReferencedTypeVars c)) as [Hin|Hout];
      simpl; repeat case_decide; simpl;
      first [done | f_equal; lia | exfalso; naive_solver lia].
Qed.

(** The requirements of [Node::verify], one by one. *)
Lemma verify_requirements n :
  NodeVerify.verify n = Some tt ↔
  length (Constraints n) = size (ConstraintIndex n) ∧
  (∀ k v, ConstraintIndex n !! k = Some v →
     v < length (Constraints n) ∧ Constraints n !! v = Some k) ∧
  length (Adjacencies n) = size (AdjacencyInfo n) ∧
  (∀ k v, AdjacencyInfo n !! k = Some v →
     Index v < length (Adjacencies n) ∧ Adjacencies n !! Index v = Some k ∧
     Adjacency_empty v = false ∧
     NumConstraints v ≤ length (Constraints n)) ∧
  (∀ k v, NodeVerify.expectedAdjacencies n !! k = Some v →
     ∃ knownAdj, AdjacencyInfo n !! k = Some knownAdj ∧
                 v = NumConstraints knownAdj).
Proof.
  unfold NodeVerify.verify.
  rewrite !bind_unit_Some.
  rewrite !require_Some.
  rewrite !requireEach_map.
  set (last_loop := if decide _ then _ else _).
  assert (last_loop = Some tt) as ->.
  { unfold last_loop. case_decide; [|done].
    apply (proj2 (requireEach_Some _ _)), Forall_forall.
    intros [k v] Hk%elem_of_map_to_list. simpl. rewrite Hk.
    apply (proj2 (require_Some _)). lia. }
  assert (∀ (k : TypeVariableType) (v : Adjacency),
    NodeVerify.require (Index (k, v).2 < length (Adjacencies n))
    ≫= (λ _, NodeVerify.require
               (Adjacencies n !! Index (k, v).2 = Some (k, v).1)
       ≫= λ _, NodeVerify.require (Adjacency_empty (k, v).2 = false)
       ≫= λ _, NodeVerify.require
                 (NumConstraints (k, v).2 ≤ length (Constraints n))) =
    Some tt ↔
    Index v < length (Adjacencies n) ∧ Adjacencies n !! Index v = Some k ∧
    Adjacency_empty v = false ∧
    NumConstraints v ≤ length (Constraints n)) as Hadj.
  { intros k v. by rewrite !bind_unit_Some, !require_Some. }
  assert (∀ (k : Constraint) (v : nat),
    NodeVerify.require ((k, v).2 < length (Constraints n))
    ≫= (λ _, NodeVerify.require
               (Constraints n !! (k, v).2 = Some (k, v).1)) = Some tt ↔
    v < length (Constraints n) ∧ Constraints n !! v = Some k) as Hcon.
  { intros k v. by rewrite !bind_unit_Some, !require_Some. }
  assert (∀ (k : TypeVariableType) (v : nat),
    AdjacencyInfo n !! (k, v).1
    ≫= (λ knownAdj, NodeVerify.require ((k, v).2 = NumConstraints knownAdj))
      = Some tt ↔
    ∃ knownAdj, AdjacencyInfo n !! k = Some knownAdj ∧
                v = NumConstraints knownAdj) as Hexp.
  { intros k v. simpl. destruct (AdjacencyInfo n !! k) as [a|]; simpl.
    - rewrite require_Some. naive_solver.
    - naive_solver. }
  setoid_rewrite Hadj. setoid_rewrite Hcon. setoid_rewrite Hexp.
  tauto.
Qed.

(** What is enough for [Node::verify] to pass. *)
Lemma verify_passes n :
  wfNode n →
  (∀ v a, AdjacencyInfo n !! v = Some a →
          NumConstraints a ≤ length (Constraints n)) →
  (∀ w, w ≠ TypeVar n → 0 < linkedBy n w →
        (adjacencyOf n w).1 = linkedBy n w) →
  NodeVerify.verify n = Some tt.
Proof.
  intros [Hc Ha He] Hdeg Hexp. apply verify_requirements.
  apply indexed_iff_synced in Hc as [Hlen Hci].
  assert (indexed (λ k, (Index <$> AdjacencyInfo n) !! k) (Adjacencies n))
    as Ha'.
  { intros k i. rewrite lookup_fmap. apply Ha. }
  apply indexed_iff_synced in Ha' as [Hlen' Hai].
  rewrite map_size_fmap in Hlen'.
  split_and!; try done.
  - intros k v Hk.
    destruct (Hai k (Index v)) as [? ?]; [by rewrite lookup_fmap, Hk|].
    split_and!; [done..|by eapply He|by eapply Hdeg].
  - intros k v Hk. rewrite expectedAdjacencies_spec in Hk.
    case_decide as Hd; [|done]. destruct Hd as [Hne Hpos].
    injection Hk as <-.
    specialize (Hexp k Hne Hpos). unfold adjacencyOf in Hexp.
    destruct (AdjacencyInfo n !! k) as [a|]; simpl in *; [|lia].
    eauto.
Qed.

(** X13: [Node::verify] accepts exactly the nodes whose constraint
    vector and adjacency vector describe the same positions as their
    index maps, that hold no empty adjacency and no adjacency counting
    more constraints than the node has, and whose adjacency towards
    every type variable referenced by some of their constraints counts
    exactly the constraints that reference it.  It asks nothing of an
    adjacency towards a type variable that no constraint of the node
    references: the last loop, which looks for such adjacencies, states
    a requirement that cannot fail. *)
Theorem Node_verify_accepts n :
  NodeVerify.verify n = Some tt ↔
  wfNode n ∧
  (∀ v a, AdjacencyInfo n !! v = Some a →
          NumConstraints a ≤ length (Constraints n)) ∧
  (∀ w, w ≠ TypeVar n → 0 < linkedBy n w →
        (adjacencyOf n w).1 = linkedBy n w).
Proof.
  split; [|intros (Hwf & Hdeg & Hexp); by apply verify_passes].
  intros (Hlen & Hci & Hlen' & Hai & Hexp)%verify_requirements.
  split_and!.
  - split.
    + apply indexed_iff_synced. by split.
    + intros k i. rewrite <- lookup_fmap.
      apply (indexed_iff_synced (Index <$> AdjacencyInfo n)).
      split; [by rewrite map_size_fmap|].
      intros k' i'. rewrite lookup_fmap.
      destruct (AdjacencyInfo n !! k') as [a|] eqn:Ha; [|done].
      intros [= <-]. destruct (Hai k' a Ha) as (? & ? & _). done.
    + intros v a Ha. by destruct (Hai v a Ha) as (_ & _ & ? & _).
  - intros v a Ha. by destruct (Hai v a Ha) as (_ & _ & _ & ?).
  - intros w Hw Hpos.
    destruct (Hexp w (linkedBy n w)) as (a & Ha & Hcnt).
    { by rewrite expectedAdjacencies_spec, decide_True. }
    by rewrite (adjacencyOf_Some n w a Ha).
Qed.

Global Instance consKept_preorder : PreOrder consKept.
Proof.
  split; [intros g H; exact H|].
  intros g1 g2 g3 H1 H2 H. apply H2, H1, H.
Qed.

Lemma nodeConsistent_newNode v : nodeConsistent (newNode v).
Proof.
  split; [apply wfNode_newNode|]. intros w. unfold linkedBy. simpl.
  by case_decide.
Qed.

Lemma nodeConsistent_kept n n' :
  nodeKept n n' → nodeConsistent n → nodeConsistent n'.
Proof.
  intros (Ht & Hc & _ & Hk) [Hwf Hcnt]. destruct (Hk Hwf) as [Hwf' Hadj].
  split; [done|]. intros w. rewrite Hadj, Hcnt, Ht. unfold linkedBy.
  by rewrite Hc.
Qed.

Lemma consKept_grows g g' : grows g g' → consKept g g'.
Proof.
  intros Hg Hcons v s' Hs'.
  destruct (Nodes g !! v) as [s|] eqn:Hs.
  - destruct (grows_nodes _ _ Hg v s Hs) as (s'' & Hs'' & _ & Hk).
    simplify_eq. destruct (Hcons v s Hs) as [Hn Htv].
    split; [by eapply nodeConsistent_kept|].
    destruct Hk as (-> & _). done.
  - pose proof (grows_new _ _ Hg v s' Hs Hs') as Hk.
    split; [eapply nodeConsistent_kept; [done|apply nodeConsistent_newNode]|].
    by destruct Hk as (-> & _).
Qed.

Lemma consKept_modifyNode tv (f : Node → option Node) :
  (∀ n n', nodeConsistent n → TypeVar n = tv → f n = Some n' →
           nodeConsistent n' ∧ TypeVar n' = tv) →
  preserves consKept (modifyNode tv f).
Proof.
  intros Hf g a g' Hrun Hcons.
  apply modifyNode_Ok in Hrun as (s & n1 & Hs & Hf1 & Heq).
  injection Heq as -> ->.
  intros v s'. simpl. destruct (decide (tv = v)) as [<-|Hne].
  - rewrite lookup_insert_eq. intros [= <-]. simpl.
    destruct (Hcons tv s Hs) as [Hn Htv]. by eapply Hf.
  - rewrite lookup_insert_ne by done. apply Hcons.
Qed.

Lemma consKept_recordChange ch : preserves consKept (recordChange ch).
Proof.
  intros g a g'. unfold recordChange.
  destruct (ActiveScope g); intros ? Hc; by simplify_eq.
Qed.

Lemma linkedBy_snoc n n' c w :
  Constraints n' ≡ₚ c :: Constraints n →
  linkedBy n' w =
    (if decide (w ∈ gatherReferencedTypeVars c) then 1 else 0) +
    linkedBy n w.
Proof.
  intros Hperm. unfold linkedBy. rewrite Hperm, filter_cons.
  by case_decide.
Qed.

Lemma nodeConsistent_add c tv n n' :
  nodeConsistent n → TypeVar n = tv →
  nodeAddConstraint c (gatherReferencedTypeVars c) tv n = Some n' →
  nodeConsistent n' ∧ TypeVar n' = tv.
Proof.
  intros [Hwf Hcnt] Htv Hadd.
  pose proof (nodeAddConstraint_Some_inv _ _ _ _ _ Hwf Hadd) as Hc.
  destruct (nodeAddConstraint_spec c _ tv n Hwf Htv
              (gatherReferencedTypeVars_NoDup c) Hc)
    as (n1 & Hadd' & Hwf1 & Htv1 & _ & Hc1 & Hadj1).
  simplify_eq. split; [|done]. split; [done|]. intros w.
  rewrite Hadj1. simpl. rewrite Hcnt, Htv1.
  rewrite (linkedBy_snoc n n' c w)
    by (rewrite Hc1; apply Permutation_app_comm).
  unfold edgeTo. repeat case_decide; first [lia|exfalso; naive_solver].
Qed.

Lemma nodeConsistent_remove c tv n n' :
  nodeConsistent n → TypeVar n = tv →
  nodeRemoveConstraint c (gatherReferencedTypeVars c) tv n = Some n' →
  nodeConsistent n' ∧ TypeVar n' = tv.
Proof.
  intros [Hwf Hcnt] Htv Hrem.
  pose proof (gatherReferencedTypeVars_NoDup c) as Hnd.
  destruct (nodeRemoveConstraint_Some_inv _ _ _ _ _ Hwf Hnd Hrem)
    as [Hc Hpos].
  destruct (nodeRemoveConstraint_spec c _ tv n Hwf Hnd Hc Hpos)
    as (n1 & Hrem' & Hwf1 & Htv1 & _ & Hc1 & Hadj1).
  simplify_eq. split; [|done]. split; [done|]. intros w.
  rewrite Hadj1. simpl. rewrite Hcnt, Htv1.
  rewrite (linkedBy_snoc n' n c w) by done.
  unfold edgeTo. repeat case_decide; first [lia|exfalso; naive_solver].
Qed.

Lemma consKept_mutate call : preserves consKept (mutate call).
Proof.
  destruct call as [[CS fuel] []]; simpl.
  - intros g a g' Hrun. rewrite addConstraint_per_node in Hrun.
    revert g a g' Hrun.
    apply preserves_bind; [apply _| |intros _; apply consKept_recordChange].
    apply preserves_forEach; [apply _|]. intros tv _.
    apply preserves_bind; [apply _| |].
    { intros g a g' Hrun. eapply consKept_grows, grows_lookupNode, Hrun. }
    intros _. apply consKept_modifyNode. intros n n'.
    apply nodeConsistent_add.
  - intros g a g' Hrun. rewrite removeConstraint_per_node in Hrun.
    revert g a g' Hrun.
    apply preserves_bind; [apply _| |intros _; apply consKept_recordChange].
    apply preserves_forEach; [apply _|]. intros tv _.
    apply preserves_bind; [apply _| |].
    { intros g a g' Hrun. eapply consKept_grows, grows_lookupNode, Hrun. }
    intros _. apply consKept_modifyNode. intros n n'.
    apply nodeConsistent_remove.
  - intros g a g' Hrun. eapply consKept_grows, grows_mergeNodes, Hrun.
  - intros g a g' Hrun. eapply consKept_grows, grows_bindTypeVariable, Hrun.
  - apply preserves_bind; [apply _| |intros _; apply preserves_ret, _].
    intros g a g' Hrun. eapply consKept_grows, grows_lookupNode, Hrun.
Qed.

(** X14: when every node counts, towards every other type variable,
    exactly the constraints it holds that reference that type variable
    (as in the empty graph), every node passes [Node::verify] after any
    sequence of [addConstraint], [removeConstraint], [mergeNodes],
    [bindTypeVariable] and [lookupNode] calls that returns, and the
    counts are again exact. *)
Theorem mutateAll_nodes_verify calls g g' :
  consistentGraph g → mutateAll calls g = Ok (tt, g') →
  consistentGraph g' ∧
  ∀ v s, Nodes g' !! v = Some s → NodeVerify.verify (NodePtr s) = Some tt.
Proof.
  intros Hcons Hrun.
  assert (consistentGraph g') as Hcons'.
  { eapply (preserves_forEach consKept calls mutate);
      [|exact Hrun|exact Hcons].
    intros call _. apply consKept_mutate. }
  split; [done|]. intros v s Hs.
  destruct (Hcons' v s Hs) as [[Hwf Hcnt] Htv].
  apply verify_passes; [done| |].
  - intros w a Ha. pose proof (Hcnt w) as Hw.
    rewrite (adjacencyOf_Some _ _ _ Ha) in Hw. simpl in Hw. rewrite Hw.
    case_decide; [lia|]. unfold linkedBy. apply length_filter.
  - intros w Hw _. rewrite Hcnt. by rewrite decide_False.
Qed.

Lemma mutateAll_nodes_verify_witness :
  consistentGraph Rollback.mutated ∧
  ∀ v s, Nodes Rollback.mutated !! v = Some s →
         NodeVerify.verify (NodePtr s) = Some tt.
Proof.
  apply (mutateAll_nodes_verify Rollback.calls Examples.g01scoped).
  - intros v s Hs.
    assert (s = MkStoredNode (newNode v) (NodeIndex s)) as ->.
    { change (Nodes Examples.g01scoped) with (Nodes Examples.g01) in Hs.
      rewrite g01_Nodes in Hs.
      destruct (decide (v = 0)) as [->|];
        [|destruct (decide (v = 1)) as [->|]].
      - rewrite lookup_insert_eq in Hs. by simplify_eq.
      - rewrite lookup_insert_ne, lookup_insert_eq in Hs by done.
        by simplify_eq.
      - rewrite !lookup_insert_ne, lookup_empty in Hs by done. done. }
    split; [apply nodeConsistent_newNode|done].
  - by vm_compute.
Defined.

(** ** Merging two nodes that exist *)

Lemma lookupNode_existing CS fuel v g s :
  Nodes g !! v = Some s →
  lookupNode CS fuel v g = Ok ((NodePtr s, NodeIndex s), g).
Proof. intros Hs. destruct fuel; simpl; by rewrite Hs. Qed.

Lemma getEquivalenceClassUnsafe_sameButClass n :
  sameButClass n (NodeOps.getEquivalenceClassUnsafe n).2 ∧
  EquivalenceClass (NodeOps.getEquivalenceClassUnsafe n).2 =
    (NodeOps.getEquivalenceClassUnsafe n).1 ∧
  (NodeOps.getEquivalenceClassUnsafe
     (NodeOps.getEquivalenceClassUnsafe n).2).1 =
    (NodeOps.getEquivalenceClassUnsafe n).1.
Proof.
  unfold NodeOps.getEquivalenceClassUnsafe, sameButClass.
  destruct (EquivalenceClass n) eqn:He; simpl; [done|].
  by rewrite He.
Qed.

(** X15: when the nodes of the representative [r] and of the type
    variable [x] merged into it exist, [mergeNodes] returns, with any
    fuel; the equivalence class of [r], which starts as [r] alone,
    becomes that class followed by the class of [x], which starts as [x]
    alone; nothing else changes in any node, no node is created, and
    exactly one [ExtendedEquivalenceClass] record with the previous size
    of the class is pushed when a scope is active, none otherwise.
    Merging a representative with itself therefore doubles its
    class. *)
Theorem mergeNodes_existing CS fuel x r g sr sx :
  getRepresentative CS x = r → getRepresentative CS r = r →
  Nodes g !! r = Some sr → Nodes g !! x = Some sx →
  TypeVar (NodePtr sr) = r →
  ∃ g' sr',
    mergeNodes CS fuel x r g = Ok (tt, g') ∧
    Nodes g' !! r = Some sr' ∧ NodeIndex sr' = NodeIndex sr ∧
    sameButClass (NodePtr sr) (NodePtr sr') ∧
    EquivalenceClass (NodePtr sr') =
      (NodeOps.getEquivalenceClassUnsafe (NodePtr sr)).1 ++
      (NodeOps.getEquivalenceClassUnsafe (NodePtr sx)).1 ∧
    (x ≠ r →
     ∃ sx', Nodes g' !! x = Some sx' ∧ NodeIndex sx' = NodeIndex sx ∧
            sameButClass (NodePtr sx) (NodePtr sx') ∧
            EquivalenceClass (NodePtr sx') =
              (NodeOps.getEquivalenceClassUnsafe (NodePtr sx)).1) ∧
    (∀ v, v ≠ r → v ≠ x → Nodes g' !! v = Nodes g !! v) ∧
    TypeVariables g' = TypeVariables g ∧
    ActiveScope g' = ActiveScope g ∧
    Changes g' =
      Changes g ++
      match ActiveScope g with
      | Some _ =>
          [ExtendedEquivalenceClass r
             (length (NodeOps.getEquivalenceClassUnsafe (NodePtr sr)).1)]
      | None => []
      end.
Proof.
  intros Hx Hr Hsr Hsx Htv.
  destruct (getEquivalenceClassUnsafe_sameButClass (NodePtr sr))
    as (Hsame1 & Hcls1 & Hidem1).
  destruct (getEquivalenceClassUnsafe_sameButClass (NodePtr sx))
    as (Hsamex & Hclsx & Hidemx).
  set (clsR := (NodeOps.getEquivalenceClassUnsafe (NodePtr sr)).1) in *.
  set (clsX := (NodeOps.getEquivalenceClassUnsafe (NodePtr sx)).1) in *.
  set (nR := (NodeOps.getEquivalenceClassUnsafe (NodePtr sr)).2) in *.
  set (nX := (NodeOps.getEquivalenceClassUnsafe (NodePtr sx)).2) in *.
  (* the graph after the change has been recorded *)
  set (g1 := match ActiveScope g with
             | Some _ =>
                 MkGraph (<[r := MkStoredNode nR (NodeIndex sr)]> (Nodes g))
                   (TypeVariables g)
                   (Changes g ++ [ExtendedEquivalenceClass r (length clsR)])
                   (ActiveScope g)
             | None => g
             end).
  set (sr1 := match ActiveScope g with
              | Some _ => MkStoredNode nR (NodeIndex sr)
              | None => sr
              end).
  assert (Nodes g1 !! r = Some sr1 ∧
          (∀ v, v ≠ r → Nodes g1 !! v = Nodes g !! v) ∧
          NodeIndex sr1 = NodeIndex sr ∧
          sameButClass (NodePtr sr) (NodePtr sr1) ∧
          (NodeOps.getEquivalenceClassUnsafe (NodePtr sr1)).1 = clsR ∧
          TypeVariables g1 = TypeVariables g ∧
          ActiveScope g1 = ActiveScope g)
    as (Hsr1 & Hoth1 & Hidx1 & Hsb1 & Hc1 & Htv1 & Hsc1).
  { unfold g1, sr1. destruct (ActiveScope g) eqn:Hsc; simpl.
    - rewrite lookup_insert_eq. split_and!; try done.
      intros v Hv. by rewrite lookup_insert_ne.
    - by split_and!. }
  assert ((λ g0 : ConstraintGraph,
             match ActiveScope g0 with
             | Some _ =>
                 bind (withNode r
                         (NodeOps.getEquivalenceClass (getRepresentative CS)))
                   (λ cls, recordChange
                             (ExtendedEquivalenceClass r (length cls))) g0
             | None => Ok (tt, g0)
             end) g = Ok (tt, g1)) as Hstep1.
  { unfold g1. destruct (ActiveScope g) eqn:Hsc; [|done].
    unfold bind, withNode. rewrite Hsr.
    unfold NodeOps.getEquivalenceClass.
    rewrite decide_True by (rewrite Htv; congruence).
    rewrite (surjective_pairing
               (NodeOps.getEquivalenceClassUnsafe (NodePtr sr))).
    fold clsR nR. unfold recordChange. simpl. by rewrite Hsc. }
  (* the node of [x] when its class is read *)
  set (sx1 := if decide (x = r) then sr1 else sx).
  assert (Nodes g1 !! x = Some sx1) as Hsx1.
  { unfold sx1. case_decide as Hxr; [by rewrite Hxr|].
    rewrite Hoth1 by done. done. }
  assert ((NodeOps.getEquivalenceClassUnsafe (NodePtr sx1)).1 = clsX)
    as Hcx1.
  { unfold sx1. case_decide as Hxr; [|done].
    rewrite Hc1. unfold clsX, clsR.
    assert (sx = sr) as -> by (rewrite Hxr in Hsx; congruence). done. }
  set (nX1 := (NodeOps.getEquivalenceClassUnsafe (NodePtr sx1)).2).
  destruct (getEquivalenceClassUnsafe_sameButClass (NodePtr sx1))
    as (Hsamex1 & Hclsx1 & Hidemx1).
  fold nX1 in Hsamex1, Hclsx1, Hidemx1. rewrite Hcx1 in Hclsx1, Hidemx1.
  set (g2 := MkGraph (<[x := MkStoredNode nX1 (NodeIndex sx1)]> (Nodes g1))
               (TypeVariables g1) (Changes g1) (ActiveScope g1)).
  (* the node of [r] when its class is extended *)
  set (sr2 := if decide (x = r) then MkStoredNode nX1 (NodeIndex sx1)
              else sr1).
  assert (Nodes g2 !! r = Some sr2) as Hsr2.
  { unfold g2, sr2. simpl. case_decide as Hxr.
    - rewrite Hxr. by rewrite lookup_insert_eq.
    - by rewrite lookup_insert_ne. }
  assert (sameButClass (NodePtr sr) (NodePtr sr2) ∧
          NodeIndex sr2 = NodeIndex sr ∧
          (NodeOps.getEquivalenceClassUnsafe (NodePtr sr2)).1 = clsR)
    as (Hsb2 & Hidx2 & Hc2).
  { unfold sr2. case_decide as Hxr; [|done]. simpl.
    assert (sx = sr) as Heq by (rewrite Hxr in Hsx; congruence).
    assert (sx1 = sr1) as Heq1
      by (unfold sx1; try rewrite decide_True by done; done).
    rewrite Heq1 in *.
    split_and!; [|done|].
    - destruct Hsb1 as (? & ? & ? & ? & ?), Hsamex1 as (? & ? & ? & ? & ?).
      unfold sameButClass. split_and!; congruence.
    - rewrite Hidemx1. unfold clsX, clsR. by rewrite Heq. }
  destruct (NodeOps.addToEquivalenceClass (getRepresentative CS) clsX
              (NodePtr sr2)) as [nR2|] eqn:Hadd.
  2:{ unfold NodeOps.addToEquivalenceClass in Hadd.
      destruct Hsb2 as (Ht2 & _).
      rewrite decide_True in Hadd by (rewrite Ht2, Htv; congruence).
      by destruct (NodeOps.getEquivalenceClassUnsafe (NodePtr sr2)). }
  assert (sameButClass (NodePtr sr) nR2 ∧
          EquivalenceClass nR2 = clsR ++ clsX) as [Hsb3 Hcls3].
  { unfold NodeOps.addToEquivalenceClass in Hadd.
    case_decide; [|done].
    destruct (getEquivalenceClassUnsafe_sameButClass (NodePtr sr2))
      as (Hs & _ & _).
    destruct (NodeOps.getEquivalenceClassUnsafe (NodePtr sr2)) as [c0 n0]
      eqn:Hu. simpl in *. injection Hadd as <-. simpl. subst c0.
    split; [|done].
    destruct Hsb2 as (? & ? & ? & ? & ?), Hs as (? & ? & ? & ? & ?).
    unfold sameButClass. simpl. split_and!; congruence. }
  exists (MkGraph (<[r := MkStoredNode nR2 (NodeIndex sr2)]> (Nodes g2))
            (TypeVariables g2) (Changes g2) (ActiveScope g2)),
         (MkStoredNode nR2 (NodeIndex sr2)).
  split_and!.
  - unfold mergeNodes, mergeNodesWith.
    rewrite decide_True by congruence. rewrite Hx.
    unfold bind at 1. rewrite (lookupNode_existing _ _ _ _ _ Hsr).
    rewrite decide_True by (by right).
    assert ((if decide (x = r) then r else x) = x) as ->
      by (case_decide; congruence).
    unfold bind at 1. rewrite Hstep1.
    unfold bind at 1. rewrite (lookupNode_existing _ _ _ _ _ Hsx1).
    unfold bind at 1. unfold withNode at 1. rewrite Hsx1.
    fold nX1.
    assert (NodeOps.getEquivalenceClassUnsafe (NodePtr sx1) = (clsX, nX1))
      as ->.
    { unfold nX1. rewrite <- Hcx1.
      by destruct (NodeOps.getEquivalenceClassUnsafe (NodePtr sx1)). }
    fold g2. unfold modifyNode, withNode. rewrite Hsr2, Hadd. done.
  - simpl. by rewrite lookup_insert_eq.
  - done.
  - done.
  - done.
  - intros Hxr. simpl. rewrite lookup_insert_ne by done.
    rewrite lookup_insert_eq. eexists. split; [done|]. simpl.
    unfold sx1 in *. rewrite decide_False in * by done.
    split_and!; done.
  - intros v Hvr Hvx. simpl. rewrite !lookup_insert_ne by done.
    by apply Hoth1.
  - done.
  - done.
  - simpl. unfold g1. destruct (ActiveScope g); simpl; [done|].
    by rewrite app_nil_r.
Qed.

Lemma mergeNodes_existing_witness :
  ∃ g' sr',
    mergeNodes Examples.csMerged 0 0 1 Examples.g01scoped = Ok (tt, g') ∧
    Nodes g' !! 1 = Some sr' ∧
    NodeIndex sr' = NodeIndex (MkStoredNode (newNode 1) 1) ∧
    sameButClass (NodePtr (MkStoredNode (newNode 1) 1)) (NodePtr sr') ∧
    EquivalenceClass (NodePtr sr') =
      (NodeOps.getEquivalenceClassUnsafe
         (NodePtr (MkStoredNode (newNode 1) 1))).1 ++
      (NodeOps.getEquivalenceClassUnsafe
         (NodePtr (MkStoredNode (newNode 0) 0))).1 ∧
    (0 ≠ 1 →
     ∃ sx', Nodes g' !! 0 = Some sx' ∧
            NodeIndex sx' = NodeIndex (MkStoredNode (newNode 0) 0) ∧
            sameButClass (NodePtr (MkStoredNode (newNode 0) 0))
              (NodePtr sx') ∧
            EquivalenceClass (NodePtr sx') =
              (NodeOps.getEquivalenceClassUnsafe
                 (NodePtr (MkStoredNode (newNode 0) 0))).1) ∧
    (∀ v, v ≠ 1 → v ≠ 0 →
          Nodes g' !! v = Nodes Examples.g01scoped !! v) ∧
    TypeVariables g' = TypeVariables Examples.g01scoped ∧
    ActiveScope g' = ActiveScope Examples.g01scoped ∧
    Changes g' =
      Changes Examples.g01scoped ++
      match ActiveScope Examples.g01scoped with
      | Some _ =>
          [ExtendedEquivalenceClass 1
             (length (NodeOps.getEquivalenceClassUnsafe
                        (NodePtr (MkStoredNode (newNode 1) 1))).1)]
      | None => []
      end.
Proof.
  apply (mergeNodes_existing Examples.csMerged 0 0 1 Examples.g01scoped
           (MkStoredNode (newNode 1) 1) (MkStoredNode (newNode 0) 0));
    by vm_compute.
Defined.

(** ** Binding a type variable *)

Lemma wfKept_addFixedBinding v o :
  preserves wfKept (modifyNode v (NodeOps.addFixedBinding o)).
Proof.
  apply wfKept_modifyNode. intros n n' Hwf Hadd.
  destruct (addFixedBinding_Some_inv _ _ _ Hadd) as [Hv Hfx].
  destruct (addFixedBinding_spec o n Hwf Hv Hfx)
    as (n1 & Hadd' & Hwf1 & Hsame & _).
  simplify_eq. split; [done|by apply sameButAdjacencies_TypeVar].
Qed.

Lemma bindLoop_self CS fuel tv typeVars :
  ∀ K g r, wfGraph g → tv ∈ typeVars → tv ∉ K →
    is_Some (Nodes g !! tv) →
    bindLoop (lookupNode CS fuel) tv K typeVars g ≠ Ok r.
Proof.
  induction typeVars as [|o rest IH]; intros K g r Hwf Hin HK Htv;
    [set_solver|].
  simpl. case_decide as Ho.
  - intros Hrun.
    assert (tv ∈ rest) by set_solver.
    by eapply (IH K g r).
  - intros Hrun.
    apply bind_Ok in Hrun as (a & g1 & Hlook & Hrun).
    apply bind_Ok in Hrun as ([] & g2 & Hmod1 & Hrun).
    apply bind_Ok in Hrun as ([] & g3 & Hmod2 & Hrun).
    pose proof (wfKept_grows _ _ (grows_lookupNode CS fuel o _ _ _ Hlook) Hwf)
      as Hwf1.
    destruct (decide (o = tv)) as [->|Hne].
    + apply modifyNode_Ok in Hmod1 as (s & n' & Hs & Hf & _).
      destruct (Hwf1 tv s Hs) as [_ Ht].
      unfold NodeOps.addFixedBinding, NodeOps.getAdjacency in Hf.
      by rewrite decide_True in Hf.
    + pose proof (wfKept_addFixedBinding _ _ _ _ _ Hmod1 Hwf1) as Hwf2.
      pose proof (wfKept_addFixedBinding _ _ _ _ _ Hmod2 Hwf2) as Hwf3.
      eapply (IH _ g3 r); [done| | | |exact Hrun]; [set_solver..|].
      destruct Htv as [s Hs].
      destruct (framed_nodes _ _ (framed_lookupNode CS fuel o _ _ _ Hlook)
                  tv s Hs) as (s1 & Hs1 & _).
      destruct (framed_nodes _ _ (framed_modifyNode _ _ _ _ _ Hmod1)
                  tv s1 Hs1) as (s2 & Hs2 & _).
      destruct (framed_nodes _ _ (framed_modifyNode _ _ _ _ _ Hmod2)
                  tv s2 Hs2) as (s3 & Hs3 & _).
      eauto.
Qed.

(** X16: [bindTypeVariable] and [unbindTypeVariable] do nothing at all
    for a fixed type without type variables: no node is looked up or
    created and no change is recorded, even in a scope.  And in a graph
    whose nodes are well formed, [bindTypeVariable] never returns for a
    fixed type that mentions the type variable being bound: a node
    cannot be adjacent to itself. *)
Theorem bindTypeVariable_edge_cases CS fuel typeVar fixed g :
  (hasTypeVariable fixed = false →
   bindTypeVariable CS fuel typeVar fixed g = Ok (tt, g) ∧
   unbindTypeVariable CS fuel typeVar fixed g = Ok (tt, g)) ∧
  (wfGraph g → typeVar ∈ getTypeVariables fixed [] →
   ∀ r, bindTypeVariable CS fuel typeVar fixed g ≠ Ok r).
Proof.
  split.
  - intros Hno. unfold bindTypeVariable, bindTypeVariableWith,
      unbindTypeVariable. by rewrite Hno.
  - intros Hwf Hin r Hrun.
    unfold bindTypeVariable, bindTypeVariableWith in Hrun.
    destruct (hasTypeVariable fixed) eqn:Hhas.
    2:{ destruct fixed; [|done]. unfold getTypeVariables in Hin.
        set_solver. }
    apply bind_Ok in Hrun as (a & g1 & Hlook & Hrun).
    apply bind_Ok in Hrun as ([] & g2 & Hloop & _).
    eapply (bindLoop_self CS fuel typeVar _ ∅ g1); [| | | |exact Hloop].
    + eapply wfKept_grows; [|done]. eapply grows_lookupNode, Hlook.
    + done.
    + set_solver.
    + destruct a as [node index].
      rewrite (lookupNode_stored _ _ _ _ _ _ _ Hlook). eauto.
Qed.

Lemma addFixedBinding_step o n n' :
  wfNode n → NodeOps.addFixedBinding o n = Some n' →
  o ≠ TypeVar n ∧ (adjacencyOf n o).2 = false ∧ wfNode n' ∧
  sameButAdjacencies n n' ∧
  Adjacencies n `prefix_of` Adjacencies n' ∧
  adjacencyOf n' o = ((adjacencyOf n o).1, true) ∧
  ∀ w, w ≠ o → adjacencyOf n' w = adjacencyOf n w.
Proof.
  intros Hwf Hadd.
  destruct (addFixedBinding_Some_inv _ _ _ Hadd) as [Hv Hfx].
  destruct (addFixedBinding_spec o n Hwf Hv Hfx)
    as (n1 & Hadd' & Hwf1 & Hsame & Ho & Hw).
  simplify_eq. split_and!; try done.
  by eapply addFixedBinding_prefix.
Qed.

Lemma removeFixedBinding_step o n :
  wfNode n → (adjacencyOf n o).2 = true →
  ∃ n', NodeOps.removeFixedBinding o n = Some n' ∧ wfNode n' ∧
    sameButAdjacencies n n' ∧
    adjacencyOf n' o = ((adjacencyOf n o).1, false) ∧
    (∀ w, w ≠ o → adjacencyOf n' w = adjacencyOf n w) ∧
    ∀ A, A `prefix_of` Adjacencies n →
         (o ∈ A → (adjacencyOf n o).1 ≠ 0) →
         A `prefix_of` Adjacencies n'.
Proof.
  intros Hwf Hfx.
  destruct (removeFixedBinding_spec o n Hwf Hfx)
    as (n' & Hrem & Hwf' & Hsame & Ho & Hw).
  exists n'. split_and!; try done.
  intros A HA Hcnt.
  exact (removeFixedBinding_prefix o n n' A Hwf Hrem HA Hcnt).
Qed.

(** The loops of [bindTypeVariable] and [unbindTypeVariable] visit the
    type variables of the fixed type once each, in the order of their
    first occurrence. *)
Lemma bindLoop_forEach lookup tv typeVars :
  ∀ K g,
    bindLoop lookup tv K typeVars g =
    forEach (removeKnown K typeVars)
      (λ o, _ <- lookup o ;;
            modifyNode o (NodeOps.addFixedBinding tv) ;;
            modifyNode tv (NodeOps.addFixedBinding o)) g.
Proof.
  induction typeVars as [|o rest IH]; intros K g; simpl; [done|].
  case_decide; [apply IH|]. simpl.
  rewrite !bind_assoc. apply bind_ext. intros ? g1 _.
  rewrite !bind_assoc. apply bind_ext. intros ? g2 _.
  apply bind_ext. intros ? g3 _. apply IH.
Qed.

Lemma unbindLoop_forEach CS fuel tv typeVars :
  ∀ K g,
    unbindLoop CS fuel tv K typeVars g =
    forEach (removeKnown K typeVars)
      (λ o, _ <- lookupNode CS fuel o ;;
            modifyNode o (NodeOps.removeFixedBinding tv) ;;
            modifyNode tv (NodeOps.removeFixedBinding o)) g.
Proof.
  induction typeVars as [|o rest IH]; intros K g; simpl; [done|].
  case_decide; [apply IH|]. simpl.
  rewrite !bind_assoc. apply bind_ext. intros ? g1 _.
  rewrite !bind_assoc. apply bind_ext. intros ? g2 _.
  apply bind_ext. intros ? g3 _. apply IH.
Qed.

Lemma boundBy_refl tv g : wfGraph g → boundBy tv ∅ g g.
Proof.
  intros Hwf. split; [by split_and!|]. intros v s Hs. exists s.
  split_and!; [done..|].
  destruct (Hwf v s Hs) as [Hw _]. split_and!; [done..|].
  intros w. rewrite decide_False by (unfold boundPair; set_solver).
  split; [by destruct (adjacencyOf (NodePtr s) w)|].
  unfold boundPair. set_solver.
Qed.

Lemma unboundBy_refl tv g : wfGraph g → unboundBy tv ∅ g g.
Proof.
  intros Hwf. split; [by split_and!|]. intros v s Hs. exists s.
  split_and!; [done..|].
  destruct (Hwf v s Hs) as [Hw _]. split_and!; [done..| |done].
  intros w. rewrite decide_False by (unfold boundPair; set_solver).
  by destruct (adjacencyOf (NodePtr s) w).
Qed.

(** One modification of a node that exists. *)
Lemma modifyNode_graph v f g g' :
  modifyNode v f g = Ok (tt, g') →
  ∃ s n', Nodes g !! v = Some s ∧ f (NodePtr s) = Some n' ∧
    Nodes g' = <[v := MkStoredNode n' (NodeIndex s)]> (Nodes g) ∧
    TypeVariables g' = TypeVariables g ∧ Changes g' = Changes g ∧
    ActiveScope g' = ActiveScope g.
Proof.
  intros (s & n' & Hs & Hf & Heq)%modifyNode_Ok.
  injection Heq as ->. exists s, n'. by split_and!.
Qed.

Lemma boundPair_insert_other tv S o v w :
  o ≠ tv → v ≠ o → v ≠ tv →
  boundPair tv ({[o]} ∪ S) v w ↔ boundPair tv S v w.
Proof. unfold boundPair. set_solver. Qed.

Lemma boundPair_insert_o tv S o w :
  o ≠ tv → o ∉ S →
  boundPair tv ({[o]} ∪ S) o w ↔ w = tv.
Proof. unfold boundPair. set_solver. Qed.

Lemma boundPair_o tv S o w : o ≠ tv → o ∉ S → ¬ boundPair tv S o w.
Proof. unfold boundPair. set_solver. Qed.

Lemma boundPair_insert_tv tv S o w :
  o ≠ tv →
  boundPair tv ({[o]} ∪ S) tv w ↔ w = o ∨ boundPair tv S tv w.
Proof. unfold boundPair. set_solver. Qed.

Lemma boundPair_tv_o tv S o : o ≠ tv → o ∉ S → ¬ boundPair tv S tv o.
Proof. unfold boundPair. set_solver. Qed.

Lemma boundBy_step CS fuel tv S o g g1 g2 :
  wfGraph g → boundBy tv S g g1 → o ∉ S →
  is_Some (Nodes g !! o) → is_Some (Nodes g !! tv) →
  (_ <- lookupNode CS fuel o ;;
   modifyNode o (NodeOps.addFixedBinding tv) ;;
   modifyNode tv (NodeOps.addFixedBinding o)) g1 = Ok (tt, g2) →
  o ≠ tv ∧ boundBy tv ({[o]} ∪ S) g g2.
Proof.
  intros Hwf [Hshape Hnodes] HoS [so Hso] [stv Htv] Hrun.
  destruct (Hnodes o so Hso)
    as (so1 & Hso1 & Hio & Hwo1 & Hsbo & Hpo & Hao).
  destruct (Hnodes tv stv Htv)
    as (st1 & Hst1 & Hit & Hwt1 & Hsbt & Hpt & Hat).
  apply bind_Ok in Hrun as (a & g1' & Hlook & Hrun).
  rewrite (lookupNode_existing _ _ _ _ _ Hso1) in Hlook.
  injection Hlook as <- <-.
  apply bind_Ok in Hrun as ([] & ga & Hm1 & Hm2).
  apply modifyNode_graph in Hm1
    as (s1 & n1 & Hs1 & Hf1 & HN1 & HT1 & HC1 & HA1).
  rewrite Hso1 in Hs1. injection Hs1 as <-.
  destruct (addFixedBinding_step _ _ _ Hwo1 Hf1)
    as (Hne & Hfx1 & Hwn1 & Hsame1 & Hpre1 & Hv1 & Hw1).
  destruct (Hwf o so Hso) as [_ Hkey_o].
  assert (TypeVar (NodePtr so1) = o) as Hkey1
    by (destruct Hsbo as (-> & _); done).
  assert (o ≠ tv) as Hotv by congruence.
  apply modifyNode_graph in Hm2
    as (s2 & n2 & Hs2 & Hf2 & HN2 & HT2 & HC2 & HA2).
  rewrite HN1, lookup_insert_ne in Hs2 by done.
  rewrite Hst1 in Hs2. injection Hs2 as <-.
  destruct (addFixedBinding_step _ _ _ Hwt1 Hf2)
    as (_ & Hfx2 & Hwn2 & Hsame2 & Hpre2 & Hv2 & Hw2).
  split; [done|]. split.
  - destruct Hshape as (? & ? & ? & Hnone). split_and!; [congruence..|].
    intros v Hv. rewrite HN2, HN1.
    rewrite !lookup_insert_ne by congruence. by apply Hnone.
  - intros v s Hs. destruct (decide (v = tv)) as [->|Hvt];
      [|destruct (decide (v = o)) as [->|Hvo]].
    + assert (s = stv) as -> by congruence.
      exists (MkStoredNode n2 (NodeIndex st1)).
      rewrite HN2, lookup_insert_eq. split_and!; [done..|].
      split_and!; [done|by eapply sameButAdjacencies_trans|by etrans|].
      simpl. intros w. destruct (Hat w) as [Ha Hb].
      pose proof (boundPair_insert_tv tv S o w Hotv) as Hiff.
      pose proof (boundPair_tv_o tv S o Hotv HoS) as Hno.
      destruct (decide (w = o)) as [->|Hwo].
      * rewrite Hv2, Ha. simpl. rewrite Ha in Hfx2. simpl in Hfx2.
        rewrite decide_False in Hfx2 by done.
        rewrite decide_True by tauto. done.
      * rewrite Hw2 by done. rewrite Ha.
        split; [|tauto]. f_equal. apply decide_ext. tauto.
    + assert (s = so) as -> by congruence.
      exists (MkStoredNode n1 (NodeIndex so1)).
      rewrite HN2, lookup_insert_ne, HN1, lookup_insert_eq by done.
      split_and!; [done..|].
      split_and!; [done|by eapply sameButAdjacencies_trans|by etrans|].
      simpl. intros w. destruct (Hao w) as [Ha Hb].
      pose proof (boundPair_insert_o tv S o w Hotv HoS) as Hiff.
      pose proof (boundPair_o tv S o w Hotv HoS) as Hno.
      destruct (decide (w = tv)) as [->|Hwt].
      * rewrite Hv1, Ha. simpl. rewrite Ha in Hfx1. simpl in Hfx1.
        rewrite decide_False in Hfx1 by done.
        rewrite decide_True by tauto. done.
      * rewrite Hw1 by done. rewrite Ha.
        split; [|tauto]. f_equal. apply decide_ext. tauto.
    + destruct (Hnodes v s Hs) as (s' & Hs' & Hi & Hw' & Hsb & Hp & Ha).
      exists s'. rewrite HN2, lookup_insert_ne, HN1, lookup_insert_ne by done.
      split_and!; [done..|].
      split_and!; [done..|].
      intros w. destruct (Ha w) as [Ha1 Ha2].
      pose proof (boundPair_insert_other tv S o v w Hotv Hvo Hvt) as Hiff.
      rewrite Ha1. split; [|tauto]. f_equal. apply decide_ext. tauto.
Qed.

Lemma boundBy_rounds CS fuel tv D g :
  wfGraph g → is_Some (Nodes g !! tv) →
  ∀ S g1 g2,
    boundBy tv S g g1 → NoDup D → (∀ o, o ∈ D → o ∉ S) →
    (∀ o, o ∈ D → is_Some (Nodes g !! o)) →
    forEach D
      (λ o, _ <- lookupNode CS fuel o ;;
            modifyNode o (NodeOps.addFixedBinding tv) ;;
            modifyNode tv (NodeOps.addFixedBinding o)) g1 = Ok (tt, g2) →
    tv ∉ D ∧ boundBy tv (list_to_set D ∪ S) g g2.
Proof.
  intros Hwf Htv. induction D as [|o D IH]; intros S g1 g2 Hb Hnd HS Hex Hrun.
  - simpl in Hrun. injection Hrun as <-. split; [set_solver|].
    by rewrite list_to_set_nil, (left_id_L ∅ (∪)).
  - simpl in Hrun. apply bind_Ok in Hrun as ([] & ga & Hround & Hrest).
    apply NoDup_cons in Hnd as [Ho Hnd].
    destruct (boundBy_step CS fuel tv S o g g1 ga Hwf Hb) as [Hotv Hb1];
      [set_solver|apply Hex; set_solver|done|exact Hround|].
    destruct (IH ({[o]} ∪ S) ga g2 Hb1 Hnd) as [HtvD Hb2];
      [set_solver|intros; apply Hex; set_solver|exact Hrest|].
    split; [set_solver|].
    rewrite list_to_set_cons.
    by replace ({[o]} ∪ list_to_set D ∪ S)
      with (list_to_set D ∪ ({[o]} ∪ S)) by set_solver.
Qed.

Lemma modifyNode_run v f g s n' :
  Nodes g !! v = Some s → f (NodePtr s) = Some n' →
  modifyNode v f g =
    Ok (tt, MkGraph (<[v := MkStoredNode n' (NodeIndex s)]> (Nodes g))
              (TypeVariables g) (Changes g) (ActiveScope g)).
Proof. intros Hs Hf. apply modifyNode_Ok. eauto. Qed.

Lemma fixedBindingTo_true g v w :
  fixedBindingTo g v w = true →
  ∃ s, Nodes g !! v = Some s ∧ (adjacencyOf (NodePtr s) w).2 = true.
Proof.
  unfold fixedBindingTo. destruct (Nodes g !! v) as [s|]; [eauto|done].
Qed.

Lemma unboundBy_step CS fuel tv S o g1 g2 :
  unboundBy tv S g1 g2 → o ∉ S → o ≠ tv →
  fixedBindingTo g1 o tv = true → fixedBindingTo g1 tv o = true →
  ∃ g3,
    (_ <- lookupNode CS fuel o ;;
     modifyNode o (NodeOps.removeFixedBinding tv) ;;
     modifyNode tv (NodeOps.removeFixedBinding o)) g2 = Ok (tt, g3) ∧
    unboundBy tv ({[o]} ∪ S) g1 g3.
Proof.
  intros [Hshape Hnodes] HoS Hotv
    (so & Hso & Hfo)%fixedBindingTo_true (stv & Htv & Hft)%fixedBindingTo_true.
  destruct (Hnodes o so Hso) as (so2 & Hso2 & Hio & Hwo2 & Hsbo & Hao & Hpo).
  destruct (Hnodes tv stv Htv)
    as (st2 & Hst2 & Hit & Hwt2 & Hsbt & Hat & Hpt).
  pose proof (boundPair_o tv S o tv Hotv HoS) as Hno_o.
  pose proof (boundPair_tv_o tv S o Hotv HoS) as Hno_t.
  destruct (removeFixedBinding_step tv (NodePtr so2) Hwo2)
    as (n3 & Hrem3 & Hwf3 & Hsame3 & Hv3 & Hw3 & Hpre3).
  { rewrite Hao. simpl. by rewrite decide_False. }
  destruct (removeFixedBinding_step o (NodePtr st2) Hwt2)
    as (n4 & Hrem4 & Hwf4 & Hsame4 & Hv4 & Hw4 & Hpre4).
  { rewrite Hat. simpl. by rewrite decide_False. }
  set (ga := MkGraph (<[o := MkStoredNode n3 (NodeIndex so2)]> (Nodes g2))
               (TypeVariables g2) (Changes g2) (ActiveScope g2)).
  assert (Nodes ga !! tv = Some st2) as Hst_a.
  { unfold ga. simpl. by rewrite lookup_insert_ne. }
  eexists. split.
  - unfold bind at 1. rewrite (lookupNode_existing _ _ _ _ _ Hso2).
    unfold bind at 1. rewrite (modifyNode_run _ _ _ _ _ Hso2 Hrem3).
    fold ga. apply (modifyNode_run _ _ _ _ _ Hst_a Hrem4).
  - split.
    + destruct Hshape as (? & ? & ? & Hnone). split_and!; [done..|].
      simpl. intros v Hv. rewrite !lookup_insert_ne by congruence.
      by apply Hnone.
    + simpl. intros v s Hs. destruct (decide (v = tv)) as [->|Hvt];
        [|destruct (decide (v = o)) as [->|Hvo]].
      * assert (s = stv) as -> by congruence.
        exists (MkStoredNode n4 (NodeIndex st2)).
        rewrite lookup_insert_eq. split_and!; [done..|].
        split_and!; [done|by eapply sameButAdjacencies_trans| |]; simpl.
        -- intros w.
           pose proof (boundPair_insert_tv tv S o w Hotv) as Hiff.
           destruct (decide (w = o)) as [->|Hwo].
           ++ rewrite Hv4, Hat. simpl. by rewrite decide_True by tauto.
           ++ rewrite Hw4, Hat by done. f_equal. apply decide_ext. tauto.
        -- intros A HA Hcond. apply Hpre4.
           ++ apply Hpt; [done|]. intros w Hw. apply Hcond.
              apply boundPair_insert_tv; tauto.
           ++ intros Hin. rewrite Hat. simpl. apply Hcond; [|done].
              apply boundPair_insert_tv; tauto.
      * assert (s = so) as -> by congruence.
        exists (MkStoredNode n3 (NodeIndex so2)).
        rewrite lookup_insert_ne, lookup_insert_eq by done.
        split_and!; [done..|].
        split_and!; [done|by eapply sameButAdjacencies_trans| |]; simpl.
        -- intros w.
           pose proof (boundPair_insert_o tv S o w Hotv HoS) as Hiff.
           pose proof (boundPair_o tv S o w Hotv HoS) as Hno.
           destruct (decide (w = tv)) as [->|Hwt].
           ++ rewrite Hv3, Hao. simpl. by rewrite decide_True by tauto.
           ++ rewrite Hw3, Hao by done. f_equal. apply decide_ext. tauto.
        -- intros A HA Hcond. apply Hpre3.
           ++ apply Hpo; [done|]. intros w Hw.
              by apply (boundPair_o tv S o w Hotv HoS) in Hw.
           ++ intros Hin. rewrite Hao. simpl. apply Hcond; [|done].
              by apply boundPair_insert_o.
      * destruct (Hnodes v s Hs) as (s' & Hs' & Hi & Hw' & Hsb & Ha & Hp).
        exists s'. rewrite !lookup_insert_ne by done.
        split_and!; [done..|].
        split_and!; [done..| |].
        -- intros w.
           pose proof (boundPair_insert_other tv S o v w Hotv Hvo Hvt)
             as Hiff.
           rewrite Ha. f_equal. apply decide_ext. tauto.
        -- intros A HA Hcond. apply Hp; [done|]. intros w Hw.
           apply Hcond. by apply boundPair_insert_other.
Qed.

Lemma unboundBy_rounds CS fuel tv D g1 :
  ∀ S g2,
    unboundBy tv S g1 g2 → NoDup D → (∀ o, o ∈ D → o ∉ S) → tv ∉ D →
    (∀ o, o ∈ D → fixedBindingTo g1 o tv = true ∧
                   fixedBindingTo g1 tv o = true) →
    ∃ g3,
      forEach D
        (λ o, _ <- lookupNode CS fuel o ;;
              modifyNode o (NodeOps.removeFixedBinding tv) ;;
              modifyNode tv (NodeOps.removeFixedBinding o)) g2
        = Ok (tt, g3) ∧
      unboundBy tv (list_to_set D ∪ S) g1 g3.
Proof.
  induction D as [|o D IH]; intros S g2 Hb Hnd HS Htv Hfl.
  - exists g2. split; [done|].
    by rewrite list_to_set_nil, (left_id_L ∅ (∪)).
  - apply NoDup_cons in Hnd as [Ho Hnd].
    destruct (Hfl o ltac:(set_solver)) as [Hf1 Hf2].
    destruct (unboundBy_step CS fuel tv S o g1 g2 Hb) as (ga & Hround & Hb1);
      [set_solver|set_solver|done..|].
    destruct (IH ({[o]} ∪ S) ga Hb1 Hnd) as (g3 & Hrest & Hb2);
      [set_solver|set_solver|intros; apply Hfl; set_solver|].
    exists g3. split.
    + simpl. unfold bind at 1. by rewrite Hround.
    + rewrite list_to_set_cons.
      by replace ({[o]} ∪ list_to_set D ∪ S)
        with (list_to_set D ∪ ({[o]} ∪ S)) by set_solver.
Qed.

Lemma boundBy_wfGraph tv S g g' : wfGraph g → boundBy tv S g g' → wfGraph g'.
Proof.
  intros Hwf [Hshape Hnodes] v s' Hs'.
  destruct (Nodes g !! v) as [s|] eqn:Hs.
  - destruct (Hnodes v s Hs) as (s'' & Hs'' & _ & Hw & (Ht & _) & _).
    simplify_eq. split; [done|]. rewrite Ht. by apply (Hwf v s).
  - destruct Hshape as (_ & _ & _ & Hnone). rewrite (Hnone v Hs) in Hs'. done.
Qed.

Lemma bound_unbound_node tv S v n n1 n2 :
  wfNode n → boundNode tv S v n n1 → unboundNode tv S v n1 n2 → n2 = n.
Proof.
  intros Hwf (Hwf1 & Hsb1 & Hpre1 & Hadj1) (Hwf2 & Hsb2 & Hadj2 & Hpre2).
  apply wfNode_restored; [done..|by eapply sameButAdjacencies_trans| |].
  - apply Hpre2; [done|]. intros w Hbp Hin.
    destruct (Hadj1 w) as [Ha Hfalse]. rewrite Ha. simpl.
    specialize (Hfalse Hbp).
    apply (indexed_elem_of _ _ _ (wf_adjacencies n Hwf)) in Hin as [i Hi].
    destruct (AdjacencyInfo n !! w) as [a|] eqn:Hslot; [|done].
    pose proof (wf_nonempty n Hwf w a Hslot) as Hne.
    rewrite (adjacencyOf_Some n w a Hslot) in Hfalse |- *. simpl in *.
    unfold Adjacency_empty in Hne. rewrite Hfalse in Hne. simpl in Hne.
    by apply bool_decide_eq_false in Hne.
  - intros w. rewrite Hadj2. destruct (Hadj1 w) as [Ha Hfalse].
    rewrite Ha. simpl. case_decide as Hbp.
    + rewrite <- (Hfalse Hbp). by destruct (adjacencyOf n w).
    + by destruct (adjacencyOf n w).
Qed.

(** X17: in a graph of well-formed nodes that holds the nodes of the
    type variable bound and of the type variables of the fixed type, a
    [bindTypeVariable] that returns has marked a fixed binding between
    the type variable and each type variable of the fixed type, in both
    nodes, where there was none, and changed no other mark and no
    constraint count; it has pushed one [BoundTypeVariable] record when a
    scope is active and the fixed type has type variables.  The matching
    [unbindTypeVariable] then returns, records nothing, and gives back
    exactly the nodes there were, adjacency vectors included. *)
Theorem bindTypeVariable_unbindTypeVariable CS fuel tv fixed g g1 :
  wfGraph g → is_Some (Nodes g !! tv) →
  (∀ o, o ∈ getTypeVariables fixed [] → is_Some (Nodes g !! o)) →
  bindTypeVariable CS fuel tv fixed g = Ok (tt, g1) →
  tv ∉ getTypeVariables fixed [] ∧
  (∀ u v, boundPair tv (list_to_set (getTypeVariables fixed [])) u v →
          fixedBindingTo g u v = false ∧ fixedBindingTo g1 u v = true) ∧
  (∀ u v, ¬ boundPair tv (list_to_set (getTypeVariables fixed [])) u v →
          fixedBindingTo g1 u v = fixedBindingTo g u v) ∧
  (∀ u v, numConstraintsTo g1 u v = numConstraintsTo g u v) ∧
  TypeVariables g1 = TypeVariables g ∧ ActiveScope g1 = ActiveScope g ∧
  Changes g1 =
    Changes g ++
    (if hasTypeVariable fixed then
       match ActiveScope g with
       | Some _ => [BoundTypeVariable tv fixed]
       | None => []
       end
     else []) ∧
  ∃ g2,
    unbindTypeVariable CS fuel tv fixed g1 = Ok (tt, g2) ∧
    Nodes g2 = Nodes g ∧ TypeVariables g2 = TypeVariables g ∧
    Changes g2 = Changes g1 ∧ ActiveScope g2 = ActiveScope g.
Proof.
  intros Hwf Htv Hex Hrun.
  unfold bindTypeVariable, bindTypeVariableWith in Hrun.
  unfold unbindTypeVariable.
  destruct (hasTypeVariable fixed) eqn:Hhas.
  2:{ destruct fixed; [|done]. injection Hrun as <-.
      unfold getTypeVariables. simpl.
      split_and!; try done; try set_solver.
      all: try (by rewrite app_nil_r).
      all: try (by exists g).
      intros u v Hbp. unfold boundPair in Hbp. set_solver. }
  set (F := getTypeVariables fixed []) in *.
  destruct Htv as [stv Hstv].
  apply bind_Ok in Hrun as (a & g0 & Hlook & Hrun).
  rewrite (lookupNode_existing _ _ _ _ _ Hstv) in Hlook.
  injection Hlook as <- <-.
  apply bind_Ok in Hrun as ([] & gL & Hloop & Hrec).
  rewrite bindLoop_forEach in Hloop.
  set (D := removeKnown ∅ F) in *.
  destruct (removeKnown_spec ∅ F) as [Hnd HD]. fold D in Hnd, HD.
  assert (list_to_set D = (list_to_set F : gset TypeVariableType)) as HDF.
  { apply set_eq. intros x. rewrite !elem_of_list_to_set, HD. set_solver. }
  destruct (boundBy_rounds CS fuel tv D g Hwf (ex_intro _ stv Hstv)
              ∅ g gL (boundBy_refl tv g Hwf) Hnd)
    as [HtvD Hb]; [set_solver| |exact Hloop|].
  { intros o Ho. apply Hex. apply HD in Ho. tauto. }
  rewrite (right_id_L ∅ (∪)), HDF in Hb.
  pose proof (boundBy_wfGraph _ _ _ _ Hwf Hb) as HwfL.
  destruct Hb as [(HTL & HCL & HAL & HnoneL) HnodesL].
  assert (Nodes g1 = Nodes gL ∧ TypeVariables g1 = TypeVariables gL ∧
          ActiveScope g1 = ActiveScope gL ∧
          Changes g1 = Changes gL ++
            match ActiveScope gL with
            | Some _ => [BoundTypeVariable tv fixed]
            | None => []
            end) as (HN1 & HT1 & HA1 & HC1).
  { unfold recordChange in Hrec. destruct (ActiveScope gL) eqn:Hsc;
      injection Hrec as <-; simpl; [done|]. by rewrite app_nil_r. }
  assert (∀ u v,
    fixedBindingTo g1 u v =
      (if decide (boundPair tv (list_to_set F) u v) then true
       else fixedBindingTo g u v) ∧
    (boundPair tv (list_to_set F) u v → fixedBindingTo g u v = false) ∧
    numConstraintsTo g1 u v = numConstraintsTo g u v) as Hflags.
  { intros u v. unfold fixedBindingTo, numConstraintsTo. rewrite HN1.
    destruct (Nodes g !! u) as [s|] eqn:Hs.
    - destruct (HnodesL u s Hs) as (s' & -> & _ & _ & _ & _ & Hadj).
      destruct (Hadj v) as [-> Hf]. simpl. done.
    - rewrite (HnoneL u Hs).
      assert (¬ boundPair tv (list_to_set F) u v) as Hno.
      { intros [[-> _]|[_ Hu]]; [congruence|].
        apply elem_of_list_to_set in Hu. destruct (Hex u Hu). congruence. }
      by rewrite decide_False. }
  assert (tv ∉ F) as HtvF by (intros Hin; apply HtvD, HD; set_solver).
  split_and!; [done| | | |congruence|congruence| |].
  - intros u v Hbp. destruct (Hflags u v) as (-> & Hf & _).
    rewrite decide_True by done. split; [by apply Hf|done].
  - intros u v Hbp. destruct (Hflags u v) as (-> & _).
    by rewrite decide_False.
  - intros u v. by destruct (Hflags u v) as (_ & _ & ?).
  - rewrite HC1, HCL, HAL. done.
  - assert (wfGraph g1) as Hwf1.
    { intros v s. rewrite HN1. apply HwfL. }
    destruct (unboundBy_rounds CS fuel tv D g1 ∅ g1
                (unboundBy_refl tv g1 Hwf1) Hnd) as (g2 & Hun & Hub);
      [set_solver|done| |].
    { intros o Ho.
      assert (o ∈ F) as HoF by (apply HD in Ho; tauto).
      assert (o ≠ tv) as Hotv by congruence.
      split.
      - destruct (Hflags o tv) as (-> & _). rewrite decide_True; [done|].
        right. split; [done|]. by apply elem_of_list_to_set.
      - destruct (Hflags tv o) as (-> & _). rewrite decide_True; [done|].
        left. split; [done|]. by apply elem_of_list_to_set. }
    rewrite (right_id_L ∅ (∪)), HDF in Hub.
    destruct Hub as [(HT2 & HC2 & HA2 & Hnone2) Hnodes2].
    exists g2. split_and!; [|
      |congruence|done|congruence].
    + assert (Nodes g1 !! tv = Some
                (default stv (Nodes g1 !! tv))) as Hst1.
      { rewrite HN1. destruct (HnodesL tv stv Hstv) as (s' & -> & _). done. }
      unfold bind at 1. rewrite (lookupNode_existing _ _ _ _ _ Hst1).
      rewrite unbindLoop_forEach. exact Hun.
    + apply map_eq. intros v.
      destruct (Nodes g !! v) as [s|] eqn:Hs.
      * destruct (HnodesL v s Hs) as (s1 & Hs1 & Hi1 & Hb1).
        rewrite <- HN1 in Hs1.
        destruct (Hnodes2 v s1 Hs1) as (s2 & Hs2 & Hi2 & Hb2).
        rewrite Hs2. f_equal.
        destruct (Hwf v s Hs) as [Hw _].
        pose proof (bound_unbound_node _ _ _ _ _ _ Hw Hb1 Hb2) as Hn.
        destruct s2, s. simpl in *. congruence.
      * apply Hnone2. rewrite HN1. by apply HnoneL.
Qed.

Lemma bindTypeVariable_unbindTypeVariable_witness :
  1 ∉ getTypeVariables [0] [] ∧
  (∀ u v, boundPair 1 (list_to_set (getTypeVariables [0] [])) u v →
          fixedBindingTo Examples.g01scoped u v = false ∧
          fixedBindingTo Binding.bound u v = true) ∧
  (∀ u v, ¬ boundPair 1 (list_to_set (getTypeVariables [0] [])) u v →
          fixedBindingTo Binding.bound u v =
            fixedBindingTo Examples.g01scoped u v) ∧
  (∀ u v, numConstraintsTo Binding.bound u v =
          numConstraintsTo Examples.g01scoped u v) ∧
  TypeVariables Binding.bound = TypeVariables Examples.g01scoped ∧
  ActiveScope Binding.bound = ActiveScope Examples.g01scoped ∧
  Changes Binding.bound =
    Changes Examples.g01scoped ++
    (if hasTypeVariable [0] then
       match ActiveScope Examples.g01scoped with
       | Some _ => [BoundTypeVariable 1 [0]]
       | None => []
       end
     else []) ∧
  ∃ g2,
    unbindTypeVariable Examples.csFree 0 1 [0] Binding.bound = Ok (tt, g2) ∧
    Nodes g2 = Nodes Examples.g01scoped ∧
    TypeVariables g2 = TypeVariables Examples.g01scoped ∧
    Changes g2 = Changes Binding.bound ∧
    ActiveScope g2 = ActiveScope Examples.g01scoped.
Proof.
  apply (bindTypeVariable_unbindTypeVariable Examples.csFree 0 1 [0]
           Examples.g01scoped Binding.bound).
  - intros v s Hs. apply (wfGraph_g01 v s). exact Hs.
  - by vm_compute; eauto.
  - intros o Ho. unfold getTypeVariables in Ho. simpl in Ho.
    apply list_elem_of_singleton in Ho as ->. by vm_compute; eauto.
  - by vm_compute.
Defined.

(** ** Connected components: what a component is *)

Lemma seededNode_trans n1 n2 n3 :
  seededNode n1 n2 → seededNode n2 n3 → seededNode n1 n3.
Proof.
  intros [-> | ->] [-> | ->]; [by left|by right|by right|].
  right. unfold NodeOps.getEquivalenceClassUnsafe.
  destruct (EquivalenceClass n1) as [|m l] eqn:Hcls; simpl; [done|].
  by rewrite Hcls.
Qed.

Lemma seeded_refl g : seeded g g.
Proof.
  split; try done. intros v s Hv. exists s. split; [done|].
  split; [done|by left].
Qed.

Lemma seeded_sameSearch g g' : seeded g g' → sameSearch g g'.
Proof.
  intros [HT _ _ _ HN]. split; [done|]. intros v s Hv.
  destruct (HN v s Hv) as (s' & Hs' & Hi & [Heq | Heq]);
    exists s'; (split; [done|]); (split; [done|]); rewrite Heq; [done|].
  apply getEquivalenceClassUnsafe_seeded.
Qed.

Lemma seeded_withNode {A} g0 g v (f : Node → option (A * Node)) a g' :
  seeded g0 g → withNode v f g = Ok (a, g') →
  (∀ n a n', f n = Some (a, n') → seededNode n n') →
  seeded g0 g'.
Proof.
  intros [HT HC HS Hnone HN] (s & a' & n' & Hs & Hf & ?)%withNode_Ok Hseed.
  simplify_eq. split; simpl; try done.
  - intros w Hw. destruct (decide (v = w)) as [->|Hne].
    + rewrite (Hnone w Hw) in Hs. done.
    + rewrite lookup_insert_ne by done. by apply Hnone.
  - intros w sw Hw. destruct (HN w sw Hw) as (s' & Hs' & Hi & Hsd).
    destruct (decide (v = w)) as [->|Hne].
    + rewrite lookup_insert_eq. eexists. split; [done|]. simpl.
      simplify_eq. split; [done|].
      eapply seededNode_trans; [done|]. by eapply Hseed.
    + rewrite lookup_insert_ne by done. by exists s'.
Qed.

Section Components.
Variable CS : ConstraintSystem.
Variable g0 : ConstraintGraph.
Hypothesis Hs : searchable CS g0.

Lemma reaches_listed v w :
  v ∈ TypeVariables g0 → reaches CS g0 v w → w ∈ TypeVariables g0.
Proof using Hs.
  intros Hv Hr. induction Hr as [|x y z Hxy _ IH]; [done|].
  apply IH. by eapply sr_closed.
Qed.

Lemma reaches_sym v w :
  v ∈ TypeVariables g0 → reaches CS g0 v w → reaches CS g0 w v.
Proof using Hs.
  intros Hv Hr. induction Hr as [|x y z Hxy _ IH]; [done|].
  assert (y ∈ TypeVariables g0) as Hy by by eapply sr_closed.
  etrans; [by apply IH|]. apply rtc_once. by eapply sr_symmetric.
Qed.

Lemma visitAdjacencies_reached dfs fuel c x :
  marksReached CS g0 c dfs → x ∈ TypeVariables g0 →
  ∀ ws comps g comps' g',
    seeded g0 g → (∀ w, w ∈ ws → w ∈ searchEdges CS g0 x) →
    visitAdjacenciesWith CS dfs fuel c ws comps g = Ok (comps', g') →
    seeded g0 g' ∧
    ∀ y m, y ∈ TypeVariables g0 → markOf g0 comps' y = Some m →
      markOf g0 comps y = Some m ∨ (m = c ∧ reaches CS g0 x y).
Proof using Hs.
  intros Hdfs Hx. induction ws as [|w ws IH];
    intros comps g comps' g' Hg Hws Hrun.
  { assert (comps = comps' ∧ g = g') as [<- <-] by (by injection Hrun). split; [done|]. intros; by left. }
  assert (w ∈ searchEdges CS g0 x) as Hwx by (apply Hws; left).
  assert (w ∈ TypeVariables g0) as Hw by by eapply sr_closed.
  destruct (listed_node CS g0 Hs w Hw) as (s & Hsw & Hiw & Htw).
  destruct (proj2 (seeded_sameSearch _ _ Hg) w s Hsw) as (s' & Hs' & Hidx & _).
  simpl in Hrun. unfold bind at 1 in Hrun.
  rewrite (lookupNode_known _ _ _ _ _ Hs') in Hrun. simpl in Hrun.
  rewrite Hidx in Hrun.
  destruct (comps !! NodeIndex s) as [cur|] eqn:Hcur; [|done].
  destruct (decide (cur = c)) as [->|Hcc].
  { eapply IH; [done| |done]. intros; apply Hws; by right. }
  destruct (decide (cur = length comps)) as [->|Hcn]; [|done].
  apply bind_Ok in Hrun as (comps2 & g2 & Hrun2 & Hrun).
  destruct (Hdfs _ _ _ _ _ Hg Hw Hrun2) as [Hg2 Hnew2].
  assert (∀ w', w' ∈ ws → w' ∈ searchEdges CS g0 x) as Hws'
    by (intros; apply Hws; by right).
  destruct (IH _ _ _ _ Hg2 Hws' Hrun) as [Hg' Hnew].
  split; [done|]. intros y m Hy Hm.
  destruct (Hnew y m Hy Hm) as [Hm2|?]; [|by right].
  destruct (Hnew2 y m Hy Hm2) as [Hm1|[-> Hr]].
  - destruct (decide (y = w)) as [->|Hyw].
    + rewrite markOf_insert_eq in Hm1; [|done|by eapply lookup_lt_Some].
      simplify_eq. right. split; [done|]. by apply rtc_once.
    + rewrite (markOf_insert_ne CS g0 Hs y w) in Hm1 by done. by left.
  - right. split; [done|]. by eapply rtc_l.
Qed.

Lemma connectedComponentsDFS_reached fuel c depth :
  marksReached CS g0 c
    (λ adj comps, connectedComponentsDFS CS depth fuel adj c comps).
Proof using Hs.
  induction depth as [|depth IH]; intros v comps g comps' g' Hg Hv Hrun;
    [done|].
  rewrite connectedComponentsDFS_S in Hrun; cbv zeta in Hrun.
  destruct (listed_node CS g0 Hs v Hv) as (s & Hsv & Hiv & Htv).
  assert (searchEdges CS g0 v =
            Adjacencies (NodePtr s) ++
            (if decide (getRepresentative CS v = v)
             then drop 1 (NodeOps.getEquivalenceClassUnsafe (NodePtr s)).1
             else [getRepresentative CS v])) as Hedges
    by (unfold searchEdges; by rewrite Hsv).
  assert (∀ A (f : Node → A) g1 a g2,
            seeded g0 g1 →
            withNode v (λ n, Some (f n, n)) g1 = Ok (a, g2) →
            seeded g0 g2) as Hread.
  { intros A f g1 a g2 Hg1 Hrun1. eapply seeded_withNode; [done..|].
    intros n a' n' Hf. left. by injection Hf. }
  (* the adjacencies *)
  pose proof (seeded_sameSearch _ _ Hg) as Hss.
  destruct (proj2 Hss v s Hsv) as (s1 & Hs1 & _ & _ & Hadj1 & _).
  destruct (withNode_searched g0 g v s1 (λ n, Some (Adjacencies n, n)) _ _
              Hss Hs1 eq_refl) as (g1 & Hrun1 & _); [done..|].
  pose proof (Hread _ _ _ _ _ Hg Hrun1) as Hg1.
  unfold bind at 1 in Hrun. rewrite Hrun1 in Hrun.
  apply bind_Ok in Hrun as (compsA & gA & HrunA & Hrun).
  assert (∀ w, w ∈ Adjacencies (NodePtr s1) → w ∈ searchEdges CS g0 v)
    as HwsA by (intros w Hw; rewrite Hedges, <-Hadj1; set_solver).
  destruct (visitAdjacencies_reached _ fuel c v IH Hv _ _ _ _ _ Hg1 HwsA
              HrunA) as [HgA HnewA].
  (* the type variable *)
  pose proof (seeded_sameSearch _ _ HgA) as HssA.
  destruct (proj2 HssA v s Hsv) as (s2 & Hs2 & _ & Htv2 & _ & _).
  destruct (withNode_searched g0 gA v s2 (λ n, Some (TypeVar n, n)) _ _
              HssA Hs2 eq_refl) as (g2 & Hrun2 & _); [done..|].
  pose proof (Hread _ _ _ _ _ HgA Hrun2) as Hg2.
  unfold bind at 1 in Hrun. rewrite Hrun2 in Hrun.
  rewrite Htv2, Htv in Hrun.
  (* the equivalence class, or the representative *)
  assert (seeded g0 g' ∧
          ∀ y m, y ∈ TypeVariables g0 → markOf g0 comps' y = Some m →
            markOf g0 compsA y = Some m ∨ (m = c ∧ reaches CS g0 v y))
    as [Hg' HnewB].
  { destruct (decide (getRepresentative CS v = v)) as [Hrep|Hrep].
    - pose proof (seeded_sameSearch _ _ Hg2) as Hss2.
      destruct (proj2 Hss2 v s Hsv) as (s3 & Hs3 & _ & Htv3 & _ & Hcls3).
      destruct (withNode_searched g0 g2 v s3
                  (NodeOps.getEquivalenceClass (getRepresentative CS))
                  (NodeOps.getEquivalenceClassUnsafe (NodePtr s3)).1
                  (NodeOps.getEquivalenceClassUnsafe (NodePtr s3)).2
                  Hss2 Hs3) as (g3 & Hrun3 & _);
        try apply getEquivalenceClassUnsafe_seeded.
      { unfold NodeOps.getEquivalenceClass.
        rewrite Htv3, Htv, decide_True by done.
        by destruct (NodeOps.getEquivalenceClassUnsafe (NodePtr s3)). }
      assert (seeded g0 g3) as Hg3.
      { eapply seeded_withNode; [done..|]. intros n a' n' Hf.
        unfold NodeOps.getEquivalenceClass in Hf.
        case_decide; [|done]. right.
        destruct (NodeOps.getEquivalenceClassUnsafe n). by simplify_eq. }
      unfold bind at 1 in Hrun. rewrite Hrun3 in Hrun.
      eapply (visitAdjacencies_reached _ fuel c v IH Hv); [done| |done].
      intros w Hw. rewrite Hedges, <-Hcls3. set_solver.
    - eapply (visitAdjacencies_reached _ fuel c v IH Hv); [done| |done].
      intros w Hw. rewrite Hedges. set_solver. }
  split; [done|]. intros y m Hy Hm.
  destruct (HnewB y m Hy Hm) as [HmA|?]; [|by right]. by apply HnewA.
Qed.

Lemma assignComponents_components fuel :
  ∀ idxs comps k g comps' k' g',
    seeded g0 g →
    (∀ i, i ∈ idxs → i < length (TypeVariables g0)) →
    length comps = length (TypeVariables g0) →
    Forall (λ m, m = length (TypeVariables g0) ∨ m < k) comps →
    closedBelow CS g0 k comps →
    connectedBelow CS g0 k comps →
    k + pending (length (TypeVariables g0)) comps
      ≤ length (TypeVariables g0) →
    assignComponents CS fuel (length (TypeVariables g0)) idxs comps k g =
      Ok ((comps', k'), g') →
    seeded g0 g' ∧
    closedBelow CS g0 k' comps' ∧ connectedBelow CS g0 k' comps'.
Proof using Hs.
  induction idxs as [|i idxs IH];
    intros comps k g comps' k' g' Hg Hidxs Hlen Hb Hcl Hcn Hp Hrun.
  { assert (comps = comps' ∧ k = k' ∧ g = g') as (<- & <- & <-)
      by (by injection Hrun).
    done. }
  pose proof (seeded_sameSearch _ _ Hg) as Hss.
  assert (i < length (TypeVariables g0)) as Hi by (apply Hidxs; left).
  destruct (lookup_lt_is_Some_2 (TypeVariables g0) i Hi) as [v Hv].
  destruct (sr_listed _ _ Hs i v Hv) as (s & Hsv & Hidx & Htv).
  destruct (proj2 Hss v s Hsv) as (s' & Hs' & Hidx' & _).
  assert (v ∈ TypeVariables g0) as Hvin by by eapply list_elem_of_lookup_2.
  destruct (lookup_lt_is_Some_2 comps i ltac:(lia)) as [cur Hcur].
  assert (∀ rest : TypeVariableType → M (list nat * nat),
            bind (λ g, of_option ((λ tv, (tv, g)) <$> TypeVariables g !! i))
              rest g = rest v g) as Hread.
  { intros rest. unfold bind. by rewrite (proj1 Hss), Hv. }
  simpl in Hrun. rewrite Hread in Hrun. unfold bind at 1 in Hrun.
  rewrite (lookupNode_known _ _ _ _ _ Hs') in Hrun. simpl in Hrun.
  rewrite Hidx', Hidx, Hcur in Hrun.
  assert (∀ j, j ∈ idxs → j < length (TypeVariables g0)) as Hidxs'
    by (intros; apply Hidxs; by right).
  destruct (decide (cur = length (TypeVariables g0))) as [->|Hne];
    [|by eapply (IH comps k g)].
  set (comps1 := <[i := k]> comps) in *.
  pose proof (marksGrow_insert _ k _ _ Hcur) as Hg1. fold comps1 in Hg1.
  assert (k < length (TypeVariables g0)) as Hk.
  { assert (S (length (TypeVariables g0)) ≠ length (TypeVariables g0))
      as Hne by lia.
    pose proof (pending_insert _ _ comps i Hne Hcur). lia. }
  assert (k ≠ length (TypeVariables g0)) as Hkn by lia.
  pose proof (pending_insert _ k comps i Hkn Hcur) as Hp1. fold comps1 in Hp1.
  assert (markOf g0 comps1 v = Some k) as Hmv.
  { unfold comps1. rewrite <-Hidx. apply markOf_insert_eq; [done|].
    rewrite Hidx. lia. }
  destruct (connectedComponentsDFS_searches CS g0 Hs fuel k
              (length (TypeVariables g0)) Hk v comps1 g)
    as (comps2 & g2 & Hrun2 & _ & Hgrow2 & Hnew2); try done.
  { unfold comps1. by rewrite length_insert. }
  { apply (bounded_grow g0 k comps comps1); [done|].
    eapply Forall_impl; [done|]. simpl; intros; lia. }
  { by eapply closedBelow_grow. }
  { lia. }
  unfold bind at 1 in Hrun. rewrite Hrun2 in Hrun. simpl in Hrun.
  destruct (connectedComponentsDFS_reached fuel k _ _ _ _ _ _ Hg Hvin Hrun2)
    as [Hg2 Hreach].
  assert (marksGrow (length (TypeVariables g0)) k comps comps2) as Hg02
    by by eapply marksGrow_trans.
  assert (∀ y m, y ∈ TypeVariables g0 → markOf g0 comps2 y = Some m →
            (markOf g0 comps y = Some m ∧
             (m = length (TypeVariables g0) ∨ m < k)) ∨
            (m = k ∧ reaches CS g0 v y)) as Hsplit.
  { intros y m Hy Hm. destruct (Hreach y m Hy Hm) as [Hm1|?]; [|by right].
    destruct (decide (y = v)) as [->|Hyv].
    { right. rewrite Hmv in Hm1. by simplify_eq. }
    unfold comps1 in Hm1. rewrite <-Hidx in Hm1.
    rewrite (markOf_insert_ne CS g0 Hs y v) in Hm1 by done.
    left. split; [done|]. unfold markOf in Hm1.
    destruct (Nodes g0 !! y) as [sy|]; [|done]. simpl in Hm1.
    apply (proj1 (Forall_lookup _ _) Hb _ _ Hm1). }
  apply (IH comps2 (S k) g2 comps' k' g'); try done.
  { by rewrite (marksGrow_length _ _ _ _ Hg02). }
  { eapply Forall_impl; [apply (bounded_grow g0 k comps comps2); [done|]|].
    - eapply Forall_impl; [done|]. simpl; intros; lia.
    - simpl; intros; lia. }
  { intros y w m Hy Hw Hm Hlt.
    destruct (decide (m = k)) as [->|Hmk].
    2:{ eapply (closedBelow_grow CS g0 k comps comps2); [done..|lia]. }
    apply (Hnew2 y); [done..| |done].
    destruct (Hsplit y k Hy Hm) as [[Hm0 ?]|_]; [lia|].
    destruct (decide (y = v)) as [->|Hyv]; [by right|left].
    destruct (markOf_grow_r _ _ _ _ _ _ Hgrow2 Hm) as [Hm1|[Hm1 _]]; [|done].
    exfalso. unfold comps1 in Hm1. rewrite <-Hidx in Hm1.
    rewrite (markOf_insert_ne CS g0 Hs y v) in Hm1 by done.
    unfold markOf in Hm1. destruct (Nodes g0 !! y) as [sy|]; [|done].
    simpl in Hm1.
    pose proof (proj1 (Forall_lookup _ _) Hb _ _ Hm1) as Hle.
    simpl in Hle. lia. }
  { intros y w m Hy Hw Hmy Hmw Hlt.
    destruct (Hsplit y m Hy Hmy) as [[Hy0 Hym]|[Hyk Hvy]];
      destruct (Hsplit w m Hw Hmw) as [[Hw0 Hwm]|[Hwk Hvw]]; try lia.
    - apply (Hcn y w m); [done..|lia].
    - etrans; [|done]. by apply reaches_sym. }
  { pose proof (marksGrow_pending _ _ _ _ Hkn Hgrow2). lia. }
Qed.

End Components.

Lemma renumber_inj has idxs ren0 k0 ren k c c' r :
  renumber has idxs ren0 k0 = Some (ren, k) → NoDup idxs →
  c ∈ idxs → c' ∈ idxs →
  has !! c = Some true → has !! c' = Some true →
  ren !! c = Some r → ren !! c' = Some r → c = c'.
Proof.
  revert ren0 k0. induction idxs as [|c0 idxs IH];
    intros ren0 k0 Hrun Hnd Hc Hc' Hh Hh' Hr Hr'; [set_solver|].
  simpl in Hrun. apply NoDup_cons in Hnd as [Hc0 Hnd].
  destruct (has !! c0) as [[]|] eqn:Hhas; [| |done]; simpl in Hrun.
  - destruct (decide (c0 < length ren0)) as [Hlt|]; [|done].
    destruct (renumber_spec _ _ _ _ _ _ Hrun Hnd)
      as (_ & _ & Hout & Hin & _).
    assert (ren !! c0 = Some k0) as Hr0.
    { rewrite Hout by done. by rewrite list_lookup_insert_eq. }
    apply elem_of_cons in Hc as [->|Hc]; apply elem_of_cons in Hc' as [->|Hc'].
    + done.
    + destruct (Hin c' Hc' Hh') as (r' & ? & ?). simplify_eq. lia.
    + destruct (Hin c Hc Hh) as (r' & ? & ?). simplify_eq. lia.
    + by eapply IH.
  - apply elem_of_cons in Hc as [->|Hc]; [congruence|].
    apply elem_of_cons in Hc' as [->|Hc']; [congruence|].
    by eapply IH.
Qed.

Lemma lookup_fst_snd {A B} (L : list (A * B)) j a b :
  L.*1 !! j = Some a → L.*2 !! j = Some b → L !! j = Some (a, b).
Proof.
  rewrite !list_lookup_fmap. destruct (L !! j) as [[a' b']|]; [|done].
  simpl. by intros [= ->] [= ->].
Qed.

(** X18: on a searchable graph [computeConnectedComponents] returns the
    connected components of the graph among the reported type
    variables: whatever an edge of the search (an adjacency, a member of
    the equivalence class, the representative) leads to from a reported
    type variable is reported too, with the same component index, and two
    reported type variables have the same component index exactly when
    a path of such edges joins them. *)
Theorem computeConnectedComponents_connected CS fuel typeVars g :
  searchable CS g →
  ∃ tvs comps n g',
    computeConnectedComponents CS fuel typeVars g =
      Ok ((tvs, comps, n), g') ∧
    (∀ j v c w, tvs !! j = Some v → comps !! j = Some c →
       w ∈ searchEdges CS g v →
       ∃ j', tvs !! j' = Some w ∧ comps !! j' = Some c) ∧
    (∀ j j' v w c c', tvs !! j = Some v → comps !! j = Some c →
       tvs !! j' = Some w → comps !! j' = Some c' →
       c = c' ↔ reaches CS g v w).
Proof.
  intros Hs.
  destruct (computeConnectedComponents_returns CS fuel typeVars g Hs)
    as ([[tvs comps] n] & g' & Hrun).
  exists tvs, comps, n, g'. split; [done|].
  destruct (computeConnectedComponents_Ok_partition _ _ _ _ _ _ _ _ Hrun)
    as (_ & _ & Hsubl & Hnd & _).
  specialize (Hnd (searchable_NoDup _ _ Hs)).
  unfold computeConnectedComponents in Hrun.
  apply bind_Ok in Hrun as ([comps1 numC] & g1 & Hassign & Hrun).
  destruct (assignComponents_searches CS g Hs fuel
              (seq 0 (length (TypeVariables g)))
              (replicate (length (TypeVariables g))
                 (length (TypeVariables g))) 0 g)
    as (comps1' & k' & g1' & Hassign' & Hg1 & Hlen1 & Hb & Hdone & _).
  { apply sameSearch_refl. }
  { by intros i [_ ?]%elem_of_seq. }
  { by rewrite length_replicate. }
  { apply Forall_replicate. by left. }
  { intros v w m _ _ _ Hm. lia. }
  { unfold pending. pose proof (length_filter
      (λ m, m = length (TypeVariables g))
      (replicate (length (TypeVariables g)) (length (TypeVariables g)))) as H.
    rewrite length_replicate in H. lia. }
  rewrite Hassign in Hassign'. simplify_eq.
  destruct (assignComponents_components CS g Hs fuel
              (seq 0 (length (TypeVariables g)))
              (replicate (length (TypeVariables g))
                 (length (TypeVariables g))) 0 g comps1' k' g1')
    as (_ & Hclosed & Hconn); [| | | | | | |done|].
  { apply seeded_refl. }
  { by intros i [_ ?]%elem_of_seq. }
  { by rewrite length_replicate. }
  { apply Forall_replicate. by left. }
  { intros v w m _ _ _ Hm. lia. }
  { intros v w m _ _ _ _ Hm. lia. }
  { unfold pending. pose proof (length_filter
      (λ m, m = length (TypeVariables g))
      (replicate (length (TypeVariables g)) (length (TypeVariables g)))) as H.
    rewrite length_replicate in H. lia. }
  assert (∀ i v, TypeVariables g !! i = Some v →
            ∃ c, comps1' !! i = Some c ∧ c < k' ∧
                 markOf g comps1' v = Some c) as Hmarks.
  { intros i v Hi.
    destruct (sr_listed _ _ Hs i v Hi) as (s & Hsv & Hidx & _).
    destruct (lookup_lt_is_Some_2 comps1' i) as [c Hc].
    { rewrite Hlen1. by eapply lookup_lt_Some. }
    exists c. split; [done|]. split.
    - pose proof (proj1 (Forall_lookup _ _) Hb _ _ Hc) as Hle.
      simpl in Hle. destruct Hle as [->|?]; [|done].
      exfalso. apply (Hdone i); [|done]. apply elem_of_seq.
      apply lookup_lt_Some in Hi. lia.
    - unfold markOf. rewrite Hsv. simpl. by rewrite Hidx. }
  rewrite (proj1 Hg1) in Hrun.
  destruct (markUnbound CS (list_to_set typeVars) (TypeVariables g) comps1'
              (seq 0 (length (TypeVariables g))) (replicate k' false))
    as [has|] eqn:Hmark; [|done]. simpl in Hrun.
  destruct (renumber has (seq 0 (length has)) (replicate k' 0) 0)
    as [[ren n']|] eqn:Hren; [|done]. simpl in Hrun.
  destruct (copyLive (TypeVariables g) has ren
              (seq 0 (length (TypeVariables g))) [] comps1' 0)
    as [[[tvs' comps'] out]|] eqn:Hcopy; [|done]. simpl in Hrun.
  simplify_eq.
  destruct (copyLive_spec _ _ _ comps1' _ _ _ _ _ _ _ _ Hcopy)
    as (Htvs & Htake & _); [done..|].
  simpl in Htvs, Htake. rewrite Htake, Htvs in *. clear Htake Htvs Hcopy.
  set (L := omap (liveAt (TypeVariables g) has ren comps1')
              (seq 0 (length (TypeVariables g)))) in *.
  assert (∀ v r, (v, r) ∈ L ↔
            ∃ k, liveAt (TypeVariables g) has ren comps1' k = Some (v, r))
    as HL.
  { intros v r. unfold L. rewrite list_elem_of_omap. split.
    - intros (k & _ & Hk). eauto.
    - intros (k & Hk). exists k. split; [|done].
      apply liveAt_Some in Hk as (c & _ & _ & Hv & _).
      apply lookup_lt_Some in Hv. apply elem_of_seq. lia. }
  assert (∀ j v r, L.*1 !! j = Some v → L.*2 !! j = Some r →
            ∃ c0, markOf g comps1' v = Some c0 ∧ c0 < k' ∧
                  has !! c0 = Some true ∧ ren !! c0 = Some r ∧
                  v ∈ TypeVariables g) as Hlive.
  { intros j v r Hv Hr.
    pose proof (lookup_fst_snd _ _ _ _ Hv Hr) as Hj.
    apply list_elem_of_lookup_2, HL in Hj
      as (i & (c0 & Hc0 & Hh & Hi & Hr0)%liveAt_Some).
    destruct (Hmarks i v Hi) as (c & Hc & Hlt & Hm).
    assert (c = c0) as -> by congruence.
    exists c0. split_and!; try done. by eapply list_elem_of_lookup_2. }
  assert (∀ w c0 r, w ∈ TypeVariables g → markOf g comps1' w = Some c0 →
            has !! c0 = Some true → ren !! c0 = Some r →
            ∃ j', L.*1 !! j' = Some w ∧ L.*2 !! j' = Some r) as Hback.
  { intros w c0 r [i Hi]%list_elem_of_lookup Hm Hh Hr.
    destruct (Hmarks i w Hi) as (c & Hc & _ & Hm').
    assert (c = c0) as -> by congruence.
    assert ((w, r) ∈ L) as [j' Hj']%list_elem_of_lookup.
    { apply HL. exists i. apply liveAt_Some. by exists c0. }
    exists j'. rewrite !list_lookup_fmap, Hj'. done. }
  assert (∀ j v c w, L.*1 !! j = Some v → L.*2 !! j = Some c →
            w ∈ searchEdges CS g v →
            ∃ j', L.*1 !! j' = Some w ∧ L.*2 !! j' = Some c) as Hedge.
  { intros j v r w Hv Hr Hw.
    destruct (Hlive j v r Hv Hr) as (c0 & Hm & Hlt & Hh & Hr0 & Hin).
    apply (Hback w c0 r); [by eapply sr_closed| |done..].
    by eapply Hclosed. }
  split; [done|].
  intros j j' v w c c' Hv Hc Hw Hc'. split.
  - intros <-.
    destruct (Hlive j v c Hv Hc) as (c0 & Hm & Hlt & Hh & Hr0 & Hin).
    destruct (Hlive j' w c Hw Hc') as (c1 & Hm1 & Hlt1 & Hh1 & Hr1 & Hin1).
    assert (c0 = c1) as <-.
    { apply markUnbound_spec in Hmark as (Hlenh & _).
      rewrite length_replicate in Hlenh.
      eapply (renumber_inj _ _ _ _ _ _ c0 c1 c Hren); try done.
      - apply NoDup_seq.
      - apply elem_of_seq. lia.
      - apply elem_of_seq. lia. }
    by eapply Hconn.
  - intros Hreach. revert j c Hv Hc.
    induction Hreach as [x|x y z Hxy _ IH]; intros j c Hv Hc.
    + assert (j = j') as ->; [|congruence].
      by eapply NoDup_lookup.
    + destruct (Hedge j x c y Hv Hc Hxy) as (j1 & Hy & Hcy).
      by eapply IH.
Qed.

Lemma computeConnectedComponents_connected_witness :
  ∃ tvs comps n g',
    computeConnectedComponents Examples.csFree 0 [] Scenario.graph =
      Ok ((tvs, comps, n), g') ∧
    (∀ j v c w, tvs !! j = Some v → comps !! j = Some c →
       w ∈ searchEdges Examples.csFree Scenario.graph v →
       ∃ j', tvs !! j' = Some w ∧ comps !! j' = Some c) ∧
    (∀ j j' v w c c', tvs !! j = Some v → comps !! j = Some c →
       tvs !! j' = Some w → comps !! j' = Some c' →
       c = c' ↔ reaches Examples.csFree Scenario.graph v w).
Proof.
  apply (computeConnectedComponents_connected Examples.csFree 0 []
           Scenario.graph).
  apply scenario_searchable. reflexivity.
Defined.

(** X19: on a searchable graph [computeConnectedComponents] returns and
    leaves the graph as it was up to seeded equivalence classes: the
    type variables, the change log and the active scope are unchanged,
    no node is created or removed, no node changes position, and a node
    differs at most in that its empty equivalence class now holds its own
    type variable. *)
Theorem computeConnectedComponents_seeds CS fuel typeVars g :
  searchable CS g →
  ∃ r g', computeConnectedComponents CS fuel typeVars g = Ok (r, g') ∧
          seeded g g'.
Proof.
  intros Hs.
  destruct (computeConnectedComponents_returns CS fuel typeVars g Hs)
    as (r & g' & Hrun).
  exists r, g'. split; [done|].
  unfold computeConnectedComponents in Hrun.
  apply bind_Ok in Hrun as ([comps1 numC] & g1 & Hassign & Hrun).
  destruct (assignComponents_components CS g Hs fuel
              (seq 0 (length (TypeVariables g)))
              (replicate (length (TypeVariables g))
                 (length (TypeVariables g))) 0 g comps1 numC g1)
    as (Hseeded & _); [| | | | | | |done|].
  { apply seeded_refl. }
  { by intros i [_ ?]%elem_of_seq. }
  { by rewrite length_replicate. }
  { apply Forall_replicate. by left. }
  { intros v w m _ _ _ Hm. lia. }
  { intros v w m _ _ _ _ Hm. lia. }
  { unfold pending. pose proof (length_filter
      (λ m, m = length (TypeVariables g))
      (replicate (length (TypeVariables g)) (length (TypeVariables g)))) as H.
    rewrite length_replicate in H. lia. }
  destruct (markUnbound _ _ _ _ _ _) as [has|]; [|done]. simpl in Hrun.
  destruct (renumber _ _ _ _) as [[ren n']|]; [|done]. simpl in Hrun.
  destruct (copyLive _ _ _ _ _ _ _) as [[[tvs' comps'] out]|]; [|done].
  simpl in Hrun. by simplify_eq.
Qed.

Lemma computeConnectedComponents_seeds_witness :
  ∃ r g',
    computeConnectedComponents Examples.csFree 0 [] Scenario.graph =
      Ok (r, g') ∧
    seeded Scenario.graph g'.
Proof.
  apply (computeConnectedComponents_seeds Examples.csFree 0 []
           Scenario.graph).
  apply scenario_searchable. reflexivity.
Defined.

(** ** The constraints of a node *)

(** X20: after any sequence of [addConstraint] and [removeConstraint]
    calls on the empty graph, the node of a type variable lists, each
    once and in some order, exactly the live constraints (added and not
    removed since) that reference the type variable, and a type variable
    without a node is referenced by no live constraint. *)
Theorem node_constraints_are_live calls g v :
  runCalls calls emptyGraph = Ok (tt, g) →
  match Nodes g !! v with
  | Some s =>
      NoDup (Constraints (NodePtr s)) ∧
      Constraints (NodePtr s) ≡ₚ referencing (liveConstraints calls []) v ∧
      ∀ c, c ∈ Constraints (NodePtr s) ↔
           c ∈ liveConstraints calls [] ∧ v ∈ gatherReferencedTypeVars c
  | None =>
      ∀ c, c ∈ liveConstraints calls [] → v ∉ gatherReferencedTypeVars c
  end.
Proof.
  intros Hrun.
  destruct (tracks_runCalls _ _ _ _ tracks_emptyGraph Hrun) as [Hn Ha].
  destruct (Nodes g !! v) as [s|] eqn:Hs.
  - destruct (Hn v s Hs) as (Hwf & _ & Hc & _). split_and!.
    + apply (indexed_NoDup _ _ (wf_constraints _ Hwf)).
    + done.
    + intros c. rewrite Hc. unfold referencing.
      rewrite list_elem_of_filter. naive_solver.
  - destruct (Ha v Hs) as [Hnone _]. intros c Hc Hv.
    assert (c ∈ referencing (liveConstraints calls []) v) as Hin
      by (apply list_elem_of_filter; done).
    rewrite Hnone in Hin. by apply elem_of_nil in Hin.
Qed.

Lemma node_constraints_are_live_witness :
  match Nodes Scenario.graph !! 1 with
  | Some s =>
      NoDup (Constraints (NodePtr s)) ∧
      Constraints (NodePtr s) ≡ₚ
        referencing (liveConstraints Scenario.calls []) 1 ∧
      ∀ c, c ∈ Constraints (NodePtr s) ↔
           c ∈ liveConstraints Scenario.calls [] ∧
           1 ∈ gatherReferencedTypeVars c
  | None =>
      ∀ c, c ∈ liveConstraints Scenario.calls [] →
           1 ∉ gatherReferencedTypeVars c
  end.
Proof.
  apply (node_constraints_are_live Scenario.calls Scenario.graph 1).
  vm_compute. reflexivity.
Defined.

(** ** Scopes within scopes *)

Lemma accountedBy_withScope log g g' sc :
  accountedBy log g g' →
  accountedBy log (withScope sc g) (withScope sc g').
Proof.
  intros [[Hwf Hsc Hch Htv Hdom Hidx Hnew] Hcons Hcnt Hflag Hcls].
  split; [split|..]; try done.
Qed.

(** Closing a scope leaves nothing to account for. *)
Lemma closeScope_accounted CS fuel S scope g0 g1 log :
  openScope S = Ok (scope, g0) → accountedBy log g0 g1 →
  ∃ g2, closeScope CS fuel scope g1 = Ok (tt, g2) ∧ accountedBy [] S g2.
Proof.
  intros Hopen Hacc. unfold openScope in Hopen. simplify_eq.
  set (scope := MkScope (ActiveScope S) (length (Changes S))) in *.
  set (g0 := MkGraph (Nodes S) (TypeVariables S) (Changes S) (Some scope))
    in *.
  pose proof (fr_changes _ _ _ (acc_framed _ _ _ Hacc)) as Hch.
  simpl in Hch.
  destruct (undoChanges_accounted CS fuel log (length (Changes g1)) g0 g1
              Hacc) as (g' & Hundo & _ & Hacc').
  { rewrite Hch, length_app. lia. }
  exists (withScope (ActiveScope S) g'). split.
  - unfold closeScope. simpl.
    rewrite decide_True by (rewrite Hch, length_app; lia).
    apply bind_Ok. exists tt, g'. done.
  - apply (accountedBy_withScope _ _ _ (ActiveScope S)) in Hacc'.
    unfold withScope at 1 in Hacc'. simpl in Hacc'.
    by rewrite graph_eta in Hacc'.
Qed.

Lemma runStep_scope CS fuel body :
  runStep (StepScope CS fuel body) =
    (scope <- openScope ;; runSteps body ;; closeScope CS fuel scope).
Proof.
  assert (∀ l, (fix each (l : list Step) : M unit :=
                  match l with
                  | [] => ret tt
                  | s' :: l' => runStep s' ;; each l'
                  end) l = runSteps l) as Heach.
  { induction l as [|s l IH]; simpl; [done|]. by rewrite IH. }
  simpl. by rewrite Heach.
Qed.

Lemma accounts_runStep : ∀ s, preserves accounts (runStep s).
Proof.
  fix IH 1. intros [call|CS fuel body].
  - apply accounts_mutate.
  - assert (preserves accounts (runSteps body)) as Hbody.
    { unfold runSteps. induction body as [|s body IHb]; simpl.
      - apply preserves_ret, _.
      - apply preserves_bind; [apply _|apply IH|]. intros _. apply IHb. }
    rewrite runStep_scope.
    intros g u g' Hrun Hwf Hsc.
    apply bind_Ok in Hrun as (scope & g0 & Hopen & Hrun).
    apply bind_Ok in Hrun as ([] & g1 & Hrun & Hclose).
    destruct (Hbody _ _ _ Hrun) as (log & Hacc).
    { unfold openScope in Hopen. by simplify_eq. }
    { unfold openScope in Hopen. by simplify_eq. }
    destruct (closeScope_accounted CS fuel g scope g0 g1 log Hopen Hacc)
      as (g2 & Hclose' & Hacc').
    exists []. congruence.
Qed.

(** X21: scopes nest.  For every well-formed graph and every sequence of
    mutations and of scopes opened and closed in turn, to any depth, that
    returns while a scope opened at that graph is active, closing the
    scope returns and leaves the vector of type variables, the change
    log and the active scope as they were before the scope was opened,
    and the same nodes at the same positions, each with the same
    constraints, adjacency counts, fixed-binding flags and equivalence
    class; the graph in which the scope is closed is well formed. *)
Theorem closeScope_restores_nested CS fuel S scope g0 steps g1 :
  wfGraph S →
  openScope S = Ok (scope, g0) →
  runSteps steps g0 = Ok (tt, g1) →
  wfGraph g1 ∧
  ∃ g2, closeScope CS fuel scope g1 = Ok (tt, g2) ∧ restored S g2.
Proof.
  intros Hwf Hopen Hrun.
  assert (preserves accounts (runSteps steps)) as Hsteps.
  { apply preserves_forEach; [apply _|]. intros s _.
    apply accounts_runStep. }
  destruct (Hsteps _ _ _ Hrun) as (log & Hacc).
  { unfold openScope in Hopen. by simplify_eq. }
  { unfold openScope in Hopen. by simplify_eq. }
  split; [apply (fr_wf _ _ _ (acc_framed _ _ _ Hacc))|].
  destruct (closeScope_accounted CS fuel S scope g0 g1 log Hopen Hacc)
    as (g2 & Hclose & Hacc').
  exists g2. split; [done|]. by apply accountedBy_restored.
Qed.

Lemma closeScope_restores_nested_witness :
  wfGraph Nesting.mutated ∧
  ∃ g2,
    closeScope Examples.csFree 0 Rollback.scope Nesting.mutated =
      Ok (tt, g2) ∧
    restored Examples.g01 g2.
Proof.
  apply (closeScope_restores_nested Examples.csFree 0 Examples.g01
           Rollback.scope Examples.g01scoped Nesting.steps Nesting.mutated).
  - apply wfGraph_g01.
  - by vm_compute.
  - by vm_compute.
Defined.

(** ** Creating a node and removing it again *)

(** X22: for a type variable that has no node, is its own representative
    and has no fixed type mentioning type variables, [lookupNode]
    followed by [removeNode] returns and gives back exactly the graph as
    it was, except that the [AddedTypeVariable] record stays in the log
    when a scope is active. *)
Theorem lookupNode_removeNode CS fuel v g :
  Nodes g !! v = None → createsQuietly CS v →
  (_ <- lookupNode CS (S fuel) v ;; removeNode v) g =
    Ok (tt, MkGraph (Nodes g) (TypeVariables g)
              (Changes g ++
                 match ActiveScope g with
                 | Some _ => [AddedTypeVariable v]
                 | None => []
                 end)
              (ActiveScope g)).
Proof.
  intros Hnone Hq. unfold bind at 1. rewrite lookupNode_S_None by done.
  unfold bind at 1. rewrite afterNewNode_quiet by done.
  unfold withNode, withNewNode, removeNode. simpl.
  rewrite lookup_insert_eq. simpl. rewrite lookup_insert_eq. simpl.
  rewrite insert_insert_eq.
  destruct (TypeVariables g ++ [v]) as [|x l] eqn:Hl.
  { by destruct (TypeVariables g). }
  rewrite <-Hl. rewrite length_app. simpl.
  rewrite decide_False by lia.
  f_equal. f_equal. f_equal.
  - by apply delete_insert_id.
  - unfold pop_back. rewrite length_app. simpl.
    replace (length (TypeVariables g) + 1 - 1)
      with (length (TypeVariables g)) by lia.
    by rewrite take_app_length.
Qed.

Lemma lookupNode_removeNode_witness :
  (_ <- lookupNode Examples.csFree 1 5 ;; removeNode 5) Examples.g01scoped =
    Ok (tt, MkGraph (Nodes Examples.g01scoped)
              (TypeVariables Examples.g01scoped)
              (Changes Examples.g01scoped ++
                 match ActiveScope Examples.g01scoped with
                 | Some _ => [AddedTypeVariable 5]
                 | None => []
                 end)
              (ActiveScope Examples.g01scoped)).
Proof.
  apply (lookupNode_removeNode Examples.csFree 0 5 Examples.g01scoped).
  - reflexivity.
  - split; [reflexivity|]. intros fixed Hf. by vm_compute in Hf.
Defined.

(** ** The order of the referenced type variables *)

Lemma removeKnown_first_occurrence known l i x :
  removeKnown known l !! i = Some x →
  ∃ p, l !! p = Some x ∧ x ∉ take p l ∧ x ∉ known ∧
       ∀ y, y ∈ take i (removeKnown known l) ↔ y ∈ take p l ∧ y ∉ known.
Proof.
  revert known i. induction l as [|x0 l IH]; intros known i Hi; [done|].
  simpl in Hi. destruct (decide (x0 ∈ known)) as [Hk|Hk].
  - destruct (IH known i Hi) as (p & Hp & Hfirst & Hx & Hbefore).
    exists (S p). split; [done|]. simpl. rewrite decide_True by done.
    split; [set_solver|]. split; [done|]. intros y. rewrite Hbefore.
    set_solver.
  - destruct i as [|i]; simpl in Hi.
    + simplify_eq. exists 0. simpl. rewrite decide_False by done.
      set_solver.
    + destruct (IH _ i Hi) as (p & Hp & Hfirst & Hx & Hbefore).
      exists (S p). split; [done|]. simpl. rewrite decide_False by done.
      split; [set_solver|]. split; [set_solver|]. intros y. simpl.
      rewrite elem_of_cons, Hbefore.
      destruct (decide (y = x0)) as [->|]; set_solver.
Qed.

(** X3: [gatherReferencedTypeVars] returns every type variable that the
    recursive walk over the constraint collects, each one once, in the
    order of their first occurrence: the type variable at a position of
    the result is found in the walk at its first occurrence there, and
    the type variables before it in the result are exactly those that
    occur in the walk before that occurrence.  The walk only appends to
    the vector it is given; and for a conjunction or a disjunction the
    type variables are those of the nested constraints, the types of the
    constraint itself being ignored. *)
Theorem gatherReferencedTypeVars_unique c :
  NoDup (gatherReferencedTypeVars c) ∧
  gatherReferencedTypeVars c `sublist_of` gatherReferencedTypeVarsRec c [] ∧
  (∀ v, v ∈ gatherReferencedTypeVars c ↔
        v ∈ gatherReferencedTypeVarsRec c []) ∧
  (∀ i x, gatherReferencedTypeVars c !! i = Some x →
     ∃ p, gatherReferencedTypeVarsRec c [] !! p = Some x ∧
          x ∉ take p (gatherReferencedTypeVarsRec c []) ∧
          ∀ y, y ∈ take i (gatherReferencedTypeVars c) ↔
               y ∈ take p (gatherReferencedTypeVarsRec c [])) ∧
  (∀ typeVars, gatherReferencedTypeVarsRec c typeVars =
               typeVars ++ gatherReferencedTypeVarsRec c []) ∧
  (getKind c = Conjunction ∨ getKind c = Disjunction →
   ∀ v, v ∈ gatherReferencedTypeVars c ↔
        ∃ n, n ∈ getNestedConstraints c ∧ v ∈ gatherReferencedTypeVars n).
Proof.
  assert (∀ c v, v ∈ gatherReferencedTypeVars c ↔
                 v ∈ gatherReferencedTypeVarsRec c []) as Hin.
  { intros c' v. unfold gatherReferencedTypeVars.
    rewrite (proj2 (removeKnown_spec ∅ _)). set_solver. }
  split_and!.
  - apply removeKnown_spec.
  - apply removeKnown_sublist.
  - apply Hin.
  - intros i x Hi.
    destruct (removeKnown_first_occurrence ∅ _ i x Hi)
      as (p & Hp & Hfirst & _ & Hbefore).
    exists p. split; [done|]. split; [done|]. intros y.
    unfold gatherReferencedTypeVars. rewrite Hbefore. set_solver.
  - apply gatherReferencedTypeVarsRec_app.
  - intros Hk v. rewrite Hin, gatherReferencedTypeVarsRec_nested by done.
    rewrite elem_of_flat_map. by setoid_rewrite Hin.
Qed.

(** ** Removing the node added last *)




(** ** The registry in the states the graph reaches *)

Lemma accountedBy_nil_registryAgrees g g' :
  accountedBy [] g g' → registryAgrees g → registryAgrees g'.
Proof.
  intros [[_ _ _ Htv Hdom Hidx _] _ _ _ _] [Hlen Hall].
  simpl in Htv, Hdom. rewrite app_nil_r in Htv. injection Hdom as Hdom.
  split.
  - rewrite Htv, Hlen, <-!size_dom. by rewrite Hdom.
  - intros v s' Hs'. simpl. rewrite Htv.
    assert (is_Some (Nodes g !! v)) as [s Hs].
    { apply elem_of_dom. rewrite Hdom. apply elem_of_dom. eauto. }
    destruct (Hidx v s Hs) as (s'' & Hs'' & Hi). simplify_eq.
    rewrite Hi. apply (Hall v s Hs).
Qed.

Lemma runStep_keeps_agreement s g g' :
  runStep s g = Ok (tt, g') →
  wfGraph g → registryAgrees g → wfGraph g' ∧ registryAgrees g'.
Proof.
  destruct s as [call|CS fuel body]; intros Hrun Hwf Hag.
  - split.
    + by eapply (wfKept_mutate call).
    + by eapply (framed_registry _ _ (framed_mutate call _ _ _ Hrun)).
  - rewrite runStep_scope in Hrun.
    apply bind_Ok in Hrun as (scope & g0 & Hopen & Hrun).
    apply bind_Ok in Hrun as ([] & g1 & Hrun & Hclose).
    assert (preserves accounts (runSteps body)) as Hbody.
    { apply preserves_forEach; [apply _|]. intros s _.
      apply accounts_runStep. }
    destruct (Hbody _ _ _ Hrun) as (log & Hacc).
    { unfold openScope in Hopen. by simplify_eq. }
    { unfold openScope in Hopen. by simplify_eq. }
    destruct (closeScope_accounted CS fuel g scope g0 g1 log Hopen Hacc)
      as (g2 & Hclose' & Hacc').
    assert (g2 = g') as -> by congruence.
    split; [apply (fr_wf _ _ _ (acc_framed _ _ _ Hacc'))|].
    by eapply accountedBy_nil_registryAgrees.
Qed.

(** X23: in every state that mutations ([addConstraint],
    [removeConstraint], [mergeNodes], [bindTypeVariable], [lookupNode])
    and scopes, opened and closed in turn to any depth, reach from the
    empty graph, the registry and the vector of type variables agree and
    every node is well formed: the undoing of a scope, the one caller of
    [removeNode], only ever leaves them in agreement. *)
Theorem runSteps_registryAgrees steps g :
  runSteps steps emptyGraph = Ok (tt, g) →
  registryAgrees g ∧ wfGraph g.
Proof.
  assert (∀ g0, wfGraph g0 → registryAgrees g0 →
            runSteps steps g0 = Ok (tt, g) →
            registryAgrees g ∧ wfGraph g) as Hgen.
  { unfold runSteps. induction steps as [|s steps IH];
      intros g0 Hwf Hag Hrun; simpl in Hrun.
    - assert (g0 = g) as <- by (by injection Hrun). done.
    - apply bind_Ok in Hrun as ([] & g1 & Hstep & Hrun).
      destruct (runStep_keeps_agreement s g0 g1 Hstep Hwf Hag).
      by eapply IH. }
  apply Hgen.
  - intros v s Hs. unfold emptyGraph in Hs. simpl in Hs.
    by rewrite lookup_empty in Hs.
  - split; [done|]. intros v s Hs. unfold emptyGraph in Hs. simpl in Hs.
    by rewrite lookup_empty in Hs.
Qed.

Lemma runSteps_registryAgrees_witness :
  registryAgrees Reached.graph ∧ wfGraph Reached.graph.
Proof.
  apply (runSteps_registryAgrees Reached.steps Reached.graph).
  by vm_compute.
Defined.

(** ** Gathering from a class *)





(** ** Adding and removing a constraint when nodes merge on creation *)


Lemma sameButClass_sym n n' : sameButClass n n' → sameButClass n' n.
Proof. intros (? & ? & ? & ? & ?). by split_and!. Qed.

Lemma sameButClass_trans n1 n2 n3 :
  sameButClass n1 n2 → sameButClass n2 n3 → sameButClass n1 n3.
Proof.
  intros (? & ? & ? & ? & ?) (? & ? & ? & ? & ?).
  unfold sameButClass. split_and!; congruence.
Qed.









Global Instance keptButClass_preorder : PreOrder keptButClass.
Proof.
  split.
  - intros g. split.
    + intros v s Hs. by exists s.
    + intros v s' Hs'. unfold nodeOr. by rewrite Hs'.
  - intros g g1 g2 [Hk1 Hs1] [Hk2 Hs2]. split.
    + intros v s Hs. destruct (Hk1 v s Hs) as (s1 & Hv1 & <-).
      destruct (Hk2 v s1 Hv1) as (s2 & Hv2 & <-). eauto.
    + intros v s2 Hv2. eapply sameButClass_trans; [|by apply Hs2].
      unfold nodeOr at 2. destruct (Nodes g1 !! v) as [s1|] eqn:Hv1.
      * by apply Hs1.
      * unfold nodeOr. destruct (Nodes g !! v) as [s|] eqn:Hv; [|done].
        destruct (Hk1 v s Hv) as (? & ? & _). congruence.
Qed.

Lemma keptButClass_nodes g g' h' :
  Nodes h' = Nodes g' → keptButClass g g' → keptButClass g h'.
Proof. intros Hn [Hk Hs]. split; rewrite Hn; done. Qed.










